(** * Listing scraper: a shallow embedding of [app/listing_scraper.py]

    The development follows the Python module top to bottom: the text
    primitives the module takes from [str], the URL helpers it takes from
    [urllib.parse], the document tree ([_DOMNode]), the heuristic section
    extractors, the streamed-payload scanner, the FAQ reconciler and the
    fetch orchestrator.

    Text.  A Python [str] is modelled as a list of 8-bit characters, read
    as the code points U+0000..U+00FF; text outside that range is not
    covered by the model. Where the program would build such text from
    a page inside the range (a [\uXXXX] escape of a JSON string), the
    model ends the run with [BeyondLatin1].

    Numbers.  An [int] is an integer and a [float] a binary64 number.
    Inside [json] the limits of the interpreter (the digits of an
    integer, the depth of the nesting) are not part of the model. *)

From Stdlib Require Import Ascii String.
From Stdlib Require Import List Arith Bool ZArith QArith Qround Lia.
From Stdlib Require SpecFloat.
Import ListNotations.

Set Implicit Arguments.
Set Warnings "-register-all".
Open Scope list_scope.
Open Scope nat_scope.

(* ================================================================== *)
(** ** Python text primitives *)
(* ================================================================== *)

Module Py.

Definition str := list ascii.

Notation "$ s" := (list_ascii_of_string s%string) (at level 1, format "$ s").

Definition code (c : ascii) : nat := nat_of_ascii c.

Definition chr_eqb (a b : ascii) : bool := Ascii.eqb a b.

Fixpoint str_eqb (a b : str) : bool :=
  match a, b with
  | [], [] => true
  | x :: a', y :: b' => chr_eqb x y && str_eqb a' b'
  | _, _ => false
  end.

(** [x in l] for a list or set of strings. *)
Definition mem (x : str) (l : list str) : bool := existsb (str_eqb x) l.

(** Truthiness of a string: [bool(s)]. *)
Definition truthy (s : str) : bool :=
  match s with [] => false | _ => true end.

(** Truthiness of [str | None]. *)
Definition otruthy (s : option str) : bool :=
  match s with Some (_ :: _) => true | _ => false end.

(** [str.isspace] on one character (Latin-1 range). *)
Definition isspace (c : ascii) : bool :=
  let n := code c in
  ((9 <=? n) && (n <=? 13)) || ((28 <=? n) && (n <=? 32))
  || (n =? 133) || (n =? 160).

Definition isdigit (c : ascii) : bool :=
  let n := code c in (48 <=? n) && (n <=? 57).

(** [str.lower] on one character (Latin-1 range). *)
Definition lower_chr (c : ascii) : ascii :=
  let n := code c in
  if ((65 <=? n) && (n <=? 90))
     || ((192 <=? n) && (n <=? 222) && negb (n =? 215))
  then ascii_of_nat (n + 32) else c.

Definition lower (s : str) : str := map lower_chr s.

Fixpoint dropwhile (p : ascii -> bool) (s : str) : str :=
  match s with
  | [] => []
  | c :: s' => if p c then dropwhile p s' else s
  end.

Definition lstrip_by (p : ascii -> bool) (s : str) : str := dropwhile p s.
Definition rstrip_by (p : ascii -> bool) (s : str) : str :=
  rev (dropwhile p (rev s)).
Definition strip_by (p : ascii -> bool) (s : str) : str :=
  rstrip_by p (lstrip_by p s).

(** [s.strip()] and [s.strip(chars)], [s.lstrip(chars)]. *)
Definition strip (s : str) : str := strip_by isspace s.
Definition in_chars (chars : str) (c : ascii) : bool := existsb (chr_eqb c) chars.
Definition strip_chars (chars s : str) : str := strip_by (in_chars chars) s.
Definition lstrip_chars (chars s : str) : str := lstrip_by (in_chars chars) s.

(** [s.split()]: maximal runs of non-whitespace. [cur] is the run being
    read, most recent character first. *)
Fixpoint split_ws_go (cur : str) (s : str) : list str :=
  match s with
  | [] => match cur with [] => [] | _ => [rev cur] end
  | c :: s' =>
      if isspace c
      then match cur with
           | [] => split_ws_go [] s'
           | _ => rev cur :: split_ws_go [] s'
           end
      else split_ws_go (c :: cur) s'
  end.

Definition split_ws (s : str) : list str := split_ws_go [] s.

(** [sep.join(parts)]. *)
Fixpoint join (sep : str) (parts : list str) : str :=
  match parts with
  | [] => []
  | [p] => p
  | p :: rest => p ++ sep ++ join sep rest
  end.

(** [" ".join(s.split())]. *)
Definition squeeze (s : str) : str := join $" " (split_ws s).

(** [s.startswith(p)]. *)
Fixpoint startswith (s p : str) {struct p} : bool :=
  match p, s with
  | [], _ => true
  | x :: p', y :: s' => chr_eqb x y && startswith s' p'
  | _ :: _, [] => false
  end.

(** [s.find(sub, start)]; [None] stands for -1. *)
Fixpoint find_go (sub s : str) (i : nat) : option nat :=
  if startswith s sub then Some i
  else match s with
       | [] => None
       | _ :: s' => find_go sub s' (S i)
       end.

Definition find (s sub : str) (start : nat) : option nat :=
  if length s <? start then None else find_go sub (skipn start s) start.

(** [sub in s]. *)
Definition contains (s sub : str) : bool :=
  match find s sub 0 with Some _ => true | None => false end.

(** [s.rfind(c)] for a one-character needle. *)
Fixpoint rfind_chr_go (c : ascii) (s : str) (i : nat) (last : option nat)
  : option nat :=
  match s with
  | [] => last
  | x :: s' => rfind_chr_go c s' (S i) (if chr_eqb x c then Some i else last)
  end.

Definition rfind_chr (s : str) (c : ascii) : option nat :=
  rfind_chr_go c s 0 None.

(** [s.split(c)] for a one-character separator: empty pieces are kept. *)
Fixpoint split_chr (c : ascii) (s : str) : list str :=
  match s with
  | [] => [[]]
  | x :: s' =>
      if chr_eqb x c then [] :: split_chr c s'
      else match split_chr c s' with
           | w :: ws => (x :: w) :: ws
           | [] => [[x]]
           end
  end.

(** [s.split(c, 1)]: the text before the first [c] and the text after
    it, or [None] when [c] does not occur (Python then returns [[s]]). *)
Fixpoint split_once (c : ascii) (s : str) : option (str * str) :=
  match s with
  | [] => None
  | x :: s' =>
      if chr_eqb x c then Some ([], s')
      else match split_once c s' with
           | Some (a, b) => Some (x :: a, b)
           | None => None
           end
  end.

(** [s.replace(c, "")] for a one-character [c]. *)
Definition remove_chr (c : ascii) (s : str) : str :=
  filter (fun x => negb (chr_eqb x c)) s.

(** [s[i:j]], [s[i:]], [s[:j]] for non-negative bounds. *)
Definition slice (s : str) (i j : nat) : str := firstn (j - i) (skipn i s).
Definition slice_from (s : str) (i : nat) : str := skipn i s.
Definition slice_to (s : str) (j : nat) : str := firstn j s.

(** The segments of a path: [[seg for seg in p.strip("/").split("/") if seg]]. *)
Definition path_segments (p : str) : list str :=
  filter truthy (split_chr "/" (strip_chars $"/" p)).

(** Keep the first occurrence of every string, in order. [seen] is the
    set of strings already met. *)
Fixpoint dedup_go (seen : list str) (l : list str) : list str :=
  match l with
  | [] => []
  | x :: l' => if mem x seen then dedup_go seen l' else x :: dedup_go (x :: seen) l'
  end.

Definition dedup (l : list str) : list str := dedup_go [] l.

End Py.

Import Py.

(* ================================================================== *)
(** ** The document tree *)
(* ================================================================== *)

(** [_DOMNode]: tag, attribute dictionary, children and text fragments.
    The [parent] slot is carried by the [located] values below. A
    dictionary with string keys is kept as an association list whose first
    binding of a key is the one in force. *)
Inductive _DOMNode : Type :=
  DOMNode { tag : str;
            attrs : list (str * str);
            children : list _DOMNode;
            text_parts : list str }.

Definition attrs_get (a : list (str * str)) (k dflt : str) : str :=
  match List.find (fun kv => str_eqb (fst kv) k) a with
  | Some kv => snd kv
  | None => dflt
  end.

(** A node together with its chain of parents, nearest first; [(i, p)] at
    the head says the node is child number [i] of [p]. Two located nodes
    of one tree are the same object exactly when they have equal chains
    of child numbers. *)
Record located : Type :=
  Loc { node_of : _DOMNode; up : list (nat * _DOMNode) }.

Definition parent (x : located) : option located :=
  match up x with
  | [] => None
  | (_, p) :: rest => Some (Loc p rest)
  end.

Definition child_index (x : located) : option nat :=
  match up x with
  | [] => None
  | (i, _) :: _ => Some i
  end.

(** The children of a located node, each with its own chain. *)
Fixpoint locate_from (i : nat) (p : _DOMNode) (chain : list (nat * _DOMNode))
    (cs : list _DOMNode) : list located :=
  match cs with
  | [] => []
  | c :: cs' => Loc c ((i, p) :: chain) :: locate_from (S i) p chain cs'
  end.

Definition located_children (x : located) : list located :=
  locate_from 0 (node_of x) (up x) (children (node_of x)).

Fixpoint size (n : _DOMNode) : nat :=
  S (list_sum (map size (children n))).

Definition forest_size (l : list _DOMNode) : nat := list_sum (map size l).

(** [tags is None or node.tag in tags]. *)
Definition tag_ok (tags : option (list str)) (n : _DOMNode) : bool :=
  match tags with
  | None => true
  | Some ts => mem (tag n) ts
  end.

(** [list.pop()]: the last element and the list without it. *)
Fixpoint pop {A} (l : list A) : option (A * list A) :=
  match l with
  | [] => None
  | [x] => Some (x, [])
  | x :: l' => match pop l' with
               | Some (y, r) => Some (y, x :: r)
               | None => None
               end
  end.

(** [_DOMNode.iter_descendants]: the [while stack] loop. Each round pops
    one node, so [fuel] bounds the rounds by the number of nodes below the
    start. *)
Fixpoint iter_descendants_loop (fuel : nat) (tags : option (list str))
    (stack : list _DOMNode) : list _DOMNode :=
  match fuel with
  | 0 => []
  | S fuel' =>
      match pop stack with
      | None => []
      | Some (node, stack') =>
          (if tag_ok tags node then [node] else [])
          ++ iter_descendants_loop fuel' tags (stack' ++ children node)
      end
  end.

Definition iter_descendants (self : _DOMNode) (tags : option (list str))
  : list _DOMNode :=
  iter_descendants_loop (forest_size (children self)) tags (children self).

(** The same loop over located nodes, for callers that go on to read
    [node.parent]. *)
Fixpoint iter_descendants_loc_loop (fuel : nat) (tags : option (list str))
    (stack : list located) : list located :=
  match fuel with
  | 0 => []
  | S fuel' =>
      match pop stack with
      | None => []
      | Some (x, stack') =>
          (if tag_ok tags (node_of x) then [x] else [])
          ++ iter_descendants_loc_loop fuel' tags (stack' ++ located_children x)
      end
  end.

Definition iter_descendants_loc (self : located) (tags : option (list str))
  : list located :=
  iter_descendants_loc_loop (forest_size (children (node_of self))) tags
    (located_children self).

(** [_DOMNode.find_ancestor]. *)
Fixpoint find_ancestor_up (chain : list (nat * _DOMNode)) (tags : list str)
  : option located :=
  match chain with
  | [] => None
  | (_, p) :: rest =>
      if mem (tag p) tags then Some (Loc p rest) else find_ancestor_up rest tags
  end.

Definition find_ancestor (self : located) (tags : list str) : option located :=
  find_ancestor_up (up self) tags.

(** [_DOMNode.get_text]: [_collect] walks the subtree parent first. *)
Fixpoint _collect (n : _DOMNode) : list str :=
  text_parts n ++ flat_map _collect (children n).

Definition get_text (self : _DOMNode) : str :=
  strip (squeeze (join $" " (_collect self))).

(** [_iter_dom_descendants]: each child, then that child's descendants. *)
Fixpoint _iter_dom_descendants_of (n : _DOMNode) : list _DOMNode :=
  n :: flat_map _iter_dom_descendants_of (children n).

Definition _iter_dom_descendants (node : _DOMNode) : list _DOMNode :=
  flat_map _iter_dom_descendants_of (children node).

(** [_DOMTreeBuilder]: the tree under the synthetic [_root] node.
    [_by_tag] records every node when its start tag is read, so
    [iter_tag] lists the nodes of one tag in the order of their start
    tags, parents before children and earlier siblings first. *)
Record _DOMTreeBuilder : Type := Builder { root : _DOMNode }.

Fixpoint located_subtree (n : _DOMNode) (chain : list (nat * _DOMNode))
    {struct n} : list located :=
  Loc n chain
  :: (fix below (i : nat) (cs : list _DOMNode) {struct cs} : list located :=
        match cs with
        | [] => []
        | c :: cs' => located_subtree c ((i, n) :: chain) ++ below (S i) cs'
        end) 0 (children n).

(** Every node below the root, in the order of the start tags. *)
Definition document_order (b : _DOMTreeBuilder) : list located :=
  tl (located_subtree (root b) []).

Definition iter_tag (b : _DOMTreeBuilder) (t : str) : list located :=
  filter (fun x => str_eqb (tag (node_of x)) (lower t)) (document_order b).

(* ================================================================== *)
(** ** Heuristic section extractors: features and pricing options *)
(* ================================================================== *)

Definition container_tags : list str := [$"section"; $"article"; $"div"].

(** [heading_node.find_ancestor({...}) or heading_node]. *)
Definition container_for (heading_node : located) : located :=
  match find_ancestor heading_node container_tags with
  | Some c => c
  | None => heading_node
  end.

(** The two harvesting loops of [_extract_dom_features]: append every
    non-empty text not yet in the list and leave the loop once the list
    holds [limit] texts. *)
Fixpoint harvest_texts (limit : nat) (acc : list str) (nodes : list _DOMNode)
  : list str :=
  match nodes with
  | [] => acc
  | n :: rest =>
      let text := get_text n in
      if truthy text && negb (mem text acc)
      then let acc' := acc ++ [text] in
           if limit <=? length acc' then acc' else harvest_texts limit acc' rest
      else harvest_texts limit acc rest
  end.

Record feature_section : Type :=
  FeatureSection { fs_heading : str; fs_items : list str; fs_paragraphs : list str }.

Definition feature_items (container : _DOMNode) : list str :=
  harvest_texts 12 [] (iter_descendants container (Some [$"li"])).

Definition feature_paragraphs (container : _DOMNode) : list str :=
  harvest_texts 6 [] (iter_descendants container (Some [$"p"])).

Fixpoint features_loop (headings : list located) (seen : list str)
    (feature_sections : list feature_section) : list feature_section :=
  match headings with
  | [] => feature_sections
  | heading_node :: rest =>
      let heading_text := get_text (node_of heading_node) in
      if negb (truthy heading_text)
         || negb (contains (lower heading_text) $"feature")
      then features_loop rest seen feature_sections
      else
        let container := node_of (container_for heading_node) in
        let list_items := feature_items container in
        let paragraphs := feature_paragraphs container in
        let fingerprint :=
          join $"|" list_items ++ $"::" ++ join $"|" paragraphs in
        if mem fingerprint seen
        then features_loop rest seen feature_sections
        else features_loop rest (fingerprint :: seen)
               (feature_sections
                  ++ [FeatureSection (strip heading_text) list_items paragraphs])
  end.

Definition _extract_dom_features (builder : option _DOMTreeBuilder)
  : list feature_section :=
  match builder with
  | None => []
  | Some b => firstn 4 (features_loop (iter_tag b $"h2") [] [])
  end.

(** [_extract_pricing_options]. *)
Fixpoint pricing_loop (nodes : list located) (seen : list str)
    (options : list str) : list str :=
  match nodes with
  | [] => options
  | node :: rest =>
      let role := lower (attrs_get (attrs (node_of node)) $"role" []) in
      if negb (str_eqb role $"radio") then pricing_loop rest seen options
      else
        let text := get_text (node_of node) in
        if negb (truthy text) then pricing_loop rest seen options
        else
          let normalized := squeeze text in
          if negb (truthy normalized) || mem normalized seen
          then pricing_loop rest seen options
          else pricing_loop rest (normalized :: seen) (options ++ [normalized])
  end.

Definition _extract_pricing_options (builder : option _DOMTreeBuilder)
  : list str :=
  match builder with
  | None => []
  | Some b => pricing_loop (iter_tag b $"div") [] []
  end.

(** *** Reference orders and reference extractors

    These definitions are what the extractors are compared with. *)

(** Depth first, parent first, last child's subtree first. *)
Fixpoint mirror_order (n : _DOMNode) : list _DOMNode :=
  n :: (fix forest (cs : list _DOMNode) : list _DOMNode :=
          match cs with
          | [] => []
          | c :: cs' => forest cs' ++ mirror_order c
          end) (children n).

Definition mirror_forest (l : list _DOMNode) : list _DOMNode :=
  flat_map mirror_order (rev l).

(** The role attribute of a node, as the pricing extractor reads it. *)
Definition role_of (x : located) : str := attrs_get (attrs (node_of x)) $"role" [].

Definition pricing_text (x : located) : str := squeeze (get_text (node_of x)).

(** A [div] the pricing extractor keeps: role "radio" in any letter case
    and a text that is not empty. *)
Definition radio_any_case (x : located) : bool :=
  str_eqb (lower (role_of x)) $"radio"
  && truthy (get_text (node_of x)) && truthy (pricing_text x).

(** The pricing options as the specification words them: the [div]
    nodes whose role attribute is exactly "radio". *)
Definition radio_exact (x : located) : bool :=
  str_eqb (role_of x) $"radio"
  && truthy (get_text (node_of x)) && truthy (pricing_text x).

Definition pricing_options_spec (builder : option _DOMTreeBuilder) : list str :=
  match builder with
  | None => []
  | Some b => dedup (map pricing_text (filter radio_exact (iter_tag b $"div")))
  end.

(** *** Sample documents *)

Definition leaf (t : string) (a : list (str * str)) (txt : string) : _DOMNode :=
  DOMNode $t a [] [ $txt ].

Definition elem (t : string) (a : list (str * str)) (cs : list _DOMNode)
  : _DOMNode :=
  DOMNode $t a cs [].

Definition document (body : list _DOMNode) : _DOMTreeBuilder :=
  Builder (DOMNode $"_root" [] body []).

(** <div><h2>Key Features</h2>
    <ul><li>one</li><li>two</li><li>three</li></ul>
    <p>first</p><p>second</p></div> *)
Definition features_list : _DOMNode :=
  elem "ul" [] [leaf "li" [] "one"; leaf "li" [] "two"; leaf "li" [] "three"].

Definition features_container : _DOMNode :=
  elem "div" [] [leaf "h2" [] "Key Features"; features_list;
                 leaf "p" [] "first"; leaf "p" [] "second"].

Definition features_doc : _DOMTreeBuilder := document [features_container].

(** <div role="RADIO">Monthly</div><div role="radio">Yearly</div> *)
Definition pricing_doc : _DOMTreeBuilder :=
  document [leaf "div" [($"role", $"RADIO")] "Monthly";
            leaf "div" [($"role", $"radio")] "Yearly"].

(** ** Document order *)

Fixpoint located_forest (i : nat) (p : _DOMNode) (chain : list (nat * _DOMNode))
    (cs : list _DOMNode) : list located :=
  match cs with
  | [] => []
  | c :: cs' => located_subtree c ((i, p) :: chain) ++ located_forest (S i) p chain cs'
  end.

(* ================================================================== *)
(** ** Heuristic section extractors: FAQs *)
(* ================================================================== *)

Definition FAQ_QUESTION_TAGS : list str :=
  [$"h3"; $"h4"; $"summary"; $"button"; $"dt"].
Definition FAQ_ANSWER_TAGS : list str :=
  [$"p"; $"div"; $"span"; $"li"; $"dd"; $"ul"; $"ol"; $"section"; $"article";
   $"blockquote"].
Definition FAQ_ANSWER_FALLBACK_MIN_LEN : nat := 24.
Definition FAQ_ENTRY_LIMIT : nat := 12.

Definition newline : ascii := ascii_of_nat 10.
Definition tab : ascii := ascii_of_nat 9.

(** [{"question": ..., "answer": ...}] and [{"heading": ..., "entries": ...}]. *)
Record faq_entry : Type := FaqEntry { question : str; answer : option str }.
Record faq_section : Type :=
  FaqSection { heading : str; entries : list faq_entry }.

(** [s or None]. *)
Definition or_none (s : str) : option str :=
  match s with [] => None | _ => Some s end.

(** [s or ""] for [s : str | None]. *)
Definition or_empty (s : option str) : str :=
  match s with Some t => t | None => [] end.

Definition pair_eqb (a b : str * str) : bool :=
  str_eqb (fst a) (fst b) && str_eqb (snd a) (snd b).

Definition mem_pair (x : str * str) (l : list (str * str)) : bool :=
  existsb (pair_eqb x) l.

(** The variables the walk over one container shares with [_flush_entry]. *)
Record faq_walk : Type :=
  FaqWalk { w_entries : list faq_entry;
            section_fingerprints : list (str * str);
            current_question_text : option str;
            current_answers : list str;
            current_answer_seen : list str }.

Definition faq_walk_start : faq_walk := FaqWalk [] [] None [] [].

Definition _flush_entry (w : faq_walk) : faq_walk :=
  match current_question_text w with
  | Some (c :: q) =>
      let answer_text := strip (join [newline; newline] (current_answers w)) in
      let fingerprint := (c :: q, answer_text) in
      if mem_pair fingerprint (section_fingerprints w)
      then FaqWalk (w_entries w) (section_fingerprints w) None [] []
      else FaqWalk (w_entries w ++ [FaqEntry (c :: q) (or_none answer_text)])
                   (fingerprint :: section_fingerprints w) None [] []
  | unset =>
      FaqWalk (w_entries w) (section_fingerprints w) unset [] []
  end.

(** The answer branch of the walk: what one node that is not a question
    tag contributes while [question] is pending. *)
Definition accept_answer (pool : list str) (question : str) (node : _DOMNode)
    (w : faq_walk) : faq_walk :=
  let answer_text := get_text node in
  if negb (truthy answer_text) then w
  else
    let answer_text := strip answer_text in
    if negb (truthy answer_text) then w
    else if str_eqb answer_text question then w
    else if mem answer_text pool then w
    else
      let preferred_tag := mem (tag node) FAQ_ANSWER_TAGS in
      if negb preferred_tag
         && (length answer_text <? FAQ_ANSWER_FALLBACK_MIN_LEN)
      then w
      else
        let answer_text :=
          if startswith (lower answer_text) (lower question)
          then
            let trimmed :=
              lstrip_chars ($" :.-" ++ [newline; tab])
                (slice_from answer_text (length question)) in
            if truthy trimmed then trimmed else answer_text
          else answer_text in
        if negb (truthy answer_text) || mem answer_text (current_answer_seen w)
        then w
        else FaqWalk (w_entries w) (section_fingerprints w)
               (current_question_text w)
               (current_answers w ++ [answer_text])
               (answer_text :: current_answer_seen w).

(** [for node in _iter_dom_descendants(container)]. Returning the state
    before the list is exhausted is the loop's [break]. *)
Fixpoint faq_walk_loop (pool : list str) (nodes : list _DOMNode) (w : faq_walk)
  : faq_walk :=
  match nodes with
  | [] => w
  | node :: rest =>
      if FAQ_ENTRY_LIMIT <=? length (w_entries w) then w
      else if mem (tag node) FAQ_QUESTION_TAGS
      then
        let pending := otruthy (current_question_text w) in
        let w1 := if pending then _flush_entry w else w in
        if pending && (FAQ_ENTRY_LIMIT <=? length (w_entries w1)) then w1
        else
          let question_text := get_text node in
          if negb (truthy question_text) then faq_walk_loop pool rest w1
          else faq_walk_loop pool rest
                 (FaqWalk (w_entries w1) (section_fingerprints w1)
                    (Some (strip question_text)) [] [])
      else
        match current_question_text w with
        | Some (c :: q) =>
            faq_walk_loop pool rest (accept_answer pool (c :: q) node w)
        | _ => faq_walk_loop pool rest w
        end
  end.

(** The set of question texts of a container. *)
Definition question_text_pool (container : _DOMNode) : list str :=
  map strip
    (filter truthy
       (map get_text (iter_descendants container (Some FAQ_QUESTION_TAGS)))).

(** The entries recovered from one container. *)
Definition faq_entries_of (container : _DOMNode) : list faq_entry :=
  let w := faq_walk_loop (question_text_pool container)
             (_iter_dom_descendants container) faq_walk_start in
  let w := if otruthy (current_question_text w)
              && (length (w_entries w) <? FAQ_ENTRY_LIMIT)
           then _flush_entry w else w in
  w_entries w.

Definition faq_fingerprint (es : list faq_entry) : str :=
  join $"|"
    (map (fun e => question e ++ $"::" ++ or_empty (answer e))
         (filter (fun e => truthy (question e)) es)).

Fixpoint faqs_loop (headings : list located) (seen : list str)
    (faq_sections : list faq_section) : list faq_section :=
  match headings with
  | [] => faq_sections
  | heading_node :: rest =>
      let heading_text := get_text (node_of heading_node) in
      if negb (truthy heading_text)
         || negb (contains (lower heading_text) $"faq")
      then faqs_loop rest seen faq_sections
      else
        let container := node_of (container_for heading_node) in
        let es := faq_entries_of container in
        let fingerprint := faq_fingerprint es in
        if match es with [] => true | _ => false end
           || negb (truthy fingerprint) || mem fingerprint seen
        then faqs_loop rest seen faq_sections
        else faqs_loop rest (fingerprint :: seen)
               (faq_sections ++ [FaqSection (strip heading_text) es])
  end.

Definition _extract_dom_faqs (builder : option _DOMTreeBuilder)
  : list faq_section :=
  match builder with
  | None => []
  | Some b => firstn 3 (faqs_loop (iter_tag b $"h2") [] [])
  end.

(** <section><h2>FAQ</h2><h3>Is it good?</h3><p>Yes.</p>
    <h3>Is it good?</h3><p>Yes.</p><h3>Refunds?</h3></section> *)
Definition faq_doc : _DOMTreeBuilder :=
  document [elem "section" []
              [leaf "h2" [] "FAQ";
               leaf "h3" [] "Is it good?"; leaf "p" [] "Yes.";
               leaf "h3" [] "Is it good?"; leaf "p" [] "Yes.";
               leaf "h3" [] "Refunds?"]].

(** The fingerprint [_flush_entry] files an entry under. *)
Definition entry_fingerprint (e : faq_entry) : str * str :=
  (question e, or_empty (answer e)).

(** What holds of the walk's state between any two steps. *)
Record walk_ok (w : faq_walk) : Prop :=
  WalkOk { ok_distinct : NoDup (map entry_fingerprint (w_entries w));
           ok_filed : forall e, In e (w_entries w) ->
                                In (entry_fingerprint e) (section_fingerprints w);
           ok_question : Forall (fun e => question e <> []) (w_entries w) }.

(** What C3 asks of one returned section. *)
Definition section_ok (s : faq_section) : Prop :=
  length (entries s) <= 12
  /\ NoDup (map (fun e => (question e, answer e)) (entries s))
  /\ Forall (fun e => question e <> []) (entries s).


(* ================================================================== *)
(** ** FAQ reconciliation *)
(* ================================================================== *)

(** [_normalize_question]. *)
Definition _normalize_question (text : str) : str :=
  lower (strip (squeeze text)).

(** A Python [dict] from strings to strings: one binding per key, a key
    set again keeps its place and takes the new value. *)
Definition dict : Type := list (str * str).

Fixpoint dict_set (d : dict) (k v : str) : dict :=
  match d with
  | [] => [(k, v)]
  | (k', v') :: d' =>
      if str_eqb k' k then (k', v) :: d' else (k', v') :: dict_set d' k v
  end.

Definition dict_get (d : dict) (k : str) : option str :=
  match List.find (fun kv => str_eqb (fst kv) k) d with
  | Some kv => Some (snd kv)
  | None => None
  end.

(** A fallback entry as the scanner hands it over: [dict[str, str]] with
    the keys "question" and "answer". *)
Record fallback_entry : Type :=
  FallbackEntry { fb_question : str; fb_answer : str }.

(** One binding of the first dictionary comprehension. *)
Definition set_fallback (d : dict) (entry : fallback_entry) : dict :=
  dict_set d (_normalize_question (fb_question entry)) (fb_answer entry).

(** The two dictionary comprehensions that build [fallback_map]. *)
Definition fallback_map_of (fallback_entries : list fallback_entry) : dict :=
  let fallback_map := fold_left set_fallback fallback_entries [] in
  filter (fun kv => truthy (fst kv) && truthy (snd kv)) fallback_map.

(** The body of the innermost loop: one entry of one DOM section. *)
Definition merge_entry (fallback_map : dict) (entry : faq_entry) : faq_entry :=
  if otruthy (answer entry) then entry
  else
    let normalized := _normalize_question (question entry) in
    match dict_get fallback_map normalized with
    | Some (c :: a) => FaqEntry (question entry) (Some (c :: a))
    | _ => entry
    end.

(** [_merge_faq_sections]. The Python function updates the entries of
    [dom_sections] in place and returns that list; here the updated list
    is the result. *)
Definition _merge_faq_sections (dom_sections : list faq_section)
    (fallback_entries : list fallback_entry) : list faq_section :=
  match fallback_entries with
  | [] => dom_sections
  | _ =>
      let fallback_map := fallback_map_of fallback_entries in
      match dom_sections with
      | [] =>
          let new_entries :=
            map (fun entry =>
                   FaqEntry (strip (fb_question entry))
                            (Some (strip (fb_answer entry))))
                (firstn FAQ_ENTRY_LIMIT fallback_entries) in
          match new_entries with
          | [] => dom_sections
          | _ => [FaqSection $"FAQs" new_entries]
          end
      | _ =>
          map (fun section =>
                 FaqSection (heading section)
                            (map (merge_entry fallback_map) (entries section)))
              dom_sections
      end
  end.

(** *** Reference reconciliation *)

(** The last fallback entry whose normalized question is [k]. *)
Definition last_match (fallback_entries : list fallback_entry) (k : str)
  : option fallback_entry :=
  List.find (fun f => str_eqb (_normalize_question (fb_question f)) k)
            (rev fallback_entries).

(** An entry after reconciliation: an entry without an answer takes the
    answer of the last fallback entry with its normalized question, when
    that question and that answer are not empty. *)
Definition reconciled (fallback_entries : list fallback_entry) (e : faq_entry)
  : faq_entry :=
  if otruthy (answer e) then e
  else
    let k := _normalize_question (question e) in
    match last_match fallback_entries k with
    | Some f =>
        if truthy k && truthy (fb_answer f)
        then FaqEntry (question e) (Some (fb_answer f))
        else e
    | None => e
    end.

(** One DOM section with the unanswered question "Refunds?" and two
    fallback entries for that question, the second with an empty answer. *)
Definition unanswered_sections : list faq_section :=
  [FaqSection $"FAQ" [FaqEntry $"Refunds?" None]].

Definition shadowed_fallback : list fallback_entry :=
  [FallbackEntry $"Refunds?" $"Within 30 days."; FallbackEntry $"refunds?" []].

Definition plain_fallback : list fallback_entry :=
  [FallbackEntry $"refunds?" $"Within 30 days."].

(* ================================================================== *)
(** ** Exceptions *)
(* ================================================================== *)

(** The exceptions that travel through the module, by class, with their
    message. [HTTPError] stands for [httpx.HTTPError] and its subclasses
    (connection, timeout and protocol errors), [PlaywrightError] for what
    a browser session raises.

    [BeyondLatin1] is no exception of Python. It ends a run at the point
    where the program decodes a code point above U+00FF, for which the
    model of [str] has no value; no handler of the model catches it, and
    what the program does from there on is not described. *)
Inductive exn : Type :=
| ValueError (msg : str)
| IndexError (msg : str)
| OverflowError (msg : str)
| HTTPError (msg : str)
| JSONDecodeError (msg : str)
| PlaywrightError (msg : str)
| BeyondLatin1 (msg : str).

Inductive result (A : Type) : Type :=
| Ok (a : A)
| Raise (e : exn).

Arguments Ok {A} a.
Arguments Raise {A} e.

Definition bind {A B} (r : result A) (k : A -> result B) : result B :=
  match r with
  | Ok a => k a
  | Raise e => Raise e
  end.

Notation "x <- r ;; k" := (bind r (fun x => k))
  (at level 61, r at next level, right associativity).
Notation "' p <- r ;; k" := (bind r (fun x => let 'p := x in k))
  (at level 61, p pattern, r at next level, right associativity).

(** A loop over [items] that carries a state and stops at the first
    exception. *)
Fixpoint fold_result {A B} (f : A -> B -> result A) (items : list B) (a : A)
  : result A :=
  match items with
  | [] => Ok a
  | x :: rest => a' <- f a x ;; fold_result f rest a'
  end.

(** What a generator does: the values it yields, in order, and the
    exception that ends the iteration, if one does. *)
Definition yields (A : Type) : Type := (list A * option exn)%type.

(* ================================================================== *)
(** ** [urllib.parse] (CPython 3.11) *)
(* ================================================================== *)

Module Url.

Definition uses_relative : list str :=
  [[]; $"ftp"; $"http"; $"gopher"; $"nntp"; $"imap"; $"wais"; $"file";
   $"https"; $"shttp"; $"mms"; $"prospero"; $"rtsp"; $"rtspu"; $"sftp";
   $"svn"; $"svn+ssh"; $"ws"; $"wss"].

Definition uses_netloc : list str :=
  [[]; $"ftp"; $"http"; $"gopher"; $"nntp"; $"telnet"; $"imap"; $"wais";
   $"file"; $"mms"; $"https"; $"shttp"; $"snews"; $"prospero"; $"rtsp";
   $"rtspu"; $"rsync"; $"svn"; $"svn+ssh"; $"sftp"; $"nfs"; $"git";
   $"git+ssh"; $"ws"; $"wss"].

Definition uses_params : list str :=
  [[]; $"ftp"; $"hdl"; $"prospero"; $"http"; $"imap"; $"https"; $"shttp";
   $"rtsp"; $"rtspu"; $"sip"; $"sips"; $"mms"; $"sftp"; $"tel"].

Definition is_ascii_alpha (c : ascii) : bool :=
  let n := code c in
  ((65 <=? n) && (n <=? 90)) || ((97 <=? n) && (n <=? 122)).

Definition is_hex (c : ascii) : bool :=
  let n := code c in
  isdigit c || ((65 <=? n) && (n <=? 70)) || ((97 <=? n) && (n <=? 102)).

(** [c in scheme_chars]. *)
Definition is_scheme_char (c : ascii) : bool :=
  is_ascii_alpha c || isdigit c || in_chars $"+-." c.

(** [c in _WHATWG_C0_CONTROL_OR_SPACE]. *)
Definition is_c0_or_space (c : ascii) : bool := code c <=? 32.

(** The loop over [_UNSAFE_URL_BYTES_TO_REMOVE]. *)
Definition remove_unsafe (s : str) : str :=
  remove_chr newline (remove_chr (ascii_of_nat 13) (remove_chr tab s)).

Definition has_chr (c : ascii) (s : str) : bool := existsb (chr_eqb c) s.

Record SplitResult : Type :=
  mkSplit { s_scheme : str; s_netloc : str; s_path : str; s_query : str;
            s_fragment : str }.

Record ParseResult : Type :=
  mkParse { scheme : str; netloc : str; path : str; params : str;
            query : str; fragment : str }.

(** [_splitnetloc(url, 2)]: the end of the network location is the first
    of "/", "?", "#" from position 2 on, or the end of the text. *)
Definition is_netloc_delim (c : ascii) : bool := in_chars $"/?#" c.

Fixpoint span_until (p : ascii -> bool) (s : str) : str * str :=
  match s with
  | [] => ([], [])
  | c :: s' => if p c then ([], s)
               else let '(a, b) := span_until p s' in (c :: a, b)
  end.

Definition _splitnetloc2 (url : str) : str * str :=
  span_until is_netloc_delim (skipn 2 url).

(** [s.partition(c)]: before, whether [c] was found, after. *)
Definition partition (c : ascii) (s : str) : str * bool * str :=
  match split_once c s with
  | Some (a, b) => (a, true, b)
  | None => (s, false, [])
  end.

(** [s.rpartition(c)[2]]: the text after the last [c], or all of [s]. *)
Definition after_last (c : ascii) (s : str) : str :=
  match rfind_chr s c with
  | Some i => skipn (S i) s
  | None => s
  end.

(** What [ipaddress.ip_address] makes of a host name. *)
Inductive ip_kind : Type := IPv4Address | IPv6Address.

Section WithIpAddress.

(** [ipaddress.ip_address] is taken as given; [None] stands for the
    [ValueError] it raises on text that is no address. *)
Variable ip_address : str -> option ip_kind.

(** [re.match(r"\Av[a-fA-F0-9]+\..+\Z", hostname)]; line feeds have been
    removed from the URL before, so [.] matches every character left. *)
Definition ipvfuture_ok (hostname : str) : bool :=
  match hostname with
  | v :: rest =>
      chr_eqb v "v"
      && match span_until (fun c => negb (is_hex c)) rest with
         | (_ :: _, dot :: _ :: _) => chr_eqb dot "."
         | _ => false
         end
  | [] => false
  end.

Definition _check_bracketed_host (hostname : str) : result unit :=
  if startswith hostname $"v"
  then if ipvfuture_ok hostname then Ok tt
       else Raise (ValueError $"IPvFuture address is invalid")
  else match ip_address hostname with
       | None =>
           Raise (ValueError
                    ($"'" ++ hostname
                     ++ $"' does not appear to be an IPv4 or IPv6 address"))
       | Some IPv4Address =>
           Raise (ValueError $"An IPv4 address cannot be in brackets")
       | Some IPv6Address => Ok tt
       end.

Definition _check_bracketed_netloc (netloc : str) : result unit :=
  let hostname_and_port := after_last "@" netloc in
  let '(before_bracket, have_open_br, bracketed) :=
    partition "[" hostname_and_port in
  if have_open_br
  then
    if truthy before_bracket then Raise (ValueError $"Invalid IPv6 URL")
    else
      let '(hostname, _, port) := partition "]" bracketed in
      if truthy port && negb (startswith port $":")
      then Raise (ValueError $"Invalid IPv6 URL")
      else _check_bracketed_host hostname
  else
    let '(hostname, _, port) := partition ":" hostname_and_port in
    _check_bracketed_host hostname.

(** The scheme step of [urlsplit]: a leading run of scheme characters
    that starts with a letter and ends at the first colon is the scheme. *)
Definition split_scheme (url scheme : str) : str * str :=
  match find url $":" 0, url with
  | Some i, c0 :: _ =>
      if (0 <? i) && is_ascii_alpha c0
         && forallb is_scheme_char (slice_to url i)
      then (lower (slice_to url i), slice_from url (S i))
      else (scheme, url)
  | _, _ => (scheme, url)
  end.

(** The network-location step of [urlsplit]. *)
Definition split_netloc (url : str) : result (str * str) :=
  if str_eqb (slice_to url 2) $"//"
  then
    let '(netloc, url) := _splitnetloc2 url in
    if (has_chr "[" netloc && negb (has_chr "]" netloc))
       || (has_chr "]" netloc && negb (has_chr "[" netloc))
    then Raise (ValueError $"Invalid IPv6 URL")
    else if has_chr "[" netloc && has_chr "]" netloc
    then _ <- _check_bracketed_netloc netloc ;; Ok (netloc, url)
    else Ok (netloc, url)
  else Ok ([], url).

(** [url.split(c, 1)] as [urlsplit] uses it for "#" and "?". *)
Definition split_tail (c : ascii) (url : str) : str * str :=
  match split_once c url with
  | Some (a, b) => (a, b)
  | None => (url, [])
  end.

(** [urlsplit(url, scheme)] with fragments allowed. [_checknetloc] is
    left out: on code points below 256 NFKC normalization brings in none
    of the characters it looks for, so it never raises. *)
Definition urlsplit (url scheme : str) : result SplitResult :=
  let url := lstrip_by is_c0_or_space url in
  let scheme := strip_by is_c0_or_space scheme in
  let url := remove_unsafe url in
  let scheme := remove_unsafe scheme in
  let '(scheme, url) := split_scheme url scheme in
  '(netloc, url) <- split_netloc url ;;
  let '(url, fragment) := split_tail "#" url in
  let '(url, query) := split_tail "?" url in
  Ok (mkSplit scheme netloc url query fragment).

(** [_splitparams]. *)
Definition _splitparams (url : str) : str * str :=
  if has_chr "/" url
  then
    let from := match rfind_chr url "/" with Some i => i | None => 0 end in
    match find url $";" from with
    | Some i => (slice_to url i, slice_from url (S i))
    | None => (url, [])
    end
  else
    match find url $";" 0 with
    | Some i => (slice_to url i, slice_from url (S i))
    | None => (slice_to url (length url - 1), url)
    end.

Definition urlparse (url scheme : str) : result ParseResult :=
  r <- urlsplit url scheme ;;
  let '(url, params) :=
    if mem (s_scheme r) uses_params && has_chr ";" (s_path r)
    then _splitparams (s_path r)
    else (s_path r, []) in
  Ok (mkParse (s_scheme r) (s_netloc r) url params (s_query r) (s_fragment r)).

(** [urlunsplit] and [urlunparse]. *)
Definition urlunsplit (scheme netloc url query fragment : str) : str :=
  let url :=
    if truthy netloc
       || (truthy scheme && mem scheme uses_netloc
           && negb (str_eqb (slice_to url 2) $"//"))
    then
      let url := if truthy url && negb (str_eqb (slice_to url 1) $"/")
                 then $"/" ++ url else url in
      $"//" ++ netloc ++ url
    else url in
  let url := if truthy scheme then scheme ++ $":" ++ url else url in
  let url := if truthy query then url ++ $"?" ++ query else url in
  if truthy fragment then url ++ $"#" ++ fragment else url.

Definition urlunparse (p : ParseResult) : str :=
  let url := if truthy (params p) then path p ++ $";" ++ params p else path p in
  urlunsplit (scheme p) (netloc p) url (query p) (fragment p).

(** The loop of [urljoin] over the path segments. *)
Fixpoint resolve_segments (segments resolved_path : list str) : list str :=
  match segments with
  | [] => resolved_path
  | seg :: rest =>
      if str_eqb seg $".."
      then resolve_segments rest (removelast resolved_path)
      else if str_eqb seg $"."
      then resolve_segments rest resolved_path
      else resolve_segments rest (resolved_path ++ [seg])
  end.

(** [segments[1:-1] = filter(None, segments[1:-1])]. *)
Definition drop_inner_empty (segments : list str) : list str :=
  match segments with
  | [] => []
  | [a] => [a]
  | a :: rest =>
      a :: filter truthy (removelast rest) ++ [last rest []]
  end.

Definition urljoin (base url : str) : result str :=
  if negb (truthy base) then Ok url
  else if negb (truthy url) then Ok base
  else
    b <- urlparse base [] ;;
    u <- urlparse url (scheme b) ;;
    if negb (str_eqb (scheme u) (scheme b))
       || negb (mem (scheme u) uses_relative)
    then Ok url
    else if mem (scheme u) uses_netloc && truthy (netloc u)
    then Ok (urlunparse u)
    else
      let netloc_ := if mem (scheme u) uses_netloc then netloc b else netloc u in
      if negb (truthy (path u)) && negb (truthy (params u))
      then
        let query_ := if truthy (query u) then query u else query b in
        Ok (urlunparse (mkParse (scheme u) netloc_ (path b) (params b) query_
                          (fragment u)))
      else
        let base_parts := split_chr "/" (path b) in
        let base_parts :=
          if truthy (last base_parts []) then removelast base_parts
          else base_parts in
        let segments :=
          if str_eqb (slice_to (path u) 1) $"/"
          then split_chr "/" (path u)
          else drop_inner_empty (base_parts ++ split_chr "/" (path u)) in
        let resolved_path := resolve_segments segments [] in
        let resolved_path :=
          if mem (last segments []) [$"."; $".."]
          then resolved_path ++ [[]] else resolved_path in
        let joined := join $"/" resolved_path in
        Ok (urlunparse
              (mkParse (scheme u) netloc_
                 (if truthy joined then joined else $"/")
                 (params u) (query u) (fragment u))).

End WithIpAddress.

End Url.

(* ================================================================== *)
(** ** Target normalization *)
(* ================================================================== *)

Section Normalizer.

Variable ip_address : str -> option Url.ip_kind.

Definition empty_target_error : exn :=
  ValueError $"Target URL or slug cannot be empty.".

Definition unsupported_scheme_error (candidate : str) : exn :=
  ValueError ($"Unsupported scheme in target: " ++ candidate).

(** The candidate URL [_normalize_target] hands to [urlparse]. *)
Definition candidate_of (target : str) : result str :=
  let candidate := strip target in
  if negb (contains candidate $"://")
  then
    let normalized := lstrip_chars $"/" candidate in
    normalized <-
      (if startswith (lower normalized) $"whop.com/"
       then match split_once "/" normalized with
            | Some (_, rest) => Ok rest
            | None => Raise (IndexError $"list index out of range")
            end
       else Ok normalized) ;;
    Ok ($"https://whop.com/" ++ lstrip_chars $"/" normalized)
  else Ok candidate.

Definition _normalize_target (target : str) : result (str * str) :=
  if negb (truthy (strip target)) then Raise empty_target_error
  else
    candidate <- candidate_of target ;;
    parsed <- Url.urlparse ip_address candidate [] ;;
    if negb (mem (Url.scheme parsed) [$"http"; $"https"])
    then Raise (unsupported_scheme_error candidate)
    else
      let path := strip_chars $"/" (Url.path parsed) in
      let slug := if truthy path then last (split_chr "/" path) []
                  else Url.netloc parsed in
      Ok (candidate, slug).

End Normalizer.

(** An address oracle that knows no address, for the examples. *)
Definition no_address (hostname : str) : option Url.ip_kind := None.

Definition is_value_error (e : exn) : Prop := exists msg, e = ValueError msg.

(* ================================================================== *)
(** ** Profile product links *)
(* ================================================================== *)

Section ProfileLinks.

Variable ip_address : str -> option Url.ip_kind.

(** What one anchor contributes: [None] when the loop moves on to the
    next anchor, the normalized product URL otherwise. *)
Definition product_link (parsed : Url.ParseResult) (username : str)
    (anchor : located) : result (option str) :=
  let base := Url.scheme parsed ++ $"://" ++ Url.netloc parsed in
  let href := attrs_get (attrs (node_of anchor)) $"href" [] in
  if negb (truthy href) then Ok None
  else
    absolute <- Url.urljoin ip_address (base ++ $"/") href ;;
    parsed_href <- Url.urlparse ip_address absolute [] ;;
    if truthy (Url.netloc parsed_href)
       && negb (str_eqb (lower (Url.netloc parsed_href))
                        (lower (Url.netloc parsed)))
    then Ok None
    else
      match path_segments (Url.path parsed_href) with
      | s1 :: s2 :: _ =>
          if negb (str_eqb (lower s1) username) then Ok None
          else
            let product_path := join $"/" [s1; s2] in
            Ok (Some (Url.scheme parsed ++ $"://" ++ Url.netloc parsed
                      ++ $"/" ++ product_path))
      | _ => Ok None
      end.

Fixpoint product_links_loop (parsed : Url.ParseResult) (username : str)
    (anchors : list located) (seen results : list str) : result (list str) :=
  match anchors with
  | [] => Ok results
  | anchor :: rest =>
      link <- product_link parsed username anchor ;;
      match link with
      | None => product_links_loop parsed username rest seen results
      | Some normalized =>
          if mem normalized seen
          then product_links_loop parsed username rest seen results
          else product_links_loop parsed username rest (normalized :: seen)
                 (results ++ [normalized])
      end
  end.

Definition _extract_profile_product_paths (builder : option _DOMTreeBuilder)
    (final_url : str) : result (list str) :=
  match builder with
  | None => Ok []
  | Some b =>
      parsed <- Url.urlparse ip_address final_url [] ;;
      match path_segments (Url.path parsed) with
      | [] => Ok []
      | first :: _ =>
          product_links_loop parsed (lower first) (iter_tag b $"a") [] []
      end
  end.

End ProfileLinks.

(** A profile page at https://whop.com/alice with the anchors
    /Alice/p1, /alice/p2/reviews, /alice/p2 and /bob/p3. *)
Definition anchor (href : string) : _DOMNode :=
  leaf "a" [($"href", $href)] "link".

Definition profile_doc : _DOMTreeBuilder :=
  document [anchor "/Alice/p1"; anchor "/alice/p2/reviews"; anchor "/alice/p2";
            anchor "/bob/p3"].

Definition profile_url : str := $"https://whop.com/alice".

(** The first path segment of a URL, as [urlparse] and the segment
    filter see it. *)
Definition first_segment (ip_address : str -> option Url.ip_kind) (url : str)
  : option str :=
  match Url.urlparse ip_address url [] with
  | Ok p => hd_error (path_segments (Url.path p))
  | Raise _ => None
  end.

(** The shape of a returned product URL: scheme, "://", host, and a
    path of two segments [s1] and [s2]. *)
Definition product_url_of (parsed : Url.ParseResult) (s1 s2 : str) : str :=
  Url.scheme parsed ++ $"://" ++ Url.netloc parsed ++ $"/" ++ s1 ++ $"/" ++ s2.

Definition is_segment (s : str) : Prop := s <> [] /\ ~ In "/"%char s.

(** Where a returned URL comes from: an anchor whose resolved path
    starts with the two segments of the URL. *)
Definition from_anchor (ip_address : str -> option Url.ip_kind)
    (parsed : Url.ParseResult) (anchors : list located) (s1 s2 : str) : Prop :=
  exists a absolute parsed_href rest,
    In a anchors
    /\ Url.urljoin ip_address
         (Url.scheme parsed ++ $"://" ++ Url.netloc parsed ++ $"/")
         (attrs_get (attrs (node_of a)) $"href" []) = Ok absolute
    /\ Url.urlparse ip_address absolute [] = Ok parsed_href
    /\ path_segments (Url.path parsed_href) = s1 :: s2 :: rest.

Definition link_ok (ip_address : str -> option Url.ip_kind)
    (parsed : Url.ParseResult) (username : str) (anchors : list located)
    (u : str) : Prop :=
  exists s1 s2,
    u = product_url_of parsed s1 s2
    /\ is_segment s1 /\ is_segment s2
    /\ lower s1 = username
    /\ from_anchor ip_address parsed anchors s1 s2.


(* ================================================================== *)
(** ** Heuristic section extractors: reviews *)
(* ================================================================== *)

(** Numbers.  A Python [float] is a binary64 number of IEEE 754: the
    type [spec_float] of the standard library, with 53 bits of precision
    and exponents below 1024. The product and the quotient are the
    correctly rounded operations [SFmul] and [SFdiv]. *)
Definition pyfloat : Type := SpecFloat.spec_float.

Definition fmul : pyfloat -> pyfloat -> pyfloat := SpecFloat.SFmul 53 1024.
Definition fdiv : pyfloat -> pyfloat -> pyfloat := SpecFloat.SFdiv 53 1024.

(** The float nearest to [n / d], a tie going to the even mantissa; zero
    unless both are positive. *)
Definition float_of_ratio (n d : Z) : pyfloat :=
  match n, d with
  | Zpos p, Zpos q =>
      fdiv (SpecFloat.S754_finite false p 0) (SpecFloat.S754_finite false q 0)
  | _, _ => SpecFloat.S754_zero false
  end.

(** The conversion of an [int] where it meets a float in an operation:
    the nearest float, a tie going to the even mantissa, and
    [OverflowError] when that is beyond the largest float. *)
Definition float_of_int (n : Z) : result pyfloat :=
  match SpecFloat.binary_normalize 53 1024 n 0 false with
  | SpecFloat.S754_infinity _ =>
      Raise (OverflowError $"int too large to convert to float")
  | x => Ok x
  end.

(** The float [100.0]. *)
Definition hundred : pyfloat :=
  SpecFloat.binary_normalize 53 1024 100 0 false.

Definition digit_val (c : ascii) : Z := Z.of_nat (code c - 48).

(** The value of a text of decimal digits. *)
Definition int_of_digits (s : str) : Z :=
  fold_left (fun acc c => (10 * acc + digit_val c)%Z) s 0%Z.

(** [int(s)] for a text of decimal digits: [None] is the [ValueError] of
    a text longer than the interpreter's limit of 4300 digits. *)
Definition int_of_text (s : str) : option Z :=
  if 4300 <? length s then None else Some (int_of_digits s).

(** [float(s)] for digits, optionally followed by "." and digits:
    [int_part] and [frac_part] are the digits before and after the point.
    The conversion is correctly rounded and gives infinity for a text
    beyond the largest float; it does not raise. *)
Definition float_of_decimal (int_part frac_part : str) : pyfloat :=
  float_of_ratio (int_of_digits (int_part ++ frac_part))
                 (10 ^ Z.of_nat (length frac_part)).

(** The integer nearest to [m * 2 ^ e], a tie going to the even one. *)
Definition round_half_even (m e : Z) : Z :=
  if (0 <=? e)%Z then (m * 2 ^ e)%Z
  else
    let d := (2 ^ (- e))%Z in
    let q := (m / d)%Z in
    match (2 * (m mod d) ?= d)%Z with
    | Lt => q
    | Gt => (q + 1)%Z
    | Eq => if Z.even q then q else (q + 1)%Z
    end.

(** [round(x)], which is an [int]: [OverflowError] for an infinity and
    [ValueError] for a NaN. *)
Definition py_round (x : pyfloat) : result Z :=
  match x with
  | SpecFloat.S754_zero _ => Ok 0%Z
  | SpecFloat.S754_finite s m e =>
      let n := round_half_even (Zpos m) e in
      Ok (if s then (- n)%Z else n)
  | SpecFloat.S754_infinity _ =>
      Raise (OverflowError $"cannot convert float infinity to integer")
  | SpecFloat.S754_nan =>
      Raise (ValueError $"cannot convert float NaN to integer")
  end.

(** The truth value of a float: false for the two zeros. *)
Definition float_truthy (x : pyfloat) : bool :=
  match x with SpecFloat.S754_zero _ => false | _ => true end.

(** Regular expressions.  Every pattern of the module is matched by a
    function written for it.  In each of them a greedy repetition is
    followed by an element that cannot start with a character of the
    repetition, so the longest run is the only one that can lead to a
    match. *)
Fixpoint span (p : ascii -> bool) (s : str) : str * str :=
  match s with
  | [] => ([], [])
  | c :: s' => if p c then let '(a, b) := span p s' in (c :: a, b)
               else ([], s)
  end.

(** [re.search]: the match at the leftmost position that has one. *)
Fixpoint re_search {A} (match_here : str -> option A) (s : str) : option A :=
  match match_here s with
  | Some a => Some a
  | None => match s with
            | [] => None
            | _ :: s' => re_search match_here s'
            end
  end.

(** A literal under [re.I]. *)
Definition startswith_ci (s lit : str) : bool :=
  startswith (lower (slice_to s (length lit))) (lower lit).

(** [\s+]: at least one white-space character. *)
Definition skip_spaces1 (s : str) : option str :=
  match span isspace s with
  | (_ :: _, rest) => Some rest
  | _ => None
  end.

Definition is_num_chr (c : ascii) : bool := isdigit c || chr_eqb c ",".

(** The group [\d[\d,]*]: the digits-and-commas run and the rest. *)
Definition match_count (s : str) : option (str * str) :=
  match s with
  | c :: _ => if isdigit c then Some (span is_num_chr s) else None
  | [] => None
  end.

(** The group [\d[\d,]*(?:\.\d+)?]: the run, the digits after the
    point, the rest. *)
Definition match_number (s : str) : option (str * str * str) :=
  match match_count s with
  | Some (run, rest) =>
      match rest with
      | dot :: rest' =>
          if chr_eqb dot "."
          then match span isdigit rest' with
               | ((_ :: _) as frac, rest'') => Some (run, frac, rest'')
               | _ => Some (run, [], rest)
               end
          else Some (run, [], rest)
      | [] => Some (run, [], rest)
      end
  | None => None
  end.

Definition number_value (run frac : str) : pyfloat :=
  float_of_decimal (remove_chr "," run) frac.

(** [re.search] for a count, white space and "total review" under
    [re.I]; the result is group 1. *)
Definition match_total_here (s : str) : option str :=
  match match_count s with
  | Some (run, rest) =>
      match skip_spaces1 rest with
      | Some rest' => if startswith_ci rest' $"total review" then Some run
                      else None
      | None => None
      end
  | None => None
  end.

Definition search_total (text : str) : option str :=
  re_search match_total_here text.

(** [_parse_numeric(text, as_int=True)]: [float(raw)] sits in a [try]
    and does not raise on such a text; [int(round(value))] follows the
    [try] and raises for an infinity. *)
Definition _parse_numeric_int (text : str) : result (option Z) :=
  match re_search match_number text with
  | Some (run, frac, _) =>
      value <- py_round (number_value run frac) ;; Ok (Some value)
  | None => Ok None
  end.

(** [re.search] for a number, white space, "out of" under [re.I], white
    space and a number; the result is groups 1 and 2 as numbers. *)
Definition match_out_of_here (s : str) : option (pyfloat * pyfloat) :=
  match match_number s with
  | Some (run, frac, rest) =>
      match skip_spaces1 rest with
      | Some rest1 =>
          if startswith_ci rest1 $"out of"
          then match skip_spaces1 (slice_from rest1 6) with
               | Some rest2 =>
                   match match_number rest2 with
                   | Some (run2, frac2, _) =>
                       Some (number_value run frac, number_value run2 frac2)
                   | None => None
                   end
               | None => None
               end
          else None
      | None => None
      end
  | None => None
  end.

Definition search_out_of (text : str) : option (pyfloat * pyfloat) :=
  re_search match_out_of_here text.

(** [_WIDTH_PATTERN.search(style)], group 1 as a number: "width:",
    optional white space, digits with an optional decimal part, "%". *)
Definition match_width_here (s : str) : option pyfloat :=
  if startswith s $"width:"
  then
    let '(_, rest) := span isspace (slice_from s 6) in
    match span isdigit rest with
    | ((_ :: _) as digits, rest1) =>
        match rest1 with
        | c :: rest2 =>
            if chr_eqb c "%" then Some (float_of_decimal digits [])
            else if chr_eqb c "."
            then match span isdigit rest2 with
                 | ((_ :: _) as frac, pct :: _) =>
                     if chr_eqb pct "%" then Some (float_of_decimal digits frac)
                     else None
                 | _ => None
                 end
            else None
        | [] => None
        end
    | _ => None
    end
  else None.

Definition search_width (style : str) : option pyfloat :=
  re_search match_width_here style.

(** [re.match] for a digit from 1 to 5, white space and "star" under
    [re.I]; the result is group 1 as an integer. *)
Definition match_star (label : str) : option Z :=
  match label with
  | c :: rest =>
      if (49 <=? code c) && (code c <=? 53)
      then match skip_spaces1 rest with
           | Some rest' => if startswith_ci rest' $"star"
                           then Some (digit_val c) else None
           | None => None
           end
      else None
  | [] => None
  end.

(** [_extract_width_percentage]. *)
Fixpoint _extract_width_percentage (node : _DOMNode) : option pyfloat :=
  match search_width (attrs_get (attrs node) $"style" []) with
  | Some percentage => Some percentage
  | None =>
      (fix first_of (cs : list _DOMNode) : option pyfloat :=
         match cs with
         | [] => None
         | child :: cs' =>
             match _extract_width_percentage child with
             | Some percentage => Some percentage
             | None => first_of cs'
             end
         end) (children node)
  end.

(** The loop over the siblings of a star label: the first sibling other
    than the label itself that yields a percentage. *)
Fixpoint sibling_percentage (self_index i : nat) (siblings : list _DOMNode)
  : option pyfloat :=
  match siblings with
  | [] => None
  | sibling :: rest =>
      if i =? self_index then sibling_percentage self_index (S i) rest
      else match _extract_width_percentage sibling with
           | Some percentage => Some percentage
           | None => sibling_percentage self_index (S i) rest
           end
  end.

Definition star_percentage (span_node : located) : option pyfloat :=
  match up span_node with
  | [] => None
  | (i, parent_node) :: _ =>
      match sibling_percentage i 0 (children parent_node) with
      | Some percentage => Some percentage
      | None => _extract_width_percentage parent_node
      end
  end.

(** One row of the distribution. *)
Record star_row : Type :=
  StarRow { stars : Z; percent : option pyfloat; count : option Z }.

Record review_summary : Type :=
  ReviewSummary { rv_heading : str;
                  average_rating : option pyfloat;
                  rating_scale : option pyfloat;
                  total_reviews : option Z;
                  distribution : list star_row }.

(** [int(round(total_reviews * (percentage / 100)))] when both are
    known: the quotient and the product are rounded to a float each, and
    the total is converted to a float for the product. *)
Definition count_of (total : option Z) (percentage : option pyfloat)
  : result (option Z) :=
  match percentage, total with
  | Some p, Some t =>
      total_f <- float_of_int t ;;
      count <- py_round (fmul total_f (fdiv p hundred)) ;;
      Ok (Some count)
  | _, _ => Ok None
  end.

(** The [distribution] dictionary: star rating to (percent, count). *)
Definition star_dict : Type := list (Z * (option pyfloat * option Z)).

Fixpoint star_set (d : star_dict) (k : Z) (v : option pyfloat * option Z)
  : star_dict :=
  match d with
  | [] => [(k, v)]
  | (k', v') :: d' =>
      if (k' =? k)%Z then (k', v) :: d' else (k', v') :: star_set d' k v
  end.

Definition star_get (d : star_dict) (k : Z)
  : option (option pyfloat * option Z) :=
  match List.find (fun kv => (fst kv =? k)%Z) d with
  | Some kv => Some (snd kv)
  | None => None
  end.

(** The choice of the container: the outermost ancestor, along the
    unbroken chain of section/article/div parents, that is a [section] or
    carries "review" in its id or class. *)
Definition attrs_blob (n : _DOMNode) : str :=
  lower (join $" " (filter truthy [attrs_get (attrs n) $"id" [];
                                   attrs_get (attrs n) $"class" []])).

Fixpoint best_container_up (chain : list (nat * _DOMNode))
    (best : option located) : option located :=
  match chain with
  | [] => best
  | (_, current) :: rest =>
      if mem (tag current) container_tags
      then best_container_up rest
             (if str_eqb (tag current) $"section"
                 || contains (attrs_blob current) $"review"
              then Some (Loc current rest) else best)
      else best
  end.

Definition review_container (heading_node : located) : located :=
  match best_container_up (up heading_node) None with
  | Some c => c
  | None => container_for heading_node
  end.

(** The first loop: total and average. *)
Record review_scan : Type :=
  ReviewScan { sc_average : option pyfloat; sc_scale : option pyfloat;
               sc_total : option Z }.

(** The [if total_reviews is None and "total review" in lower] block;
    the [ValueError] of [int] is caught there. *)
Definition next_total (known : option Z) (text lowered : str)
  : result (option Z) :=
  match known with
  | None =>
      if contains lowered $"total review"
      then match search_total text with
           | Some run => Ok (int_of_text (remove_chr "," run))
           | None => _parse_numeric_int text
           end
      else Ok None
  | Some _ => Ok known
  end.

Definition scan_text (st : review_scan) (node : _DOMNode)
  : result review_scan :=
  let text := get_text node in
  if negb (truthy text) then Ok st
  else
    let lowered := lower text in
    total <- next_total (sc_total st) text lowered ;;
    Ok match sc_average st with
       | None =>
           if contains lowered $"out of"
           then match search_out_of text with
                | Some (avg, scale) => ReviewScan (Some avg) (Some scale) total
                | None => ReviewScan None (sc_scale st) total
                end
           else ReviewScan None (sc_scale st) total
       | known => ReviewScan known (sc_scale st) total
       end.

(** The second loop: one star label. *)
Definition scan_star (total : option Z) (d : star_dict) (span_node : located)
  : result star_dict :=
  let label := get_text (node_of span_node) in
  if negb (truthy label) then Ok d
  else match match_star (strip label) with
       | None => Ok d
       | Some rating_index =>
           let percentage := star_percentage span_node in
           count <- count_of total percentage ;;
           Ok (star_set d rating_index (percentage, count))
       end.

Definition ordered_distribution (d : star_dict) : list star_row :=
  map (fun rating_value =>
         match star_get d rating_value with
         | None => StarRow rating_value None None
         | Some (p, c) => StarRow rating_value p c
         end)
      [5; 4; 3; 2; 1]%Z.

Definition f_truthy (x : option pyfloat) : bool :=
  match x with Some q => float_truthy q | None => false end.

Definition z_truthy (x : option Z) : bool :=
  match x with Some z => negb (z =? 0)%Z | None => false end.

(** What one qualifying heading yields: [Ok None] is the [continue]. *)
Definition review_of_heading (heading_node : located)
  : result (option review_summary) :=
  let heading_text := get_text (node_of heading_node) in
  if negb (truthy heading_text)
     || negb (contains (lower heading_text) $"review")
  then Ok None
  else
    let container := review_container heading_node in
    st <- fold_result scan_text
            (iter_descendants (node_of container)
               (Some [$"span"; $"div"; $"p"]))
            (ReviewScan None None None) ;;
    d <- fold_result (scan_star (sc_total st))
           (iter_descendants_loc container (Some [$"span"])) [] ;;
    if negb (z_truthy (sc_total st) || f_truthy (sc_average st)
             || match d with [] => false | _ => true end)
    then Ok None
    else Ok (Some (ReviewSummary (strip heading_text) (sc_average st)
                     (sc_scale st) (sc_total st) (ordered_distribution d))).

Fixpoint reviews_loop (headings : list located)
  : result (option review_summary) :=
  match headings with
  | [] => Ok None
  | heading_node :: rest =>
      found <- review_of_heading heading_node ;;
      match found with
      | Some r => Ok (Some r)
      | None => reviews_loop rest
      end
  end.

(** [_extract_dom_reviews]. No exception is caught on the way: the
    [OverflowError] and the [ValueError] of the numbers leave the
    function. *)
Definition _extract_dom_reviews (builder : option _DOMTreeBuilder)
  : result (option review_summary) :=
  match builder with
  | None => Ok None
  | Some b => reviews_loop (iter_tag b $"h2")
  end.





(** *** Sums over a distribution *)









(* ================================================================== *)
(** ** [json] (CPython 3.11): values, [dumps] and [loads] *)
(* ================================================================== *)

Module Json.

(** A decoded JSON document. A float is kept as the numeral it was read
    from; its machine value is not part of the model. The members of
    an object are the items of the Python [dict] in insertion order. *)
Inductive value : Type :=
| JNull
| JBool (b : bool)
| JInt (n : Z)
| JFloat (literal : str)
| JStr (s : str)
| JArr (items : list value)
| JObj (members : list (str * value)).

Definition dquote : ascii := ascii_of_nat 34.
Definition backslash : ascii := ascii_of_nat 92.

(** *** Encoding *)

Definition hex_digit (n : nat) : ascii :=
  if n <? 10 then ascii_of_nat (48 + n) else ascii_of_nat (87 + n).

(** ['\\u{0:04x}'.format(n)] for a code point below 256. *)
Definition escape_u (n : nat) : str :=
  [backslash; "u"%char; "0"%char; "0"%char; hex_digit (n / 16);
   hex_digit (n mod 16)].

(** [ESCAPE_DCT] and the fallback of [py_encode_basestring_ascii]. *)
Definition encode_chr (c : ascii) : str :=
  let n := code c in
  if n =? 34 then [backslash; dquote]
  else if n =? 92 then [backslash; backslash]
  else if n =? 10 then [backslash; "n"%char]
  else if n =? 13 then [backslash; "r"%char]
  else if n =? 9 then [backslash; "t"%char]
  else if n =? 8 then [backslash; "b"%char]
  else if n =? 12 then [backslash; "f"%char]
  else if (32 <=? n) && (n <=? 126) then [c]
  else escape_u n.

Definition encode_body (s : str) : str := flat_map encode_chr s.

(** [encode_basestring_ascii(s)]. *)
Definition encode_str (s : str) : str := dquote :: encode_body s ++ [dquote].

(** [str(n)] for an integer. *)
Fixpoint digits_of (fuel : nat) (n : Z) : str :=
  match fuel with
  | 0 => []
  | S fuel' =>
      (if (n <? 10)%Z then [] else digits_of fuel' (n / 10)%Z)
      ++ [ascii_of_nat (48 + Z.to_nat (n mod 10)%Z)]
  end.

Definition str_of_nonneg (n : Z) : str := digits_of (S (Z.to_nat (Z.log2 n))) n.

Definition str_of_int (n : Z) : str :=
  if (n <? 0)%Z then "-"%char :: str_of_nonneg (- n) else str_of_nonneg n.

(** [json.dumps(v)] with the default separators [", "] and [": "]. *)
Fixpoint dumps (v : value) : str :=
  match v with
  | JNull => $"null"
  | JBool true => $"true"
  | JBool false => $"false"
  | JInt n => str_of_int n
  | JFloat literal => literal
  | JStr s => encode_str s
  | JArr items => $"[" ++ join $", " (map dumps items) ++ $"]"
  | JObj members =>
      $"{" ++ join $", " (map (fun kv => encode_str (fst kv) ++ $": "
                                             ++ dumps (snd kv)) members)
      ++ $"}"
  end.

(** *** Decoding *)

Definition decode_error (msg : string) : exn := JSONDecodeError $msg.

(** White space between tokens: [" \t\n\r"]. *)
Definition is_ws (c : ascii) : bool := in_chars [" "%char; tab; newline; ascii_of_nat 13] c.
Definition skip_ws (s : str) : str := dropwhile is_ws s.

Definition hex_val (c : ascii) : option nat :=
  let n := code c in
  if isdigit c then Some (n - 48)
  else if (97 <=? n) && (n <=? 102) then Some (n - 87)
  else if (65 <=? n) && (n <=? 70) then Some (n - 55)
  else None.

(** [BACKSLASH]: the one-character escapes. *)
Definition unescape (c : ascii) : option ascii :=
  let n := code c in
  if n =? 34 then Some dquote
  else if n =? 92 then Some backslash
  else if n =? 47 then Some "/"%char
  else if n =? 98 then Some (ascii_of_nat 8)
  else if n =? 102 then Some (ascii_of_nat 12)
  else if n =? 110 then Some newline
  else if n =? 114 then Some (ascii_of_nat 13)
  else if n =? 116 then Some tab
  else None.

(** [scanstring] in strict mode, from the character after the opening
    quote: the decoded text and what follows the closing quote. A
    [\uXXXX] escape above U+00FF is decoded by [json] to a character the
    model has no value for: the run ends with [BeyondLatin1]. *)
Fixpoint scanstring (s : str) : result (str * str) :=
  match s with
  | [] => Raise (decode_error "Unterminated string starting at")
  | c :: s' =>
      if chr_eqb c dquote then Ok ([], s')
      else if chr_eqb c backslash
      then
        match s' with
        | [] => Raise (decode_error "Unterminated string starting at")
        | e :: s'' =>
            if chr_eqb e "u"
            then
              match s'' with
              | h1 :: h2 :: h3 :: h4 :: s5 =>
                  match hex_val h1, hex_val h2, hex_val h3, hex_val h4 with
                  | Some a, Some b, Some c3, Some d =>
                      if (a =? 0) && (b =? 0)
                      then '(t, rest) <- scanstring s5 ;;
                           Ok (ascii_of_nat (16 * c3 + d) :: t, rest)
                      else Raise (BeyondLatin1 $"escape above U+00FF")
                  | _, _, _, _ => Raise (decode_error "Invalid \uXXXX escape")
                  end
              | _ => Raise (decode_error "Invalid \uXXXX escape")
              end
            else
              match unescape e with
              | Some ch => '(t, rest) <- scanstring s'' ;; Ok (ch :: t, rest)
              | None => Raise (decode_error "Invalid \escape")
              end
        end
      else if code c <? 32
      then Raise (decode_error "Invalid control character at")
      else '(t, rest) <- scanstring s' ;; Ok (c :: t, rest)
  end.

(** [NUMBER_RE]: an optional minus sign and "0" or a run of digits that
    does not start with "0"; an optional fraction; an optional exponent.
    The result is the three groups and the rest. *)
Definition match_int_part (s : str) : option (str * str) :=
  let '(sign, s1) := match s with
                     | c :: s' => if chr_eqb c "-" then ([c], s') else ([], s)
                     | [] => ([], s)
                     end in
  match s1 with
  | c :: s2 =>
      if chr_eqb c "0" then Some (sign ++ [c], s2)
      else if isdigit c
      then let '(run, rest) := span isdigit s1 in Some (sign ++ run, rest)
      else None
  | [] => None
  end.

Definition match_frac (s : str) : str * str :=
  match s with
  | c :: s' =>
      if chr_eqb c "."
      then match span isdigit s' with
           | ((_ :: _) as run, rest) => (c :: run, rest)
           | _ => ([], s)
           end
      else ([], s)
  | [] => ([], s)
  end.

Definition match_exp (s : str) : str * str :=
  match s with
  | c :: s' =>
      if chr_eqb c "e" || chr_eqb c "E"
      then
        let '(sign, s1) :=
          match s' with
          | g :: s'' => if chr_eqb g "-" || chr_eqb g "+" then ([g], s'')
                        else ([], s')
          | [] => ([], s')
          end in
        match span isdigit s1 with
        | ((_ :: _) as run, rest) => (c :: sign ++ run, rest)
        | _ => ([], s)
        end
      else ([], s)
  | [] => ([], s)
  end.

(** [int(text)] for an optional minus sign and digits. *)
Definition int_of_str (text : str) : Z :=
  match text with
  | c :: digits => if chr_eqb c "-" then (- int_of_digits digits)%Z
                   else int_of_digits text
  | [] => 0%Z
  end.

Definition number_re (s : str) : option (value * str) :=
  match match_int_part s with
  | Some (integer, s1) =>
      let '(frac, s2) := match_frac s1 in
      let '(exp, s3) := match_exp s2 in
      if truthy frac || truthy exp
      then Some (JFloat (integer ++ frac ++ exp), s3)
      else Some (JInt (int_of_str integer), s3)
  | None => None
  end.

(** A literal word at the head of the text. *)
Definition word (w : string) (v : value) (s : str) : option (value * str) :=
  if startswith s $w then Some (v, slice_from s (length $w)) else None.

(** The [dict] the object parser builds from the pairs it has read: a
    key read again keeps its place and takes the later value. *)
Fixpoint obj_set (d : list (str * value)) (k : str) (v : value)
  : list (str * value) :=
  match d with
  | [] => [(k, v)]
  | (k', v') :: d' =>
      if str_eqb k' k then (k', v) :: d' else (k', v') :: obj_set d' k v
  end.

Definition dict_of_pairs (pairs : list (str * value)) : list (str * value) :=
  fold_left (fun d kv => obj_set d (fst kv) (snd kv)) pairs [].

(** [scan_once], [JSONArray] and [JSONObject]. Every call reads at least
    one character, so [fuel] bounds the nesting of the calls by the length
    of the text. *)
Fixpoint scan_once (fuel : nat) (s : str) {struct fuel}
  : result (value * str) :=
  match fuel with
  | 0 => Raise (decode_error "Expecting value")
  | S fuel' =>
      match s with
      | [] => Raise (decode_error "Expecting value")
      | c :: s' =>
          if chr_eqb c dquote
          then '(t, rest) <- scanstring s' ;; Ok (JStr t, rest)
          else if chr_eqb c "{"
          then
            let s1 := skip_ws s' in
            match s1 with
            | c1 :: s2 =>
                if chr_eqb c1 "}" then Ok (JObj [], s2)
                else '(pairs, rest) <- scan_members fuel' s1 ;;
                     Ok (JObj (dict_of_pairs pairs), rest)
            | [] =>
                Raise (decode_error
                         "Expecting property name enclosed in double quotes")
            end
          else if chr_eqb c "["
          then
            let s1 := skip_ws s' in
            match s1 with
            | c1 :: s2 =>
                if chr_eqb c1 "]" then Ok (JArr [], s2)
                else '(items, rest) <- scan_items fuel' s1 ;;
                     Ok (JArr items, rest)
            | [] => Raise (decode_error "Expecting value")
            end
          else
            match word "null" JNull s with
            | Some r => Ok r
            | None =>
            match word "true" (JBool true) s with
            | Some r => Ok r
            | None =>
            match word "false" (JBool false) s with
            | Some r => Ok r
            | None =>
            match number_re s with
            | Some r => Ok r
            | None =>
            match word "NaN" (JFloat $"NaN") s with
            | Some r => Ok r
            | None =>
            match word "Infinity" (JFloat $"Infinity") s with
            | Some r => Ok r
            | None =>
            match word "-Infinity" (JFloat $"-Infinity") s with
            | Some r => Ok r
            | None => Raise (decode_error "Expecting value")
            end end end end end end end
      end
  end

(** The items of an array, from the first character of an item. *)
with scan_items (fuel : nat) (s : str) {struct fuel}
  : result (list value * str) :=
  match fuel with
  | 0 => Raise (decode_error "Expecting value")
  | S fuel' =>
      '(v, s1) <- scan_once fuel' s ;;
      match skip_ws s1 with
      | c :: s2 =>
          if chr_eqb c "]" then Ok ([v], s2)
          else if chr_eqb c ","
          then '(vs, rest) <- scan_items fuel' (skip_ws s2) ;;
               Ok (v :: vs, rest)
          else Raise (decode_error "Expecting ',' delimiter")
      | [] => Raise (decode_error "Expecting ',' delimiter")
      end
  end

(** The members of an object, from the first character of a key. *)
with scan_members (fuel : nat) (s : str) {struct fuel}
  : result (list (str * value) * str) :=
  match fuel with
  | 0 => Raise (decode_error "Expecting value")
  | S fuel' =>
      match s with
      | q :: s0 =>
          if chr_eqb q dquote
          then
            '(k, s1) <- scanstring s0 ;;
            match skip_ws s1 with
            | colon :: s2 =>
                if chr_eqb colon ":"
                then
                  '(v, s3) <- scan_once fuel' (skip_ws s2) ;;
                  match skip_ws s3 with
                  | c :: s4 =>
                      if chr_eqb c "}" then Ok ([(k, v)], s4)
                      else if chr_eqb c ","
                      then '(kvs, rest) <- scan_members fuel' (skip_ws s4) ;;
                           Ok ((k, v) :: kvs, rest)
                      else Raise (decode_error "Expecting ',' delimiter")
                  | [] => Raise (decode_error "Expecting ',' delimiter")
                  end
                else Raise (decode_error "Expecting ':' delimiter")
            | [] => Raise (decode_error "Expecting ':' delimiter")
            end
          else Raise (decode_error
                        "Expecting property name enclosed in double quotes")
      | [] => Raise (decode_error
                       "Expecting property name enclosed in double quotes")
      end
  end.

(** [json.loads(s)]: one value between optional white space. *)
Definition loads (s : str) : result value :=
  '(v, rest) <- scan_once (2 * length s + 2) (skip_ws s) ;;
  match skip_ws rest with
  | [] => Ok v
  | _ => Raise (decode_error "Extra data")
  end.

End Json.

(* ================================================================== *)
(** ** The streamed-payload scanner *)
(* ================================================================== *)

Import Json.

Definition NEXT_FLIGHT_NEEDLE : str := $"self.__next_f.push([".

(** [_skip_js_string]: the [while i < length] loop. Every round moves
    [i] forward, so [fuel] bounds the rounds by the length of the text. *)
Fixpoint _skip_js_string_loop (fuel : nat) (source : str) (i : nat) : nat :=
  match fuel with
  | 0 => length source - 1
  | S fuel' =>
      match nth_error source i with
      | None => length source - 1
      | Some char =>
          if chr_eqb char backslash
          then _skip_js_string_loop fuel' source (i + 2)
          else if chr_eqb char dquote then i
          else _skip_js_string_loop fuel' source (i + 1)
      end
  end.

Definition _skip_js_string (source : str) (start : nat) : nat :=
  _skip_js_string_loop (length source) source (start + 1).

(** The bracket walk of [_iter_next_flight_payloads]:
    [while i < length and depth > 0]. The result is the final [i] and
    [depth]. *)
Fixpoint flight_depth_walk (fuel : nat) (html : str) (i depth : nat)
  : nat * nat :=
  match fuel with
  | 0 => (i, depth)
  | S fuel' =>
      match nth_error html i, depth with
      | Some char, S below =>
          if chr_eqb char dquote
          then flight_depth_walk fuel' html (_skip_js_string html i + 1) depth
          else if chr_eqb char "["
          then flight_depth_walk fuel' html (i + 1) (depth + 1)
          else if chr_eqb char "]"
          then match below with
               | 0 => (i, 0)
               | _ => flight_depth_walk fuel' html (i + 1) below
               end
          else flight_depth_walk fuel' html (i + 1) depth
      | _, _ => (i, depth)
      end
  end.

(** [json.loads(literal)] guarded by [except json.JSONDecodeError] and
    [isinstance(decoded, str)]: [Ok None] when nothing is yielded. *)
Definition decoded_string (literal : str) : result (option str) :=
  match loads literal with
  | Ok (JStr s) => Ok (Some s)
  | Ok _ => Ok None
  | Raise (JSONDecodeError _) => Ok None
  | Raise e => Raise e
  end.

(** The walk over one argument block: [while j <= block_end]. [html[j]]
    exists there because [block_end] is the position of a bracket. *)
Fixpoint flight_literals (fuel : nat) (html : str) (j block_end : nat)
  : yields str :=
  match fuel with
  | 0 => ([], None)
  | S fuel' =>
      if j <=? block_end
      then
        match nth_error html j with
        | Some char =>
            if chr_eqb char dquote
            then
              let end_ := _skip_js_string html j in
              let literal := slice html j (end_ + 1) in
              match decoded_string literal with
              | Raise e => ([], Some e)
              | Ok decoded =>
                  let '(rest, ending) :=
                    flight_literals fuel' html (end_ + 1) block_end in
                  ((match decoded with
                    | Some payload => [payload]
                    | None => []
                    end) ++ rest, ending)
              end
            else flight_literals fuel' html (j + 1) block_end
        | None => ([], None)
        end
      else ([], None)
  end.

(** The outer [while True] loop. *)
Fixpoint flight_payloads_loop (fuel : nat) (html : str) (pos : nat)
  : yields str :=
  match fuel with
  | 0 => ([], None)
  | S fuel' =>
      match find html NEXT_FLIGHT_NEEDLE pos with
      | None => ([], None)
      | Some start =>
          let '(i, depth) :=
            flight_depth_walk (length html) html
              (start + length NEXT_FLIGHT_NEEDLE) 1 in
          if negb (depth =? 0) then ([], None)
          else
            let block_start := start + length $"self.__next_f.push(" in
            match flight_literals (length html) html block_start i with
            | (block, Some e) => (block, Some e)
            | (block, None) =>
                let '(rest, ending) :=
                  flight_payloads_loop fuel' html (i + 1) in
                (block ++ rest, ending)
            end
      end
  end.

(** The generator [_iter_next_flight_payloads] as it runs: what it
    yields and what ends it. *)
Definition flight_payloads_run (html : str) : yields str :=
  if negb (contains html NEXT_FLIGHT_NEEDLE) then ([], None)
  else flight_payloads_loop (S (length html)) html 0.

(** [_iter_next_flight_payloads]: the payloads it yields, in order. *)
Definition _iter_next_flight_payloads (html : str) : list str :=
  fst (flight_payloads_run html).

(** The backward loop of [_extract_json_arrays_from_text] that decides
    whether the quote at [i] is escaped; [n] is [back + 1]. *)
Fixpoint escaped_loop (payload : str) (n : nat) (escaped : bool) : bool :=
  match n with
  | 0 => escaped
  | S back =>
      match nth_error payload back with
      | Some c => if chr_eqb c backslash
                  then escaped_loop payload back (negb escaped)
                  else escaped
      | None => escaped
      end
  end.

(** The inner [while i < length] loop: the position of the bracket that
    closes the array, if the loop yields, and the final [i]. *)
Fixpoint array_walk (fuel : nat) (payload : str) (i depth : nat)
    (in_string : bool) : option nat * nat :=
  match fuel with
  | 0 => (None, i)
  | S fuel' =>
      match nth_error payload i with
      | None => (None, i)
      | Some char =>
          if chr_eqb char dquote
          then
            let escaped := escaped_loop payload i false in
            array_walk fuel' payload (i + 1) depth
              (if escaped then in_string else negb in_string)
          else if in_string then array_walk fuel' payload (i + 1) depth true
          else if chr_eqb char "["
          then array_walk fuel' payload (i + 1) (depth + 1) false
          else if chr_eqb char "]"
          then match depth with
               | 1 => (Some i, i)
               | _ => array_walk fuel' payload (i + 1) (depth - 1) false
               end
          else array_walk fuel' payload (i + 1) depth false
      end
  end.

(** The outer [while True] loop. *)
Fixpoint json_arrays_loop (fuel : nat) (payload key : str) (idx : nat)
  : list str :=
  match fuel with
  | 0 => []
  | S fuel' =>
      match find payload key idx with
      | None => []
      | Some idx =>
          match find payload $"[" (idx + length key) with
          | None => []
          | Some start =>
              let '(closing, i) :=
                array_walk (length payload) payload start 0 false in
              (match closing with
               | Some j => [slice payload start (j + 1)]
               | None => []
               end)
              ++ json_arrays_loop fuel' payload key (i + 1)
          end
      end
  end.

Definition _extract_json_arrays_from_text (payload key : str) : list str :=
  json_arrays_loop (length payload + 2) payload key 0.

(** [_extract_flight_faq_entries]. *)
Definition faq_key : str := dquote :: $"faq" ++ [dquote; ":"%char].

Definition obj_get (members : list (str * value)) (k : str) : option value :=
  match List.find (fun kv => str_eqb (fst kv) k) members with
  | Some kv => Some (snd kv)
  | None => None
  end.

(** The loop over the entries of one decoded array. *)
Fixpoint flight_entries (data : list value) (seen : list str)
    (entries : list fallback_entry) : list str * list fallback_entry :=
  match data with
  | [] => (seen, entries)
  | JObj entry :: rest =>
      match obj_get entry $"question", obj_get entry $"answer" with
      | Some (JStr q), Some (JStr a) =>
          let normalized := _normalize_question q in
          if truthy normalized && negb (mem normalized seen)
          then flight_entries rest (normalized :: seen)
                 (entries ++ [FallbackEntry (strip q) (strip a)])
          else flight_entries rest seen entries
      | _, _ => flight_entries rest seen entries
      end
  | _ :: rest => flight_entries rest seen entries
  end.

(** The loop over the arrays of one payload: [json.loads(array_text)]
    guarded by [except json.JSONDecodeError: continue]. *)
Definition flight_arrays (array_texts : list str) (seen : list str)
    (entries : list fallback_entry)
  : result (list str * list fallback_entry) :=
  fold_result (fun acc array_text =>
                 match loads array_text with
                 | Ok (JArr data) =>
                     Ok (flight_entries data (fst acc) (snd acc))
                 | Ok _ => Ok acc
                 | Raise (JSONDecodeError _) => Ok acc
                 | Raise e => Raise e
                 end)
              array_texts (seen, entries).

(** The loop over the payloads, each handled as it is yielded; what ends
    the generator comes after the last of them. *)
Definition _extract_flight_faq_entries (html : str)
  : result (list fallback_entry) :=
  let '(payloads, ending) := flight_payloads_run html in
  acc <- fold_result
           (fun acc payload =>
              if negb (contains payload faq_key) then Ok acc
              else flight_arrays
                     (_extract_json_arrays_from_text payload faq_key)
                     (fst acc) (snd acc))
           payloads ([], []) ;;
  match ending with
  | Some e => Raise e
  | None => Ok (snd acc)
  end.

(** *** The embedding of C2 *)

(** A script call that carries [payload] as its string argument, between
    [before] and [after]; [args] is what the call passes ahead of the
    string, "1," on real pages. *)
Definition flight_call (args payload : str) : str :=
  NEXT_FLIGHT_NEEDLE ++ args ++ encode_str payload ++ $"])".

(** The array of the specification's example: its one item is the
    string made of a, a double quote and b. *)
Definition quoted_array : value := JArr [JStr ($"a" ++ [dquote] ++ $"b")].

Definition quoted_payload : str := $"1:{" ++ faq_key ++ dumps quoted_array ++ $"}".

Definition quoted_html : str :=
  $"<script>" ++ flight_call $"1," quoted_payload ++ $"</script>".

(** *** Well-formed documents *)

(** A float as [float.__repr__] writes it when it is finite: [NUMBER_RE]
    reads the whole text and finds a fraction or an exponent. *)
Definition float_literal (literal : str) : bool :=
  match number_re literal with
  | Some (JFloat _, []) => true
  | _ => false
  end.

(** A character of a number. *)
Definition number_chr (c : ascii) : bool := isdigit c || in_chars $"+-.eE" c.

(** Every float of the document is finite and written as a number. *)
Fixpoint finite_floats (v : value) : bool :=
  match v with
  | JFloat literal => float_literal literal
  | JArr items => forallb finite_floats items
  | JObj members => forallb (fun kv => finite_floats (snd kv)) members
  | _ => true
  end.

Fixpoint distinct (keys : list str) : bool :=
  match keys with
  | [] => true
  | k :: rest => negb (mem k rest) && distinct rest
  end.

(** The keys of every object are pairwise distinct, as in a [dict]. *)
Fixpoint unique_keys (v : value) : bool :=
  match v with
  | JArr items => forallb unique_keys items
  | JObj members =>
      distinct (map fst members)
      && forallb (fun kv => unique_keys (snd kv)) members
  | _ => true
  end.

(** The fuel [scan_once] needs to read back [dumps v]. *)
Fixpoint weight (v : value) : nat :=
  match v with
  | JArr items => S (list_sum (map (fun x => S (weight x)) items))
  | JObj members => S (list_sum (map (fun kv => S (weight (snd kv))) members))
  | _ => 1
  end.

(** What may follow a number for it to be read whole. *)
Definition ends_number (rest : str) : bool :=
  match rest with
  | [] => true
  | c :: _ => negb (isdigit c || in_chars $".eE" c)
  end.


(** What may follow a value inside an array or an object, or at the end
    of the text. *)
Definition terminator (rest : str) : bool :=
  match rest with
  | [] => true
  | c :: _ => in_chars $",]}" c
  end.

(** The first character of a value is no white space and closes
    nothing. *)
Definition value_head (c : ascii) : bool :=
  negb (is_ws c) && negb (in_chars $",]}" c).

(** The text [dumps] writes for one member of an object. *)
Definition member_text (kv : str * value) : str :=
  encode_str (fst kv) ++ $": " ++ dumps (snd kv).


(** *** Reading the scanners' index loops *)

(** Whether an odd number of backslashes ends the text whose reversal is
    [rt], starting the count from [escaped]. *)
Fixpoint bs_parity (rt : str) (escaped : bool) : bool :=
  match rt with
  | c :: rt' => if chr_eqb c backslash then bs_parity rt' (negb escaped)
                else escaped
  | [] => escaped
  end.

(** The text ends with an even number of backslashes. *)
Definition even_bs (t : str) : Prop := bs_parity (rev t) false = false.

(** A character the bracket walks pass over outside a string. *)
Definition plain_chr (c : ascii) : bool :=
  negb (chr_eqb c dquote) && negb (chr_eqb c backslash)
  && negb (chr_eqb c "[") && negb (chr_eqb c "]").

(** The shapes of the text [encode_chr] writes for one character. *)
Inductive token : str -> Prop :=
| token_plain c : plain_chr c = true -> token [c]
| token_bracket c : (chr_eqb c "[" || chr_eqb c "]") = true -> token [c]
| token_escape c : plain_chr c = true -> token [backslash; c]
| token_quote : token [backslash; dquote]
| token_backslash : token [backslash; backslash]
| token_u h1 h2 :
    plain_chr h1 = true -> plain_chr h2 = true ->
    token [backslash; "u"%char; "0"%char; "0"%char; h1; h2].

(** A character that may stand between the opening bracket of the call
    and its string argument: no quote and no bracket. *)
Definition arg_chr (c : ascii) : bool :=
  negb (chr_eqb c dquote) && negb (chr_eqb c "[") && negb (chr_eqb c "]").


(** [array_walk] read on the text split at [i]: [rp] is the text before
    [i], reversed, and [rest] the text from [i] on. *)
Fixpoint array_walk_at (rp rest : str) (depth : nat) (in_string : bool)
  : option nat * nat :=
  match rest with
  | [] => (None, length rp)
  | char :: rest' =>
      if chr_eqb char dquote
      then array_walk_at (char :: rp) rest' depth
             (if bs_parity rp false then in_string else negb in_string)
      else if in_string then array_walk_at (char :: rp) rest' depth true
      else if chr_eqb char "["
      then array_walk_at (char :: rp) rest' (depth + 1) false
      else if chr_eqb char "]"
      then match depth with
           | 1 => (Some (length rp), length rp)
           | _ => array_walk_at (char :: rp) rest' (depth - 1) false
           end
      else array_walk_at (char :: rp) rest' depth false
  end.

(** The walk passes over the text [t] inside an array: it starts and
    ends outside a string, at the same depth, and an even number of
    backslashes precedes what follows. *)
Definition passed_over (t : str) : Prop :=
  forall rp rest depth,
    bs_parity rp false = false -> 1 <= depth ->
    array_walk_at rp (t ++ rest) depth false
    = array_walk_at (rev_append t rp) rest depth false
    /\ bs_parity (rev_append t rp) false = false.


(* ================================================================== *)
(** ** The pipeline: [fetch_listing_snapshot] *)
(* ================================================================== *)

(** Truthiness of a decoded JSON value; a float is false when its
    mantissa holds no digit but zero. *)
Definition value_truthy (v : value) : bool :=
  match v with
  | JNull => false
  | JBool b => b
  | JInt n => negb (n =? 0)%Z
  | JFloat literal =>
      existsb (fun c => isdigit c && negb (chr_eqb c "0"))
              (fst (Url.span_until (in_chars $"eE") literal))
  | JStr s => truthy s
  | JArr items => match items with [] => false | _ => true end
  | JObj members => match members with [] => false | _ => true end
  end.

(** [_safe_json_loads]; [JNull] stands for [None]. Only
    [json.JSONDecodeError] is caught. *)
Definition _safe_json_loads (payload : str) : result value :=
  match loads payload with
  | Ok v => Ok v
  | Raise (JSONDecodeError _) => Ok JNull
  | Raise e => Raise e
  end.

(** The timeout of a call is a finite number of seconds, taken as a
    rational, and so is its product with 1000; [int(x)] truncates toward
    zero. *)
Definition py_int (x : Q) : Z :=
  if Qle_bool 0 x then Qfloor x else Qceiling x.

(** What [httpx] hands back for one request: [resp_url] is
    [str(response.url)], [resp_params] is [dict(response.url.params)] and
    [resp_json] is what calling [response.json()] does. *)
Record response : Type :=
  Response { resp_status_code : Z; resp_url : str; resp_text : str;
             resp_params : list (str * str); resp_json : result value }.

(** The values the last, pure part of the call (the summary of the page
    payload, the flattening and [_build_flat_snapshot]) is computed
    from. *)
Record listing : Type :=
  ListingParts { lp_final_url : str;
                 lp_jsonld : list value;
                 lp_dom_feature_sections : list feature_section;
                 lp_dom_faq_sections : list faq_section;
                 lp_page_payload : option value;
                 lp_pricing_options : list str }.

(** What a call does that can be seen from outside, in the order it does
    it: [fetch_listing_snapshot] is entered with a target and
    [_allow_profile_hop], the browser is asked for a URL, the client is
    asked for a URL with parameters. *)
Inductive event : Type :=
| Entered (target : str) (_allow_profile_hop : bool)
| Rendered (url : str)
| Requested (url : str) (params : list (str * str)).

(** The invocations of a log: targets and flags, in order. *)
Fixpoint entered (log : list event) : list (str * bool) :=
  match log with
  | [] => []
  | Entered target allow :: rest => (target, allow) :: entered rest
  | _ :: rest => entered rest
  end.

(** The invocations of a loop over [product_urls] that disables the
    hop. *)
Definition child_calls (product_urls : list str) : list (str * bool) :=
  map (fun product_url => (product_url, false)) product_urls.

Section Pipeline.

Variable ip_address : str -> option Url.ip_kind.

(** The headless browser: [page.content()] and [page.url] after the
    navigation to a URL with a wait of so many milliseconds, or the
    exception the session ends with. *)
Variable browser : str -> Z -> result (str * str).

(** [client.get(url, params=params)]. *)
Variable client_get : str -> list (str * str) -> result response.

(** [_build_dom_tree], and what [_HTMLSnapshotParser] leaves in
    [jsonld_scripts] and [next_data_script] after [feed]; they run on
    [html.parser] of the standard library. *)
Variable _build_dom_tree : str -> option _DOMTreeBuilder.
Variable jsonld_scripts : str -> list str.
Variable next_data_script : str -> option str.

(** The flat snapshot and the pure part that builds it. *)
Variable flat_snapshot : Type.
Variable flat_snapshot_of : listing -> result flat_snapshot.

(** [_render_listing_with_playwright]: every exception of the session is
    caught. *)
Definition _render_listing_with_playwright (url : str) (timeout : Q)
  : option str * option str :=
  let wait_ms := Z.max (py_int (timeout * 1000)%Q) 1000 in
  match browser url wait_ms with
  | Ok (html, final_url) => (Some html, Some final_url)
  | Raise _ => (None, None)
  end.

(** [_build_next_data_url]. *)
Definition _build_next_data_url (final_url build_id : str)
  : result (option str) :=
  parsed <- Url.urlparse ip_address final_url [] ;;
  if negb (truthy (Url.scheme parsed)) || negb (truthy (Url.netloc parsed))
  then Ok None
  else
    let path := if truthy (Url.path parsed) then Url.path parsed else $"/" in
    let path := if str_eqb (slice_from path (length path - 1)) $"/"
                   && negb (str_eqb path $"/")
                then removelast path else path in
    let suffix := if mem path [[]; $"/"] then $"index"
                  else lstrip_chars $"/" path in
    let base := Url.urlunparse
                  (Url.mkParse (Url.scheme parsed) (Url.netloc parsed)
                     [] [] [] []) in
    Ok (Some (base ++ $"/_next/data/" ++ build_id ++ $"/" ++ suffix
              ++ $".json")).

(** The loop over [parser.jsonld_scripts]: the decoded documents the
    products and organizations are collected from. *)
Fixpoint jsonld_loop (blobs : list str) (documents : list value)
  : result (list value) :=
  match blobs with
  | [] => Ok documents
  | blob :: rest =>
      parsed <- _safe_json_loads blob ;;
      match parsed with
      | JNull => jsonld_loop rest documents
      | _ => jsonld_loop rest (documents ++ [parsed])
      end
  end.

(** The address of the hydration data, from [next_data = ...] to
    [if next_data_url:]; [None] when no request is made. *)
Definition hydration_url (final_url : str) (script : option str)
  : result (option str) :=
  next_data <- (if otruthy script then _safe_json_loads (or_empty script)
                else Ok JNull) ;;
  let build_id := match next_data with
                  | JObj members => obj_get members $"buildId"
                  | _ => None
                  end in
  match build_id with
  | Some (JStr build_id) =>
      next_data_url <- _build_next_data_url final_url build_id ;;
      if otruthy next_data_url then Ok next_data_url else Ok None
  | _ => Ok None
  end.

(** The request itself, [try: data_resp = client.get(...)] to
    [except httpx.HTTPError: pass]: the value of [page_payload]. *)
Definition hydration_payload (response : response) (next_data_url : str)
  : result (option value) :=
  let params := resp_params response in
  match
    (data_resp <- client_get next_data_url params ;;
     if (resp_status_code data_resp =? 200)%Z
     then
       payload_candidate <- resp_json data_resp ;;
       match payload_candidate with
       | JObj members =>
           match obj_get members $"pageProps" with
           | Some page_props =>
               if value_truthy page_props then Ok (Some page_props)
               else Ok (Some payload_candidate)
           | None => Ok (Some payload_candidate)
           end
       | _ => Ok None
       end
     else Ok None)
  with
  | Raise (HTTPError _) => Ok None
  | outcome => outcome
  end.

(** The extraction of one listing page, from
    [flight_faq_entries = ...] to the end of the call, with the requests
    it makes. [dom_reviews] and [organizations] are computed there and
    never read; an exception of [_extract_dom_reviews] ends the call all
    the same, before the hydration request. *)
Definition listing_snapshot (response : response) (final_url : str)
    (rendered_dom_builder dom_builder : option _DOMTreeBuilder)
  : list event * result flat_snapshot :=
  let html_text := resp_text response in
  match _extract_flight_faq_entries html_text with
  | Raise e => ([], Raise e)
  | Ok flight_faq_entries =>
  let dom_feature_sections := _extract_dom_features dom_builder in
  let dom_faq_sections := _extract_dom_faqs dom_builder in
  let dom_faq_sections :=
    _merge_faq_sections dom_faq_sections flight_faq_entries in
  match _extract_dom_reviews dom_builder with
  | Raise e => ([], Raise e)
  | Ok dom_reviews =>
  let pricing_builder := match rendered_dom_builder with
                         | Some b => Some b
                         | None => dom_builder
                         end in
  let pricing_options := _extract_pricing_options pricing_builder in
  let finish documents page_payload :=
    flat_snapshot_of
      (ListingParts final_url documents dom_feature_sections
         dom_faq_sections page_payload pricing_options) in
  match jsonld_loop (jsonld_scripts html_text) [] with
  | Raise e => ([], Raise e)
  | Ok documents =>
      match hydration_url final_url (next_data_script html_text) with
      | Raise e => ([], Raise e)
      | Ok None => ([], finish documents None)
      | Ok (Some next_data_url) =>
          ([Requested next_data_url (resp_params response)],
           page_payload <- hydration_payload response next_data_url ;;
           finish documents page_payload)
      end
  end
  end
  end.

(** What [fetch_listing_snapshot] returns: the flat snapshot of a listing,
    or the dictionary of a profile with the snapshots of its products. *)
Inductive snapshot : Type :=
| Listing (flat : flat_snapshot)
| Profile (requested_url profile_url : str) (profile_username : option str)
    (product_count : nat) (product_urls : list str)
    (products : list snapshot).

(** A run: the events in order, and the value returned or the exception
    raised; [None] when the fuel of the model ran out. *)
Definition run (A : Type) : Type := option (list event * result A).

(** [for product_url in product_links[:8]: snapshots.append(...)]. *)
Fixpoint fan_out (call : str -> run snapshot) (product_urls : list str)
  : run (list snapshot) :=
  match product_urls with
  | [] => Some ([], Ok [])
  | product_url :: rest =>
      match call product_url with
      | None => None
      | Some (log, Raise e) => Some (log, Raise e)
      | Some (log, Ok s) =>
          match fan_out call rest with
          | None => None
          | Some (log', Raise e) => Some (log ++ log', Raise e)
          | Some (log', Ok snapshots) => Some (log ++ log', Ok (s :: snapshots))
          end
      end
  end.

(** [rendered_final_url or str(response.url)]. *)
Definition resolved_url (rendered_final_url : option str) (response : response)
  : str :=
  if otruthy rendered_final_url then or_empty rendered_final_url
  else resp_url response.

(** The dictionary of a profile, or the exception of the child that
    raised. *)
Definition profile_of (url final_url : str) (segments product_links : list str)
    (children : result (list snapshot)) : result snapshot :=
  snapshots <- children ;;
  Ok (Profile url final_url (hd_error segments) (length product_links)
        product_links snapshots).

(** [fetch_listing_snapshot]. The client is the one network of the
    model, opened by the call or handed down; [try ... finally] closes it
    and catches nothing. [fuel] bounds the depth of the recursion. *)
Fixpoint fetch_listing_snapshot (fuel : nat) (target : str)
    (timeout : Q) (_allow_profile_hop : bool) {struct fuel}
  : run snapshot :=
  match fuel with
  | 0 => None
  | S fuel' =>
      match _normalize_target ip_address target with
      | Raise e => Some ([Entered target _allow_profile_hop], Raise e)
      | Ok (url, _slug) =>
          let '(rendered_html, rendered_final_url) :=
            _render_listing_with_playwright url timeout in
          let began := [Entered target _allow_profile_hop; Rendered url;
                        Requested url []] in
          match client_get url [] with
          | Raise e => Some (began, Raise e)
          | Ok response =>
              let final_url := resolved_url rendered_final_url response in
              match Url.urlparse ip_address final_url [] with
              | Raise e => Some (began, Raise e)
              | Ok parsed_final =>
                  let segments := path_segments (Url.path parsed_final) in
                  let html_text := resp_text response in
                  let dom_builder := _build_dom_tree html_text in
                  let rendered_dom_builder :=
                    if otruthy rendered_html
                    then _build_dom_tree (or_empty rendered_html)
                    else None in
                  let flat :=
                    let '(log, outcome) :=
                      listing_snapshot response final_url
                        rendered_dom_builder dom_builder in
                    Some (began ++ log, s <- outcome ;; Ok (Listing s)) in
                  if _allow_profile_hop && (length segments <=? 1)
                  then
                    match _extract_profile_product_paths ip_address
                            dom_builder final_url with
                    | Raise e => Some (began, Raise e)
                    | Ok [] => flat
                    | Ok product_links =>
                        match
                          fan_out (fun product_url =>
                                     fetch_listing_snapshot fuel' product_url
                                       timeout false)
                                  (firstn 8 product_links)
                        with
                        | None => None
                        | Some (log, children) =>
                            Some (began ++ log,
                                  profile_of url final_url segments
                                    product_links children)
                        end
                    end
                  else flat
              end
          end
      end
  end.

End Pipeline.

(** *** Sample worlds *)

(** No browser can be launched. *)
Definition no_browser (url : str) (wait_ms : Z) : result (str * str) :=
  Raise (PlaywrightError $"browser not installed").

(** No network: every request ends in [httpx.ConnectError]. *)
Definition offline_get (url : str) (params : list (str * str))
  : result response :=
  Raise (HTTPError $"ConnectError").

(** A profile page at https://whop.com/alice with nine products. *)
Definition crowded_doc : _DOMTreeBuilder :=
  document [anchor "/alice/p1"; anchor "/alice/p2"; anchor "/alice/p3";
            anchor "/alice/p4"; anchor "/alice/p5"; anchor "/alice/p6";
            anchor "/alice/p7"; anchor "/alice/p8"; anchor "/alice/p9"].

Definition crowded_html : str := $"<a href=/alice/p1>...".


Definition sample_dom (html : str) : option _DOMTreeBuilder :=
  if str_eqb html crowded_html then Some crowded_doc else Some (document []).

Definition no_scripts (html : str) : list str := [].
Definition no_next_data (html : str) : option str := None.


Definition offline_fetch (fuel : nat) (target : str) (allow : bool)
  : run (snapshot listing) :=
  fetch_listing_snapshot no_address no_browser offline_get sample_dom
    no_scripts no_next_data (@Ok listing) fuel target (30 # 1)%Q allow.




(* ================================================================== *)
(** ** Words and normal forms of text *)
(* ================================================================== *)

(** A word of [str.split()]: not empty and free of white space. *)
Definition is_word (w : str) : Prop :=
  w <> [] /\ forallb (fun c => negb (isspace c)) w = true.

(** A page whose one streamed payload carries one FAQ entry:
    the question "refunds?" with the answer "Within 30 days.". *)
Definition faq_payload : str :=
  $"1:{" ++ faq_key
  ++ dumps (JArr [JObj [($"question", JStr $"refunds?");
                        ($"answer", JStr $"Within 30 days.")]])
  ++ $"}".

Definition faq_html : str :=
  $"<script>" ++ flight_call $"1," faq_payload ++ $"</script>".

(** The fingerprint [_extract_dom_features] files a section under. *)
Definition feature_fingerprint (s : feature_section) : str :=
  join $"|" (fs_items s) ++ $"::" ++ join $"|" (fs_paragraphs s).

(** *** The feature extractor, as the order of its texts is worded

    These definitions are what [_extract_dom_features] is compared
    with. *)

(** No node with a tag of [tags] has another one below it, in the
    subtree of [n]. *)
Fixpoint unnested (tags : option (list str)) (n : _DOMNode) : bool :=
  if tag_ok tags n
  then negb (existsb (tag_ok tags) (_iter_dom_descendants n))
  else forallb (unnested tags) (children n).

(** The texts kept from a list of nodes: the texts that are not empty,
    each once, at most [limit] of them. *)
Definition kept_texts (limit : nat) (nodes : list _DOMNode) : list str :=
  firstn limit (dedup (filter truthy (map get_text nodes))).

(** The nodes with tag [t] below [container], in reverse document
    order. *)
Definition reverse_document_order (container : _DOMNode) (t : str)
  : list _DOMNode :=
  rev (filter (tag_ok (Some [t])) (_iter_dom_descendants container)).

(** A heading the feature extractor takes up. *)
Definition feature_heading (heading_node : located) : bool :=
  truthy (get_text (node_of heading_node))
  && contains (lower (get_text (node_of heading_node))) $"feature".

(** The section of a heading: the texts of the [li] and of the [p]
    nodes of its container, in the order [iter_descendants] has. *)
Definition section_of_heading (heading_node : located) : feature_section :=
  let container := node_of (container_for heading_node) in
  FeatureSection (strip (get_text (node_of heading_node)))
    (kept_texts 12 (iter_descendants container (Some [$"li"])))
    (kept_texts 6 (iter_descendants container (Some [$"p"]))).

(** Keep the first section of every fingerprint, in order. *)
Fixpoint first_of_fingerprint (seen : list str)
    (sections : list feature_section) : list feature_section :=
  match sections with
  | [] => []
  | s :: rest =>
      if mem (feature_fingerprint s) seen
      then first_of_fingerprint seen rest
      else s :: first_of_fingerprint (feature_fingerprint s :: seen) rest
  end.

Definition dom_features_reference (builder : option _DOMTreeBuilder)
  : list feature_section :=
  match builder with
  | None => []
  | Some b =>
      firstn 4 (first_of_fingerprint []
                  (map section_of_heading
                     (filter feature_heading (iter_tag b $"h2"))))
  end.

(** The texts of the nodes of [container] with tag [t]. *)
Definition texts_under (container : _DOMNode) (t : str) (text : str) : Prop :=
  text <> []
  /\ exists n, In n (iter_descendants container (Some [t])) /\ get_text n = text.

(** What holds of one section of [_extract_dom_features]: it comes from
    one of the headings, whose text is not empty and names features; its
    items are texts of [li] nodes and its paragraphs texts of [p] nodes
    of the heading's container, without repetition, at most 12 and 6. *)
Definition feature_section_ok (headings : list located) (s : feature_section)
  : Prop :=
  exists heading_node,
    In heading_node headings
    /\ fs_heading s = get_text (node_of heading_node)
    /\ fs_heading s <> []
    /\ contains (lower (fs_heading s)) $"feature" = true
    /\ length (fs_items s) <= 12 /\ NoDup (fs_items s)
    /\ Forall (texts_under (node_of (container_for heading_node)) $"li")
              (fs_items s)
    /\ length (fs_paragraphs s) <= 6 /\ NoDup (fs_paragraphs s)
    /\ Forall (texts_under (node_of (container_for heading_node)) $"p")
              (fs_paragraphs s).





(* ================================================================== *)
(** ** Structured data: JSON-LD and the page payload *)
(* ================================================================== *)

(** The items of a [dict] read from JSON, in insertion order. *)
Definition jdict : Type := list (str * value).

(** [node.get(key)]; [JNull] stands for [None]. *)
Definition dget (node : jdict) (key : str) : value :=
  match obj_get node key with
  | Some v => v
  | None => JNull
  end.

(** [a or b]. *)
Definition or_value (a b : value) : value := if value_truthy a then a else b.

(** [_type_matches]. *)
Fixpoint _type_matches (v : value) (expected : str) : bool :=
  match v with
  | JStr s => str_eqb (lower s) (lower expected)
  | JArr items => existsb (fun item => _type_matches item expected) items
  | _ => false
  end.

(** The number of values in a document. *)
Fixpoint vsize (v : value) : nat :=
  match v with
  | JArr items => S (list_sum (map vsize items))
  | JObj members => S (list_sum (map (fun kv => vsize (snd kv)) members))
  | _ => 1
  end.

(** [_iter_nodes]: the [while stack] loop. Every round pops one value
    of the document, so [fuel] bounds the rounds by the number of
    values. *)
Fixpoint _iter_nodes_loop (fuel : nat) (stack : list value) : list jdict :=
  match fuel with
  | 0 => []
  | S fuel' =>
      match pop stack with
      | None => []
      | Some (current, stack') =>
          match current with
          | JObj members =>
              members :: _iter_nodes_loop fuel' (stack' ++ map snd members)
          | JArr items => _iter_nodes_loop fuel' (stack' ++ items)
          | _ => _iter_nodes_loop fuel' stack'
          end
      end
  end.

Definition _iter_nodes (obj : value) : list jdict :=
  _iter_nodes_loop (vsize obj) [obj].

(** [_collect_by_type]. *)
Definition _collect_by_type (obj : value) (typename : str) : list jdict :=
  match obj with
  | JNull => []
  | _ => filter (fun node => _type_matches (dget node $"@type") typename)
                (_iter_nodes obj)
  end.

(** [_ensure_list]. *)
Definition _ensure_list (v : value) : list value :=
  match v with
  | JNull => []
  | JArr items => items
  | _ => [v]
  end.

(** [_extract_name]. *)
Definition _extract_name (v : value) : option str :=
  match v with
  | JObj node => match dget node $"name" with
                 | JStr name => Some name
                 | _ => None
                 end
  | JStr s => Some s
  | _ => None
  end.

(** The dictionaries of the payload: every object below the document,
    the object itself first, and below an object or an array the last
    value first. *)
Fixpoint mirror_dicts (v : value) : list jdict :=
  match v with
  | JObj members =>
      members
      :: concat (rev (map (fun kv => mirror_dicts (snd kv)) members))
  | JArr items => concat (rev (map mirror_dicts items))
  | _ => []
  end.

Section PyStr.

(** [str(x)] for the float read from a literal: the shortest numeral
    that reads back as the same float. *)
Variable float_repr : str -> str.

(** [str(v)] for a string or a number; [bool] is a subclass of [int]. *)
Definition py_str (v : value) : str :=
  match v with
  | JStr s => s
  | JBool true => $"True"
  | JBool false => $"False"
  | JInt n => str_of_int n
  | JFloat literal => float_repr literal
  | _ => []
  end.

(** [_as_strings]. *)
Definition _as_strings (v : value) : list str :=
  flat_map (fun entry =>
              match entry with
              | JStr _ | JInt _ | JFloat _ | JBool _ => [py_str entry]
              | _ => []
              end)
           (_ensure_list v).

(** The loop of [_as_text] over the keys of a dictionary. *)
Fixpoint as_text_keys (node : jdict) (keys : list str) : option str :=
  match keys with
  | [] => None
  | key :: rest =>
      match dget node key with
      | JStr candidate =>
          let normalized := strip candidate in
          if truthy normalized then Some normalized
          else as_text_keys node rest
      | _ => as_text_keys node rest
      end
  end.

(** [_as_text]. *)
Definition _as_text (v : value) : option str :=
  match v with
  | JStr s => or_none (strip s)
  | JInt _ | JFloat _ | JBool _ => Some (py_str v)
  | JObj node =>
      as_text_keys node [$"text"; $"label"; $"title"; $"name"; $"value"]
  | _ => None
  end.

(** [_first_text] on a dictionary. *)
Fixpoint _first_text (node : jdict) (keys : list str) : option str :=
  match keys with
  | [] => None
  | key :: rest =>
      let text := _as_text (dget node key) in
      if otruthy text then text else _first_text node rest
  end.

Definition TITLE_KEYS : list str :=
  [$"title"; $"heading"; $"headline"; $"name"; $"label"].

Definition DESC_KEYS : list str :=
  [$"subtitle"; $"description"; $"body"; $"summary"; $"text"; $"copy";
   $"details"; $"tagline"].

Definition CTA_KEYS : list str :=
  [$"cta"; $"ctaText"; $"ctaLabel"; $"ctaButton"; $"primaryCta";
   $"ctaPrimary"; $"action"].

Definition FEATURE_KEYS : list str :=
  [$"features"; $"featurelist"; $"items"; $"perks"; $"benefits"; $"bullets";
   $"sellingpoints"; $"highlights"; $"points"; $"listitems"].

(** [{"text": text, "href": href}]. *)
Record cta : Type := Cta { cta_text : option str; cta_href : value }.

(** [_extract_cta]: the loop over [CTA_KEYS]. *)
Fixpoint extract_cta_keys (node : jdict) (keys : list str) : option cta :=
  match keys with
  | [] => None
  | key :: rest =>
      match dget node key with
      | JObj value =>
          let text := _as_text (JObj value) in
          let href := or_value (dget value $"href")
                        (or_value (dget value $"url") (dget value $"link")) in
          if otruthy text || value_truthy href then Some (Cta text href)
          else extract_cta_keys node rest
      | JStr value =>
          let text := strip value in
          if truthy text then Some (Cta (Some text) JNull)
          else extract_cta_keys node rest
      | _ => extract_cta_keys node rest
      end
  end.

Definition _extract_cta (node : jdict) : option cta :=
  extract_cta_keys node CTA_KEYS.

(** The hero of [_extract_hero_from_payload]. *)
Record hero : Type :=
  Hero { hero_title : str; hero_subtitle : option str;
         hero_badge : option str; hero_rating : option str;
         hero_cta : option cta }.

(** The body of the loop of [_extract_hero_from_payload] for one node:
    the hero the node gives, if it gives one. *)
Definition hero_of_node (node : jdict) : option hero :=
  let title := _first_text node TITLE_KEYS in
  let subtitle := _first_text node DESC_KEYS in
  let cta := _extract_cta node in
  let badge := _as_text (or_value (dget node $"badge") (dget node $"tag")) in
  let rating_value :=
    or_value (dget node $"rating")
      (or_value (dget node $"ratingValue") (dget node $"ratingText")) in
  let rating := match rating_value with
                | JNull => None
                | _ => _as_text rating_value
                end in
  if otruthy title
     && (otruthy subtitle || match cta with Some _ => true | None => false end)
  then Some (Hero (or_empty title) subtitle badge rating cta)
  else None.

Fixpoint first_hero (nodes : list jdict) : option hero :=
  match nodes with
  | [] => None
  | node :: rest =>
      match hero_of_node node with
      | Some h => Some h
      | None => first_hero rest
      end
  end.

Definition _extract_hero_from_payload (payload : value) : option hero :=
  first_hero (_iter_nodes payload).

End PyStr.

(** [v] occurs in a document: it is the document, or it occurs in an
    item of the array or in a value of the object the document is. *)
Inductive occurs (v : value) : value -> Prop :=
| occurs_here : occurs v v
| occurs_item items x : In x items -> occurs v x -> occurs v (JArr items)
| occurs_member members kv :
    In kv members -> occurs v (snd kv) -> occurs v (JObj members).

(** A type name of an [@type] value: the string itself, or a type name
    of an item of the list. *)
Inductive type_named (s : str) : value -> Prop :=
| named_str : type_named s (JStr s)
| named_item items x : In x items -> type_named s x -> type_named s (JArr items).


(** *** The summary of the page payload *)

(** One item and one section of [_collect_feature_sections]. *)
Record feature_item : Type :=
  FeatureItem { it_title : option str; it_description : option str }.

Record payload_section : Type :=
  PayloadSection { ps_heading : str; ps_items : list feature_item }.

Definition ostr_eqb (a b : option str) : bool :=
  match a, b with
  | Some x, Some y => str_eqb x y
  | None, None => true
  | _, _ => false
  end.

Definition item_eqb (a b : feature_item) : bool :=
  ostr_eqb (it_title a) (it_title b)
  && ostr_eqb (it_description a) (it_description b).

Fixpoint items_eqb (a b : list feature_item) : bool :=
  match a, b with
  | [], [] => true
  | x :: a', y :: b' => item_eqb x y && items_eqb a' b'
  | _, _ => false
  end.

(** [fingerprint in seen] for the pairs of a heading and the items. *)
Definition fingerprint_mem (fp : str * list feature_item)
    (seen : list (str * list feature_item)) : bool :=
  existsb (fun x => str_eqb (fst x) (fst fp) && items_eqb (snd x) (snd fp)) seen.

(** One chunk of [_collect_text_chunks]. *)
Record text_chunk : Type :=
  TextChunk { chunk_source : str; chunk_text : str }.

Definition CHUNK_KEYS : list str :=
  [$"description"; $"body"; $"summary"; $"text"; $"copy"; $"details";
   $"content"].

(** The loop of [_collect_text_chunks] over the keys of one node; the
    flag says that the function has returned. *)
Fixpoint chunk_keys (limit : nat) (node : jdict) (keys : list str)
    (seen : list str) (chunks : list text_chunk)
  : list str * list text_chunk * bool :=
  match keys with
  | [] => (seen, chunks, false)
  | key :: rest =>
      match dget node key with
      | JStr value =>
          let normalized := squeeze value in
          if length normalized <? 40
          then chunk_keys limit node rest seen chunks
          else if mem normalized seen
          then chunk_keys limit node rest seen chunks
          else
            let chunks' := chunks ++ [TextChunk key normalized] in
            if limit <=? length chunks'
            then (normalized :: seen, chunks', true)
            else chunk_keys limit node rest (normalized :: seen) chunks'
      | _ => chunk_keys limit node rest seen chunks
      end
  end.

Fixpoint chunk_nodes (limit : nat) (nodes : list jdict) (seen : list str)
    (chunks : list text_chunk) : list text_chunk :=
  match nodes with
  | [] => chunks
  | node :: rest =>
      let '(seen', chunks', returned) :=
        chunk_keys limit node CHUNK_KEYS seen chunks in
      if returned then chunks' else chunk_nodes limit rest seen' chunks'
  end.

(** [_collect_text_chunks]. *)
Definition _collect_text_chunks (payload : value) (limit : nat)
  : list text_chunk :=
  chunk_nodes limit (_iter_nodes payload) [] [].

(** [s or None] read back as a JSON value. *)
Definition ostr_value (s : option str) : value :=
  match s with Some t => JStr t | None => JNull end.

Definition chunk_value (c : text_chunk) : value :=
  JObj [($"source", JStr (chunk_source c)); ($"text", JStr (chunk_text c))].

Definition item_value (it : feature_item) : value :=
  JObj [($"title", ostr_value (it_title it));
        ($"description", ostr_value (it_description it))].

Definition payload_section_value (s : payload_section) : value :=
  JObj [($"heading", JStr (ps_heading s));
        ($"items", JArr (map item_value (ps_items s)))].

(** The dictionaries [_extract_dom_features], [_extract_dom_faqs] and
    [_merge_faq_sections] hand on. *)
Definition feature_section_value (s : feature_section) : value :=
  JObj [($"heading", JStr (fs_heading s));
        ($"items", JArr (map JStr (fs_items s)));
        ($"paragraphs", JArr (map JStr (fs_paragraphs s)))].

Definition faq_entry_value (e : faq_entry) : value :=
  JObj [($"question", JStr (question e)); ($"answer", ostr_value (answer e))].

Definition faq_section_value (s : faq_section) : value :=
  JObj [($"heading", JStr (heading s));
        ($"entries", JArr (map faq_entry_value (entries s)))].

(** [_surface_sections_by_heading]: the [while key_candidate in target]
    loop. Every round tries a key not tried before, so [fuel] bounds the
    rounds by the number of keys of [target]; [None] when it runs out. *)
Fixpoint fresh_key (fuel : nat) (target : jdict) (heading_key key_candidate : str)
    (suffix : Z) : option str :=
  match fuel with
  | 0 => None
  | S fuel' =>
      if mem key_candidate (map fst target)
      then fresh_key fuel' target heading_key
             (heading_key ++ $" (" ++ str_of_int suffix ++ $")")
             (suffix + 1)%Z
      else Some key_candidate
  end.

(** The body of the loop over [enumerate(sections)]. *)
Definition surface_section (target : jdict) (idx : nat) (section : value)
  : option jdict :=
  match section with
  | JObj section =>
      let heading_key := match dget section $"heading" with
                         | JStr heading => strip heading
                         | _ => []
                         end in
      let heading_key :=
        if truthy heading_key then heading_key
        else $"dom_section_" ++ str_of_int (Z.of_nat (idx + 1)) in
      let payload :=
        filter (fun kv => negb (str_eqb (fst kv) $"heading")) section in
      match payload with
      | [] => Some target
      | _ =>
          match fresh_key (S (length target)) target heading_key heading_key 2
          with
          | None => None
          | Some key_candidate =>
              let value :=
                match payload with
                | [(key, entries)] =>
                    if str_eqb key $"entries" then entries else JObj payload
                | _ => JObj payload
                end in
              Some (obj_set target key_candidate value)
          end
      end
  | _ => Some target
  end.

Fixpoint surface_sections (target : jdict) (idx : nat) (sections : list value)
  : option jdict :=
  match sections with
  | [] => Some target
  | section :: rest =>
      match surface_section target idx section with
      | Some target' => surface_sections target' (S idx) rest
      | None => None
      end
  end.

(** [_surface_sections_by_heading], on a dictionary; the dictionary
    after the call. *)
Definition _surface_sections_by_heading (target : jdict) (sections : value)
  : option jdict :=
  match sections with
  | JArr sections => surface_sections target 0 sections
  | _ => Some target
  end.

(** One entry of [_extract_flat_faqs]. *)
Record flat_faq : Type :=
  FlatFaq { ff_question : str; ff_answer : option str }.

Definition entries_of_section (section : value) : list (list value) :=
  match section with
  | JObj d => match dget d $"entries" with
              | JArr entries => [entries]
              | _ => []
              end
  | _ => []
  end.

(** The lists [_extract_flat_faqs] reads, in order. *)
Definition flat_faq_sources (content_summary dom_sections : value)
  : list (list value) :=
  match content_summary with
  | JObj summary =>
      match dget summary $"FAQs" with
      | JArr content_faqs => [content_faqs]
      | JObj content_faqs => entries_of_section (JObj content_faqs)
      | _ => []
      end
  | _ => []
  end
  ++ match dom_sections with
     | JArr sections => flat_map entries_of_section sections
     | _ => []
     end.

Definition flat_faq_step (st : list str * list flat_faq) (entry : value)
  : list str * list flat_faq :=
  let '(seen_questions, flattened) := st in
  match entry with
  | JObj e =>
      match dget e $"question" with
      | JStr question =>
          let normalized_question := strip (squeeze question) in
          if negb (truthy normalized_question) then st
          else
            let normalized_answer :=
              match dget e $"answer" with
              | JStr answer_value => or_none (strip answer_value)
              | _ => None
              end in
            let fingerprint := lower normalized_question in
            if mem fingerprint seen_questions then st
            else (fingerprint :: seen_questions,
                  flattened ++ [FlatFaq normalized_question normalized_answer])
      | _ => st
      end
  | _ => st
  end.

(** [_extract_flat_faqs]. *)
Definition _extract_flat_faqs (content_summary dom_sections : value)
  : list flat_faq :=
  snd (fold_left (fun st entry_list => fold_left flat_faq_step entry_list st)
                 (flat_faq_sources content_summary dom_sections) ([], [])).

(** [_summarize_additional_properties]. *)
Definition _summarize_additional_properties (v : value) : list value :=
  flat_map (fun entry =>
              match entry with
              | JObj e => [JObj [($"name", dget e $"name");
                                 ($"value", dget e $"value");
                                 ($"description", dget e $"description")]]
              | _ => []
              end)
           (_ensure_list v).

(** [_summarize_offer]. *)
Definition _summarize_offer (node : jdict) : value :=
  let price_spec := dget node $"priceSpecification" in
  let billing_interval :=
    match price_spec with
    | JObj ps => or_value (dget ps $"billingInterval") (dget ps $"billingPeriod")
    | _ => JNull
    end in
  let billing_duration :=
    match price_spec with
    | JObj ps =>
        or_value (dget ps $"billingDuration") (dget ps $"billingFrequency")
    | _ => JNull
    end in
  JObj [($"name", dget node $"name"); ($"price", dget node $"price");
        ($"currency", dget node $"priceCurrency");
        ($"availability", dget node $"availability");
        ($"url", dget node $"url");
        ($"billing_interval", billing_interval);
        ($"billing_duration", billing_duration);
        ($"price_valid_until", dget node $"priceValidUntil")].

(** [_summarize_product]. *)
Definition _summarize_product (node : jdict) : value :=
  let offers := map _summarize_offer
                    (_collect_by_type (dget node $"offers") $"Offer") in
  JObj [($"name", dget node $"name");
        ($"description", dget node $"description");
        ($"category", dget node $"category");
        ($"brand", ostr_value (_extract_name (dget node $"brand")));
        ($"seller", ostr_value (_extract_name (dget node $"seller")));
        ($"sku", dget node $"sku"); ($"url", dget node $"url");
        ($"includes",
         JArr (_summarize_additional_properties (dget node $"additionalProperty")));
        ($"offers", JArr offers)].

(** The loop of [fetch_listing_snapshot] over the decoded JSON-LD
    documents: the products. *)
Definition jsonld_products (documents : list value) : list value :=
  flat_map (fun parsed => map _summarize_product (_collect_by_type parsed $"Product"))
           documents.

Section Summary.

Variable float_repr : str -> str.

(** The loop of [_collect_feature_sections] over the entries of one
    list. *)
Fixpoint payload_items (entries : list value) : list feature_item :=
  match entries with
  | [] => []
  | entry :: rest =>
      match entry with
      | JObj e =>
          let title := _first_text float_repr e TITLE_KEYS in
          let description := _first_text float_repr e DESC_KEYS in
          if negb (otruthy title) && negb (otruthy description)
          then payload_items rest
          else FeatureItem title description :: payload_items rest
      | JStr s =>
          let title := strip s in
          if negb (truthy title) then payload_items rest
          else FeatureItem (Some title) None :: payload_items rest
      | _ => payload_items rest
      end
  end.

(** The body of the loop over [node.items()]. *)
Definition feature_step (node : jdict)
    (st : list (str * list feature_item) * list payload_section)
    (kv : str * value)
  : list (str * list feature_item) * list payload_section :=
  let '(seen, sections) := st in
  let '(key, value) := kv in
  if negb (mem (lower key) FEATURE_KEYS) then st
  else
    match value with
    | JArr entries =>
        let items := payload_items entries in
        match items with
        | [] => st
        | _ =>
            let title := _first_text float_repr node TITLE_KEYS in
            let heading := if otruthy title then or_empty title else key in
            let fingerprint := (heading, items) in
            if fingerprint_mem fingerprint seen then st
            else (fingerprint :: seen,
                  sections ++ [PayloadSection heading (firstn 10 items)])
        end
    | _ => st
    end.

(** [_collect_feature_sections]. *)
Definition _collect_feature_sections (payload : value) : list payload_section :=
  firstn 6
    (snd (fold_left (fun st node => fold_left (feature_step node) node st)
                    (_iter_nodes payload) ([], []))).

Definition cta_value (c : cta) : value :=
  JObj [($"text", ostr_value (cta_text c)); ($"href", cta_href c)].

Definition hero_value (h : hero) : value :=
  JObj [($"title", JStr (hero_title h));
        ($"subtitle", ostr_value (hero_subtitle h));
        ($"badge", ostr_value (hero_badge h));
        ($"rating", ostr_value (hero_rating h));
        ($"cta", match hero_cta h with
                 | Some c => cta_value c
                 | None => JNull
                 end)].

(** [_summarize_page_payload]; [None] is the payload that was not
    fetched. *)
Definition _summarize_page_payload (payload : option value) : jdict :=
  match payload with
  | Some (JObj _ as p) | Some (JArr _ as p) =>
      [($"hero", match _extract_hero_from_payload float_repr p with
                 | Some h => hero_value h
                 | None => JNull
                 end);
       ($"feature_sections",
        JArr (map payload_section_value (_collect_feature_sections p)));
       ($"descriptions", JArr (map chunk_value (_collect_text_chunks p 8)))]
  | _ => []
  end.

(** [_append] of [_flatten_feature_sections]. *)
Definition flat_append (st : list str * list str) (text : str)
  : list str * list str :=
  let '(seen, flattened) := st in
  let normalized := strip (squeeze text) in
  if truthy normalized && negb (mem normalized seen)
  then (normalized :: seen, flattened ++ [normalized])
  else st.

Definition flatten_item (st : list str * list str) (item : value)
  : list str * list str :=
  let text :=
    match item with
    | JStr s => Some s
    | JObj d =>
        let title := _first_text float_repr d TITLE_KEYS in
        if otruthy title then title
        else
          let description := _first_text float_repr d DESC_KEYS in
          if otruthy description then description
          else _as_text float_repr item
    | JInt _ | JFloat _ | JBool _ => Some (py_str float_repr item)
    | _ => None
    end in
  if otruthy text then flat_append st (or_empty text) else st.

Definition flatten_section (st : list str * list str) (section : value)
  : list str * list str :=
  match section with
  | JStr s => flat_append st s
  | JObj d => match dget d $"items" with
              | JArr items => fold_left flatten_item items st
              | _ => st
              end
  | _ => st
  end.

Definition flatten_group (st : list str * list str) (group : value)
  : list str * list str :=
  match group with
  | JArr sections => fold_left flatten_section sections st
  | _ => st
  end.

(** [_flatten_feature_sections], on the tuple of its arguments. *)
Definition _flatten_feature_sections (section_groups : list value) : list str :=
  snd (fold_left flatten_group section_groups ([], [])).

(** [_clean_product_field] of [_build_flat_snapshot]; [JNull] stands for
    no product. *)
Definition _clean_product_field (primary_product : value) (key : str)
  : option str :=
  match primary_product with
  | JObj d => match dget d key with
              | JStr s => or_none (strip s)
              | v => _as_text float_repr v
              end
  | _ => None
  end.

(** The flat snapshot. *)
Record flat : Type :=
  Flat { flat_final_url : str;
         flat_name : option str;
         flat_description : option str;
         flat_brand : option str;
         flat_sku : option str;
         flat_features : list str;
         flat_faqs : list flat_faq;
         flat_pricing : list str }.

(** [_build_flat_snapshot]. *)
Definition _build_flat_snapshot (final_url : str) (products : list value)
    (features : list str) (faqs : list flat_faq) (pricing_options : list str)
  : flat :=
  let primary_product := match products with p :: _ => p | [] => JNull end in
  Flat final_url
    (_clean_product_field primary_product $"name")
    (_clean_product_field primary_product $"description")
    (_clean_product_field primary_product $"brand")
    (_clean_product_field primary_product $"sku")
    features faqs pricing_options.

(** The end of [fetch_listing_snapshot], from
    [content_summary = _summarize_page_payload(page_payload)] on; [None]
    when a loop of the model runs out of fuel. *)
Definition flat_snapshot_of_parts (parts : listing) : option flat :=
  let products := jsonld_products (lp_jsonld parts) in
  let content_summary := _summarize_page_payload (lp_page_payload parts) in
  let structured_features :=
    match dget content_summary $"feature_sections" with
    | JArr sections => JArr sections
    | _ => JNull
    end in
  let dom_feature_sections :=
    JArr (map feature_section_value (lp_dom_feature_sections parts)) in
  let dom_faq_sections :=
    JArr (map faq_section_value (lp_dom_faq_sections parts)) in
  match
    match lp_dom_feature_sections parts with
    | [] => Some content_summary
    | _ => _surface_sections_by_heading content_summary dom_feature_sections
    end
  with
  | None => None
  | Some content_summary =>
      match
        match lp_dom_faq_sections parts with
        | [] => Some content_summary
        | _ => _surface_sections_by_heading content_summary dom_faq_sections
        end
      with
      | None => None
      | Some content_summary =>
          let features :=
            _flatten_feature_sections [structured_features; dom_feature_sections] in
          let faqs := _extract_flat_faqs (JObj content_summary) dom_faq_sections in
          Some (_build_flat_snapshot (lp_final_url parts) products features faqs
                  (lp_pricing_options parts))
      end
  end.

End Summary.

(** What holds of the state of [_flatten_feature_sections] between two
    calls of [_append]: the texts kept so far are distinct, not empty
    and normalized, and [seen] holds exactly them. *)
Definition flat_state_ok (st : list str * list str) : Prop :=
  fst st = rev (snd st) /\ NoDup (snd st)
  /\ Forall (fun t => t <> [] /\ squeeze t = t /\ strip t = t) (snd st).

(** The state only grows: what was kept stays, in place. *)
Definition flat_state_grows (st st' : list str * list str) : Prop :=
  exists more, snd st' = snd st ++ more.

(** What [_extract_flat_faqs] keeps of an answer: nothing, or a text that
    is not empty and has no white space around it. *)
Definition flat_answer_ok (a : option str) : Prop :=
  match a with
  | None => True
  | Some t => t <> [] /\ strip t = t
  end.

Definition flat_faq_ok (f : flat_faq) : Prop :=
  ff_question f <> []
  /\ squeeze (ff_question f) = ff_question f
  /\ strip (ff_question f) = ff_question f
  /\ flat_answer_ok (ff_answer f).

(** The state of [_extract_flat_faqs] between two entries. *)
Definition faq_state_ok (st : list str * list flat_faq) : Prop :=
  fst st = rev (map (fun f => lower (ff_question f)) (snd st))
  /\ NoDup (map (fun f => lower (ff_question f)) (snd st))
  /\ Forall flat_faq_ok (snd st).

Definition faq_state_grows (st st' : list str * list flat_faq) : Prop :=
  exists more, snd st' = snd st ++ more.


(** The key the [while] loop of [_surface_sections_by_heading] tries in
    its round [i], counted from 0. *)
Definition surface_candidate (heading_key : str) (i : nat) : str :=
  match i with
  | 0 => heading_key
  | S _ => heading_key ++ $" (" ++ str_of_int (Z.of_nat (S i)) ++ $")"
  end.

(** The sections [_surface_sections_by_heading] stores: dictionaries with
    a key other than [heading]. *)
Definition surfaced (section : value) : bool :=
  match section with
  | JObj section =>
      match filter (fun kv => negb (str_eqb (fst kv) $"heading")) section with
      | [] => false
      | _ => true
      end
  | _ => false
  end.

(** A chunk of [_collect_text_chunks] read from one of [nodes]: the text
    under one of the keys of the function, with its white space squeezed,
    at least 40 characters long. *)
Definition chunk_ok (nodes : list jdict) (c : text_chunk) : Prop :=
  In (chunk_source c) CHUNK_KEYS
  /\ 40 <= length (chunk_text c)
  /\ exists node value,
       In node nodes
       /\ dget node (chunk_source c) = JStr value
       /\ chunk_text c = squeeze value.

(** The state of [_collect_text_chunks] while it runs. *)
Definition chunk_state_ok (nodes : list jdict) (seen : list str)
    (chunks : list text_chunk) : Prop :=
  seen = rev (map chunk_text chunks)
  /\ NoDup (map chunk_text chunks)
  /\ Forall (chunk_ok nodes) chunks.

(** An item [_collect_feature_sections] keeps has a title or a
    description. *)
Definition item_ok (item : feature_item) : Prop :=
  otruthy (it_title item) = true \/ otruthy (it_description item) = true.

(** A section [_collect_feature_sections] returns. *)
Definition payload_section_ok (section : payload_section) : Prop :=
  ps_heading section <> []
  /\ 1 <= length (ps_items section) <= 10
  /\ Forall item_ok (ps_items section).


(* ================================================================== *)
(** ** The tree builder, handler by handler *)
(* ================================================================== *)

(** What [HTMLParser.feed] hands to the handlers of a subclass. *)
Inductive html_event : Type :=
| StartTag (name : str) (attributes : list (str * option str))
| StartEndTag (name : str) (attributes : list (str * option str))
| EndTag (name : str)
| Data (data : str).

(** [d[k] = v] on an attribute dictionary. *)
Fixpoint attrs_set (d : list (str * str)) (k v : str) : list (str * str) :=
  match d with
  | [] => [(k, v)]
  | (k', v') :: d' =>
      if str_eqb k' k then (k', v) :: d' else (k', v') :: attrs_set d' k v
  end.

(** [{k: (v or "") for k, v in attrs}]. *)
Definition attr_map (attributes : list (str * option str)) : list (str * str) :=
  fold_left (fun d kv => attrs_set d (fst kv) (or_empty (snd kv))) attributes [].

(** [_DOMNode.__init__]: the tag and the attribute names in lower case,
    no children, no text. *)
Definition new_node (name : str) (attributes : list (str * str)) : _DOMNode :=
  DOMNode (lower name)
          (fold_left (fun d kv => attrs_set d (lower (fst kv)) (snd kv))
                     attributes [])
          [] [].

(** [_DOMNode.add_child] and [_DOMNode.add_text]. *)
Definition add_child (p node : _DOMNode) : _DOMNode :=
  DOMNode (tag p) (attrs p) (children p ++ [node]) (text_parts p).

Definition add_text (node : _DOMNode) (data : str) : _DOMNode :=
  if truthy data
  then DOMNode (tag node) (attrs node) (children node) (text_parts node ++ [data])
  else node.

(** A reference to a node of the tree under construction: its child
    numbers from the root down. *)
Definition node_ref : Type := list nat.

(** [self._by_tag.setdefault(key, []).append(ref)] and
    [self._by_tag.get(key, [])]. *)
Fixpoint by_tag_append (d : list (str * list node_ref)) (key : str)
    (ref : node_ref) : list (str * list node_ref) :=
  match d with
  | [] => [(key, [ref])]
  | (k, refs) :: d' =>
      if str_eqb k key then (k, refs ++ [ref]) :: d'
      else (k, refs) :: by_tag_append d' key ref
  end.

Fixpoint by_tag_get (d : list (str * list node_ref)) (key : str)
  : list node_ref :=
  match d with
  | [] => []
  | (k, refs) :: d' => if str_eqb k key then refs else by_tag_get d' key
  end.

(** The builder while it parses. [_stack] is kept innermost node first, so
    its head is [self._stack[-1]] and its last element the root. The
    nodes of the stack are the open ones; an open node is a child of the
    node below it on the stack from the start tag on, and the model
    holds it aside until it is closed or the tree is read ([plug]). *)
Record builder_state : Type :=
  BuilderState { _stack : list _DOMNode;
                 _by_tag : list (str * list node_ref) }.

(** The reference of a node that becomes the last child of the head of
    [below]. *)
Fixpoint child_ref (below : list _DOMNode) : node_ref :=
  match below with
  | [] => []
  | p :: rest => child_ref rest ++ [length (children p)]
  end.

(** The tree as it is read through [self.root]: every open node in
    place, as the last child of the node below it. *)
Fixpoint plug (node : _DOMNode) (below : list _DOMNode) : _DOMNode :=
  match below with
  | [] => node
  | p :: rest => plug (add_child p node) rest
  end.

Definition builder_init : builder_state :=
  BuilderState [DOMNode (lower $"_root") [] [] []] [].

(** [_DOMTreeBuilder.handle_starttag]. *)
Definition handle_starttag (s : builder_state) (name : str)
    (attributes : list (str * option str)) : result builder_state :=
  match _stack s with
  | [] => Raise (IndexError $"list index out of range")
  | _ :: _ =>
      let node := new_node name (attr_map attributes) in
      Ok (BuilderState (node :: _stack s)
            (by_tag_append (_by_tag s) (tag node) (child_ref (_stack s))))
  end.

(** [_DOMTreeBuilder.handle_endtag]; the tag is not looked at. *)
Definition handle_endtag (s : builder_state) (name : str)
  : result builder_state :=
  if 1 <? length (_stack s)
  then match _stack s with
       | node :: p :: rest =>
           Ok (BuilderState (add_child p node :: rest) (_by_tag s))
       | _ => Ok s
       end
  else Ok s.

(** [_DOMTreeBuilder.handle_startendtag]. *)
Definition handle_startendtag (s : builder_state) (name : str)
    (attributes : list (str * option str)) : result builder_state :=
  s' <- handle_starttag s name attributes ;;
  handle_endtag s' name.

(** [_DOMTreeBuilder.handle_data]. *)
Definition handle_data (s : builder_state) (data : str)
  : result builder_state :=
  match _stack s with
  | [] => Raise (IndexError $"list index out of range")
  | node :: rest => Ok (BuilderState (add_text node data :: rest) (_by_tag s))
  end.

Definition handle (s : builder_state) (e : html_event) : result builder_state :=
  match e with
  | StartTag name attributes => handle_starttag s name attributes
  | StartEndTag name attributes => handle_startendtag s name attributes
  | EndTag name => handle_endtag s name
  | Data data => handle_data s data
  end.

(** [feed], as the calls of the handlers it makes. *)
Fixpoint feed (s : builder_state) (events : list html_event)
  : result builder_state :=
  match events with
  | [] => Ok s
  | e :: rest => s' <- handle s e ;; feed s' rest
  end.

(** [self.root] of a builder state. *)
Definition builder_root (s : builder_state) : option _DOMNode :=
  match _stack s with
  | [] => None
  | node :: below => Some (plug node below)
  end.

(** The reference of a located node. *)
Definition ref_of (x : located) : node_ref := rev (map fst (up x)).

(** The references and tags of a subtree, in document order. *)
Fixpoint refs_tags (n : _DOMNode) (ref : node_ref) {struct n}
  : list (node_ref * str) :=
  (ref, tag n)
  :: (fix below (i : nat) (cs : list _DOMNode) {struct cs}
        : list (node_ref * str) :=
        match cs with
        | [] => []
        | c :: cs' => refs_tags c (ref ++ [i]) ++ below (S i) cs'
        end) 0 (children n).

Fixpoint refs_forest (i : nat) (ref : node_ref) (cs : list _DOMNode)
  : list (node_ref * str) :=
  match cs with
  | [] => []
  | c :: cs' => refs_tags c (ref ++ [i]) ++ refs_forest (S i) ref cs'
  end.

(** The references of the open nodes' finished parts. *)
Fixpoint refs_context (below : list _DOMNode) : list (node_ref * str) :=
  match below with
  | [] => []
  | p :: rest => refs_context rest ++ refs_tags p (child_ref rest)
  end.

(** The start tags among the events. *)
Definition starts (events : list html_event) : nat :=
  length (filter (fun e => match e with
                           | StartTag _ _ | StartEndTag _ _ => true
                           | _ => false
                           end) events).

(** What holds of the builder after every handler: there is an open
    node, the tree has one node for each of the [count] start tags so
    far, and [_by_tag] lists under each tag the references of the nodes
    with that tag, in document order. *)
Definition builder_ok (s : builder_state) (count : nat) : Prop :=
  exists node below,
    _stack s = node :: below
    /\ length (refs_tags (plug node below) []) = S count
    /\ forall t,
         by_tag_get (_by_tag s) t
         = map fst (filter (fun rt => str_eqb (snd rt) t)
                           (tl (refs_tags (plug node below) []))).


(* ================================================================== *)
(** ** The snapshot parser, handler by handler *)
(* ================================================================== *)

Module _HTMLSnapshotParser.

(** The attributes of the parser object. [meta] is a dictionary with
    five keys; [_script_context] is [None], ["next"] or ["jsonld"]. *)
Record state : Type :=
  State { meta : list (str * option str);
          jsonld_scripts : list str;
          next_data_script : option str;
          _in_title : bool;
          _title_parts : list str;
          _script_context : option str;
          _script_buffer : list str }.

Definition init : state :=
  State [($"title", None); ($"description", None); ($"ogTitle", None);
         ($"ogDescription", None); ($"ogUrl", None)]
        [] None false [] None [].

(** [META_MAP.get((kind, name))]. *)
Definition META_MAP (kind name : str) : option str :=
  if str_eqb kind $"name" && str_eqb name $"description"
  then Some $"description"
  else if str_eqb kind $"property" && str_eqb name $"og:title"
  then Some $"ogTitle"
  else if str_eqb kind $"property" && str_eqb name $"og:description"
  then Some $"ogDescription"
  else if str_eqb kind $"property" && str_eqb name $"og:url"
  then Some $"ogUrl"
  else None.

(** [self.meta[key] = content]. *)
Fixpoint meta_set (d : list (str * option str)) (key content : str)
  : list (str * option str) :=
  match d with
  | [] => [(key, Some content)]
  | (k, v) :: d' =>
      if str_eqb k key then (k, Some content) :: d'
      else (k, v) :: meta_set d' key content
  end.

(** [{key.lower(): (value or "") for key, value in attrs}] and
    [attr_map.get(key)]. *)
Definition attr_map (attributes : list (str * option str))
  : list (str * str) :=
  fold_left (fun d kv => attrs_set d (lower (fst kv)) (or_empty (snd kv)))
            attributes [].

Definition attr_get (d : list (str * str)) (key : str) : option str :=
  option_map snd (List.find (fun kv => str_eqb (fst kv) key) d).

Definition ostr_is (a : option str) (b : str) : bool :=
  match a with Some x => str_eqb x b | None => false end.

(** [handle_starttag]. *)
Definition handle_starttag (s : state) (tag : str)
    (attributes : list (str * option str)) : state :=
  let attr_map := attr_map attributes in
  if str_eqb tag $"title" then
    State (meta s) (jsonld_scripts s) (next_data_script s) true
          (_title_parts s) (_script_context s) (_script_buffer s)
  else if str_eqb tag $"meta" then
    let name := attr_get attr_map $"name" in
    let prop := attr_get attr_map $"property" in
    let content := strip (attrs_get attr_map $"content" []) in
    if negb (truthy content) then s
    else
      let key := if otruthy name then META_MAP $"name" (lower (or_empty name))
                 else None in
      let key := match key with
                 | None => if otruthy prop
                           then META_MAP $"property" (lower (or_empty prop))
                           else None
                 | Some _ => key
                 end in
      if otruthy key
      then State (meta_set (meta s) (or_empty key) content) (jsonld_scripts s)
                 (next_data_script s) (_in_title s) (_title_parts s)
                 (_script_context s) (_script_buffer s)
      else s
  else if str_eqb tag $"script" then
    let script_id := attr_get attr_map $"id" in
    let script_type := lower (attrs_get attr_map $"type" []) in
    if ostr_is script_id $"__next_data__" then
      State (meta s) (jsonld_scripts s) (next_data_script s) (_in_title s)
            (_title_parts s) (Some $"next") []
    else if str_eqb script_type $"application/ld+json" then
      State (meta s) (jsonld_scripts s) (next_data_script s) (_in_title s)
            (_title_parts s) (Some $"jsonld") []
    else s
  else s.

(** [handle_data]. *)
Definition handle_data (s : state) (data : str) : state :=
  let title_parts := if _in_title s then _title_parts s ++ [data]
                     else _title_parts s in
  let script_buffer := if otruthy (_script_context s)
                       then _script_buffer s ++ [data]
                       else _script_buffer s in
  State (meta s) (jsonld_scripts s) (next_data_script s) (_in_title s)
        title_parts (_script_context s) script_buffer.

(** [handle_endtag]. *)
Definition handle_endtag (s : state) (tag : str) : state :=
  if str_eqb tag $"title" && _in_title s then
    let title := strip (concat (_title_parts s)) in
    State (if truthy title then meta_set (meta s) $"title" title else meta s)
          (jsonld_scripts s) (next_data_script s) false []
          (_script_context s) (_script_buffer s)
  else if str_eqb tag $"script" && otruthy (_script_context s) then
    let content := strip (concat (_script_buffer s)) in
    if ostr_is (_script_context s) $"next" && truthy content
       && match next_data_script s with None => true | Some _ => false end
    then State (meta s) (jsonld_scripts s) (Some content) (_in_title s)
               (_title_parts s) None []
    else if ostr_is (_script_context s) $"jsonld" && truthy content
    then State (meta s) (jsonld_scripts s ++ [content]) (next_data_script s)
               (_in_title s) (_title_parts s) None []
    else State (meta s) (jsonld_scripts s) (next_data_script s) (_in_title s)
               (_title_parts s) None []
  else s.

(** The handlers [feed] calls; [handle_startendtag] is the one of
    [HTMLParser]: the start handler, then the end handler. *)
Definition handle (s : state) (e : html_event) : state :=
  match e with
  | StartTag name attributes => handle_starttag s name attributes
  | StartEndTag name attributes =>
      handle_endtag (handle_starttag s name attributes) name
  | EndTag name => handle_endtag s name
  | Data data => handle_data s data
  end.

Definition feed (s : state) (events : list html_event) : state :=
  fold_left handle events s.

(** A start tag that opens the script the parser reads [__NEXT_DATA__]
    from. *)
Definition opens_next (e : html_event) : bool :=
  match e with
  | StartTag name attributes | StartEndTag name attributes =>
      str_eqb name $"script"
      && ostr_is (attr_get (attr_map attributes) $"id") $"__next_data__"
  | _ => false
  end.

(** A text the parser keeps: not empty, no white space around it. *)
Definition kept (t : str) : Prop := t <> [] /\ strip t = t.

Definition okept (t : option str) : Prop :=
  match t with None => True | Some t => kept t end.

(** What holds of the parser after every handler. *)
Definition state_ok (s : state) : Prop :=
  map fst (meta s) = map fst (meta init)
  /\ Forall (fun kv => okept (snd kv)) (meta s)
  /\ Forall kept (jsonld_scripts s)
  /\ okept (next_data_script s).

End _HTMLSnapshotParser.


(* ================================================================== *)
(** ** The Pulse client: products of a frame and the fetches it starts *)
(* ================================================================== *)

Module pulse_client.

Definition MARKETPLACE_BASE_URL : str := $"https://whop.com/marketplace/".

Definition PRODUCT_DETAIL_FIELD_NAMES : list (str * str) :=
  [($"1", $"product_id"); ($"2", $"slug"); ($"3", $"vendor_handle");
   ($"4", $"title"); ($"6", $"store_name")].

(** [mapping.get(field_id, f"field_{field_id}")]. *)
Definition field_label (mapping : list (str * str)) (field_id : str) : str :=
  attrs_get mapping field_id ($"field_" ++ field_id).

(** [_format_product_details]. *)
Definition format_step (mapping : list (str * str)) (formatted : jdict)
    (item : str * value) : jdict :=
  let '(field_id, value) := item in
  if str_eqb field_id $"18" then formatted
  else
    let label := field_label mapping field_id in
    obj_set formatted label value.

Definition _format_product_details (details : value)
    (mapping : list (str * str)) : jdict :=
  match details with
  | JObj details => fold_left (format_step mapping) details []
  | _ => []
  end.

(** [float(price)] for a price that is an [int] (a [bool] is one) or a
    [float]. *)
Inductive price_value : Type :=
| FloatOfInt (n : Z)
| FloatOfBool (b : bool)
| FloatOf (literal : str).

(** One entry of [_collect_priced_products]. *)
Record priced : Type :=
  Priced { price : option price_value;
           currency : option str;
           slug : str;
           name : option str;
           vendor : option str;
           url : str;
           details : jdict }.

Definition str_or_none (v : value) : option str :=
  match v with JStr s => Some s | _ => None end.

(** [_extract] of [_collect_priced_products]. *)
Definition _extract (node : value) : option priced :=
  match node with
  | JObj node =>
      let price := dget node $"1" in
      let details := dget node $"4" in
      match details with
      | JObj d =>
          match dget d $"2" with
          | JStr slug =>
              Some (Priced
                      match price with
                      | JInt n => Some (FloatOfInt n)
                      | JBool b => Some (FloatOfBool b)
                      | JFloat literal => Some (FloatOf literal)
                      | _ => None
                      end
                      (str_or_none (dget node $"2"))
                      slug
                      (str_or_none (dget d $"3"))
                      (str_or_none (dget node $"3"))
                      (MARKETPLACE_BASE_URL ++ slug)
                      (_format_product_details details
                         PRODUCT_DETAIL_FIELD_NAMES))
          | _ => None
          end
      | _ => None
      end
  | _ => None
  end.

Definition found (info : option priced) : list priced :=
  match info with Some p => [p] | None => [] end.

(** [_visit] of [_collect_priced_products]: the node, then its children
    in order. *)
Fixpoint _visit (node : value) : list priced :=
  found (_extract node)
  ++ match node with
     | JObj members => concat (map (fun kv => _visit (snd kv)) members)
     | JArr items => concat (map _visit items)
     | _ => []
     end.

Definition _collect_priced_products (obj : value) : list priced := _visit obj.

Definition is_int (v : value) : bool :=
  match v with JInt _ | JBool _ => true | _ => false end.

(** [_normalize_decoded_payload]; [None] is its [None]. *)
Definition _normalize_decoded_payload (decoded : value) : option value :=
  match decoded with
  | JObj [(field_id, payload)] =>
      if str_eqb field_id $"10" || str_eqb field_id $"13" then None
      else if str_eqb field_id $"8"
              && match payload with
                 | JObj p =>
                     match dget p $"1" with
                     | JObj inner =>
                         is_int (dget inner $"1") && is_int (dget inner $"2")
                     | _ => false
                     end
                 | _ => false
                 end
      then None
      else if str_eqb field_id $"42"
      then match payload with
           | JObj p => match dget p $"1" with
                       | JStr query => Some (JObj [($"query", JStr query)])
                       | _ => Some decoded
                       end
           | _ => Some decoded
           end
      else Some decoded
  | _ => Some decoded
  end.

(** The entries [decode_whop_protobuf] returns for a decoded frame. *)
Definition frame_entries (decoded : value) : list priced :=
  match _normalize_decoded_payload decoded with
  | None => []
  | Some normalized => _collect_priced_products normalized
  end.

(** The two sets of the module and the tasks created so far, oldest
    first. A set is kept as the list of its elements. *)
Record fetches : Type :=
  Fetches { _FETCHED_LISTING_URLS : list str;
            _FETCHING_LISTING_URLS : list str;
            tasks : list str }.

Definition set_add (x : str) (s : list str) : list str :=
  if mem x s then s else x :: s.

Definition set_discard (x : str) (s : list str) : list str :=
  filter (fun y => negb (str_eqb y x)) s.

Definition no_fetches : fetches := Fetches [] [] [].

(** [_schedule_listing_snapshot_fetch]; [running] says whether
    [asyncio.get_running_loop()] finds a loop. *)
Definition _schedule_listing_snapshot_fetch (st : fetches) (running : bool)
    (target_url : str) : fetches :=
  if negb (truthy target_url)
     || mem target_url (_FETCHED_LISTING_URLS st)
     || mem target_url (_FETCHING_LISTING_URLS st)
  then st
  else if negb running then st
  else Fetches (_FETCHED_LISTING_URLS st)
               (set_add target_url (_FETCHING_LISTING_URLS st))
               (tasks st ++ [target_url]).

(** The [finally] block of [_fetch_listing_snapshot_for_target], which
    runs when the fetch has returned or failed. *)
Definition fetch_finished (st : fetches) (target : str) : fetches :=
  Fetches (set_add target (_FETCHED_LISTING_URLS st))
          (set_discard target (_FETCHING_LISTING_URLS st))
          (tasks st).

(** The loop of [_handle_console] over the entries of one frame. *)
Definition schedule_entries (st : fetches) (running : bool)
    (entries : list priced) : fetches :=
  fold_left (fun st entry =>
               match price entry with
               | None => st
               | Some _ => _schedule_listing_snapshot_fetch st running (url entry)
               end) entries st.

(** What the event loop does, step by step: a frame arrives with its
    decoded payload, or a fetch ends. *)
Inductive step : Type :=
| Frame (running : bool) (decoded : value)
| Finished (target : str).

Definition do_step (st : fetches) (e : step) : fetches :=
  match e with
  | Frame running decoded =>
      schedule_entries st running (frame_entries decoded)
  | Finished target => fetch_finished st target
  end.

Definition run_steps (st : fetches) (steps : list step) : fetches :=
  fold_left do_step steps st.

(** Every task is accounted for in one of the two sets. *)
Definition fetches_ok (st : fetches) : Prop :=
  NoDup (tasks st)
  /\ (forall t, In t (tasks st) ->
        In t (_FETCHED_LISTING_URLS st) \/ In t (_FETCHING_LISTING_URLS st))
  /\ Forall (fun t => exists s, t = MARKETPLACE_BASE_URL ++ s) (tasks st).

End pulse_client.



(* ================================================================== *)
(** ** Settings *)
(* ================================================================== *)

(** [os.environ.get(name)] on the environment as a list of bindings. *)
Definition environ_get (environ : list (str * str)) (name : str)
  : option str :=
  option_map snd (List.find (fun kv => str_eqb (fst kv) name) environ).

(** [env_flag]. *)
Definition env_flag (environ : list (str * str)) (name : str)
    (default : bool) : bool :=
  match environ_get environ name with
  | None => default
  | Some raw =>
      let value := lower (strip raw) in
      if mem value [$"1"; $"true"; $"t"; $"yes"; $"y"; $"on"] then true
      else if mem value [$"0"; $"false"; $"f"; $"no"; $"n"; $"off"] then false
      else default
  end.


(** ** Trees the builder can be handed *)

(** The handler calls that spell out a node: its start tag, its text,
    its children, its end tag. *)
Fixpoint events_of (n : _DOMNode) : list html_event :=
  StartTag (tag n) (map (fun kv => (fst kv, Some (snd kv))) (attrs n))
  :: map Data (text_parts n)
  ++ (fix forest (cs : list _DOMNode) : list html_event :=
        match cs with
        | [] => []
        | c :: cs' => events_of c ++ forest cs'
        end) (children n)
  ++ [EndTag (tag n)].

Definition events_of_forest (cs : list _DOMNode) : list html_event :=
  flat_map events_of cs.

(** A node as the builder makes them: tag and attribute names in lower
    case, every attribute name once, no empty text fragment, and so for
    its children. *)
Fixpoint well_formed (n : _DOMNode) : bool :=
  str_eqb (lower (tag n)) (tag n)
  && distinct (map fst (attrs n))
  && forallb (fun kv => str_eqb (lower (fst kv)) (fst kv)) (attrs n)
  && forallb truthy (text_parts n)
  && (fix all (cs : list _DOMNode) : bool :=
        match cs with
        | [] => true
        | c :: cs' => well_formed c && all cs'
        end) (children n).

(* ================================================================== *)
(** * Properties *)
(* ================================================================== *)

(** ** Text primitives *)

Lemma chr_eqb_eq a b : chr_eqb a b = true <-> a = b.
Proof. unfold chr_eqb. apply Ascii.eqb_eq. Qed.

Lemma str_eqb_eq a : forall b, str_eqb a b = true <-> a = b.
Proof.
  induction a as [|x a IH]; intros [|y b]; simpl; split; intro H;
    try reflexivity; try discriminate.
  - apply andb_true_iff in H as [H1 H2]. apply chr_eqb_eq in H1.
    apply IH in H2. congruence.
  - inversion H; subst. apply andb_true_iff. split.
    + now apply chr_eqb_eq.
    + now apply IH.
Qed.

Lemma str_eqb_refl a : str_eqb a a = true.
Proof. now apply str_eqb_eq. Qed.

Lemma str_eqb_neq a b : str_eqb a b = false <-> a <> b.
Proof.
  split; intro H.
  - intro E. apply str_eqb_eq in E. congruence.
  - destruct (str_eqb a b) eqn:E; [|reflexivity].
    apply str_eqb_eq in E. contradiction.
Qed.

Lemma mem_In x l : mem x l = true <-> In x l.
Proof.
  unfold mem. rewrite existsb_exists. split.
  - intros (y & Hy & E). apply str_eqb_eq in E. now subst.
  - intro H. exists x. split; [assumption | apply str_eqb_refl].
Qed.

Lemma mem_not_In x l : mem x l = false <-> ~ In x l.
Proof.
  split; intro H.
  - intro E. apply mem_In in E. congruence.
  - destruct (mem x l) eqn:E; [|reflexivity]. apply mem_In in E. contradiction.
Qed.

(** ** Traversal orders *)

Lemma pop_snoc {A} (l : list A) (x : A) : pop (l ++ [x]) = Some (x, l).
Proof.
  induction l as [|y l IH]; [reflexivity|].
  simpl. rewrite IH. destruct (l ++ [x]) eqn:E; [|reflexivity].
  destruct l; discriminate.
Qed.

Lemma pop_nil_inv {A} (l : list A) : pop l = None -> l = [].
Proof.
  destruct l as [|x l] using rev_ind; [reflexivity|].
  rewrite pop_snoc. discriminate.
Qed.

Lemma mirror_order_eq n : mirror_order n = n :: mirror_forest (children n).
Proof.
  destruct n as [t a cs tp]. simpl. f_equal. unfold mirror_forest.
  induction cs as [|c cs IH]; [reflexivity|].
  simpl. rewrite IH, flat_map_app. simpl. now rewrite app_nil_r.
Qed.

Lemma mirror_forest_app a b :
  mirror_forest (a ++ b) = mirror_forest b ++ mirror_forest a.
Proof. unfold mirror_forest. now rewrite rev_app_distr, flat_map_app. Qed.

Lemma mirror_forest_snoc l x :
  mirror_forest (l ++ [x]) = mirror_order x ++ mirror_forest l.
Proof.
  rewrite mirror_forest_app. unfold mirror_forest at 1. simpl.
  now rewrite app_nil_r.
Qed.

Lemma mirror_forest_cons x l :
  mirror_forest (x :: l) = mirror_forest l ++ mirror_order x.
Proof.
  change (x :: l) with ([x] ++ l). rewrite mirror_forest_app.
  unfold mirror_forest at 2. simpl. now rewrite app_nil_r.
Qed.

Lemma forest_size_app a b : forest_size (a ++ b) = forest_size a + forest_size b.
Proof. unfold forest_size. now rewrite map_app, list_sum_app. Qed.

Lemma size_eq n : size n = S (forest_size (children n)).
Proof. destruct n; reflexivity. Qed.

Lemma iter_descendants_loop_mirror tags :
  forall fuel stack,
    forest_size stack <= fuel ->
    iter_descendants_loop fuel tags stack
    = filter (tag_ok tags) (mirror_forest stack).
Proof.
  induction fuel as [|fuel IH]; intros stack Hf.
  - destruct stack as [|x stack]; [reflexivity|].
    unfold forest_size in Hf. simpl in Hf. rewrite size_eq in Hf. lia.
  - destruct stack as [|x stack _] using rev_ind; [reflexivity|].
    simpl. rewrite pop_snoc.
    rewrite forest_size_app in Hf. unfold forest_size at 2 in Hf.
    simpl in Hf. rewrite size_eq in Hf.
    rewrite IH by (rewrite forest_size_app; lia).
    rewrite mirror_forest_snoc, mirror_order_eq, mirror_forest_app.
    simpl. rewrite filter_app. now destruct (tag_ok tags x).
Qed.

Lemma iter_descendants_mirror self tags :
  iter_descendants self tags
  = filter (tag_ok tags) (mirror_forest (children self)).
Proof. unfold iter_descendants. now apply iter_descendants_loop_mirror. Qed.

Lemma _DOMNode_rect' (P : _DOMNode -> Prop)
    (H : forall t a cs tp, Forall P cs -> P (DOMNode t a cs tp)) :
  forall n, P n.
Proof.
  fix IH 1. intros [t a cs tp]. apply H.
  induction cs as [|c cs IHcs]; constructor.
  - apply IH.
  - exact IHcs.
Qed.

Lemma located_subtree_eq n chain :
  located_subtree n chain
  = Loc n chain :: located_forest 0 n chain (children n).
Proof.
  destruct n as [t a cs tp]. simpl. f_equal.
  set (p := DOMNode t a cs tp). clearbody p.
  generalize 0. induction cs as [|c cs IH]; intro i; [reflexivity|].
  simpl. now rewrite IH.
Qed.

Lemma located_subtree_nodes :
  forall n chain, map node_of (located_subtree n chain) = _iter_dom_descendants_of n.
Proof.
  induction n as [t a cs tp IH] using _DOMNode_rect'. intro chain.
  rewrite located_subtree_eq. simpl. f_equal.
  generalize 0. generalize (DOMNode t a cs tp) as p.
  induction IH as [|c cs Hc _ IHcs]; intros p i; [reflexivity|].
  simpl. now rewrite map_app, Hc, IHcs.
Qed.

Lemma document_order_nodes b :
  map node_of (document_order b) = _iter_dom_descendants (root b).
Proof.
  unfold document_order, _iter_dom_descendants.
  pose proof (located_subtree_nodes (root b) []) as H.
  destruct (located_subtree (root b) []) as [|x l]; simpl in *.
  - destruct (root b); discriminate.
  - destruct (root b) as [t a cs tp]. simpl in *. now inversion H.
Qed.

Lemma forallb_rev {A} (f : A -> bool) l : forallb f (rev l) = forallb f l.
Proof.
  induction l as [|x l IH]; [reflexivity|]. simpl.
  rewrite forallb_app, IH. simpl. rewrite andb_true_r. apply andb_comm.
Qed.


(** *** Reverse document order *)

Lemma mirror_order_In :
  forall n x, In x (mirror_order n) -> In x (_iter_dom_descendants_of n).
Proof.
  induction n as [t a cs tp IH] using _DOMNode_rect'. intros x Hx.
  rewrite mirror_order_eq in Hx. cbn [children] in Hx.
  cbn [_iter_dom_descendants_of children].
  destruct Hx as [Hx|Hx]; [now left|]. right.
  induction IH as [|c cs Hc _ IHcs]; [destruct Hx|].
  rewrite mirror_forest_cons in Hx. cbn [flat_map].
  apply in_app_iff in Hx as [Hx|Hx]; apply in_app_iff; auto.
Qed.

Lemma mirror_forest_In cs x :
  In x (mirror_forest cs) -> In x (flat_map _iter_dom_descendants_of cs).
Proof.
  induction cs as [|c cs IH]; [intros []|].
  rewrite mirror_forest_cons. cbn [flat_map]. intro Hx.
  apply in_app_iff in Hx as [Hx|Hx]; apply in_app_iff;
    [right; auto | left; now apply mirror_order_In].
Qed.

Lemma filter_none {A} (f : A -> bool) l :
  existsb f l = false -> filter f l = [].
Proof.
  induction l as [|x l IH]; [reflexivity|]. simpl.
  destruct (f x); [discriminate|exact IH].
Qed.

Lemma filter_none_In {A} (f : A -> bool) l l' :
  (forall x, In x l' -> In x l) -> existsb f l = false -> filter f l' = [].
Proof.
  intros Hsub H. apply filter_none.
  destruct (existsb f l') eqn:E; [|reflexivity].
  apply existsb_exists in E as (x & Hx & Hf).
  assert (E : existsb f l = true)
    by (apply existsb_exists; exists x; auto).
  congruence.
Qed.

Lemma unnested_mirror tags :
  forall n,
    unnested tags n = true ->
    filter (tag_ok tags) (mirror_order n)
    = rev (filter (tag_ok tags) (_iter_dom_descendants_of n)).
Proof.
  induction n as [t a cs tp IH] using _DOMNode_rect'. intro H.
  rewrite mirror_order_eq.
  cbn [unnested children _iter_dom_descendants_of filter] in *.
  destruct (tag_ok tags (DOMNode t a cs tp)).
  - apply negb_true_iff in H. unfold _iter_dom_descendants in H.
    cbn [children] in H.
    rewrite (filter_none _ _ H).
    rewrite (filter_none_In _ _ (mirror_forest cs) (@mirror_forest_In cs) H).
    reflexivity.
  - clear t a tp. induction IH as [|c cs Hc _ IHcs]; [reflexivity|].
    cbn [forallb] in H. apply andb_true_iff in H as [H1 H2].
    rewrite mirror_forest_cons. cbn [flat_map].
    rewrite !filter_app, rev_app_distr, Hc, IHcs by assumption.
    reflexivity.
Qed.

Lemma unnested_forest tags cs :
  forallb (unnested tags) cs = true ->
  filter (tag_ok tags) (mirror_forest cs)
  = rev (filter (tag_ok tags) (flat_map _iter_dom_descendants_of cs)).
Proof.
  induction cs as [|c cs IH]; [reflexivity|]. cbn [forallb]. intro H.
  apply andb_true_iff in H as [H1 H2].
  rewrite mirror_forest_cons. cbn [flat_map].
  rewrite !filter_app, rev_app_distr, IH, unnested_mirror by assumption.
  reflexivity.
Qed.

(** *** The harvesting loops *)

Lemma mem_snoc x acc t : mem x (acc ++ [t]) = mem x (t :: acc).
Proof.
  unfold mem. rewrite existsb_app. cbn [existsb].
  rewrite orb_false_r. apply orb_comm.
Qed.

Lemma harvest_texts_kept limit nodes :
  forall acc seen,
    (forall x, mem x seen = mem x acc) ->
    length acc < limit ->
    harvest_texts limit acc nodes
    = firstn limit
        (acc ++ dedup_go seen (filter truthy (map get_text nodes))).
Proof.
  induction nodes as [|n rest IH]; intros acc seen Hs Hl;
    cbn [harvest_texts map filter].
  - cbn [dedup_go]. rewrite app_nil_r. symmetry. apply firstn_all2.
    unfold str in *. lia.
  - cbv zeta. destruct (truthy (get_text n)) eqn:Et; cbn [andb];
      [|now apply IH].
    cbn [dedup_go]. rewrite Hs.
    destruct (mem (get_text n) acc) eqn:Em; cbn [negb]; [now apply IH|].
    rewrite length_app. cbn [length].
    destruct (limit <=? length acc + 1) eqn:El.
    + apply Nat.leb_le in El.
      change (acc ++ get_text n :: dedup_go (get_text n :: seen)
                       (filter truthy (map get_text rest)))
        with (acc ++ [get_text n] ++ dedup_go (get_text n :: seen)
                       (filter truthy (map get_text rest))).
      rewrite app_assoc, firstn_app.
      replace (limit - length (acc ++ [get_text n])) with 0
        by (rewrite length_app; cbn [length]; unfold str in *; lia).
      cbn [firstn]. rewrite app_nil_r. symmetry. apply firstn_all2.
      rewrite length_app. cbn [length]. unfold str in *. lia.
    + apply Nat.leb_gt in El.
      rewrite (IH (acc ++ [get_text n]) (get_text n :: seen)).
      * now rewrite <- app_assoc.
      * intro x. rewrite mem_snoc. unfold mem. cbn [existsb].
        f_equal. apply Hs.
      * rewrite length_app. cbn [length]. unfold str in *. lia.
Qed.

Lemma harvest_texts_kept_texts limit nodes :
  0 < limit -> harvest_texts limit [] nodes = kept_texts limit nodes.
Proof.
  intro H. unfold kept_texts, dedup.
  now rewrite (@harvest_texts_kept limit nodes [] []).
Qed.

Lemma features_loop_reference headings :
  forall seen feature_sections,
    features_loop headings seen feature_sections
    = feature_sections
        ++ first_of_fingerprint seen
             (map section_of_heading (filter feature_heading headings)).
Proof.
  induction headings as [|h rest IH]; intros seen feature_sections.
  - cbn. now rewrite app_nil_r.
  - cbn [features_loop filter]. unfold feature_heading at 1.
    destruct (truthy (get_text (node_of h))); cbn [negb orb andb];
      [|apply IH].
    destruct (contains (lower (get_text (node_of h))) $"feature");
      cbn [negb]; [|apply IH].
    cbv zeta. cbn [map first_of_fingerprint].
    unfold feature_items, feature_paragraphs.
    rewrite !harvest_texts_kept_texts by lia.
    change (join $"|" (kept_texts 12
                         (iter_descendants (node_of (container_for h))
                            (Some [$"li"])))
            ++ $"::"
            ++ join $"|" (kept_texts 6
                            (iter_descendants (node_of (container_for h))
                               (Some [$"p"]))))
      with (feature_fingerprint (section_of_heading h)).
    destruct (mem (feature_fingerprint (section_of_heading h)) seen);
      [apply IH|].
    rewrite IH, <- app_assoc. reflexivity.
Qed.

(** C9. [iter_descendants] walks depth first with the last child first:
    its output is the mirrored order filtered by the tag set, so every
    matching node of a later sibling's subtree comes before every matching
    node of an earlier sibling's subtree, and where no matching node lies
    below another one the output is the document order reversed.
    [feature_items] and [feature_paragraphs] keep the non-empty texts of
    the [li] and of the [p] nodes in that order, each once, at most 12
    and 6: in reverse document order where these nodes are not nested.
    [_extract_dom_features] makes a section of every heading it takes
    up, with these texts of the heading's container, and keeps the first
    four of distinct fingerprint. [_iter_dom_descendants] lists the
    descendants in document order. *)
Theorem iter_descendants_last_child_first :
  forall (self : _DOMNode) (tags : option (list str)),
    iter_descendants self tags
    = filter (tag_ok tags) (mirror_forest (children self))
    /\ (forall before ci between cj after,
          children self = before ++ ci :: between ++ cj :: after ->
          exists A B C,
            iter_descendants self tags
            = A ++ filter (tag_ok tags) (mirror_order cj) ++ B
                ++ filter (tag_ok tags) (mirror_order ci) ++ C)
    /\ (forallb (unnested tags) (children self) = true ->
        iter_descendants self tags
        = rev (filter (tag_ok tags) (_iter_dom_descendants self)))
    /\ feature_items self
       = kept_texts 12 (iter_descendants self (Some [$"li"]))
    /\ feature_paragraphs self
       = kept_texts 6 (iter_descendants self (Some [$"p"]))
    /\ (forallb (unnested (Some [$"li"])) (children self) = true ->
        feature_items self
        = kept_texts 12 (reverse_document_order self $"li"))
    /\ (forallb (unnested (Some [$"p"])) (children self) = true ->
        feature_paragraphs self
        = kept_texts 6 (reverse_document_order self $"p"))
    /\ (forall builder,
          _extract_dom_features builder = dom_features_reference builder)
    /\ _iter_dom_descendants self
       = map node_of (document_order (Builder self)).
Proof.
  intros self tags.
  assert (Hrev : forall tags',
            forallb (unnested tags') (children self) = true ->
            iter_descendants self tags'
            = rev (filter (tag_ok tags') (_iter_dom_descendants self))).
  { intros tags' H. rewrite iter_descendants_mirror.
    now apply unnested_forest. }
  assert (Hitems : feature_items self
                   = kept_texts 12 (iter_descendants self (Some [$"li"])))
    by (unfold feature_items; apply harvest_texts_kept_texts; lia).
  assert (Hparas : feature_paragraphs self
                   = kept_texts 6 (iter_descendants self (Some [$"p"])))
    by (unfold feature_paragraphs; apply harvest_texts_kept_texts; lia).
  split; [apply iter_descendants_mirror|].
  split; [|split; [apply Hrev|]].
  - intros before ci between cj after E.
    rewrite iter_descendants_mirror, E.
    rewrite mirror_forest_app, mirror_forest_cons, mirror_forest_app,
      mirror_forest_cons.
    exists (filter (tag_ok tags) (mirror_forest after)),
      (filter (tag_ok tags) (mirror_forest between)),
      (filter (tag_ok tags) (mirror_forest before)).
    now rewrite !filter_app, <- !app_assoc.
  - split; [exact Hitems|]. split; [exact Hparas|].
    split; [|split; [|split]].
    + intro H. rewrite Hitems. unfold reverse_document_order.
      now rewrite (Hrev _ H).
    + intro H. rewrite Hparas. unfold reverse_document_order.
      now rewrite (Hrev _ H).
    + intros [b|]; [|reflexivity].
      unfold _extract_dom_features, dom_features_reference.
      now rewrite features_loop_reference.
    + symmetry. apply (document_order_nodes (Builder self)).
Qed.

Lemma iter_descendants_last_child_first_witness :
  forallb (unnested (Some [$"li"])) (children features_container) = true
  /\ forallb (unnested (Some [$"p"])) (children features_container) = true
  /\ feature_items features_container = [ $"three"; $"two"; $"one" ]
  /\ feature_paragraphs features_container = [ $"second"; $"first" ]
  /\ _extract_dom_features (Some features_doc)
     = [FeatureSection $"Key Features" [ $"three"; $"two"; $"one" ]
          [ $"second"; $"first" ]].
Proof.
  destruct (iter_descendants_last_child_first features_container None)
    as (_ & _ & _ & _ & _ & Hli & Hp & Hall & _).
  split; [reflexivity|]. split; [reflexivity|].
  split; [rewrite (Hli eq_refl); reflexivity|].
  split; [rewrite (Hp eq_refl); reflexivity|].
  rewrite Hall. reflexivity.
Defined.

(** ** Pricing options *)

Lemma dedup_go_In seen l x :
  In x (dedup_go seen l) <-> In x l /\ ~ In x seen.
Proof.
  revert seen. induction l as [|y l IH]; intro seen; simpl.
  - tauto.
  - destruct (mem y seen) eqn:E.
    + apply mem_In in E. rewrite IH. split.
      * tauto.
      * intros [[->|H] Hn]; tauto.
    + apply mem_not_In in E. simpl. rewrite IH. simpl. split.
      * intros [->|[H Hn]]; tauto.
      * intros [[->|H] Hn]; [tauto|].
        destruct (list_eq_dec ascii_dec y x) as [->|Hne]; tauto.
Qed.

Lemma dedup_go_NoDup seen l : NoDup (dedup_go seen l).
Proof.
  revert seen. induction l as [|y l IH]; intro seen; simpl.
  - constructor.
  - destruct (mem y seen) eqn:E; [apply IH|].
    constructor; [|apply IH].
    rewrite dedup_go_In. simpl. tauto.
Qed.

Lemma pricing_loop_dedup nodes :
  forall seen options,
    pricing_loop nodes seen options
    = options ++ dedup_go seen (map pricing_text (filter radio_any_case nodes)).
Proof.
  induction nodes as [|x nodes IH]; intros seen options.
  - simpl. now rewrite app_nil_r.
  - cbn [pricing_loop filter].
    change (attrs_get (attrs (node_of x)) $"role" []) with (role_of x).
    change (squeeze (get_text (node_of x))) with (pricing_text x).
    destruct (radio_any_case x) eqn:R; unfold radio_any_case in R.
    + apply andb_true_iff in R as [R R3]. apply andb_true_iff in R as [R1 R2].
      rewrite R1, R2, R3. cbn [negb orb map dedup_go].
      destruct (mem (pricing_text x) seen); [apply IH|].
      rewrite IH. now rewrite <- app_assoc.
    + destruct (str_eqb (lower (role_of x)) $"radio"); cbn [negb];
        [|apply IH].
      destruct (truthy (get_text (node_of x))); cbn [negb]; [|apply IH].
      destruct (truthy (pricing_text x)); [discriminate|]. apply IH.
Qed.

(** C8, as the code has it. The pricing extractor returns the squeezed
    texts of the [div] nodes whose role attribute is "radio" in any letter
    case and whose text is not empty, in document order, each text once,
    first occurrence kept; without a tree it returns the empty list. *)
Theorem pricing_options_radio_any_case :
  forall b : _DOMTreeBuilder,
    _extract_pricing_options None = []
    /\ _extract_pricing_options (Some b)
       = dedup (map pricing_text (filter radio_any_case (iter_tag b $"div")))
    /\ NoDup (_extract_pricing_options (Some b))
    /\ (forall t, In t (_extract_pricing_options (Some b)) <->
          exists x, In x (iter_tag b $"div") /\ radio_any_case x = true
                    /\ pricing_text x = t).
Proof.
  intro b.
  assert (E : _extract_pricing_options (Some b)
       = dedup (map pricing_text (filter radio_any_case (iter_tag b $"div")))).
  { unfold _extract_pricing_options. now rewrite pricing_loop_dedup. }
  split; [reflexivity|]. split; [exact E|]. rewrite E. split.
  - apply dedup_go_NoDup.
  - intro t. unfold dedup. rewrite dedup_go_In, in_map_iff. split.
    + intros [(x & Ht & Hx) _]. apply filter_In in Hx as [Hx Hr]. eauto.
    + intros (x & Hx & Hr & Ht). split; [|tauto].
      exists x. split; [assumption|]. now apply filter_In.
Qed.

(** C8, as the specification words it, fails: a [div] whose role is
    spelled "RADIO" is returned although its role is not exactly "radio". *)
Lemma pricing_options_not_exact_role :
  _extract_pricing_options (Some pricing_doc) = [ $"Monthly"; $"Yearly" ]
  /\ pricing_options_spec (Some pricing_doc) = [ $"Yearly" ]
  /\ _extract_pricing_options (Some pricing_doc)
     <> pricing_options_spec (Some pricing_doc).
Proof.
  split; [reflexivity|]. split; [reflexivity|]. discriminate.
Qed.

(** ** DOM FAQ extraction *)

Lemma mem_pair_In x l : mem_pair x l = true <-> In x l.
Proof.
  unfold mem_pair. rewrite existsb_exists. split.
  - intros ([a b] & Hy & E). unfold pair_eqb in E. simpl in E.
    apply andb_true_iff in E as [E1 E2].
    apply str_eqb_eq in E1, E2. destruct x; simpl in *. now subst.
  - intro H. exists x. split; [assumption|].
    unfold pair_eqb. now rewrite !str_eqb_refl.
Qed.

Lemma or_empty_or_none s : or_empty (or_none s) = s.
Proof. now destruct s. Qed.

Lemma walk_ok_start : walk_ok faq_walk_start.
Proof. split; simpl; [constructor | tauto | constructor]. Qed.

Lemma walk_ok_same_entries w q a s :
  walk_ok w -> walk_ok (FaqWalk (w_entries w) (section_fingerprints w) q a s).
Proof. intros [H1 H2 H3]. now split. Qed.

Lemma flush_ok w : walk_ok w -> walk_ok (_flush_entry w).
Proof.
  intros Hw. unfold _flush_entry.
  destruct (current_question_text w) as [[|c q]|];
    try now apply walk_ok_same_entries.
  set (a := strip (join [newline; newline] (current_answers w))).
  destruct (mem_pair (c :: q, a) (section_fingerprints w)) eqn:E;
    [now apply walk_ok_same_entries|].
  destruct Hw as [H1 H2 H3]. split; simpl.
  - rewrite map_app. simpl. unfold entry_fingerprint at 2. simpl.
    rewrite or_empty_or_none.
    apply NoDup_app; [assumption | repeat constructor; simpl; tauto |].
    intros x Hx [<-|[]]. apply in_map_iff in Hx as (e & He & Hin).
    apply H2 in Hin. rewrite He in Hin. apply mem_pair_In in Hin.
    pose proof (eq_trans (eq_sym Hin) E). discriminate.
  - intros e He. apply in_app_iff in He as [He|[<-|[]]].
    + right. now apply H2.
    + left. unfold entry_fingerprint. simpl. now rewrite or_empty_or_none.
  - apply Forall_app. split; [assumption|]. repeat constructor. discriminate.
Qed.

Lemma flush_length w :
  length (w_entries (_flush_entry w)) <= S (length (w_entries w)).
Proof.
  unfold _flush_entry.
  destruct (current_question_text w) as [[|c q]|]; simpl; try lia.
  destruct (mem_pair _ _); simpl; [lia|]. rewrite length_app. simpl. lia.
Qed.

Lemma accept_answer_entries pool q node w :
  w_entries (accept_answer pool q node w) = w_entries w
  /\ section_fingerprints (accept_answer pool q node w) = section_fingerprints w.
Proof.
  unfold accept_answer.
  repeat match goal with
         | |- context [if ?b then _ else _] => destruct b
         end; simpl; auto.
Qed.

Lemma accept_answer_ok pool q node w :
  walk_ok w -> walk_ok (accept_answer pool q node w).
Proof.
  intros [H1 H2 H3].
  destruct (accept_answer_entries pool q node w) as [E1 E2].
  split; rewrite ?E1, ?E2; assumption.
Qed.

Lemma faq_walk_loop_ok pool nodes :
  forall w,
    walk_ok w -> length (w_entries w) <= FAQ_ENTRY_LIMIT ->
    walk_ok (faq_walk_loop pool nodes w)
    /\ length (w_entries (faq_walk_loop pool nodes w)) <= FAQ_ENTRY_LIMIT.
Proof.
  induction nodes as [|node rest IH]; intros w Hw Hlen; [now split|].
  cbn [faq_walk_loop].
  destruct (FAQ_ENTRY_LIMIT <=? length (w_entries w)) eqn:Efull; [now split|].
  apply Nat.leb_gt in Efull.
  destruct (mem (tag node) FAQ_QUESTION_TAGS).
  - set (w1 := if otruthy (current_question_text w) then _flush_entry w else w).
    assert (Hw1 : walk_ok w1).
    { unfold w1. destruct (otruthy _); [now apply flush_ok | assumption]. }
    assert (Hl1 : length (w_entries w1) <= FAQ_ENTRY_LIMIT).
    { unfold w1. destruct (otruthy _); [|assumption].
      pose proof (flush_length w). lia. }
    destruct (otruthy (current_question_text w)
              && (FAQ_ENTRY_LIMIT <=? length (w_entries w1))); [now split|].
    destruct (negb (truthy (get_text node))); apply IH; try assumption.
    now apply walk_ok_same_entries.
  - destruct (current_question_text w) as [[|c q]|]; try now apply IH.
    apply IH; [now apply accept_answer_ok|].
    now rewrite (proj1 (accept_answer_entries pool (c :: q) node w)).
Qed.

Lemma faq_entries_of_ok container :
  length (faq_entries_of container) <= FAQ_ENTRY_LIMIT
  /\ NoDup (map entry_fingerprint (faq_entries_of container))
  /\ Forall (fun e => question e <> []) (faq_entries_of container).
Proof.
  unfold faq_entries_of.
  destruct (faq_walk_loop_ok (question_text_pool container)
              (_iter_dom_descendants container) walk_ok_start) as [Hw Hl].
  { simpl. unfold FAQ_ENTRY_LIMIT. lia. }
  set (w := faq_walk_loop _ _ _) in *.
  destruct (otruthy (current_question_text w)
            && (length (w_entries w) <? FAQ_ENTRY_LIMIT)) eqn:E.
  - apply andb_true_iff in E as [_ E]. apply Nat.ltb_lt in E.
    pose proof (flush_length w). destruct (flush_ok Hw) as [H1 _ H3].
    repeat split; try assumption. lia.
  - destruct Hw as [H1 _ H3]. now repeat split.
Qed.

Lemma faq_entries_section_ok h container :
  section_ok (FaqSection h (faq_entries_of container)).
Proof.
  destruct (faq_entries_of_ok container) as (H1 & H2 & H3).
  repeat split; simpl; try assumption.
  apply (NoDup_map_inv (fun p : str * option str => (fst p, or_empty (snd p)))).
  rewrite map_map. exact H2.
Qed.

Lemma faqs_loop_ok headings :
  forall seen acc,
    Forall section_ok acc -> Forall section_ok (faqs_loop headings seen acc).
Proof.
  induction headings as [|h rest IH]; intros seen acc Hacc; [assumption|].
  cbn [faqs_loop].
  destruct (negb (truthy (get_text (node_of h))) || _); [now apply IH|].
  destruct (_ || _); [now apply IH|].
  apply IH. apply Forall_app. split; [assumption|].
  constructor; [apply faq_entries_section_ok | constructor].
Qed.

Lemma Forall_firstn {A} (P : A -> Prop) n l :
  Forall P l -> Forall P (firstn n l).
Proof.
  revert l. induction n as [|n IH]; intros l H; [constructor|].
  destruct H; simpl; constructor; auto.
Qed.

(** C3. DOM FAQ extraction returns at most 3 sections; each section has
    at most 12 entries, no two entries of a section have the same
    (question, answer) pair, every question is non-empty; and two runs on
    the same tree return the same sections. *)
Theorem dom_faqs_bounded_and_distinct :
  forall builder : option _DOMTreeBuilder,
    length (_extract_dom_faqs builder) <= 3
    /\ Forall (fun s =>
                 length (entries s) <= 12
                 /\ NoDup (map (fun e => (question e, answer e)) (entries s))
                 /\ Forall (fun e => question e <> []) (entries s))
              (_extract_dom_faqs builder)
    /\ (forall first second,
          first = _extract_dom_faqs builder ->
          second = _extract_dom_faqs builder ->
          first = second).
Proof.
  intros [b|]; unfold _extract_dom_faqs.
  - split; [rewrite length_firstn; lia |]. split; [|congruence].
    apply Forall_firstn. apply faqs_loop_ok. constructor.
  - split; [simpl; lia|]. split; [constructor | congruence].
Qed.

Lemma dom_faqs_bounded_and_distinct_witness :
  _extract_dom_faqs (Some faq_doc)
  = [FaqSection $"FAQ" [FaqEntry $"Is it good?" (Some $"Yes.");
                        FaqEntry $"Refunds?" None]].
Proof.
  destruct (dom_faqs_bounded_and_distinct (Some faq_doc)) as (_ & _ & H).
  apply (H _ _ eq_refl). reflexivity.
Defined.

(** ** FAQ reconciliation *)

Lemma dict_get_set d k v k' :
  dict_get (dict_set d k v) k'
  = if str_eqb k k' then Some v else dict_get d k'.
Proof.
  unfold dict_get. induction d as [|[k0 v0] d IH]; simpl.
  - now destruct (str_eqb k k').
  - destruct (str_eqb k0 k) eqn:E0; simpl.
    + apply str_eqb_eq in E0. subst k0. now destruct (str_eqb k k').
    + destruct (str_eqb k0 k') eqn:E1; [|exact IH].
      destruct (str_eqb k k') eqn:E2; [|reflexivity].
      apply str_eqb_eq in E1, E2. subst. now rewrite str_eqb_refl in E0.
Qed.

Lemma dict_set_keys d k v :
  forall x, In x (map fst (dict_set d k v)) <-> x = k \/ In x (map fst d).
Proof.
  induction d as [|[k0 v0] d IH]; intro x; simpl.
  - intuition congruence.
  - destruct (str_eqb k0 k) eqn:E0; simpl.
    + apply str_eqb_eq in E0. subst. intuition congruence.
    + rewrite IH. intuition congruence.
Qed.

Lemma dict_set_NoDup d k v :
  NoDup (map fst d) -> NoDup (map fst (dict_set d k v)).
Proof.
  induction d as [|[k0 v0] d IH]; simpl; intro H.
  - repeat constructor. simpl. tauto.
  - inversion H as [|? ? Hn Hd]; subst.
    destruct (str_eqb k0 k) eqn:E0; simpl; [now constructor|].
    constructor; [|now apply IH].
    rewrite dict_set_keys. intros [->|Hin]; [|contradiction].
    now rewrite str_eqb_refl in E0.
Qed.

Lemma dict_get_absent d k : ~ In k (map fst d) -> dict_get d k = None.
Proof.
  unfold dict_get. induction d as [|[k0 v0] d IH]; simpl; intro H;
    [reflexivity|].
  destruct (str_eqb k0 k) eqn:E.
  - apply str_eqb_eq in E. tauto.
  - apply IH. tauto.
Qed.

Lemma dict_get_filter (p : str * str -> bool) d k :
  NoDup (map fst d) ->
  dict_get (filter p d) k
  = match dict_get d k with
    | Some v => if p (k, v) then Some v else None
    | None => None
    end.
Proof.
  induction d as [|[k0 v0] d IH]; simpl; intro H; [reflexivity|].
  inversion H as [|? ? Hn Hd]; subst.
  unfold dict_get in *. simpl.
  destruct (str_eqb k0 k) eqn:E.
  - apply str_eqb_eq in E. subst k0.
    cbn [fst snd]. destruct (p (k, v0)) eqn:Ep.
    { cbn [List.find fst snd]. now rewrite str_eqb_refl. }
    fold (dict_get (filter p d) k). apply dict_get_absent.
    intro Hin. apply Hn. apply in_map_iff in Hin as (x & Hx & Hin).
    apply filter_In in Hin as [Hin _]. apply in_map_iff. eauto.
  - destruct (p (k0, v0)); cbn [List.find fst snd]; [rewrite E|]; now apply IH.
Qed.

Lemma find_app {A} (f : A -> bool) l1 l2 :
  List.find f (l1 ++ l2)
  = match List.find f l1 with Some x => Some x | None => List.find f l2 end.
Proof.
  induction l1 as [|x l1 IH]; [reflexivity|]. simpl. now destruct (f x).
Qed.

Lemma fold_set_fallback_NoDup l :
  forall d, NoDup (map fst d) -> NoDup (map fst (fold_left set_fallback l d)).
Proof.
  induction l as [|x l IH]; intros d H; [assumption|].
  simpl. apply IH. now apply dict_set_NoDup.
Qed.

Lemma fold_set_fallback_get l k :
  forall d,
    dict_get (fold_left set_fallback l d) k
    = match last_match l k with
      | Some f => Some (fb_answer f)
      | None => dict_get d k
      end.
Proof.
  unfold last_match.
  induction l as [|x l IH]; intro d; [reflexivity|].
  simpl. rewrite IH, find_app.
  destruct (List.find _ (rev l)); [reflexivity|].
  unfold set_fallback at 1. rewrite dict_get_set. simpl.
  now destruct (str_eqb (_normalize_question (fb_question x)) k).
Qed.

Lemma fallback_map_get fallback_entries k :
  dict_get (fallback_map_of fallback_entries) k
  = match last_match fallback_entries k with
    | Some f => if truthy k && truthy (fb_answer f)
                then Some (fb_answer f) else None
    | None => None
    end.
Proof.
  unfold fallback_map_of.
  rewrite dict_get_filter by (apply fold_set_fallback_NoDup; constructor).
  rewrite fold_set_fallback_get.
  now destruct (last_match fallback_entries k).
Qed.

Lemma merge_entry_reconciled fallback_entries e :
  merge_entry (fallback_map_of fallback_entries) e
  = reconciled fallback_entries e.
Proof.
  unfold merge_entry, reconciled. destruct (otruthy (answer e)); [reflexivity|].
  rewrite fallback_map_get.
  destruct (last_match _ _) as [f|]; [|reflexivity].
  destruct (truthy (_normalize_question (question e))); simpl; [|reflexivity].
  now destruct (fb_answer f).
Qed.

Lemma last_match_unique l k f :
  NoDup (map (fun f => _normalize_question (fb_question f)) l) ->
  In f l -> _normalize_question (fb_question f) = k ->
  last_match l k = Some f.
Proof.
  unfold last_match. intros Hnd Hin Hk.
  assert (Hnd' : NoDup (map (fun f => _normalize_question (fb_question f))
                            (rev l))).
  { rewrite map_rev. now apply NoDup_rev. }
  apply in_rev in Hin. revert Hnd' Hin. generalize (rev l) as r.
  induction r as [|x r IH]; simpl; intros Hnd' Hin; [contradiction|].
  destruct Hin as [->|Hin].
  - subst k. now rewrite str_eqb_refl.
  - inversion Hnd' as [|? ? Hn Hd]; subst.
    destruct (str_eqb _ _) eqn:E; [|now apply IH].
    exfalso. apply Hn. apply str_eqb_eq in E. rewrite E.
    apply in_map_iff. now exists f.
Qed.

(** C7, as the code has it. Without fallback entries the DOM sections
    come back unchanged; without DOM sections the result is one section
    headed "FAQs" made of the first 12 fallback entries, stripped;
    otherwise every entry that has an answer is left as it is and every
    entry without one takes the answer of the last fallback entry with
    the same normalized question, when that question and that answer are
    not empty. When the normalized questions of the fallback entries are
    pairwise distinct, that is the answer of the matching fallback
    entry. *)
Theorem merge_faq_sections_fills_from_last_match :
  forall (dom_sections : list faq_section)
         (fallback_entries : list fallback_entry),
    _merge_faq_sections dom_sections [] = dom_sections
    /\ (fallback_entries <> [] ->
        _merge_faq_sections [] fallback_entries
        = [FaqSection $"FAQs"
             (map (fun f => FaqEntry (strip (fb_question f))
                                     (Some (strip (fb_answer f))))
                  (firstn 12 fallback_entries))])
    /\ (fallback_entries <> [] -> dom_sections <> [] ->
        _merge_faq_sections dom_sections fallback_entries
        = map (fun s => FaqSection (heading s)
                          (map (reconciled fallback_entries) (entries s)))
              dom_sections)
    /\ (forall e, otruthy (answer e) = true ->
                  reconciled fallback_entries e = e)
    /\ (NoDup (map (fun f => _normalize_question (fb_question f))
                   fallback_entries) ->
        forall e f,
          otruthy (answer e) = false ->
          In f fallback_entries ->
          _normalize_question (fb_question f) = _normalize_question (question e) ->
          _normalize_question (question e) <> [] ->
          fb_answer f <> [] ->
          reconciled fallback_entries e
          = FaqEntry (question e) (Some (fb_answer f))).
Proof.
  intros dom fb. split; [now destruct dom|]. split; [|split; [|split]].
  - destruct fb as [|f fb]; [congruence|]. intros _. reflexivity.
  - destruct fb as [|f fb]; [congruence|]. intros _ Hdom.
    unfold _merge_faq_sections. destruct dom as [|s dom]; [congruence|].
    apply map_ext. intro s'. f_equal. apply map_ext. intro e.
    apply merge_entry_reconciled.
  - intros e He. unfold reconciled. now rewrite He.
  - intros Hnd e f He Hin Hk Hq Ha. unfold reconciled. rewrite He.
    rewrite (@last_match_unique fb _ f Hnd Hin Hk).
    destruct (_normalize_question (question e)); [congruence|].
    destruct (fb_answer f); [congruence | reflexivity].
Qed.

Lemma merge_faq_sections_fills_from_last_match_witness :
  _merge_faq_sections unanswered_sections plain_fallback
  = [FaqSection $"FAQ" [FaqEntry $"Refunds?" (Some $"Within 30 days.")]].
Proof.
  destruct (merge_faq_sections_fills_from_last_match unanswered_sections
              plain_fallback) as (_ & _ & H & _ & H').
  rewrite H by discriminate.
  unfold unanswered_sections. cbn [map heading entries].
  rewrite (H' ltac:(repeat constructor; simpl; tauto)
              (FaqEntry $"Refunds?" None)
              (FallbackEntry $"refunds?" $"Within 30 days."));
    try reflexivity; try discriminate.
  simpl. tauto.
Defined.

(** C7, as the specification words it, fails: the unanswered question
    "Refunds?" matches a fallback entry whose answer is not empty and yet
    stays unanswered, because a later fallback entry with the same
    normalized question and an empty answer replaces it in the map. *)
Lemma merge_faq_sections_shadowed_answer :
  exists e f,
    In e (flat_map entries unanswered_sections)
    /\ otruthy (answer e) = false
    /\ In f shadowed_fallback
    /\ _normalize_question (fb_question f) = _normalize_question (question e)
    /\ fb_answer f <> []
    /\ _merge_faq_sections unanswered_sections shadowed_fallback
       = unanswered_sections.
Proof.
  exists (FaqEntry $"Refunds?" None),
    (FallbackEntry $"Refunds?" $"Within 30 days.").
  repeat split; simpl; try tauto; try discriminate; reflexivity.
Qed.

(** ** Target normalization *)

Lemma bind_Raise_inv {A B} (r : result A) (k : A -> result B) e :
  bind r k = Raise e ->
  r = Raise e \/ exists a, r = Ok a /\ k a = Raise e.
Proof.
  destruct r as [a|e']; simpl; intro H; [right; eauto | left].
  now inversion H.
Qed.

Lemma check_bracketed_host_errors ip hostname e :
  Url._check_bracketed_host ip hostname = Raise e -> is_value_error e.
Proof.
  unfold Url._check_bracketed_host.
  destruct (startswith hostname $"v").
  - destruct (Url.ipvfuture_ok hostname); [discriminate|].
    intro H. inversion H. eexists; reflexivity.
  - destruct (ip hostname) as [[|]|]; try discriminate;
      intro H; inversion H; eexists; reflexivity.
Qed.

Lemma check_bracketed_netloc_errors ip netloc e :
  Url._check_bracketed_netloc ip netloc = Raise e -> is_value_error e.
Proof.
  unfold Url._check_bracketed_netloc.
  destruct (Url.partition "[" _) as [[before found] bracketed].
  destruct found.
  - destruct (truthy before).
    + intro H. inversion H. eexists; reflexivity.
    + destruct (Url.partition "]" bracketed) as [[hostname f2] port].
      destruct (truthy port && negb (startswith port $":")).
      * intro H. inversion H. eexists; reflexivity.
      * apply check_bracketed_host_errors.
  - destruct (Url.partition ":" _) as [[hostname f2] port].
    apply check_bracketed_host_errors.
Qed.

Lemma split_netloc_errors ip url e :
  Url.split_netloc ip url = Raise e -> is_value_error e.
Proof.
  unfold Url.split_netloc.
  destruct (str_eqb (slice_to url 2) $"//"); [|discriminate].
  destruct (Url._splitnetloc2 url) as [n r].
  destruct (_ || _).
  - intro H. inversion H. eexists; reflexivity.
  - destruct (_ && _); [|discriminate]. intro H.
    apply bind_Raise_inv in H as [H|(a & _ & H)]; [|discriminate].
    eapply check_bracketed_netloc_errors; eassumption.
Qed.

Lemma urlsplit_errors ip url scheme e :
  Url.urlsplit ip url scheme = Raise e -> is_value_error e.
Proof.
  unfold Url.urlsplit.
  destruct (Url.split_scheme _ _) as [sch rest].
  intro H. apply bind_Raise_inv in H as [H|([n r] & _ & H)].
  - eapply split_netloc_errors; eassumption.
  - destruct (Url.split_tail "#" r) as [a b].
    destruct (Url.split_tail "?" a) as [a' b']. discriminate.
Qed.

Lemma urlparse_errors ip url scheme e :
  Url.urlparse ip url scheme = Raise e -> is_value_error e.
Proof.
  unfold Url.urlparse. intro H.
  apply bind_Raise_inv in H as [H|(r & _ & H)].
  - eapply urlsplit_errors; eassumption.
  - destruct (_ && _); [destruct (Url._splitparams _)|]; discriminate.
Qed.

Lemma lower_chr_slash c : lower_chr c = "/"%char -> c = "/"%char.
Proof.
  destruct c as [[] [] [] [] [] [] [] []]; vm_compute; intro H;
    try discriminate; reflexivity.
Qed.

Lemma split_once_found c s :
  In c s -> exists a b, split_once c s = Some (a, b).
Proof.
  induction s as [|x s IH]; simpl; [contradiction|]. intro H.
  destruct (chr_eqb x c) eqn:E; [eauto|].
  destruct H as [->|H].
  { assert (chr_eqb c c = true) by now apply chr_eqb_eq. congruence. }
  destruct (IH H) as (a & b & ->). eauto.
Qed.

Lemma startswith_lower_whop n :
  startswith (lower n) $"whop.com/" = true -> In "/"%char n.
Proof.
  do 9 (destruct n as [|? n]; [cbn; try rewrite !andb_false_r; discriminate|]).
  cbn [lower map list_ascii_of_string startswith]. intro H.
  repeat (apply andb_true_iff in H as [? H]).
  match goal with
  | Hs : chr_eqb "/" (lower_chr ?c) = true |- _ =>
      apply chr_eqb_eq in Hs; symmetry in Hs; apply lower_chr_slash in Hs;
      subst c
  end.
  simpl. tauto.
Qed.

Lemma candidate_of_total target : exists candidate, candidate_of target = Ok candidate.
Proof.
  unfold candidate_of. destruct (contains (strip target) $"://"); cbn [negb];
    [eauto|].
  destruct (startswith (lower (lstrip_chars $"/" (strip target))) $"whop.com/")
    eqn:E; cbn [bind]; [|eauto].
  apply startswith_lower_whop in E.
  apply split_once_found in E as (a & b & E). rewrite E. cbn [bind]. eauto.
Qed.

Lemma remove_unsafe_app a b :
  Url.remove_unsafe (a ++ b) = Url.remove_unsafe a ++ Url.remove_unsafe b.
Proof. unfold Url.remove_unsafe, remove_chr. now rewrite !filter_app. Qed.

Lemma urlparse_whop ip x :
  exists p, Url.urlparse ip ($"https://whop.com/" ++ x) [] = Ok p
            /\ Url.scheme p = $"https" /\ Url.netloc p = $"whop.com".
Proof.
  unfold Url.urlparse, Url.urlsplit.
  replace (lstrip_by Url.is_c0_or_space ($"https://whop.com/" ++ x))
    with ($"https://whop.com/" ++ x) by reflexivity.
  rewrite remove_unsafe_app.
  generalize (Url.remove_unsafe x). intro x'.
  replace (Url.split_scheme (Url.remove_unsafe $"https://whop.com/" ++ x')
             (Url.remove_unsafe (strip_by Url.is_c0_or_space [])))
    with ($"https", $"//whop.com/" ++ x') by reflexivity.
  replace (Url.split_netloc ip ($"//whop.com/" ++ x'))
    with (@Ok (str * str) ($"whop.com", $"/" ++ x')) by reflexivity.
  cbn [bind].
  destruct (Url.split_tail "#" _) as [a b].
  destruct (Url.split_tail "?" a) as [c d]. cbn [bind].
  match goal with |- context [if ?t then _ else _] => destruct t end;
    [destruct (Url._splitparams _)|]; eexists; repeat split; reflexivity.
Qed.

Lemma candidate_of_cases target :
  (contains (strip target) $"://" = true /\ candidate_of target = Ok (strip target))
  \/ (contains (strip target) $"://" = false
      /\ exists x, candidate_of target = Ok ($"https://whop.com/" ++ x)).
Proof.
  destruct (candidate_of_total target) as (c & Hc).
  unfold candidate_of in *.
  destruct (contains (strip target) $"://"); cbn [negb] in *; [now left|].
  right. split; [reflexivity|].
  destruct (if startswith _ _ then _ else _) as [n|e]; cbn [bind] in *;
    [eauto | discriminate].
Qed.

Lemma truthy_false s : truthy s = false <-> s = [].
Proof. destruct s; simpl; split; congruence. Qed.

(** C4, as the code has it. Normalization raises [ValueError] with the
    empty-target message for every input that is empty after stripping;
    it raises [ValueError] with the unsupported-scheme message whenever
    [urlparse] finds a scheme other than http or https; the only other
    failure is the [ValueError] [urlparse] itself raises; both need an
    input that contains "://", and an input without it that is not
    empty after stripping normalizes to a URL under https://whop.com/;
    the first two errors have the same class and differ in their
    message. *)
Theorem normalize_target_failures :
  forall (ip_address : str -> option Url.ip_kind) (target : str),
    (strip target = [] ->
     _normalize_target ip_address target = Raise empty_target_error)
    /\ (forall candidate parsed,
          strip target <> [] ->
          candidate_of target = Ok candidate ->
          Url.urlparse ip_address candidate [] = Ok parsed ->
          mem (Url.scheme parsed) [$"http"; $"https"] = false ->
          _normalize_target ip_address target
          = Raise (unsupported_scheme_error candidate))
    /\ (forall e,
          _normalize_target ip_address target = Raise e ->
          (strip target = [] /\ e = empty_target_error)
          \/ (contains (strip target) $"://" = true
              /\ exists parsed,
                   Url.urlparse ip_address (strip target) [] = Ok parsed
                   /\ mem (Url.scheme parsed) [$"http"; $"https"] = false
                   /\ e = unsupported_scheme_error (strip target))
          \/ (contains (strip target) $"://" = true
              /\ Url.urlparse ip_address (strip target) [] = Raise e
              /\ is_value_error e))
    /\ (strip target <> [] ->
        contains (strip target) $"://" = false ->
        exists x slug,
          _normalize_target ip_address target
          = Ok ($"https://whop.com/" ++ x, slug))
    /\ (forall candidate,
          empty_target_error <> unsupported_scheme_error candidate).
Proof.
  intros ip target. split; [|split; [|split; [|split]]].
  - intro H. unfold _normalize_target. now rewrite H.
  - intros candidate parsed Hne Hc Hp Hs. unfold _normalize_target.
    destruct (strip target) eqn:E; [congruence|]. cbn [truthy negb].
    rewrite Hc. cbn [bind]. rewrite Hp. cbn [bind]. now rewrite Hs.
  - intros e H. unfold _normalize_target in H.
    destruct (truthy (strip target)) eqn:Et; cbn [negb] in H.
    + right.
      destruct (candidate_of_cases target) as [[Hc Hcand]|[Hc (x & Hcand)]];
        rewrite Hcand in H; cbn [bind] in H.
      * destruct (Url.urlparse ip (strip target) []) as [parsed|e'] eqn:Ep;
          cbn [bind] in H.
        -- left. split; [exact Hc|]. exists parsed.
           destruct (mem (Url.scheme parsed) [$"http"; $"https"]);
             cbn [negb] in H; [discriminate|].
           inversion H. auto.
        -- right. inversion H; subst e'. repeat split; try assumption.
           eapply urlparse_errors; eassumption.
      * destruct (urlparse_whop ip x) as (p & Hp & Hs & _).
        rewrite Hp in H. cbn [bind] in H. rewrite Hs in H. discriminate.
    + left. apply truthy_false in Et. inversion H. auto.
  - intros Hne Hc. unfold _normalize_target.
    destruct (strip target) eqn:E; [congruence|]. cbn [truthy negb].
    destruct (candidate_of_cases target) as [[Hc' _]|[_ (x & Hcand)]].
    + rewrite E in Hc'. congruence.
    + rewrite Hcand. cbn [bind].
      destruct (urlparse_whop ip x) as (p & Hp & Hs & _).
      rewrite Hp. cbn [bind]. rewrite Hs.
      change (mem $"https" [$"http"; $"https"]) with true.
      cbn [negb]. eauto.
  - intro candidate. discriminate.
Qed.

Lemma normalize_target_failures_witness :
  _normalize_target no_address $" " = Raise empty_target_error
  /\ _normalize_target no_address $"ftp://example.test/x"
     = Raise (unsupported_scheme_error $"ftp://example.test/x")
  /\ exists x slug,
       _normalize_target no_address $"alice/course"
       = Ok ($"https://whop.com/" ++ x, slug).
Proof.
  destruct (normalize_target_failures no_address $" ") as (H1 & _).
  destruct (normalize_target_failures no_address $"ftp://example.test/x")
    as (_ & H2 & _).
  destruct (normalize_target_failures no_address $"alice/course")
    as (_ & _ & _ & H4 & _).
  split; [apply H1; reflexivity|]. split.
  - eapply H2; [discriminate | reflexivity | reflexivity | reflexivity].
  - apply H4; [discriminate | reflexivity].
Defined.

(** C4, as the specification words it, fails: the target "http://["
    is neither empty nor of an unsupported scheme, and normalization
    fails on it with the error [urlparse] raises. *)
Lemma normalize_target_third_failure :
  _normalize_target no_address $"http://["
  = Raise (ValueError $"Invalid IPv6 URL")
  /\ ValueError $"Invalid IPv6 URL" <> empty_target_error
  /\ (forall candidate,
        ValueError $"Invalid IPv6 URL" <> unsupported_scheme_error candidate).
Proof.
  split; [reflexivity|]. split; [discriminate|]. intro c. discriminate.
Qed.

(** ** Profile product links *)

Lemma split_chr_no_sep c s w : In w (split_chr c s) -> ~ In c w.
Proof.
  revert w. induction s as [|x s IH]; simpl; intros w H.
  - destruct H as [<-|[]]. simpl. tauto.
  - destruct (chr_eqb x c) eqn:E.
    + destruct H as [<-|H]; [simpl; tauto | now apply IH].
    + destruct (split_chr c s) as [|w0 ws] eqn:Es.
      * destruct H as [<-|[]]. simpl. intros [->|[]].
        assert (chr_eqb c c = true) by now apply chr_eqb_eq. congruence.
      * destruct H as [<-|H].
        -- simpl. intros [->|Hin].
           ++ assert (chr_eqb c c = true) by now apply chr_eqb_eq. congruence.
           ++ revert Hin. apply IH. now left.
        -- apply IH. now right.
Qed.

Lemma path_segments_are_segments p s :
  In s (path_segments p) -> is_segment s.
Proof.
  unfold path_segments. intro H. apply filter_In in H as [H Ht]. split.
  - now destruct s.
  - eapply split_chr_no_sep; eassumption.
Qed.

Lemma product_link_ok ip parsed username a u :
  product_link ip parsed username a = Ok (Some u) ->
  link_ok ip parsed username [a] u.
Proof.
  unfold product_link.
  destruct (truthy (attrs_get (attrs (node_of a)) $"href" [])); cbn [negb];
    [|discriminate].
  rewrite <- !app_assoc.
  destruct (Url.urljoin ip _ _) as [absolute|] eqn:Ej; cbn [bind];
    [|discriminate].
  destruct (Url.urlparse ip absolute []) as [ph|] eqn:Ep; cbn [bind];
    [|discriminate].
  destruct (_ && _); [discriminate|].
  destruct (path_segments (Url.path ph)) as [|s1 [|s2 rest]] eqn:Es;
    try discriminate.
  destruct (str_eqb (lower s1) username) eqn:El; cbn [negb]; [|discriminate].
  intro H. inversion H; subst u. clear H.
  apply str_eqb_eq in El.
  exists s1, s2. split; [|split; [|split; [|split]]].
  - reflexivity.
  - apply (path_segments_are_segments (Url.path ph)). rewrite Es. now left.
  - apply (path_segments_are_segments (Url.path ph)). rewrite Es.
    right. now left.
  - exact El.
  - exists a, absolute, ph, rest. repeat split; try assumption. now left.
Qed.

Lemma link_ok_weaken ip parsed username l1 l2 u :
  (forall a, In a l1 -> In a l2) ->
  link_ok ip parsed username l1 u -> link_ok ip parsed username l2 u.
Proof.
  intros Hsub (s1 & s2 & H1 & H2 & H3 & H4 & (a & ab & ph & rest & Ha & Hr)).
  exists s1, s2. split; [assumption|]. split; [assumption|].
  split; [assumption|]. split; [assumption|].
  exists a, ab, ph, rest. split; [now apply Hsub | exact Hr].
Qed.

Lemma product_links_loop_ok ip parsed username all :
  forall anchors seen results links,
    (forall a, In a anchors -> In a all) ->
    NoDup results ->
    (forall u, In u results -> In u seen) ->
    Forall (link_ok ip parsed username all) results ->
    product_links_loop ip parsed username anchors seen results = Ok links ->
    NoDup links /\ Forall (link_ok ip parsed username all) links.
Proof.
  induction anchors as [|a rest IH]; intros seen results links Hall Hnd Hseen Hok.
  - simpl. intro H. inversion H; subst. now split.
  - cbn [product_links_loop].
    destruct (product_link ip parsed username a) as [[u|]|] eqn:El;
      cbn [bind]; [| |discriminate].
    + destruct (mem u seen) eqn:Em.
      * apply IH; auto. intros x Hx. apply Hall. now right.
      * apply IH.
        -- intros x Hx. apply Hall. now right.
        -- apply NoDup_app; [assumption | repeat constructor; simpl; tauto |].
           intros x Hx [<-|[]]. apply Hseen in Hx. apply mem_In in Hx.
           congruence.
        -- intros x Hx. apply in_app_iff in Hx as [Hx|[<-|[]]];
             [right; now apply Hseen | now left].
        -- apply Forall_app. split; [assumption|].
           constructor; [|constructor].
           apply product_link_ok in El.
           eapply link_ok_weaken; [|exact El].
           intros x [<-|[]]. apply Hall. now left.
    + apply IH; auto. intros x Hx. apply Hall. now right.
Qed.

(** C10, as the code has it. Without a tree, or when the profile URL's
    path has no segments, the result is empty. Otherwise the returned
    list has no duplicates and every URL in it is the profile URL's
    scheme, "://", the profile URL's host and a path of exactly two
    non-empty segments, which are the first two segments of the resolved
    path of some anchor; the first of them equals the profile URL's first
    path segment up to letter case. *)
Theorem profile_product_paths_shape :
  forall (ip_address : str -> option Url.ip_kind) (b : _DOMTreeBuilder)
         (final_url : str) (parsed : Url.ParseResult) (links : list str),
    Url.urlparse ip_address final_url [] = Ok parsed ->
    _extract_profile_product_paths ip_address (Some b) final_url = Ok links ->
    _extract_profile_product_paths ip_address None final_url = Ok []
    /\ (path_segments (Url.path parsed) = [] -> links = [])
    /\ NoDup links
    /\ (forall u, In u links ->
        exists first s1 s2,
          hd_error (path_segments (Url.path parsed)) = Some first
          /\ u = product_url_of parsed s1 s2
          /\ is_segment s1 /\ is_segment s2
          /\ lower s1 = lower first
          /\ from_anchor ip_address parsed (iter_tag b $"a") s1 s2).
Proof.
  intros ip b final_url parsed links Hp H.
  unfold _extract_profile_product_paths in H. rewrite Hp in H. cbn [bind] in H.
  split; [reflexivity|].
  destruct (path_segments (Url.path parsed)) as [|first segs] eqn:Es.
  - inversion H; subst. split; [reflexivity|]. split; [constructor|].
    intros u [].
  - split; [discriminate|].
    destruct (@product_links_loop_ok ip parsed (lower first) (iter_tag b $"a")
                (iter_tag b $"a") [] [] links (fun a Ha => Ha) (NoDup_nil _)
                (fun u Hu => Hu) (Forall_nil _) H) as [Hnd Hok].
    split; [assumption|]. intros u Hu.
    rewrite Forall_forall in Hok.
    destruct (Hok u Hu) as (s1 & s2 & H1 & H2 & H3 & H4 & H5).
    exists first, s1, s2. split; [reflexivity|]. tauto.
Qed.

Lemma profile_product_paths_shape_witness :
  _extract_profile_product_paths no_address (Some profile_doc) profile_url
  = Ok [ $"https://whop.com/Alice/p1"; $"https://whop.com/alice/p2" ]
  /\ NoDup [ $"https://whop.com/Alice/p1"; $"https://whop.com/alice/p2" ].
Proof.
  split; [reflexivity|].
  eapply (profile_product_paths_shape no_address profile_doc profile_url);
    reflexivity.
Defined.

(** C10, as the specification words it, fails: on the profile page
    https://whop.com/alice the anchor /Alice/p1 is returned, and the first
    path segment of the returned URL is "Alice", not "alice". *)
Lemma profile_product_paths_first_segment_case :
  exists u,
    _extract_profile_product_paths no_address (Some profile_doc) profile_url
    = Ok (u :: [ $"https://whop.com/alice/p2" ])
    /\ first_segment no_address u = Some $"Alice"
    /\ first_segment no_address profile_url = Some $"alice"
    /\ first_segment no_address u <> first_segment no_address profile_url.
Proof.
  exists $"https://whop.com/Alice/p1".
  split; [reflexivity|]. split; [reflexivity|]. split; [reflexivity|].
  discriminate.
Qed.

(** ** Review summaries *)

Lemma fold_result_inv {A B} (P : A -> Prop) (f : A -> B -> result A) items :
  (forall a x a', P a -> f a x = Ok a' -> P a') ->
  forall a a', P a -> fold_result f items a = Ok a' -> P a'.
Proof.
  intro Hf. induction items as [|x items IH]; intros a a' Ha H; simpl in H.
  - now inversion H; subst.
  - destruct (f a x) as [a1|e] eqn:E; simpl in H; [|discriminate].
    eapply IH; [|exact H]. eapply Hf; eauto.
Qed.


(** *** Signs *)











(** *** The percentages read from the page *)






(** *** The rows *)









(** *** The total *)











(** ** JSON: reading back what [dumps] writes *)

Lemma scanstring_encode_chr c t :
  scanstring (encode_chr c ++ t)
  = ('(x, rest) <- scanstring t ;; Ok (c :: x, rest)).
Proof.
  destruct c as [[] [] [] [] [] [] [] []]; reflexivity.
Qed.

Lemma scanstring_encode_body s rest :
  scanstring (encode_body s ++ dquote :: rest) = Ok (s, rest).
Proof.
  induction s as [|c s IH]; [reflexivity|].
  unfold encode_body in *. cbn [flat_map]. rewrite <- app_assoc.
  rewrite scanstring_encode_chr, IH. reflexivity.
Qed.

Lemma loads_encode_str s : loads (encode_str s) = Ok (JStr s).
Proof.
  unfold loads, encode_str.
  change (skip_ws (dquote :: encode_body s ++ [dquote]))
    with (dquote :: encode_body s ++ [dquote]).
  cbn [Nat.mul Nat.add length scan_once].
  change (chr_eqb dquote dquote) with true. cbn iota.
  rewrite scanstring_encode_body. reflexivity.
Qed.

Lemma int_of_digits_snoc a d :
  int_of_digits (a ++ [d]) = (10 * int_of_digits a + digit_val d)%Z.
Proof. unfold int_of_digits. now rewrite fold_left_app. Qed.

Lemma digit_chr k :
  (0 <= k < 10)%Z ->
  isdigit (ascii_of_nat (48 + Z.to_nat k)) = true
  /\ digit_val (ascii_of_nat (48 + Z.to_nat k)) = k
  /\ (chr_eqb (ascii_of_nat (48 + Z.to_nat k)) "0" = true -> k = 0%Z).
Proof.
  intro H.
  assert (Hk : (k = 0 \/ k = 1 \/ k = 2 \/ k = 3 \/ k = 4 \/ k = 5 \/ k = 6
                \/ k = 7 \/ k = 8 \/ k = 9)%Z) by lia.
  repeat (destruct Hk as [->|Hk]; [repeat split; try reflexivity;
                                   try discriminate|]).
  subst k. repeat split; try reflexivity; discriminate.
Qed.

Lemma digits_of_spec fuel :
  forall n, (0 <= n < 10 ^ Z.of_nat (S fuel))%Z ->
    forallb isdigit (digits_of (S fuel) n) = true
    /\ int_of_digits (digits_of (S fuel) n) = n
    /\ (exists c t, digits_of (S fuel) n = c :: t
                    /\ (chr_eqb c "0" = true -> n = 0%Z)).
Proof.
  induction fuel as [|fuel IH]; intros n Hn.
  - assert (Hm : (0 <= n < 10)%Z) by (simpl in Hn; lia).
    destruct (digit_chr Hm) as (Hd1 & Hd2 & Hd3).
    cbn [digits_of]. destruct (n <? 10)%Z eqn:E; [|apply Z.ltb_ge in E; lia].
    rewrite Z.mod_small by lia. cbn [app forallb]. rewrite Hd1.
    split; [reflexivity|]. split.
    + unfold int_of_digits. cbn [fold_left]. rewrite Hd2. lia.
    + eauto.
  - remember (S fuel) as f eqn:Ef. cbn [digits_of].
    assert (Hm : (0 <= n mod 10 < 10)%Z) by (apply Z.mod_pos_bound; lia).
    destruct (digit_chr Hm) as (Hd1 & Hd2 & Hd3).
    destruct (n <? 10)%Z eqn:E.
    + apply Z.ltb_lt in E. rewrite Z.mod_small in * by lia.
      cbn [app forallb]. rewrite Hd1.
      split; [reflexivity|]. split.
      * unfold int_of_digits. cbn [fold_left]. rewrite Hd2. lia.
      * eauto.
    + apply Z.ltb_ge in E.
      assert (Hq : (0 <= n / 10 < 10 ^ Z.of_nat f)%Z).
      { split; [apply Z.div_pos; lia|].
        apply Z.div_lt_upper_bound; [lia|].
        rewrite Nat2Z.inj_succ, Z.pow_succ_r in Hn by lia. lia. }
      subst f. destruct (IH _ Hq) as (H1 & H2 & (c & t & H3 & H4)).
      split; [|split].
      * rewrite forallb_app, H1. cbn [forallb]. now rewrite Hd1.
      * rewrite int_of_digits_snoc, H2, Hd2.
        pose proof (Z.div_mod n 10). lia.
      * rewrite H3. exists c, (t ++ [ascii_of_nat (48 + Z.to_nat (n mod 10))]).
        split; [reflexivity|]. intro Hc. apply H4 in Hc.
        assert (n / 10 > 0)%Z; [|lia].
        apply Z.lt_gt, Z.div_str_pos. lia.
Qed.

Lemma str_of_nonneg_spec n :
  (0 <= n)%Z ->
  forallb isdigit (str_of_nonneg n) = true
  /\ int_of_digits (str_of_nonneg n) = n
  /\ (exists c t, str_of_nonneg n = c :: t
                  /\ (chr_eqb c "0" = true -> n = 0%Z)).
Proof.
  intro Hn. apply digits_of_spec. split; [assumption|].
  destruct (Z.eq_dec n 0) as [->|Hz].
  - simpl. lia.
  - rewrite Nat2Z.inj_succ, Z2Nat.id by apply Z.log2_nonneg.
    pose proof (Z.log2_spec n ltac:(lia)) as [_ Hl].
    eapply Z.lt_le_trans; [exact Hl|].
    apply Z.pow_le_mono_l. lia.
Qed.

Lemma span_all p a rest :
  forallb p a = true ->
  match rest with [] => true | c :: _ => negb (p c) end = true ->
  span p (a ++ rest) = (a, rest).
Proof.
  intros Ha Hr. induction a as [|x a IH]; cbn [app forallb span] in *.
  - destruct rest as [|c rest]; [reflexivity|].
    apply negb_true_iff in Hr. cbn [span]. now rewrite Hr.
  - apply andb_true_iff in Ha as [Hx Ha]. rewrite Hx, IH by assumption.
    reflexivity.
Qed.

Lemma ends_number_inv rest :
  ends_number rest = true ->
  match rest with [] => true | c :: _ => negb (isdigit c) end = true
  /\ match_frac rest = ([], rest) /\ match_exp rest = ([], rest).
Proof.
  destruct rest as [|c rest]; [now repeat split|].
  unfold ends_number, match_frac, match_exp. intro H.
  apply negb_true_iff, orb_false_iff in H as [Hd H].
  unfold in_chars in H. cbn [existsb list_ascii_of_string] in H.
  apply orb_false_iff in H as [H1 H].
  apply orb_false_iff in H as [H2 H].
  apply orb_false_iff in H as [H3 _].
  now rewrite Hd, H1, H2, H3.
Qed.

Lemma number_re_str_of_int n rest :
  ends_number rest = true ->
  number_re (str_of_int n ++ rest) = Some (JInt n, rest)
  /\ exists c t, str_of_int n = c :: t /\ (isdigit c || chr_eqb c "-") = true.
Proof.
  intro Hr. destruct (@ends_number_inv rest Hr) as (Hd & Hf & He).
  unfold str_of_int, number_re, match_int_part.
  destruct (n <? 0)%Z eqn:E.
  - apply Z.ltb_lt in E.
    destruct (@str_of_nonneg_spec (- n)%Z ltac:(lia))
      as (H1 & H2 & c & t & H3 & H4).
    split; [|exists "-"%char, (str_of_nonneg (- n)%Z); split; reflexivity].
    cbn [app]. change (chr_eqb "-" "-") with true. cbn iota.
    rewrite H3 in H1 |- *. cbn [app].
    destruct (chr_eqb c "0") eqn:Ec; [pose proof (H4 eq_refl); lia|].
    cbn [forallb] in H1. apply andb_true_iff in H1 as [Hc Ht]. rewrite Hc.
    change (c :: t ++ rest) with ((c :: t) ++ rest).
    rewrite (span_all isdigit (c :: t) rest) by
      (try assumption; cbn [forallb]; now rewrite Hc, Ht).
    rewrite Hf, He. cbn [truthy orb app int_of_str].
    change (chr_eqb "-" "-") with true. cbn iota.
    rewrite <- H3, H2. f_equal. f_equal. f_equal. lia.
  - apply Z.ltb_ge in E.
    destruct (Z.eq_dec n 0) as [->|Hz].
    { split; [|exists "0"%char, []; split; reflexivity].
      change (str_of_nonneg 0) with [ascii_of_nat 48]. cbn [app].
      change (chr_eqb (ascii_of_nat 48) "-") with false. cbn iota.
      cbn [app].
      change (chr_eqb (ascii_of_nat 48) "0") with true. cbn iota.
      rewrite Hf, He. reflexivity. }
    destruct (@str_of_nonneg_spec n E) as (H1 & H2 & c & t & H3 & H4).
    rewrite H3 in H1 |- *. cbn [forallb] in H1.
    apply andb_true_iff in H1 as [Hc Ht].
    split; [|exists c, t; split; [reflexivity | now rewrite Hc]].
    cbn [app].
    assert (Hm : chr_eqb c "-" = false).
    { destruct (chr_eqb c "-") eqn:Em; [|reflexivity].
      apply chr_eqb_eq in Em. subst c. discriminate. }
    rewrite Hm.
    destruct (chr_eqb c "0") eqn:Ec; [pose proof (H4 eq_refl); lia|].
    rewrite Hc. change (c :: t ++ rest) with ((c :: t) ++ rest).
    rewrite (span_all isdigit (c :: t) rest) by
      (try assumption; cbn [forallb]; now rewrite Hc, Ht).
    rewrite Hf, He. cbn [truthy orb app int_of_str]. rewrite Hm.
    rewrite <- H3. now rewrite H2.
Qed.

(** *** Float literals *)

Lemma span_inv p a :
  forall run r, span p a = (run, r) ->
    a = run ++ r /\ forallb p run = true
    /\ match r with [] => True | c :: _ => p c = false end.
Proof.
  induction a as [|x a IH]; intros run r H; cbn [span] in H.
  - inversion H. now repeat split.
  - destruct (p x) eqn:Ex.
    + destruct (span p a) as [run' r'] eqn:Es. inversion H; subst.
      destruct (IH run' r eq_refl) as (-> & Hf & Hr).
      cbn [app forallb]. now rewrite Ex, Hf.
    + inversion H; subst. now repeat split.
Qed.

(** Text added after [a] does not change what [span] takes from [a], when
    [span] stopped inside [a] or the added text starts with a character
    it refuses. *)
Lemma span_app p a rest run r :
  span p a = (run, r) ->
  r <> [] \/ match rest with [] => true | c :: _ => negb (p c) end = true ->
  span p (a ++ rest) = (run, r ++ rest).
Proof.
  intros H Hor. destruct (span_inv p a H) as (-> & Hf & Hr).
  destruct r as [|c r].
  - destruct Hor as [Hne|Hrest]; [congruence|].
    rewrite app_nil_r. cbn [app]. now apply span_all.
  - rewrite <- app_assoc. apply span_all; [assumption|].
    cbn [app]. now rewrite Hr.
Qed.

Lemma number_chr_plain c : number_chr c = true -> plain_chr c = true.
Proof.
  destruct c as [[] [] [] [] [] [] [] []]; vm_compute; intro H;
    try discriminate; reflexivity.
Qed.

Lemma digits_number ds : forallb isdigit ds = true -> forallb number_chr ds = true.
Proof.
  intro H. apply forallb_forall. intros c Hc.
  rewrite forallb_forall in H. unfold number_chr. now rewrite (H c Hc).
Qed.

Lemma match_int_part_inv s i s1 :
  match_int_part s = Some (i, s1) ->
  s = i ++ s1 /\ forallb number_chr i = true
  /\ (exists c t, i = c :: t /\ (isdigit c || chr_eqb c "-") = true)
  /\ (s1 <> [] -> forall rest, match_int_part (s ++ rest) = Some (i, s1 ++ rest)).
Proof.
  unfold match_int_part.
  assert (Hbody : forall sign s0,
    match s0 with
    | c :: s2 =>
        if chr_eqb c "0" then Some (sign ++ [c], s2)
        else if isdigit c
             then let '(run, rest) := span isdigit s0 in Some (sign ++ run, rest)
             else None
    | [] => None
    end = Some (i, s1) ->
    forallb number_chr sign = true ->
    sign ++ s0 = i ++ s1 /\ forallb number_chr i = true
    /\ (exists d t, i = sign ++ d :: t /\ isdigit d = true)
    /\ (s1 <> [] -> forall rest,
          match s0 ++ rest with
          | c :: s2 =>
              if chr_eqb c "0" then Some (sign ++ [c], s2)
              else if isdigit c
                   then let '(run, rest) := span isdigit (s0 ++ rest) in
                        Some (sign ++ run, rest)
                   else None
          | [] => None
          end = Some (i, s1 ++ rest))).
  { intros sign s0 H Hsign. destruct s0 as [|c s2]; [discriminate|].
    destruct (chr_eqb c "0") eqn:E0.
    - inversion H; subst. apply chr_eqb_eq in E0. subst c.
      split; [|split; [|split]].
      + now rewrite <- app_assoc.
      + rewrite forallb_app, Hsign. reflexivity.
      + now exists "0"%char, [].
      + intros _ rest. reflexivity.
    - destruct (isdigit c) eqn:Ed; [|discriminate].
      destruct (span isdigit (c :: s2)) as [run r] eqn:Es.
      inversion H; subst.
      destruct (span_inv isdigit (c :: s2) Es) as (E & Hf & Hr).
      split; [|split; [|split]].
      + rewrite E. now rewrite <- app_assoc.
      + rewrite forallb_app, Hsign. now apply digits_number.
      + cbn [span] in Es. rewrite Ed in Es.
        destruct (span isdigit s2) as [run' r']. inversion Es; subst.
        now exists c, run'.
      + intros Hne rest. cbn [app]. rewrite E0, Ed.
        change (c :: s2 ++ rest) with ((c :: s2) ++ rest).
        rewrite (span_app isdigit (c :: s2) rest Es) by now left.
        reflexivity. }
  destruct s as [|c s']; [discriminate|].
  destruct (chr_eqb c "-") eqn:Em.
  - apply chr_eqb_eq in Em. subst c. intro H.
    destruct (Hbody ["-"%char] s' H eq_refl) as (E & Hf & (d & t & Ei & Hd) & Hx).
    split; [exact E|]. split; [exact Hf|]. split.
    + exists "-"%char, (d :: t). now split.
    + intros Hne rest. cbn [app]. change (chr_eqb "-" "-") with true.
      cbn iota. apply (Hx Hne rest).
  - intro H.
    destruct (Hbody [] (c :: s') H eq_refl) as (E & Hf & (d & t & Ei & Hd) & Hx).
    cbn [app] in E, Ei.
    split; [exact E|]. split; [exact Hf|]. split.
    + exists d, t. now rewrite Hd.
    + intros Hne rest. specialize (Hx Hne rest). cbn [app] in Hx |- *.
      rewrite Em. exact Hx.
Qed.

Lemma match_frac_inv s1 f s2 :
  match_frac s1 = (f, s2) ->
  s1 = f ++ s2 /\ forallb number_chr f = true
  /\ (forall rest, ends_number rest = true ->
        match_frac (s1 ++ rest) = (f, s2 ++ rest)).
Proof.
  unfold match_frac. destruct s1 as [|c s'].
  - intro H. inversion H; subst. split; [reflexivity|]. split; [reflexivity|].
    intros rest Hr. apply (ends_number_inv rest Hr).
  - destruct (chr_eqb c ".") eqn:E.
    + destruct (span isdigit s') as [run r] eqn:Es. intro H.
      destruct (span_inv isdigit s' Es) as (-> & Hf & _).
      assert (Hx : forall rest, ends_number rest = true ->
                 span isdigit ((run ++ r) ++ rest) = (run, r ++ rest)).
      { intros rest Hr. apply span_app; [assumption|]. right.
        apply (ends_number_inv rest Hr). }
      destruct run as [|d run']; inversion H; subst.
      * split; [reflexivity|]. split; [reflexivity|]. intros rest Hr.
        cbn [app]. rewrite E. change (r ++ rest) with (([] ++ r) ++ rest).
        now rewrite (Hx rest Hr).
      * split; [reflexivity|]. split.
        -- apply chr_eqb_eq in E. subst c.
           change (forallb number_chr (d :: run') = true).
           now apply digits_number.
        -- intros rest Hr. cbn [app]. rewrite E.
           change (d :: (run' ++ s2) ++ rest) with (((d :: run') ++ s2) ++ rest).
           now rewrite (Hx rest Hr).
    + intro H. inversion H; subst. split; [reflexivity|]. split; [reflexivity|].
      intros rest Hr. cbn [app]. now rewrite E.
Qed.

Lemma match_exp_inv s2 e :
  match_exp s2 = (e, []) ->
  s2 = e /\ forallb number_chr e = true
  /\ (forall rest, ends_number rest = true -> match_exp (s2 ++ rest) = (e, rest)).
Proof.
  unfold match_exp. destruct s2 as [|c s'].
  - intro H. inversion H; subst. split; [reflexivity|]. split; [reflexivity|].
    intros rest Hr. apply (ends_number_inv rest Hr).
  - destruct (chr_eqb c "e" || chr_eqb c "E") eqn:E; [|discriminate].
    assert (Hc : number_chr c = true).
    { apply orb_true_iff in E as [E|E]; apply chr_eqb_eq in E; now subst c. }
    assert (Hbody : forall sign s1,
      forallb number_chr sign = true ->
      match span isdigit s1 with
      | ((_ :: _) as run, rest) => (c :: sign ++ run, rest)
      | _ => ([], c :: s')
      end = (e, []) ->
      c :: sign ++ s1 = e /\ forallb number_chr e = true
      /\ (forall rest, ends_number rest = true ->
            match span isdigit (s1 ++ rest) with
            | ((_ :: _) as run, rest0) => (c :: sign ++ run, rest0)
            | _ => ([], c :: s' ++ rest)
            end = (e, rest))).
    { intros sign s1 Hsign H. destruct (span isdigit s1) as [run r] eqn:Es.
      destruct (span_inv isdigit s1 Es) as (-> & Hf & _).
      destruct run as [|d run']; inversion H; subst.
      rewrite app_nil_r in *. split; [reflexivity|]. split.
      - cbn [forallb]. rewrite Hc, forallb_app, Hsign.
        now rewrite (digits_number _ Hf).
      - intros rest Hr.
        rewrite (span_app isdigit (d :: run') rest Es)
          by (right; apply (ends_number_inv rest Hr)).
        reflexivity. }
    destruct s' as [|g s''].
    + intro H. cbn [span] in H. inversion H.
    + destruct (chr_eqb g "-" || chr_eqb g "+") eqn:Eg.
      * intro H.
        assert (Hg : forallb number_chr [g] = true).
        { apply orb_true_iff in Eg as [Eg|Eg]; apply chr_eqb_eq in Eg;
            now subst g. }
        destruct (Hbody [g] s'' Hg H) as (E1 & Hf & Hx).
        split; [exact E1|]. split; [exact Hf|].
        intros rest Hr. cbn [app]. rewrite E, Eg. apply (Hx rest Hr).
      * intro H. destruct (Hbody [] (g :: s'') eq_refl H) as (E1 & Hf & Hx).
        split; [exact E1|]. split; [exact Hf|].
        intros rest Hr. cbn [app]. rewrite E, Eg. apply (Hx rest Hr).
Qed.

(** A float literal is read whole, whatever follows it that is no part
    of a number. *)
Lemma number_re_float literal rest :
  float_literal literal = true ->
  ends_number rest = true ->
  number_re (literal ++ rest) = Some (JFloat literal, rest)
  /\ forallb number_chr literal = true
  /\ exists c t, literal = c :: t /\ (isdigit c || chr_eqb c "-") = true.
Proof.
  unfold float_literal, number_re. intros H Hr.
  destruct (match_int_part literal) as [[i s1]|] eqn:Ei; [|discriminate].
  destruct (match_frac s1) as [f s2] eqn:Ef.
  destruct (match_exp s2) as [e s3] eqn:Ee.
  destruct (truthy f || truthy e) eqn:Et; [|discriminate].
  destruct s3 as [|x s3]; [|discriminate].
  destruct (match_int_part_inv literal Ei) as (El & Hi & (c & t & Ec & Hc) & Hxi).
  destruct (match_frac_inv s1 Ef) as (E1 & Hf & Hxf).
  destruct (match_exp_inv s2 Ee) as (E2 & He & Hxe).
  assert (Hne : s1 <> []).
  { intro E0. rewrite E1, E2 in E0. apply app_eq_nil in E0 as [E0 E0'].
    rewrite E0, E0' in Et. discriminate Et. }
  rewrite (Hxi Hne rest), (Hxf rest Hr), (Hxe rest Hr), Et.
  assert (E : literal = i ++ f ++ e) by (rewrite El, E1, E2; reflexivity).
  split; [now rewrite E|]. split.
  - rewrite E, !forallb_app, Hi, Hf, He. reflexivity.
  - exists c, (t ++ s1). split; [|exact Hc]. rewrite El, Ec. reflexivity.
Qed.

Lemma value_rect' (P : value -> Prop)
    (Hnull : P JNull) (Hbool : forall b, P (JBool b))
    (Hint : forall n, P (JInt n)) (Hfloat : forall l, P (JFloat l))
    (Hstr : forall s, P (JStr s))
    (Harr : forall items, Forall P items -> P (JArr items))
    (Hobj : forall members,
        Forall (fun kv => P (snd kv)) members -> P (JObj members)) :
  forall v, P v.
Proof.
  fix IH 1. intros [| b | n | l | s | items | members].
  - exact Hnull.
  - apply Hbool.
  - apply Hint.
  - apply Hfloat.
  - apply Hstr.
  - apply Harr. induction items as [|x items IHi]; constructor.
    + apply IH.
    + exact IHi.
  - apply Hobj. induction members as [|[k x] members IHm]; constructor.
    + apply IH.
    + exact IHm.
Qed.

Lemma num_head_facts c :
  (isdigit c || chr_eqb c "-") = true ->
  chr_eqb c dquote = false /\ chr_eqb c "{" = false /\ chr_eqb c "[" = false
  /\ chr_eqb "n" c = false /\ chr_eqb "t" c = false /\ chr_eqb "f" c = false
  /\ value_head c = true.
Proof.
  destruct c as [[] [] [] [] [] [] [] []]; vm_compute; intro H;
    try discriminate; repeat split; reflexivity.
Qed.

Lemma terminator_inv rest :
  terminator rest = true -> ends_number rest = true /\ skip_ws rest = rest.
Proof.
  destruct rest as [|c rest]; [now split|]. revert rest.
  destruct c as [[] [] [] [] [] [] [] []]; vm_compute; intros rest H;
    try discriminate; split; reflexivity.
Qed.

Lemma value_head_inv c t :
  value_head c = true ->
  skip_ws (c :: t) = c :: t /\ chr_eqb c "]" = false /\ chr_eqb c "}" = false.
Proof.
  revert t. destruct c as [[] [] [] [] [] [] [] []]; vm_compute; intros t H;
    try discriminate; repeat split; reflexivity.
Qed.

Lemma dumps_head v :
  finite_floats v = true ->
  exists c t, dumps v = c :: t /\ value_head c = true.
Proof.
  destruct v as [| [] | n | l | s | items | members];
    cbn [dumps finite_floats]; intro H;
    try (eexists; eexists; split; reflexivity).
  - destruct (@number_re_str_of_int n [] eq_refl) as (_ & c & t & Hc & Hd).
    exists c, t. split; [assumption|]. now apply num_head_facts.
  - destruct (number_re_float l [] H eq_refl) as (_ & _ & c & t & Hc & Hd).
    exists c, t. split; [assumption|]. now apply num_head_facts.
Qed.

Lemma scan_once_float literal fuel rest :
  float_literal literal = true ->
  terminator rest = true ->
  scan_once (S fuel) (literal ++ rest) = Ok (JFloat literal, rest).
Proof.
  intros Hl Hr. apply terminator_inv in Hr as [Hr _].
  destruct (number_re_float literal rest Hl Hr) as (Hn & _ & c & t & Hc & Hd).
  destruct (num_head_facts _ Hd) as (H1 & H2 & H3 & H4 & H5 & H6 & _).
  rewrite Hc in *. cbn [scan_once app].
  rewrite H1, H2, H3. unfold word.
  cbn [list_ascii_of_string startswith]. rewrite H4, H5, H6.
  cbn [andb]. change ((c :: t) ++ rest) with (c :: t ++ rest) in Hn.
  now rewrite Hn.
Qed.

Lemma scan_once_int n fuel rest :
  terminator rest = true ->
  scan_once (S fuel) (str_of_int n ++ rest) = Ok (JInt n, rest).
Proof.
  intro Hr. apply terminator_inv in Hr as [Hr _].
  destruct (number_re_str_of_int n rest Hr) as (Hn & c & t & Hc & Hd).
  destruct (num_head_facts _ Hd) as (H1 & H2 & H3 & H4 & H5 & H6 & _).
  rewrite Hc in *. cbn [scan_once app].
  rewrite H1, H2, H3. unfold word.
  cbn [list_ascii_of_string startswith]. rewrite H4, H5, H6.
  cbn [andb]. change ((c :: t) ++ rest) with (c :: t ++ rest) in Hn.
  now rewrite Hn.
Qed.

Lemma obj_set_fresh d k v :
  mem k (map fst d) = false -> obj_set d k v = d ++ [(k, v)].
Proof.
  induction d as [|[k0 v0] d IH]; [reflexivity|]. simpl. intro H.
  apply orb_false_iff in H as [H1 H2].
  assert (E : str_eqb k0 k = false).
  { apply str_eqb_neq. intro E. subst k0. now rewrite str_eqb_refl in H1. }
  rewrite E. now rewrite IH.
Qed.

Lemma dict_of_pairs_distinct members :
  distinct (map fst members) = true -> dict_of_pairs members = members.
Proof.
  unfold dict_of_pairs.
  assert (H : forall d,
             distinct (map fst (d ++ members)) = true ->
             fold_left (fun d kv => obj_set d (fst kv) (snd kv)) members d
             = d ++ members).
  { induction members as [|[k v] members IH]; intros d Hd.
    - simpl. now rewrite app_nil_r.
    - cbn [fold_left fst snd]. rewrite obj_set_fresh.
      + rewrite IH; rewrite <- app_assoc; [reflexivity | exact Hd].
      + clear IH. induction d as [|[k0 v0] d IHd]; [reflexivity|].
        cbn [app map fst distinct] in Hd.
        apply andb_true_iff in Hd as [Hk Hd].
        cbn [map fst mem existsb]. fold (mem k (map fst d)).
        rewrite IHd by assumption. rewrite orb_false_r.
        apply str_eqb_neq. intro E. subst k0.
        apply negb_true_iff, mem_not_In in Hk. apply Hk.
        rewrite map_app. apply in_app_iff. right. now left. }
  apply (H []).
Qed.

Lemma join_cons2 sep x y l :
  join sep (x :: y :: l) = x ++ sep ++ join sep (y :: l).
Proof. reflexivity. Qed.

Lemma join_head_value items v :
  finite_floats v = true ->
  exists c t, join $", " (map dumps (v :: items)) = c :: t
              /\ value_head c = true.
Proof.
  intro H. destruct (dumps_head v H) as (c & t & Hc & Hh).
  destruct items as [|v2 items].
  - exists c, t. now split.
  - cbn [map]. rewrite join_cons2, Hc. eexists; eexists; split;
      [reflexivity | assumption].
Qed.

Lemma scan_items_dumps items :
  items <> [] ->
  Forall (fun v => forall fuel rest,
              weight v <= fuel -> terminator rest = true ->
              scan_once fuel (dumps v ++ rest) = Ok (v, rest)) items ->
  forallb finite_floats items = true ->
  forall fuel rest,
    list_sum (map (fun x => S (weight x)) items) <= fuel ->
    scan_items fuel (join $", " (map dumps items) ++ "]"%char :: rest)
    = Ok (items, rest).
Proof.
  intros Hne Hall. induction Hall as [|v items Hv Hall IH]; [congruence|].
  intros Hff fuel rest Hfuel. clear Hne.
  cbn [forallb] in Hff. apply andb_true_iff in Hff as [Hfv Hff].
  cbn [map] in Hfuel. unfold list_sum in Hfuel. cbn [fold_right] in Hfuel.
  fold (list_sum (map (fun x => S (weight x)) items)) in Hfuel.
  destruct fuel as [|fuel]; [lia|]. cbn [scan_items].
  destruct items as [|v2 items].
  - cbn [map join].
    rewrite Hv by (first [reflexivity | simpl in Hfuel; lia]).
    reflexivity.
  - cbn [map]. rewrite join_cons2. rewrite <- !app_assoc.
    rewrite Hv by (first [reflexivity | lia]).
    cbn [bind].
    change (dumps v2 :: map dumps items) with (map dumps (v2 :: items)).
    cbn [forallb] in Hff. apply andb_true_iff in Hff as [Hf2 Hff].
    destruct (join_head_value items v2 Hf2) as (c & t & Hc & Hh).
    rewrite Hc.
    change (skip_ws ($", " ++ (c :: t) ++ "]"%char :: rest))
      with (","%char :: " "%char :: (c :: t) ++ "]"%char :: rest).
    cbn iota. change (chr_eqb "," "]") with false.
    change (chr_eqb "," ",") with true. cbn iota.
    change (skip_ws (" "%char :: (c :: t) ++ "]"%char :: rest))
      with (skip_ws (c :: t ++ "]"%char :: rest)).
    rewrite (proj1 (value_head_inv c (t ++ "]"%char :: rest) Hh)).
    change (c :: t ++ "]"%char :: rest) with ((c :: t) ++ "]"%char :: rest).
    rewrite <- Hc.
    rewrite IH; [reflexivity | discriminate | | lia].
    cbn [forallb]. now rewrite Hf2, Hff.
Qed.

Lemma member_text_shape k v tail :
  member_text (k, v) ++ tail
  = dquote :: encode_body k ++ dquote :: ":"%char :: " "%char :: dumps v ++ tail.
Proof.
  unfold member_text, encode_str. cbn [fst snd app].
  rewrite <- !app_assoc. reflexivity.
Qed.

Lemma members_head members kv :
  exists t, join $", " (map member_text (kv :: members)) = dquote :: t.
Proof.
  destruct members as [|kv2 members]; cbn [map].
  - cbn [join]. unfold member_text, encode_str. cbn [app]. eauto.
  - rewrite join_cons2. unfold member_text at 1. unfold encode_str.
    cbn [app]. eauto.
Qed.

Lemma scan_members_dumps members :
  members <> [] ->
  Forall (fun kv => forall fuel rest,
              weight (snd kv) <= fuel -> terminator rest = true ->
              scan_once fuel (dumps (snd kv) ++ rest) = Ok (snd kv, rest))
         members ->
  forallb (fun kv => finite_floats (snd kv)) members = true ->
  forall fuel rest,
    list_sum (map (fun kv => S (weight (snd kv))) members) <= fuel ->
    scan_members fuel
      (join $", " (map member_text members) ++ "}"%char :: rest)
    = Ok (members, rest).
Proof.
  intros Hne Hall. induction Hall as [|[k v] members Hv Hall IH]; [congruence|].
  intros Hff fuel rest Hfuel. clear Hne.
  cbn [forallb snd] in Hff. apply andb_true_iff in Hff as [Hfv Hff].
  cbn [map snd] in Hfuel. unfold list_sum in Hfuel. cbn [fold_right] in Hfuel.
  fold (list_sum (map (fun kv => S (weight (snd kv))) members)) in Hfuel.
  cbn [snd] in Hv.
  destruct fuel as [|fuel]; [lia|].
  destruct (dumps_head v Hfv) as (c & t & Hc & Hh).
  assert (Hstep : forall tail,
             terminator tail = true ->
             scan_members (S fuel) (member_text (k, v) ++ tail)
             = match tail with
               | c :: s4 =>
                   if chr_eqb c "}" then Ok ([(k, v)], s4)
                   else if chr_eqb c ","
                   then '(kvs, rest) <- scan_members fuel (skip_ws s4) ;;
                        Ok ((k, v) :: kvs, rest)
                   else Raise (decode_error "Expecting ',' delimiter")
               | [] => Raise (decode_error "Expecting ',' delimiter")
               end).
  { intros tail Ht. rewrite member_text_shape. cbn [scan_members].
    change (chr_eqb dquote dquote) with true. cbn iota.
    rewrite scanstring_encode_body. cbn [bind].
    change (skip_ws (":"%char :: " "%char :: dumps v ++ tail))
      with (":"%char :: " "%char :: dumps v ++ tail).
    cbn iota. change (chr_eqb ":" ":") with true. cbn iota.
    change (skip_ws (" "%char :: dumps v ++ tail))
      with (skip_ws (dumps v ++ tail)).
    assert (Hs : skip_ws (dumps v ++ tail) = dumps v ++ tail).
    { rewrite Hc. cbn [app]. now apply value_head_inv. }
    rewrite Hs, Hv by (first [assumption | lia]). cbn [bind].
    now rewrite (proj2 (terminator_inv _ Ht)). }
  destruct members as [|kv2 members].
  - cbn [map join]. rewrite Hstep by reflexivity. reflexivity.
  - cbn [map]. rewrite join_cons2, <- !app_assoc.
    rewrite Hstep by reflexivity.
    change ($", " ++ join $", " (member_text kv2 :: map member_text members)
            ++ "}"%char :: rest)
      with (","%char :: " "%char
            :: join $", " (map member_text (kv2 :: members))
            ++ "}"%char :: rest).
    cbn iota. change (chr_eqb "," "}") with false.
    change (chr_eqb "," ",") with true. cbn iota.
    destruct (members_head members kv2) as (t' & Ht').
    rewrite Ht'. cbn [app].
    change (skip_ws (" "%char :: dquote :: t' ++ "}"%char :: rest))
      with (dquote :: t' ++ "}"%char :: rest).
    change (dquote :: t' ++ "}"%char :: rest)
      with ((dquote :: t') ++ "}"%char :: rest).
    rewrite <- Ht'.
    rewrite IH; [reflexivity | discriminate | assumption | lia].
Qed.

Lemma scan_once_dumps v :
  finite_floats v = true -> unique_keys v = true ->
  forall fuel rest,
    weight v <= fuel -> terminator rest = true ->
    scan_once fuel (dumps v ++ rest) = Ok (v, rest).
Proof.
  induction v as [| b | n | l | s | items IH | members IH] using value_rect';
    intros Hf Hu fuel rest Hw Ht;
    (destruct fuel as [|fuel]; [simpl in Hw; lia|]).
  - reflexivity.
  - destruct b; reflexivity.
  - now apply scan_once_int.
  - now apply scan_once_float.
  - cbn [dumps]. unfold encode_str. cbn [app scan_once].
    change (chr_eqb dquote dquote) with true. cbn iota.
    rewrite <- app_assoc. cbn [app].
    rewrite scanstring_encode_body. reflexivity.
  - cbn [dumps].
    change ($"[" ++ join $", " (map dumps items) ++ $"]")
      with ("["%char :: join $", " (map dumps items) ++ ["]"%char]).
    cbn [app scan_once].
    change (chr_eqb "[" dquote) with false.
    change (chr_eqb "[" "{") with false.
    change (chr_eqb "[" "[") with true. cbn iota.
    rewrite <- app_assoc. cbn [app].
    destruct items as [|v items]; [reflexivity|].
    cbn [finite_floats] in Hf. cbn [unique_keys] in Hu.
    assert (Hfv : finite_floats v = true)
      by (cbn [forallb] in Hf; now apply andb_true_iff in Hf).
    destruct (join_head_value items v Hfv) as (c & t & Hc & Hh).
    destruct (value_head_inv c (t ++ "]"%char :: rest) Hh) as (Hs & Hb & _).
    rewrite Hc. cbn [app]. rewrite Hs, Hb.
    change (c :: t ++ "]"%char :: rest) with ((c :: t) ++ "]"%char :: rest).
    rewrite <- Hc. rewrite scan_items_dumps; try assumption;
      [reflexivity | discriminate | | cbn [weight] in Hw; lia].
    rewrite Forall_forall in IH |- *. intros x Hx fuel' rest' Hw' Ht'.
    apply IH; try assumption.
    + rewrite forallb_forall in Hf. now apply Hf.
    + rewrite forallb_forall in Hu. now apply Hu.
  - cbn [dumps].
    change (map (fun kv0 => encode_str (fst kv0) ++ $": " ++ dumps (snd kv0))
                members)
      with (map member_text members).
    change ($"{" ++ join $", " (map member_text members) ++ $"}")
      with ("{"%char :: join $", " (map member_text members) ++ ["}"%char]).
    cbn [app scan_once].
    change (chr_eqb "{" dquote) with false.
    change (chr_eqb "{" "{") with true. cbn iota.
    rewrite <- app_assoc. cbn [app].
    destruct members as [|kv members]; [reflexivity|].
    cbn [finite_floats] in Hf. cbn [unique_keys] in Hu.
    apply andb_true_iff in Hu as [Hd Hu].
    destruct (members_head members kv) as (t & Hc).
    rewrite Hc. cbn [app].
    change (skip_ws (dquote :: t ++ "}"%char :: rest))
      with (dquote :: t ++ "}"%char :: rest).
    cbn iota. change (chr_eqb dquote "}") with false. cbn iota.
    change (dquote :: t ++ "}"%char :: rest)
      with ((dquote :: t) ++ "}"%char :: rest).
    rewrite <- Hc. rewrite scan_members_dumps; try assumption;
      [ | discriminate | | cbn [weight] in Hw; lia].
    + cbn [bind]. now rewrite dict_of_pairs_distinct.
    + rewrite Forall_forall in IH |- *. intros x Hx fuel' rest' Hw' Ht'.
      apply IH; try assumption.
      * rewrite forallb_forall in Hf. now apply Hf.
      * rewrite forallb_forall in Hu. now apply Hu.
Qed.

Lemma sum_weights_le {A} (w : A -> nat) (text : A -> str) (items : list A) :
  Forall (fun x => w x <= 2 * length (text x)) items ->
  list_sum (map (fun x => S (w x)) items)
  <= 2 * length (join $", " (map text items)) + 2.
Proof.
  induction 1 as [|x items Hx _ IH]; [simpl; lia|].
  cbn [map]. unfold list_sum. cbn [fold_right].
  fold (list_sum (map (fun x => S (w x)) items)).
  destruct items as [|y items].
  - cbn [map join list_sum fold_right]. clear IH. lia.
  - cbn [map] in *. rewrite join_cons2, !length_app.
    change (length $", ") with 2. lia.
Qed.

Lemma weight_le v :
  finite_floats v = true -> weight v <= 2 * length (dumps v).
Proof.
  induction v as [| b | n | l | s | items IH | members IH] using value_rect';
    intro Hf.
  - simpl. lia.
  - destruct b; simpl; lia.
  - destruct (@number_re_str_of_int n [] eq_refl) as (_ & c & t & Hc & _).
    cbn [dumps weight]. rewrite Hc. simpl. lia.
  - destruct (number_re_float l [] Hf eq_refl) as (_ & _ & c & t & Hc & _).
    cbn [dumps weight]. rewrite Hc. simpl. lia.
  - cbn [dumps weight]. unfold encode_str. simpl. lia.
  - cbn [dumps weight finite_floats] in *.
    assert (H : Forall (fun x => weight x <= 2 * length (dumps x)) items).
    { rewrite Forall_forall in IH |- *. intros x Hx. apply IH; [assumption|].
      rewrite forallb_forall in Hf. now apply Hf. }
    pose proof (sum_weights_le weight dumps H) as Hs.
    rewrite !length_app. change (length $"[") with 1.
    change (length $"]") with 1. lia.
  - cbn [dumps weight finite_floats] in *.
    change (map (fun kv => encode_str (fst kv) ++ $": " ++ dumps (snd kv))
                members) with (map member_text members).
    assert (H : Forall (fun kv => weight (snd kv) <= 2 * length (member_text kv))
                       members).
    { rewrite Forall_forall in IH |- *. intros x Hx.
      unfold member_text. rewrite !length_app.
      assert (weight (snd x) <= 2 * length (dumps (snd x))); [|lia].
      apply IH; [assumption|].
      rewrite forallb_forall in Hf. now apply Hf. }
    pose proof (sum_weights_le (fun kv => weight (snd kv)) member_text H) as Hs.
    rewrite !length_app. change (length $"{") with 1.
    change (length $"}") with 1. lia.
Qed.

Lemma loads_dumps v :
  finite_floats v = true -> unique_keys v = true -> loads (dumps v) = Ok v.
Proof.
  intros Hf Hu. unfold loads.
  destruct (dumps_head v Hf) as (c & t & Hc & Hh).
  assert (Hs : skip_ws (dumps v) = dumps v).
  { rewrite Hc. now apply value_head_inv. }
  rewrite Hs. pose proof (weight_le v Hf) as Hw.
  rewrite <- (app_nil_r (dumps v)) at 2.
  rewrite scan_once_dumps; try assumption; [reflexivity | lia | reflexivity].
Qed.

(** ** The scanners on what [dumps] writes *)

Lemma encode_chr_token c : token (encode_chr c).
Proof.
  destruct c as [[] [] [] [] [] [] [] []];
    first [ apply token_quote | apply token_backslash
          | apply token_plain; reflexivity
          | apply token_bracket; reflexivity
          | apply token_escape; reflexivity
          | apply token_u; reflexivity ].
Qed.

Lemma nth_error_at {A} (pre : list A) c rest :
  nth_error (pre ++ c :: rest) (length pre) = Some c.
Proof. rewrite nth_error_app2 by lia. now rewrite Nat.sub_diag. Qed.

Lemma app_cons_assoc {A} (pre : list A) c rest :
  pre ++ c :: rest = (pre ++ [c]) ++ rest.
Proof. now rewrite <- app_assoc. Qed.

Lemma length_snoc {A} (pre : list A) c : length (pre ++ [c]) = length pre + 1.
Proof. rewrite length_app. reflexivity. Qed.

(** *** [_skip_js_string] *)

Lemma skip_step_plain fuel pre c rest :
  chr_eqb c backslash = false -> chr_eqb c dquote = false ->
  _skip_js_string_loop (S fuel) (pre ++ c :: rest) (length pre)
  = _skip_js_string_loop fuel ((pre ++ [c]) ++ rest) (length (pre ++ [c])).
Proof.
  intros H1 H2. cbn [_skip_js_string_loop]. rewrite nth_error_at, H1, H2.
  now rewrite length_snoc, <- app_cons_assoc.
Qed.

Lemma skip_step_escape fuel pre c rest :
  _skip_js_string_loop (S fuel) (pre ++ backslash :: c :: rest) (length pre)
  = _skip_js_string_loop fuel ((pre ++ [backslash; c]) ++ rest)
      (length (pre ++ [backslash; c])).
Proof.
  cbn [_skip_js_string_loop]. rewrite nth_error_at.
  change (chr_eqb backslash backslash) with true. cbn iota.
  rewrite length_app. cbn [length]. now rewrite <- app_assoc.
Qed.

Lemma plain_chr_inv c :
  plain_chr c = true ->
  chr_eqb c dquote = false /\ chr_eqb c backslash = false
  /\ chr_eqb c "[" = false /\ chr_eqb c "]" = false.
Proof.
  unfold plain_chr. intro H.
  repeat (apply andb_true_iff in H as [H ?]).
  repeat split; now apply negb_true_iff.
Qed.

Lemma bracket_chr_inv c :
  (chr_eqb c "[" || chr_eqb c "]") = true ->
  chr_eqb c dquote = false /\ chr_eqb c backslash = false.
Proof.
  intro H. apply orb_true_iff in H as [H|H]; apply chr_eqb_eq in H; subst c;
    split; reflexivity.
Qed.

Lemma skip_token tok :
  token tok ->
  forall pre rest n result,
    (forall fuel', n <= fuel' ->
       _skip_js_string_loop fuel' ((pre ++ tok) ++ rest) (length (pre ++ tok))
       = result) ->
    forall fuel, length tok + n <= fuel ->
      _skip_js_string_loop fuel (pre ++ tok ++ rest) (length pre) = result.
Proof.
  intros Ht pre rest n result Hk fuel Hf.
  destruct Ht as [c Hc | c Hc | c Hc | | | h1 h2 H1 H2];
    cbn [length] in Hf; (destruct fuel as [|fuel]; [lia|]); cbn [app].
  - apply plain_chr_inv in Hc as (Hq & Hb & _).
    rewrite (@skip_step_plain fuel pre c rest Hb Hq). apply Hk. lia.
  - apply bracket_chr_inv in Hc as (Hq & Hb).
    rewrite (@skip_step_plain fuel pre c rest Hb Hq). apply Hk. lia.
  - rewrite (skip_step_escape fuel pre c rest). apply Hk. lia.
  - rewrite (skip_step_escape fuel pre dquote rest). apply Hk. lia.
  - rewrite (skip_step_escape fuel pre backslash rest). apply Hk. lia.
  - apply plain_chr_inv in H1 as (Hq1 & Hb1 & _).
    apply plain_chr_inv in H2 as (Hq2 & Hb2 & _).
    destruct fuel as [|[|[|[|fuel]]]]; try lia.
    set (p1 := pre ++ [backslash; "u"%char]).
    set (p2 := p1 ++ ["0"%char]). set (p3 := p2 ++ ["0"%char]).
    set (p4 := p3 ++ [h1]).
    rewrite (skip_step_escape (S (S (S (S fuel)))) pre "u"%char
               ("0"%char :: "0"%char :: h1 :: h2 :: rest)).
    fold p1.
    rewrite (@skip_step_plain (S (S (S fuel))) p1 "0"%char
               ("0"%char :: h1 :: h2 :: rest) eq_refl eq_refl).
    fold p2.
    rewrite (@skip_step_plain (S (S fuel)) p2 "0"%char (h1 :: h2 :: rest)
               eq_refl eq_refl).
    fold p3.
    rewrite (@skip_step_plain (S fuel) p3 h1 (h2 :: rest) Hb1 Hq1).
    fold p4.
    rewrite (@skip_step_plain fuel p4 h2 rest Hb2 Hq2).
    subst p4 p3 p2 p1.
    specialize (Hk fuel ltac:(lia)). rewrite <- Hk.
    f_equal; rewrite <- !app_assoc; reflexivity.
Qed.

Lemma skip_encoded_body p :
  forall pre post fuel,
    length (encode_body p) < fuel ->
    _skip_js_string_loop fuel (pre ++ encode_body p ++ dquote :: post)
      (length pre)
    = length pre + length (encode_body p).
Proof.
  induction p as [|c p IH]; intros pre post fuel Hf.
  - cbn [encode_body flat_map app length] in *.
    destruct fuel as [|fuel]; [lia|]. cbn [_skip_js_string_loop].
    rewrite nth_error_at. change (chr_eqb dquote backslash) with false.
    change (chr_eqb dquote dquote) with true. cbn iota. lia.
  - unfold encode_body in *. cbn [flat_map] in *.
    rewrite length_app in *. rewrite <- app_assoc.
    apply (@skip_token (encode_chr c) (encode_chr_token c) pre
             (flat_map encode_chr p ++ dquote :: post)
             (S (length (flat_map encode_chr p)))); [|lia].
    intros fuel' Hf'. rewrite IH by lia. rewrite length_app. lia.
Qed.

Lemma encode_str_shape pre p post :
  pre ++ encode_str p ++ post
  = (pre ++ [dquote]) ++ encode_body p ++ dquote :: post.
Proof. unfold encode_str. cbn [app]. now rewrite <- !app_assoc. Qed.

Lemma skip_js_string_encoded pre p post :
  _skip_js_string (pre ++ encode_str p ++ post) (length pre)
  = length pre + length (encode_body p) + 1.
Proof.
  unfold _skip_js_string. rewrite encode_str_shape, <- (length_snoc pre dquote).
  rewrite skip_encoded_body.
  - rewrite length_snoc. lia.
  - rewrite !length_app. cbn [length]. lia.
Qed.

(** *** [_iter_next_flight_payloads] *)

Lemma arg_chr_inv c :
  arg_chr c = true ->
  chr_eqb c dquote = false /\ chr_eqb c "[" = false /\ chr_eqb c "]" = false.
Proof.
  unfold arg_chr. intro H. repeat (apply andb_true_iff in H as [H ?]).
  repeat split; now apply negb_true_iff.
Qed.

Lemma depth_walk_args args :
  forallb arg_chr args = true ->
  forall pre rest d n result,
    (forall fuel', n <= fuel' ->
       flight_depth_walk fuel' ((pre ++ args) ++ rest) (length (pre ++ args))
         (S d) = result) ->
    forall fuel, length args + n <= fuel ->
      flight_depth_walk fuel (pre ++ args ++ rest) (length pre) (S d) = result.
Proof.
  induction args as [|c args IH]; intros Ha pre rest d n result Hk fuel Hf.
  - specialize (Hk fuel ltac:(simpl in Hf; lia)).
    now rewrite app_nil_r in Hk.
  - cbn [forallb] in Ha. apply andb_true_iff in Ha as [Hc Ha].
    apply arg_chr_inv in Hc as (H1 & H2 & H3).
    cbn [length] in Hf. destruct fuel as [|fuel]; [lia|].
    cbn [app flight_depth_walk]. rewrite nth_error_at, H1, H2, H3.
    rewrite (app_cons_assoc pre c (args ++ rest)), <- (length_snoc pre c).
    apply (IH Ha (pre ++ [c]) rest d n); [|lia].
    intros fuel' Hf'. specialize (Hk fuel' Hf').
    rewrite <- Hk. f_equal; rewrite <- !app_assoc; reflexivity.
Qed.

Lemma nth_error_encode_str pre p post :
  nth_error (pre ++ encode_str p ++ post) (length pre) = Some dquote.
Proof. unfold encode_str. cbn [app]. apply nth_error_at. Qed.

Lemma length_encode_str pre p :
  length (pre ++ encode_str p) = length pre + length (encode_body p) + 1 + 1.
Proof.
  unfold encode_str. rewrite !length_app. cbn [length].
  rewrite !length_app. cbn [length]. lia.
Qed.

Lemma depth_walk_call before args payload after :
  forallb arg_chr args = true ->
  flight_depth_walk
    (length (before ++ flight_call args payload ++ after))
    (before ++ flight_call args payload ++ after)
    (length before + length NEXT_FLIGHT_NEEDLE) 1
  = (length (before ++ NEXT_FLIGHT_NEEDLE ++ args ++ encode_str payload), 0).
Proof.
  intro Ha. unfold flight_call.
  set (W := before ++ NEXT_FLIGHT_NEEDLE).
  set (tail := $"])" ++ after).
  assert (E : before ++ (NEXT_FLIGHT_NEEDLE ++ args ++ encode_str payload ++ $"])")
                ++ after
              = W ++ args ++ encode_str payload ++ tail).
  { unfold W, tail. now rewrite <- !app_assoc. }
  rewrite E.
  replace (length before + length NEXT_FLIGHT_NEEDLE) with (length W)
    by (unfold W; now rewrite length_app).
  replace (before ++ NEXT_FLIGHT_NEEDLE ++ args ++ encode_str payload)
    with ((W ++ args) ++ encode_str payload)
    by (unfold W; now rewrite <- !app_assoc).
  apply (@depth_walk_args args Ha W (encode_str payload ++ tail) 0 2).
  - intros fuel' Hf'. destruct fuel' as [|fuel']; [lia|].
    set (P := W ++ args). cbn [flight_depth_walk].
    rewrite nth_error_encode_str.
    change (chr_eqb dquote dquote) with true. cbn iota.
    rewrite skip_js_string_encoded, <- length_encode_str.
    destruct fuel' as [|fuel']; [lia|].
    rewrite (app_assoc P). unfold tail.
    change ($"])" ++ after) with ("]"%char :: ")"%char :: after).
    cbn [flight_depth_walk]. rewrite nth_error_at.
    change (chr_eqb "]" dquote) with false. change (chr_eqb "]" "[") with false.
    change (chr_eqb "]" "]") with true. reflexivity.
  - rewrite !length_app. unfold encode_str, tail. cbn [length].
    rewrite !length_app. cbn [length]. lia.
Qed.

Lemma slice_mid {A} (pre x rest : list A) j :
  j = length pre + length x ->
  firstn (j - length pre) (skipn (length pre) (pre ++ x ++ rest)) = x.
Proof.
  intros ->. rewrite skipn_app, skipn_all, Nat.sub_diag. cbn [skipn app].
  replace (length pre + length x - length pre) with (length x + 0) by lia.
  rewrite firstn_app_2. cbn [firstn]. apply app_nil_r.
Qed.

Lemma literals_skip xs :
  forallb (fun c => negb (chr_eqb c dquote)) xs = true ->
  forall pre rest block_end n result,
    length pre + length xs <= block_end ->
    (forall fuel', n <= fuel' ->
       flight_literals fuel' ((pre ++ xs) ++ rest) (length (pre ++ xs))
         block_end = result) ->
    forall fuel, length xs + n <= fuel ->
      flight_literals fuel (pre ++ xs ++ rest) (length pre) block_end = result.
Proof.
  induction xs as [|c xs IH]; intros Hx pre rest block_end n result Hb Hk fuel Hf.
  - specialize (Hk fuel ltac:(simpl in Hf; lia)).
    now rewrite app_nil_r in Hk.
  - cbn [forallb] in Hx. apply andb_true_iff in Hx as [Hc Hx].
    apply negb_true_iff in Hc.
    cbn [length] in Hf, Hb. destruct fuel as [|fuel]; [lia|].
    cbn [app flight_literals].
    replace (length pre <=? block_end) with true
      by (symmetry; apply Nat.leb_le; lia).
    rewrite nth_error_at, Hc.
    rewrite (app_cons_assoc pre c (xs ++ rest)), <- (length_snoc pre c).
    apply (IH Hx (pre ++ [c]) rest block_end n); [rewrite length_snoc; lia| |lia].
    intros fuel' Hf'. specialize (Hk fuel' Hf').
    rewrite <- Hk. f_equal; rewrite <- !app_assoc; reflexivity.
Qed.

Lemma literals_end fuel html block_end c :
  nth_error html block_end = Some c -> chr_eqb c dquote = false ->
  flight_literals fuel html block_end block_end = ([], None).
Proof.
  intros Hn Hc. destruct fuel as [|fuel]; [reflexivity|].
  cbn [flight_literals]. rewrite Nat.leb_refl, Hn, Hc.
  destruct fuel as [|fuel]; [reflexivity|]. cbn [flight_literals].
  replace (block_end + 1 <=? block_end) with false; [reflexivity|].
  symmetry. apply Nat.leb_gt. lia.
Qed.

Lemma arg_chr_not_quote args :
  forallb arg_chr args = true ->
  forallb (fun c => negb (chr_eqb c dquote)) args = true.
Proof.
  intro H. apply forallb_forall. intros c Hc.
  rewrite forallb_forall in H. specialize (H c Hc).
  apply arg_chr_inv in H as (H & _). now rewrite H.
Qed.

Lemma literals_call before args payload after :
  forallb arg_chr args = true ->
  flight_literals
    (length (before ++ flight_call args payload ++ after))
    (before ++ flight_call args payload ++ after)
    (length before + length $"self.__next_f.push(")
    (length (before ++ NEXT_FLIGHT_NEEDLE ++ args ++ encode_str payload))
  = ([payload], None).
Proof.
  intro Ha. unfold flight_call.
  set (V := before ++ $"self.__next_f.push(").
  set (tail := $"])" ++ after).
  set (xs := "["%char :: args).
  assert (E : before ++ (NEXT_FLIGHT_NEEDLE ++ args ++ encode_str payload ++ $"])")
                ++ after
              = V ++ xs ++ encode_str payload ++ tail).
  { unfold V, xs, tail, NEXT_FLIGHT_NEEDLE. rewrite <- !app_assoc. reflexivity. }
  assert (E' : before ++ NEXT_FLIGHT_NEEDLE ++ args ++ encode_str payload
               = (V ++ xs) ++ encode_str payload).
  { unfold V, xs, NEXT_FLIGHT_NEEDLE. rewrite <- !app_assoc. reflexivity. }
  rewrite E, E'.
  replace (length before + length $"self.__next_f.push(") with (length V)
    by (unfold V; now rewrite length_app).
  assert (Hx : forallb (fun c => negb (chr_eqb c dquote)) xs = true).
  { unfold xs. cbn [forallb]. now rewrite arg_chr_not_quote. }
  apply (@literals_skip xs Hx V (encode_str payload ++ tail)
           (length ((V ++ xs) ++ encode_str payload)) 1).
  - rewrite length_encode_str, length_app. lia.
  - intros fuel' Hf'. destruct fuel' as [|fuel']; [lia|].
    set (P := V ++ xs). cbn [flight_literals].
    replace (length P <=? length (P ++ encode_str payload)) with true
      by (symmetry; apply Nat.leb_le; rewrite length_app; lia).
    rewrite nth_error_encode_str.
    change (chr_eqb dquote dquote) with true. cbn iota.
    rewrite skip_js_string_encoded, <- length_encode_str.
    unfold slice.
    rewrite (@slice_mid _ P (encode_str payload) tail
               (length (P ++ encode_str payload))) by apply length_app.
    unfold decoded_string. rewrite loads_encode_str.
    rewrite (app_assoc P).
    rewrite (@literals_end fuel' _ _ "]"%char);
      [reflexivity | unfold tail; apply nth_error_at | reflexivity].
  - rewrite !length_app. unfold tail. rewrite length_app.
    change (length $"])") with 2. unfold xs. cbn [length]. lia.
Qed.

Lemma iter_next_flight_payloads_call before args payload after :
  find (before ++ flight_call args payload ++ after) NEXT_FLIGHT_NEEDLE 0
  = Some (length before) ->
  forallb arg_chr args = true ->
  exists rest,
    _iter_next_flight_payloads (before ++ flight_call args payload ++ after)
    = payload :: rest.
Proof.
  intros Hfind Ha.
  unfold _iter_next_flight_payloads, flight_payloads_run, contains.
  rewrite Hfind. cbn [negb flight_payloads_loop]. rewrite Hfind.
  rewrite depth_walk_call by assumption. cbn [Nat.eqb negb].
  rewrite literals_call by assumption.
  destruct (flight_payloads_loop _ _ _) as [rest ending].
  cbn [app fst]. eauto.
Qed.

(** *** [_extract_json_arrays_from_text] *)

Lemma escaped_loop_parity t :
  forall rest escaped,
    escaped_loop (t ++ rest) (length t) escaped = bs_parity (rev t) escaped.
Proof.
  induction t as [|c t IH] using rev_ind; intros rest escaped; [reflexivity|].
  rewrite length_snoc, Nat.add_1_r, rev_unit, <- app_assoc.
  cbn [escaped_loop app bs_parity]. rewrite nth_error_at.
  destruct (chr_eqb c backslash); [apply IH | reflexivity].
Qed.

Lemma array_walk_at_eq rest :
  forall pre fuel depth in_string,
    length rest <= fuel ->
    array_walk fuel (pre ++ rest) (length pre) depth in_string
    = array_walk_at (rev pre) rest depth in_string.
Proof.
  induction rest as [|c rest IH]; intros pre fuel depth in_string Hf.
  - rewrite app_nil_r. cbn [array_walk_at]. rewrite length_rev.
    destruct fuel as [|fuel]; [reflexivity|]. cbn [array_walk].
    now replace (nth_error pre (length pre)) with (@None ascii)
      by (symmetry; apply nth_error_None; lia).
  - cbn [length] in Hf. destruct fuel as [|fuel]; [lia|].
    assert (H : forall d s,
               array_walk fuel (pre ++ c :: rest) (length pre + 1) d s
               = array_walk_at (c :: rev pre) rest d s).
    { intros d s. rewrite (app_cons_assoc pre c rest), <- (length_snoc pre c).
      rewrite IH by lia. now rewrite rev_unit. }
    cbn [array_walk array_walk_at].
    rewrite nth_error_at, escaped_loop_parity, !H, length_rev. reflexivity.
Qed.

Lemma bs_parity_negb rp :
  forall escaped, bs_parity rp (negb escaped) = negb (bs_parity rp escaped).
Proof.
  induction rp as [|c rp IH]; intro escaped; [reflexivity|].
  cbn [bs_parity]. destruct (chr_eqb c backslash); [apply IH | reflexivity].
Qed.

Lemma rev_append_app {A} (a b rp : list A) :
  rev_append (a ++ b) rp = rev_append b (rev_append a rp).
Proof. revert rp. induction a as [|x a IH]; intro rp; [reflexivity|apply IH]. Qed.

Lemma passed_nil : passed_over [].
Proof. intros rp rest depth Hp Hd. now split. Qed.

Lemma passed_app a b : passed_over a -> passed_over b -> passed_over (a ++ b).
Proof.
  intros Ha Hb rp rest depth Hp Hd.
  destruct (Ha rp (b ++ rest) depth Hp Hd) as [E1 P1].
  destruct (Hb (rev_append a rp) rest depth P1 Hd) as [E2 P2].
  rewrite rev_append_app, <- app_assoc, E1, E2. now split.
Qed.

Lemma passed_plain xs : forallb plain_chr xs = true -> passed_over xs.
Proof.
  induction xs as [|c xs IH]; intro Hx; [apply passed_nil|].
  cbn [forallb] in Hx. apply andb_true_iff in Hx as [Hc Hx].
  apply plain_chr_inv in Hc as (Hq & Hb & Ho & Hc).
  intros rp rest depth Hp Hd.
  cbn [app array_walk_at rev_append]. rewrite Hq, Ho, Hc.
  apply (IH Hx); [|assumption]. cbn [bs_parity]. now rewrite Hb.
Qed.

(** Inside a string the walk reads one token of the encoder and stays
    inside. *)
Lemma token_inside tok :
  token tok ->
  forall rp rest depth,
    bs_parity rp false = false ->
    array_walk_at rp (tok ++ rest) depth true
    = array_walk_at (rev_append tok rp) rest depth true
    /\ bs_parity (rev_append tok rp) false = false.
Proof.
  intros Ht rp rest depth Hp.
  destruct Ht as [c Hc | c Hc | c Hc | | | h1 h2 H1 H2];
    cbn [app array_walk_at rev_append bs_parity].
  - apply plain_chr_inv in Hc as (Hq & Hb & _). now rewrite Hq, Hb.
  - apply bracket_chr_inv in Hc as (Hq & Hb). now rewrite Hq, Hb.
  - apply plain_chr_inv in Hc as (Hq & Hb & _).
    change (chr_eqb backslash dquote) with false. cbn iota.
    now rewrite Hq, Hb.
  - change (chr_eqb backslash dquote) with false.
    change (chr_eqb dquote dquote) with true.
    change (chr_eqb backslash backslash) with true.
    change (chr_eqb dquote backslash) with false. cbn iota.
    rewrite (bs_parity_negb rp false), Hp. now split.
  - change (chr_eqb backslash dquote) with false.
    change (chr_eqb backslash backslash) with true. cbn iota.
    now split.
  - apply plain_chr_inv in H1 as (Hq1 & Hb1 & _).
    apply plain_chr_inv in H2 as (Hq2 & Hb2 & _).
    change (chr_eqb backslash dquote) with false.
    change (chr_eqb "u" dquote) with false.
    change (chr_eqb "0" dquote) with false. cbn iota.
    now rewrite Hq1, Hq2, Hb2.
Qed.

Lemma body_inside p :
  forall rp rest depth,
    bs_parity rp false = false ->
    array_walk_at rp (encode_body p ++ rest) depth true
    = array_walk_at (rev_append (encode_body p) rp) rest depth true
    /\ bs_parity (rev_append (encode_body p) rp) false = false.
Proof.
  induction p as [|c p IH]; intros rp rest depth Hp; [now split|].
  change (encode_body (c :: p)) with (encode_chr c ++ encode_body p).
  rewrite <- app_assoc, rev_append_app.
  destruct (@token_inside _ (encode_chr_token c) rp (encode_body p ++ rest)
              depth Hp) as [E1 P1].
  rewrite E1. now apply IH.
Qed.

Lemma passed_encode_str p : passed_over (encode_str p).
Proof.
  intros rp rest depth Hp Hd. unfold encode_str.
  cbn [app rev_append array_walk_at].
  change (chr_eqb dquote dquote) with true. cbn iota. rewrite Hp.
  rewrite <- app_assoc, rev_append_app. cbn [negb app rev_append].
  assert (Hq : bs_parity (dquote :: rp) false = false) by reflexivity.
  destruct (@body_inside p (dquote :: rp) (dquote :: rest) depth Hq) as [E P].
  rewrite E. cbn [array_walk_at].
  change (chr_eqb dquote dquote) with true. cbn iota. rewrite P.
  now split.
Qed.

Lemma passed_join sep xs :
  passed_over sep -> Forall passed_over xs -> passed_over (join sep xs).
Proof.
  intros Hs Hx. induction Hx as [|x xs Hx Hxs IH]; [apply passed_nil|].
  destruct xs as [|y xs]; [exact Hx|].
  rewrite join_cons2. auto using passed_app.
Qed.

Lemma passed_array t : passed_over t -> passed_over ($"[" ++ t ++ $"]").
Proof.
  intros Ht rp rest depth Hp Hd. rewrite <- !app_assoc.
  change ($"[" ++ t ++ $"]" ++ rest) with ("["%char :: t ++ "]"%char :: rest).
  change ($"[" ++ t ++ $"]") with ("["%char :: t ++ ["]"%char]).
  cbn [array_walk_at rev_append].
  change (chr_eqb "[" dquote) with false.
  change (chr_eqb "[" "[") with true. cbn iota.
  assert (Hq : bs_parity ("["%char :: rp) false = false) by reflexivity.
  destruct (Ht ("["%char :: rp) ("]"%char :: rest) (depth + 1) Hq ltac:(lia))
    as [E P].
  rewrite E, rev_append_app. cbn [array_walk_at rev_append].
  change (chr_eqb "]" dquote) with false.
  change (chr_eqb "]" "[") with false.
  change (chr_eqb "]" "]") with true. cbn iota.
  destruct depth as [|d]; [lia|].
  replace (S d + 1) with (S (S d)) by lia.
  replace (S (S d) - 1) with (S d) by lia.
  now split.
Qed.

Lemma digit_plain c : (isdigit c || chr_eqb c "-") = true -> plain_chr c = true.
Proof.
  destruct c as [[] [] [] [] [] [] [] []]; vm_compute; intro H;
    try discriminate; reflexivity.
Qed.

Lemma digits_plain ds : forallb isdigit ds = true -> forallb plain_chr ds = true.
Proof.
  intro H. apply forallb_forall. intros c Hc.
  rewrite forallb_forall in H. apply digit_plain. now rewrite (H c Hc).
Qed.

Lemma str_of_int_plain n : forallb plain_chr (str_of_int n) = true.
Proof.
  unfold str_of_int. destruct (n <? 0)%Z eqn:E.
  - apply Z.ltb_lt in E. cbn [forallb].
    destruct (@str_of_nonneg_spec (- n)%Z ltac:(lia)) as (H & _).
    now rewrite (digits_plain _ H).
  - apply Z.ltb_ge in E.
    destruct (@str_of_nonneg_spec n E) as (H & _). now apply digits_plain.
Qed.

Lemma passed_dumps v : finite_floats v = true -> passed_over (dumps v).
Proof.
  induction v as [| b | n | l | s | items IH | members IH] using value_rect';
    intro Hf.
  - now apply passed_plain.
  - destruct b; now apply passed_plain.
  - apply passed_plain, str_of_int_plain.
  - apply passed_plain.
    destruct (number_re_float l [] Hf eq_refl) as (_ & Hn & _).
    apply forallb_forall. intros c Hc. rewrite forallb_forall in Hn.
    apply number_chr_plain. now apply Hn.
  - apply passed_encode_str.
  - cbn [dumps finite_floats] in *. apply passed_array, passed_join.
    + now apply passed_plain.
    + rewrite forallb_forall in Hf. rewrite Forall_forall in IH.
      apply Forall_forall. intros t Ht. apply in_map_iff in Ht as (x & <- & Hx).
      auto.
  - cbn [dumps finite_floats] in *.
    apply passed_app; [now apply passed_plain|].
    apply passed_app; [|now apply passed_plain].
    apply passed_join; [now apply passed_plain|].
    rewrite forallb_forall in Hf. rewrite Forall_forall in IH.
    apply Forall_forall. intros t Ht. apply in_map_iff in Ht as (x & <- & Hx).
    apply passed_app; [apply passed_encode_str|].
    apply passed_app; [now apply passed_plain|]. auto.
Qed.

(** From the bracket that opens a dumped array the walk stops on the
    bracket that closes it. *)
Lemma array_walk_dumps items pre post :
  finite_floats (JArr items) = true ->
  array_walk (length (pre ++ dumps (JArr items) ++ post))
    (pre ++ dumps (JArr items) ++ post) (length pre) 0 false
  = (Some (length pre + length (dumps (JArr items)) - 1),
     length pre + length (dumps (JArr items)) - 1).
Proof.
  intro Hf. rewrite array_walk_at_eq by (rewrite !length_app; lia).
  set (inner := join $", " (map dumps items)).
  assert (Hi : passed_over inner).
  { apply passed_join; [now apply passed_plain|].
    cbn [finite_floats] in Hf. rewrite forallb_forall in Hf.
    apply Forall_forall. intros t Ht. apply in_map_iff in Ht as (x & <- & Hx).
    apply passed_dumps. auto. }
  change (dumps (JArr items)) with ("["%char :: inner ++ ["]"%char]).
  cbn [app]. rewrite <- app_assoc. cbn [app array_walk_at].
  change (chr_eqb "[" dquote) with false.
  change (chr_eqb "[" "[") with true. cbn iota.
  assert (Hq : bs_parity ("["%char :: rev pre) false = false) by reflexivity.
  destruct (Hi ("["%char :: rev pre) ("]"%char :: post) (0 + 1) Hq ltac:(lia))
    as [E _].
  rewrite E. cbn [array_walk_at Nat.add].
  change (chr_eqb "]" dquote) with false.
  change (chr_eqb "]" "[") with false.
  change (chr_eqb "]" "]") with true. cbn iota.
  rewrite rev_append_rev, !length_app, length_rev. cbn [length].
  rewrite length_rev, (length_app inner). cbn [length].
  replace (length inner + S (length pre))
    with (length pre + S (length inner + 1) - 1) by lia.
  reflexivity.
Qed.

Lemma find_bracket pre t rest :
  find (pre ++ ("["%char :: t) ++ rest) $"[" (length pre) = Some (length pre).
Proof.
  unfold find. rewrite length_app.
  replace (length pre + length (("["%char :: t) ++ rest) <? length pre)
    with false by (symmetry; apply Nat.ltb_ge; lia).
  rewrite skipn_app, skipn_all, Nat.sub_diag. reflexivity.
Qed.

Lemma extract_json_arrays_dumps items pre post :
  finite_floats (JArr items) = true ->
  find (pre ++ faq_key ++ dumps (JArr items) ++ post) faq_key 0
  = Some (length pre) ->
  exists rest,
    _extract_json_arrays_from_text
      (pre ++ faq_key ++ dumps (JArr items) ++ post) faq_key
    = dumps (JArr items) :: rest.
Proof.
  intros Hf Hfind. unfold _extract_json_arrays_from_text.
  set (payload := pre ++ faq_key ++ dumps (JArr items) ++ post) in *.
  replace (length payload + 2) with (S (S (length payload))) by lia.
  cbn [json_arrays_loop]. rewrite Hfind.
  assert (E : payload = (pre ++ faq_key) ++ dumps (JArr items) ++ post)
    by (unfold payload; now rewrite <- app_assoc).
  rewrite <- (length_app pre faq_key).
  replace (find payload $"[" (length (pre ++ faq_key)))
    with (Some (length (pre ++ faq_key)))
    by (rewrite E; symmetry; apply find_bracket).
  replace (array_walk (length payload) payload (length (pre ++ faq_key)) 0 false)
    with (Some (length (pre ++ faq_key) + length (dumps (JArr items)) - 1),
          length (pre ++ faq_key) + length (dumps (JArr items)) - 1)
    by (rewrite E; symmetry; now apply array_walk_dumps).
  assert (Hs : slice payload (length (pre ++ faq_key))
                 (length (pre ++ faq_key) + length (dumps (JArr items)) - 1 + 1)
               = dumps (JArr items)).
  { rewrite E. unfold slice. apply slice_mid.
    change (dumps (JArr items))
      with ("["%char :: join $", " (map dumps items) ++ ["]"%char]).
    cbn [length]. lia. }
  cbv iota beta. rewrite Hs. cbn [app]. eauto.
Qed.

(** C2. The inline-script scanner round trip: a page carries, in a call of
    the push function, the JSON string literal of a payload; the payload
    carries after the key the text [json.dumps] writes for an array. Then
    the payload scanner yields the payload, the array scanner yields the
    text of the array out of the payload, and decoding that text gives
    the array back, escaped quotes and brackets inside strings included.
    Every float of the array is finite and the keys of each of its
    objects are distinct; the first occurrence of the call and of the key
    are the ones shown; nothing but plain arguments stands between the
    bracket of the call and the literal. *)
Theorem flight_scanner_round_trip items before args pre post after :
  let array := JArr items in
  let payload := pre ++ faq_key ++ dumps array ++ post in
  let html := before ++ flight_call args payload ++ after in
  finite_floats array = true ->
  unique_keys array = true ->
  forallb arg_chr args = true ->
  find html NEXT_FLIGHT_NEEDLE 0 = Some (length before) ->
  find payload faq_key 0 = Some (length pre) ->
  (exists rest, _iter_next_flight_payloads html = payload :: rest)
  /\ (exists rest,
        _extract_json_arrays_from_text payload faq_key = dumps array :: rest)
  /\ loads (dumps array) = Ok array.
Proof.
  intros array payload html Hf Hu Ha Hh Hp. repeat split.
  - now apply iter_next_flight_payloads_call.
  - now apply extract_json_arrays_dumps.
  - now apply loads_dumps.
Qed.

Lemma flight_scanner_round_trip_witness :
  (exists rest, _iter_next_flight_payloads quoted_html = quoted_payload :: rest)
  /\ (exists rest,
        _extract_json_arrays_from_text quoted_payload faq_key
        = dumps quoted_array :: rest)
  /\ loads (dumps quoted_array) = Ok quoted_array.
Proof.
  apply (@flight_scanner_round_trip [JStr ($"a" ++ [dquote] ++ $"b")]
           $"<script>" $"1," $"1:{" $"}" $"</script>");
    vm_compute; reflexivity.
Defined.

(** ** The pipeline *)

Section PipelineFacts.

Variable ip_address : str -> option Url.ip_kind.
Variable browser : str -> Z -> result (str * str).
Variable client_get : str -> list (str * str) -> result response.
Variable _build_dom_tree : str -> option _DOMTreeBuilder.
Variable jsonld_scripts : str -> list str.
Variable next_data_script : str -> option str.
Variable flat_snapshot : Type.
Variable flat_snapshot_of : listing -> result flat_snapshot.

Abbreviation fetch :=
  (fetch_listing_snapshot ip_address browser client_get _build_dom_tree
     jsonld_scripts next_data_script flat_snapshot_of).

Abbreviation render := (_render_listing_with_playwright browser).

(** The render never raises, whatever the session does. *)
Lemma render_failure_absorbed url timeout e :
  browser url (Z.max (py_int (timeout * 1000)%Q) 1000) = Raise e ->
  render url timeout = (None, None).
Proof. intro H. unfold _render_listing_with_playwright. now rewrite H. Qed.

(** A hydration request that ends in an [httpx.HTTPError] leaves the
    page payload empty. *)
Lemma hydration_failure_absorbed response next_data_url msg :
  client_get next_data_url (resp_params response) = Raise (HTTPError msg) ->
  hydration_payload client_get response next_data_url = Ok None.
Proof. intro H. unfold hydration_payload. now rewrite H. Qed.


Lemma entered_app log log' : entered (log ++ log') = entered log ++ entered log'.
Proof.
  induction log as [|[target allow|url|url params] log IH]; cbn [app entered];
    [reflexivity | now rewrite IH | assumption | assumption].
Qed.

Lemma entered_concat logs :
  entered (concat logs) = concat (map entered logs).
Proof.
  induction logs as [|log logs IH]; [reflexivity|].
  cbn [concat map]. now rewrite entered_app, IH.
Qed.



(** C1. A failure of the raw GET is not absorbed: when the target
    normalizes and the client raises on the first request, the call
    raises the same exception after it was entered, the browser was
    asked and the request was made. Render failures and
    [httpx.HTTPError] on the hydration request are absorbed. *)
Theorem raw_get_failure_is_raised target url slug e fuel timeout allow :
  _normalize_target ip_address target = Ok (url, slug) ->
  client_get url [] = Raise e ->
  fetch (S fuel) target timeout allow
  = Some ([Entered target allow; Rendered url; Requested url []], Raise e).
Proof.
  intros Hn Hg. cbn [fetch_listing_snapshot]. rewrite Hn.
  destruct (render url timeout) as [rh ru]. now rewrite Hg.
Qed.

End PipelineFacts.

Lemma raw_get_failure_is_raised_witness :
  offline_fetch 1 $"https://whop.com/x" true
  = Some ([Entered $"https://whop.com/x" true; Rendered $"https://whop.com/x";
           Requested $"https://whop.com/x" []],
          Raise (HTTPError $"ConnectError")).
Proof.
  apply (@raw_get_failure_is_raised no_address no_browser offline_get
           sample_dom no_scripts no_next_data listing (@Ok listing)
           $"https://whop.com/x" $"https://whop.com/x" $"x");
    vm_compute; reflexivity.
Defined.


(* ================================================================== *)
(** * Further properties of the module *)
(* ================================================================== *)

(** ** Words, [split], [join] and [strip] *)

Lemma split_ws_go_words s :
  forall cur,
    forallb (fun c => negb (isspace c)) cur = true ->
    Forall is_word (split_ws_go cur s).
Proof.
  induction s as [|c s IH]; intros cur Hcur; cbn [split_ws_go].
  - destruct cur as [|x cur]; constructor; [|constructor].
    split; [destruct (rev (x :: cur)) eqn:E; [|discriminate];
            apply (f_equal (@length _)) in E; rewrite length_rev in E;
            discriminate|].
    now rewrite forallb_rev.
  - destruct (isspace c) eqn:Ec.
    + destruct cur as [|x cur]; [now apply IH|].
      constructor; [|now apply IH].
      split; [destruct (rev (x :: cur)) eqn:E; [|discriminate];
              apply (f_equal (@length _)) in E; rewrite length_rev in E;
              discriminate|].
      now rewrite forallb_rev.
    + apply IH. cbn [forallb]. now rewrite Ec, Hcur.
Qed.

Lemma split_ws_words s : Forall is_word (split_ws s).
Proof. now apply split_ws_go_words. Qed.

(** Reading a word that is followed by nothing or by white space. *)
Lemma split_ws_go_word w :
  forallb (fun c => negb (isspace c)) w = true ->
  forall cur rest, split_ws_go cur (w ++ rest) = split_ws_go (rev w ++ cur) rest.
Proof.
  induction w as [|c w IH]; intros Hw cur rest; [reflexivity|].
  cbn [forallb] in Hw. apply andb_true_iff in Hw as [Hc Hw].
  apply negb_true_iff in Hc. cbn [app split_ws_go]. rewrite Hc.
  rewrite (IH Hw). cbn [rev]. now rewrite <- app_assoc.
Qed.

Lemma split_ws_join ws :
  Forall is_word ws -> split_ws (join $" " ws) = ws.
Proof.
  unfold split_ws. induction 1 as [|w ws [Hne Hw] Hws IH]; [reflexivity|].
  destruct ws as [|w2 ws].
  - cbn [join]. rewrite <- (app_nil_r w) at 1.
    rewrite (split_ws_go_word w Hw), app_nil_r. cbn [split_ws_go].
    destruct (rev w) eqn:E; [|now rewrite <- E, rev_involutive].
    apply (f_equal (@rev _)) in E. rewrite rev_involutive in E. now subst w.
  - rewrite join_cons2, (split_ws_go_word w Hw), app_nil_r.
    change ($" " ++ join $" " (w2 :: ws)) with (" "%char :: join $" " (w2 :: ws)).
    cbn [split_ws_go]. change (isspace " ") with true. cbn iota.
    destruct (rev w) eqn:E.
    + apply (f_equal (@rev _)) in E. rewrite rev_involutive in E. now subst w.
    + rewrite <- E, rev_involutive, IH. reflexivity.
Qed.

Lemma squeeze_squeeze s : squeeze (squeeze s) = squeeze s.
Proof. unfold squeeze. now rewrite split_ws_join by apply split_ws_words. Qed.

Lemma dropwhile_head p c s : p c = false -> dropwhile p (c :: s) = c :: s.
Proof. intro H. cbn [dropwhile]. now rewrite H. Qed.

Lemma join_words_ends ws :
  Forall is_word ws ->
  join $" " ws = []
  \/ exists c t d u, join $" " ws = c :: t /\ isspace c = false
                     /\ rev (join $" " ws) = d :: u /\ isspace d = false.
Proof.
  induction 1 as [|w ws [Hne Hw] Hws IH]; [now left|]. right.
  destruct w as [|c w]; [congruence|].
  cbn [forallb] in Hw. apply andb_true_iff in Hw as [Hc Hw].
  apply negb_true_iff in Hc.
  destruct ws as [|w2 ws].
  - cbn [join]. exists c, w.
    destruct (rev (c :: w)) as [|d u] eqn:E.
    { apply (f_equal (@length _)) in E. rewrite length_rev in E. discriminate. }
    exists d, u. repeat split; try assumption.
    assert (Hin : In d (c :: w)) by (apply in_rev; rewrite E; now left).
    assert (Hall : forallb (fun c => negb (isspace c)) (c :: w) = true)
      by (cbn [forallb]; now rewrite Hc, Hw).
    rewrite forallb_forall in Hall. apply negb_true_iff. now apply Hall.
  - rewrite join_cons2. cbn [app].
    destruct IH as [E|(c2 & t2 & d & u & E1 & H1 & E2 & H2)].
    + exfalso. inversion Hws as [|? ? [Hne2 _] _]; subst.
      destruct w2; [congruence|]. destruct ws; discriminate.
    + exists c, (w ++ $" " ++ join $" " (w2 :: ws)), d,
             (u ++ rev (c :: w ++ $" ")).
      repeat split; try assumption.
      replace (c :: w ++ $" " ++ join $" " (w2 :: ws))
        with ((c :: w ++ $" ") ++ join $" " (w2 :: ws))
        by (cbn [app]; now rewrite <- app_assoc).
      rewrite rev_app_distr, E2. reflexivity.
Qed.

Lemma strip_join_words ws :
  Forall is_word ws -> strip (join $" " ws) = join $" " ws.
Proof.
  intro H. destruct (join_words_ends H) as [E|(c & t & d & u & E1 & H1 & E2 & H2)].
  - now rewrite E.
  - unfold strip, strip_by, rstrip_by, lstrip_by.
    rewrite E1, (dropwhile_head isspace c t H1), <- E1, E2,
      (dropwhile_head isspace d u H2), <- E2.
    apply rev_involutive.
Qed.

Lemma strip_squeeze s : strip (squeeze s) = squeeze s.
Proof. apply strip_join_words, split_ws_words. Qed.

Lemma isspace_lower c : isspace (lower_chr c) = isspace c.
Proof. destruct c as [[] [] [] [] [] [] [] []]; reflexivity. Qed.

Lemma lower_chr_lower c : lower_chr (lower_chr c) = lower_chr c.
Proof. destruct c as [[] [] [] [] [] [] [] []]; reflexivity. Qed.

Lemma lower_lower s : lower (lower s) = lower s.
Proof.
  unfold lower. rewrite map_map. apply map_ext. apply lower_chr_lower.
Qed.

Lemma split_ws_go_lower s :
  forall cur,
    split_ws_go (map lower_chr cur) (map lower_chr s)
    = map (map lower_chr) (split_ws_go cur s).
Proof.
  induction s as [|c s IH]; intro cur; cbn [map split_ws_go].
  - destruct cur as [|x cur]; [reflexivity|]. cbn [map].
    change (lower_chr x :: map lower_chr cur) with (map lower_chr (x :: cur)).
    now rewrite <- map_rev.
  - rewrite isspace_lower. destruct (isspace c).
    + destruct cur as [|x cur]; cbn [map].
      * apply (IH []).
      * change (lower_chr x :: map lower_chr cur)
          with (map lower_chr (x :: cur)).
        rewrite <- map_rev. f_equal. apply (IH []).
    + apply (IH (c :: cur)).
Qed.

Lemma join_lower ws : lower (join $" " ws) = join $" " (map lower ws).
Proof.
  induction ws as [|w ws IH]; [reflexivity|].
  destruct ws as [|w2 ws]; [reflexivity|].
  cbn [map]. rewrite !join_cons2. unfold lower in *.
  rewrite !map_app. cbn [map] in IH. now rewrite IH.
Qed.

Lemma squeeze_lower s : squeeze (lower s) = lower (squeeze s).
Proof.
  unfold squeeze, split_ws. rewrite join_lower. f_equal.
  exact (split_ws_go_lower s []).
Qed.

Lemma split_ws_go_trailing ws :
  forallb isspace ws = true ->
  forall cur, split_ws_go cur ws = split_ws_go cur [].
Proof.
  induction ws as [|c ws IH]; intros Hws cur; [reflexivity|].
  cbn [forallb] in Hws. apply andb_true_iff in Hws as [Hc Hws].
  cbn [split_ws_go]. rewrite Hc.
  destruct cur as [|x cur]; now rewrite (IH Hws []).
Qed.

Lemma split_ws_go_app_trailing s ws :
  forallb isspace ws = true ->
  forall cur, split_ws_go cur (s ++ ws) = split_ws_go cur s.
Proof.
  intro Hws. induction s as [|c s IH]; intro cur.
  - now apply split_ws_go_trailing.
  - cbn [app split_ws_go]. destruct (isspace c); [|apply IH].
    destruct cur; now rewrite IH.
Qed.

Lemma split_ws_go_leading s :
  split_ws_go [] (dropwhile isspace s) = split_ws_go [] s.
Proof.
  induction s as [|c s IH]; [reflexivity|]. cbn [dropwhile split_ws_go].
  destruct (isspace c) eqn:Ec; [exact IH|]. cbn [split_ws_go]. now rewrite Ec.
Qed.

Lemma dropwhile_split p (s : str) :
  exists pre, s = pre ++ dropwhile p s /\ forallb p pre = true.
Proof.
  induction s as [|c s (pre & E & Hp)]; [now exists []|].
  cbn [dropwhile]. destruct (p c) eqn:Ec.
  - exists (c :: pre). cbn [app forallb]. rewrite Ec, Hp.
    split; [now rewrite <- E | reflexivity].
  - now exists [].
Qed.

Lemma rstrip_split p (s : str) :
  exists post, s = rstrip_by p s ++ post /\ forallb p post = true.
Proof.
  unfold rstrip_by. destruct (dropwhile_split p (rev s)) as (pre & E & Hp).
  exists (rev pre). split; [|now rewrite forallb_rev].
  rewrite <- rev_app_distr, <- E. symmetry. apply rev_involutive.
Qed.

Lemma split_ws_strip s : split_ws (strip s) = split_ws s.
Proof.
  unfold split_ws, strip, strip_by.
  destruct (rstrip_split isspace (lstrip_by isspace s)) as (post & E & Hp).
  rewrite <- (split_ws_go_leading s). unfold lstrip_by in *.
  rewrite E at 2. now rewrite split_ws_go_app_trailing.
Qed.

Lemma squeeze_strip s : squeeze (strip s) = squeeze s.
Proof. unfold squeeze. now rewrite split_ws_strip. Qed.

Lemma normalize_question_eq text : _normalize_question text = lower (squeeze text).
Proof. unfold _normalize_question. now rewrite strip_squeeze. Qed.

(** X1. [_normalize_question] is a normal form: normalizing twice is
    normalizing once, and the result does not depend on the letter case
    of the question, on white space around it or on the length of the
    runs of white space inside it. *)
Theorem normalize_question_normal_form text :
  _normalize_question (_normalize_question text) = _normalize_question text
  /\ _normalize_question (strip text) = _normalize_question text
  /\ _normalize_question (lower text) = _normalize_question text
  /\ _normalize_question (squeeze text) = _normalize_question text.
Proof.
  rewrite !normalize_question_eq. repeat split.
  - now rewrite squeeze_lower, squeeze_squeeze, lower_lower.
  - now rewrite squeeze_strip.
  - now rewrite squeeze_lower, lower_lower.
  - now rewrite squeeze_squeeze.
Qed.

Lemma strip_get_text self : strip (get_text self) = get_text self.
Proof. unfold get_text. now rewrite !strip_squeeze. Qed.

(** X2. The text of a node is already normalized: stripping it or
    collapsing its white space again changes nothing, and its words are
    those of the collected text parts. *)
Theorem get_text_normal_form self :
  strip (get_text self) = get_text self
  /\ squeeze (get_text self) = get_text self
  /\ split_ws (get_text self) = split_ws (join $" " (_collect self)).
Proof.
  unfold get_text. rewrite !strip_squeeze. repeat split.
  - apply squeeze_squeeze.
  - unfold squeeze. apply split_ws_join, split_ws_words.
Qed.

Lemma dropwhile_head_false p (s : str) c t :
  dropwhile p s = c :: t -> p c = false.
Proof.
  induction s as [|x s IH]; [discriminate|]. cbn [dropwhile].
  destruct (p x) eqn:Ex; [exact IH|]. intro H. now inversion H; subst.
Qed.

Lemma strip_by_fixed p (s : str) :
  match s with [] => True | c :: _ => p c = false end ->
  match rev s with [] => True | d :: _ => p d = false end ->
  strip_by p s = s.
Proof.
  intros Hh Hl. unfold strip_by, rstrip_by, lstrip_by.
  destruct s as [|c t]; [reflexivity|].
  rewrite (dropwhile_head p c t Hh).
  destruct (rev (c :: t)) as [|d u] eqn:E.
  - apply (f_equal (@length _)) in E. rewrite length_rev in E. discriminate.
  - rewrite (dropwhile_head p d u Hl), <- E. apply rev_involutive.
Qed.

Lemma strip_by_strip_by p (s : str) : strip_by p (strip_by p s) = strip_by p s.
Proof.
  apply strip_by_fixed.
  - unfold strip_by.
    destruct (rstrip_split p (lstrip_by p s)) as (post & E & _).
    destruct (rstrip_by p (lstrip_by p s)) as [|c t] eqn:Er; [exact I|].
    unfold lstrip_by in E. cbn [app] in E.
    now apply (dropwhile_head_false p s E).
  - unfold strip_by, rstrip_by. rewrite rev_involutive.
    destruct (dropwhile p (rev (lstrip_by p s))) as [|d u] eqn:E; [exact I|].
    now apply (dropwhile_head_false p _ E).
Qed.

Lemma strip_strip s : strip (strip s) = strip s.
Proof. apply strip_by_strip_by. Qed.

(** ** The FAQ entries of the streamed payloads *)

Lemma flight_entries_inv data :
  forall seen entries,
    seen = rev (map (fun e => _normalize_question (fb_question e)) entries) ->
    NoDup seen ->
    Forall (fun e => _normalize_question (fb_question e) <> []
                     /\ strip (fb_question e) = fb_question e
                     /\ strip (fb_answer e) = fb_answer e) entries ->
    let r := flight_entries data seen entries in
    fst r = rev (map (fun e => _normalize_question (fb_question e)) (snd r))
    /\ NoDup (fst r)
    /\ Forall (fun e => _normalize_question (fb_question e) <> []
                        /\ strip (fb_question e) = fb_question e
                        /\ strip (fb_answer e) = fb_answer e) (snd r).
Proof.
  induction data as [|v data IH]; intros seen entries Hs Hn Hf;
    [cbn; auto|].
  cbn zeta in *. cbn [flight_entries].
  destruct v as [| b | n | l | s | items | entry]; try now apply IH.
  destruct (obj_get entry $"question") as [[| | | | q | |]|]; try now apply IH.
  destruct (obj_get entry $"answer") as [[| | | | a | |]|]; try now apply IH.
  destruct (truthy (_normalize_question q)
            && negb (mem (_normalize_question q) seen)) eqn:E;
    [|now apply IH].
  apply andb_true_iff in E as [Eq Em]. apply negb_true_iff in Em.
  assert (Hq : _normalize_question (strip q) = _normalize_question q)
    by (rewrite !normalize_question_eq; now rewrite squeeze_strip).
  apply IH.
  - rewrite map_app, rev_app_distr. cbn [map rev app fb_question].
    now rewrite Hq, Hs.
  - constructor; [|assumption]. now apply mem_not_In.
  - apply Forall_app. split; [assumption|]. constructor; [|constructor].
    cbn [fb_question fb_answer]. rewrite Hq, !strip_strip.
    repeat split. intro E0. rewrite E0 in Eq. discriminate.
Qed.

Lemma flight_arrays_inv array_texts seen entries r :
  flight_arrays array_texts seen entries = Ok r ->
  seen = rev (map (fun e => _normalize_question (fb_question e)) entries) ->
  NoDup seen ->
  Forall (fun e => _normalize_question (fb_question e) <> []
                   /\ strip (fb_question e) = fb_question e
                   /\ strip (fb_answer e) = fb_answer e) entries ->
  fst r = rev (map (fun e => _normalize_question (fb_question e)) (snd r))
  /\ NoDup (fst r)
  /\ Forall (fun e => _normalize_question (fb_question e) <> []
                      /\ strip (fb_question e) = fb_question e
                      /\ strip (fb_answer e) = fb_answer e) (snd r).
Proof.
  unfold flight_arrays. intros H Hs Hn Hf. revert H.
  apply (fold_result_inv
           (fun acc : list str * list fallback_entry =>
              fst acc
              = rev (map (fun e => _normalize_question (fb_question e))
                         (snd acc))
              /\ NoDup (fst acc)
              /\ Forall (fun e => _normalize_question (fb_question e) <> []
                                  /\ strip (fb_question e) = fb_question e
                                  /\ strip (fb_answer e) = fb_answer e)
                        (snd acc)));
    [|cbn [fst snd]; auto].
  intros [seen0 entries0] t a' (H1 & H2 & H3) Ht. cbn [fst snd] in *.
  destruct (loads t) as [[| | | | | data |]|[]]; try discriminate;
    injection Ht as <-; cbn [fst snd]; auto.
  apply (flight_entries_inv data H1 H2 H3).
Qed.

Lemma extract_flight_faq_entries_inv html entries :
  _extract_flight_faq_entries html = Ok entries ->
  NoDup (map (fun e => _normalize_question (fb_question e)) entries)
  /\ Forall (fun e => _normalize_question (fb_question e) <> []
                      /\ strip (fb_question e) = fb_question e
                      /\ strip (fb_answer e) = fb_answer e)
            entries.
Proof.
  unfold _extract_flight_faq_entries.
  destruct (flight_payloads_run html) as [payloads ending].
  destruct (fold_result _ payloads ([], [])) as [acc|e] eqn:E;
    cbn [bind]; [|discriminate].
  destruct ending as [e|]; [discriminate|].
  intro H. inversion H; subst; clear H.
  assert (Hacc :
    fst acc = rev (map (fun e => _normalize_question (fb_question e))
                       (snd acc))
    /\ NoDup (fst acc)
    /\ Forall (fun e => _normalize_question (fb_question e) <> []
                        /\ strip (fb_question e) = fb_question e
                        /\ strip (fb_answer e) = fb_answer e) (snd acc)).
  { revert E.
    apply (fold_result_inv
             (fun acc : list str * list fallback_entry =>
                fst acc
                = rev (map (fun e => _normalize_question (fb_question e))
                           (snd acc))
                /\ NoDup (fst acc)
                /\ Forall (fun e => _normalize_question (fb_question e) <> []
                                    /\ strip (fb_question e) = fb_question e
                                    /\ strip (fb_answer e) = fb_answer e)
                          (snd acc)));
      [|cbn [fst snd]; repeat split; constructor].
    intros [seen0 entries0] p a' (H1 & H2 & H3) Hp. cbn [fst snd] in *.
    destruct (negb (contains p faq_key)).
    - injection Hp as <-. cbn [fst snd]. auto.
    - eapply flight_arrays_inv; eassumption. }
  destruct Hacc as (H1 & H2 & H3). split; [|exact H3].
  rewrite H1 in H2. apply NoDup_rev in H2. now rewrite rev_involutive in H2.
Qed.



Lemma last_match_In l k f :
  last_match l k = Some f ->
  In f l /\ _normalize_question (fb_question f) = k.
Proof.
  unfold last_match. intro H. apply find_some in H as [Hin Hk].
  split; [now apply in_rev | now apply str_eqb_eq].
Qed.

Lemma merge_entry_empty e : merge_entry (fallback_map_of []) e = e.
Proof. unfold merge_entry. now destruct (otruthy (answer e)). Qed.

(** X4. Reconciliation with the entries of the streamed payloads, as the
    pipeline composes them: each DOM section keeps its heading and its
    questions; an entry that has an answer keeps it; an entry without one
    takes the answer of the streamed entry with the same normalized
    question when that answer is not empty, and stays unanswered when no
    streamed entry with that question has an answer. The streamed
    entries are the ones the extraction returns. *)
Theorem merge_with_flight_entries html dom_sections fallback_entries :
  dom_sections <> [] ->
  _extract_flight_faq_entries html = Ok fallback_entries ->
  let fill := merge_entry (fallback_map_of fallback_entries) in
  _merge_faq_sections dom_sections fallback_entries
  = map (fun s => FaqSection (heading s) (map fill (entries s))) dom_sections
  /\ forall e,
       question (fill e) = question e
       /\ (otruthy (answer e) = true -> fill e = e)
       /\ (otruthy (answer e) = false ->
           forall f, In f fallback_entries ->
                     _normalize_question (fb_question f)
                     = _normalize_question (question e) ->
                     fb_answer f <> [] ->
                     answer (fill e) = Some (fb_answer f))
       /\ (otruthy (answer e) = false ->
           (forall f, In f fallback_entries ->
                      _normalize_question (fb_question f)
                      = _normalize_question (question e) ->
                      fb_answer f = []) ->
           fill e = e).
Proof.
  intros Hdom Hfb fill. rename fallback_entries into fb.
  destruct (extract_flight_faq_entries_inv _ Hfb) as [Hnd Hall].
  split.
  - unfold _merge_faq_sections. destruct fb as [|f0 fb0] eqn:Efb.
    + subst fill. symmetry. erewrite map_ext; [apply map_id|].
      intros [h es]. cbn [heading entries]. f_equal.
      erewrite map_ext; [apply map_id|]. apply merge_entry_empty.
    + destruct dom_sections; [congruence|reflexivity].
  - intro e. subst fill. rewrite merge_entry_reconciled. unfold reconciled.
    destruct (otruthy (answer e)) eqn:Ea.
    + repeat split; try reflexivity; discriminate.
    + split; [|split; [discriminate|split]].
      * destruct (last_match fb _) as [f|]; [|reflexivity].
        now destruct (truthy _ && truthy _).
      * intros _ f Hin Hk Ha.
        rewrite (@last_match_unique fb _ f Hnd Hin Hk).
        rewrite Forall_forall in Hall. destruct (Hall f Hin) as (Hq & _).
        rewrite Hk in Hq.
        destruct (_normalize_question (question e)); [congruence|].
        destruct (fb_answer f); [congruence|reflexivity].
      * intros _ Hno. destruct (last_match fb _) as [f|] eqn:El; [|reflexivity].
        destruct (last_match_In _ _ El) as [Hin Hk].
        rewrite (Hno f Hin Hk). now rewrite andb_false_r.
Qed.

Lemma merge_with_flight_entries_witness :
  _extract_flight_faq_entries faq_html
  = Ok [FallbackEntry $"refunds?" $"Within 30 days."]
  /\ _merge_faq_sections unanswered_sections
       [FallbackEntry $"refunds?" $"Within 30 days."]
     = [FaqSection $"FAQ" [FaqEntry $"Refunds?" (Some $"Within 30 days.")]].
Proof.
  assert (E0 : _extract_flight_faq_entries faq_html
               = Ok [FallbackEntry $"refunds?" $"Within 30 days."])
    by (vm_compute; reflexivity).
  split; [exact E0|].
  destruct (@merge_with_flight_entries faq_html unanswered_sections _
              ltac:(discriminate) E0) as [E _].
  rewrite E. vm_compute. reflexivity.
Defined.

(** ** DOM feature sections *)

Lemma harvest_texts_inv limit all nodes :
  forall acc,
    (forall n, In n nodes -> In n all) ->
    length acc < limit -> NoDup acc ->
    Forall (fun t => t <> [] /\ exists n, In n all /\ get_text n = t) acc ->
    let r := harvest_texts limit acc nodes in
    length r <= limit /\ NoDup r
    /\ Forall (fun t => t <> [] /\ exists n, In n all /\ get_text n = t) r.
Proof.
  induction nodes as [|n rest IH]; intros acc Hsub Hl Hn Hf; cbn zeta;
    cbn [harvest_texts].
  - repeat split; [unfold str in *; lia|assumption|assumption].
  - assert (Hrest : forall m, In m rest -> In m all)
      by (intros m Hm; apply Hsub; now right).
    destruct (truthy (get_text n) && negb (mem (get_text n) acc)) eqn:E;
      [|now apply IH].
    apply andb_true_iff in E as [Et Em]. apply negb_true_iff in Em.
    assert (Hn' : NoDup (acc ++ [get_text n])).
    { apply NoDup_app; [assumption | repeat constructor; intros [] | ].
      intros x Hx Hx'. destruct Hx' as [<-|[]].
      now apply mem_not_In in Em. }
    assert (Hf' : Forall (fun t => t <> []
                          /\ exists n, In n all /\ get_text n = t)
                         (acc ++ [get_text n])).
    { apply Forall_app. split; [assumption|]. constructor; [|constructor].
      split; [intro E0; rewrite E0 in Et; discriminate|].
      exists n. split; [apply Hsub; now left | reflexivity]. }
    match goal with
    | |- context [limit <=? ?x] => destruct (limit <=? x) eqn:El
    end.
    + repeat split; try assumption. clear El.
      rewrite length_app. cbn [length]. unfold str in *. lia.
    + apply Nat.leb_gt in El. now apply IH.
Qed.

Lemma harvest_texts_ok limit container t :
  0 < limit ->
  let r := harvest_texts limit [] (iter_descendants container (Some [t])) in
  length r <= limit /\ NoDup r /\ Forall (texts_under container t) r.
Proof.
  intro Hl.
  apply (@harvest_texts_inv limit (iter_descendants container (Some [t]))).
  - auto.
  - exact Hl.
  - constructor.
  - constructor.
Qed.

Lemma NoDup_firstn {A} n (l : list A) : NoDup l -> NoDup (firstn n l).
Proof.
  revert l. induction n as [|n IH]; intros l H; [constructor|].
  destruct H as [|x l Hx H]; cbn [firstn]; constructor; [|now apply IH].
  intro Hin. apply Hx. revert Hin. clear.
  revert l. induction n as [|n IH]; intros l H; [destruct H|].
  destruct l as [|y l]; [destruct H|]. destruct H as [->|H]; [now left|].
  right. now apply IH.
Qed.

Lemma features_loop_inv all headings :
  forall seen feature_sections,
    (forall h, In h headings -> In h all) ->
    seen = rev (map feature_fingerprint feature_sections) ->
    NoDup seen ->
    Forall (feature_section_ok all) feature_sections ->
    let r := features_loop headings seen feature_sections in
    NoDup (map feature_fingerprint r) /\ Forall (feature_section_ok all) r.
Proof.
  induction headings as [|h rest IH]; intros seen secs Hsub Hs Hn Hf; cbn zeta;
    cbn [features_loop].
  - split; [|assumption]. rewrite Hs in Hn. apply NoDup_rev in Hn.
    now rewrite rev_involutive in Hn.
  - assert (Hrest : forall x, In x rest -> In x all)
      by (intros x Hx; apply Hsub; now right).
    destruct (negb (truthy (get_text (node_of h)))
              || negb (contains (lower (get_text (node_of h))) $"feature"))
      eqn:E; [now apply IH|].
    apply orb_false_iff in E as [Et Ec].
    apply negb_false_iff in Et, Ec.
    set (container := node_of (container_for h)).
    set (fp := join $"|" (feature_items container) ++ $"::"
               ++ join $"|" (feature_paragraphs container)).
    destruct (mem fp seen) eqn:Em; [now apply IH|].
    pose proof (strip_get_text (node_of h)) as Hstrip.
    apply IH; try assumption.
    + rewrite map_app, rev_app_distr. cbn [map rev app]. now rewrite Hs.
    + constructor; [now apply mem_not_In | assumption].
    + apply Forall_app. split; [assumption|]. constructor; [|constructor].
      exists h. cbn [fs_heading fs_items fs_paragraphs]. rewrite Hstrip.
      destruct (@harvest_texts_ok 12 container $"li" ltac:(lia)) as (A1 & A2 & A3).
      destruct (@harvest_texts_ok 6 container $"p" ltac:(lia)) as (B1 & B2 & B3).
      repeat split; try assumption.
      * apply Hsub. now left.
      * intro E0. rewrite E0 in Et. discriminate.
Qed.

(** X5. DOM feature extraction returns at most 4 sections with pairwise
    distinct fingerprints. Each section is headed by the text of an [h2]
    whose text names features; its items are texts of [li] nodes and its
    paragraphs texts of [p] nodes of the heading's container, not empty,
    not repeated, at most 12 items and 6 paragraphs. Without a tree the
    result is empty. *)
Theorem dom_features_bounded builder :
  length (_extract_dom_features builder) <= 4
  /\ NoDup (map feature_fingerprint (_extract_dom_features builder))
  /\ match builder with
     | None => _extract_dom_features builder = []
     | Some b =>
         Forall (feature_section_ok (iter_tag b $"h2"))
                (_extract_dom_features builder)
     end.
Proof.
  destruct builder as [b|]; unfold _extract_dom_features.
  2: { repeat split; [cbn; lia | constructor]. }
  destruct (@features_loop_inv (iter_tag b $"h2") (iter_tag b $"h2") [] []
              (fun h H => H) eq_refl (NoDup_nil _) (Forall_nil _)) as [H1 H2].
  split; [rewrite length_firstn; lia|]. split.
  - rewrite <- firstn_map. now apply NoDup_firstn.
  - now apply Forall_firstn.
Qed.

(** ** The cost of a call *)



Section PipelineCost.

Variable ip_address : str -> option Url.ip_kind.
Variable browser : str -> Z -> result (str * str).
Variable client_get : str -> list (str * str) -> result response.
Variable _build_dom_tree : str -> option _DOMTreeBuilder.
Variable jsonld_scripts : str -> list str.
Variable next_data_script : str -> option str.
Variable flat_snapshot : Type.
Variable flat_snapshot_of : listing -> result flat_snapshot.

Abbreviation fetch_in :=
  (fetch_listing_snapshot ip_address browser client_get _build_dom_tree
     jsonld_scripts next_data_script flat_snapshot_of).

Abbreviation listing_in :=
  (listing_snapshot ip_address client_get jsonld_scripts next_data_script
     flat_snapshot_of).







End PipelineCost.


(** ** Structured data *)

Lemma list_sum_app_vsize (a b : list value) :
  list_sum (map vsize (a ++ b)) = list_sum (map vsize a) + list_sum (map vsize b).
Proof. now rewrite map_app, list_sum_app. Qed.

Lemma iter_nodes_loop_mirror fuel :
  forall stack,
    list_sum (map vsize stack) <= fuel ->
    _iter_nodes_loop fuel stack = concat (rev (map mirror_dicts stack)).
Proof.
  induction fuel as [|fuel IH]; intros stack Hf.
  - destruct stack as [|x stack]; [reflexivity|].
    exfalso. cbn [map list_sum fold_right] in Hf.
    unfold list_sum in Hf. cbn [fold_right] in Hf.
    destruct x; cbn [vsize] in Hf; lia.
  - destruct stack as [|x stack _] using rev_ind; [reflexivity|].
    cbn [_iter_nodes_loop]. rewrite pop_snoc.
    rewrite list_sum_app_vsize in Hf. cbn [map] in Hf.
    unfold list_sum in Hf at 2. cbn [fold_right] in Hf.
    rewrite map_app, rev_app_distr. cbn [map rev app concat].
    destruct x as [| b | n | l | s | items | members]; cbn [mirror_dicts app];
      try (apply IH; cbn [vsize] in Hf; lia).
    + rewrite IH by (rewrite list_sum_app_vsize; cbn [vsize] in Hf; lia).
      now rewrite map_app, rev_app_distr, concat_app.
    + rewrite IH.
      * rewrite map_app, rev_app_distr, concat_app, map_map. reflexivity.
      * rewrite list_sum_app_vsize, map_map. cbn [vsize] in Hf. lia.
Qed.

Lemma iter_nodes_mirror obj : _iter_nodes obj = mirror_dicts obj.
Proof.
  unfold _iter_nodes. rewrite iter_nodes_loop_mirror.
  - cbn [map rev app concat]. apply app_nil_r.
  - cbn [map]. unfold list_sum. cbn [fold_right]. lia.
Qed.

Lemma in_mirror_dicts obj :
  forall node, In node (mirror_dicts obj) <-> occurs (JObj node) obj.
Proof.
  induction obj as [| b | n | l | s | items IH | members IH] using value_rect';
    intro node; cbn [mirror_dicts];
    try solve [split; [intros [] | intro H; inversion H]].
  - rewrite in_concat. split.
    + intros (l & Hl & Hn). apply in_rev, in_map_iff in Hl as (x & <- & Hx).
      rewrite Forall_forall in IH. apply (IH x Hx) in Hn.
      now apply occurs_item with x.
    + intro H. inversion H as [|items' x Hx Ho|]; subst.
      exists (mirror_dicts x). split.
      * apply in_rev. rewrite rev_involutive. now apply in_map.
      * rewrite Forall_forall in IH. now apply (IH x Hx).
  - split.
    + intros [<-|Hn]; [constructor|].
      apply in_concat in Hn as (l & Hl & Hn).
      apply in_rev, in_map_iff in Hl as (kv & <- & Hkv).
      rewrite Forall_forall in IH. apply (IH kv Hkv) in Hn.
      now apply occurs_member with kv.
    + intro H. inversion H as [E| |members' kv Hkv Ho]; subst.
      * now left.
      * right. apply in_concat. exists (mirror_dicts (snd kv)). split.
        -- apply in_rev. rewrite rev_involutive.
           apply in_map_iff. now exists kv.
        -- rewrite Forall_forall in IH. now apply (IH kv Hkv).
Qed.

(** X7. [_iter_nodes] yields every dictionary of the document and
    nothing else, each as often as it occurs: the document itself first
    when it is a dictionary, and below a dictionary or a list the last
    value first. *)
Theorem iter_nodes_order obj :
  _iter_nodes obj = mirror_dicts obj
  /\ forall node, In node (_iter_nodes obj) <-> occurs (JObj node) obj.
Proof.
  split; [apply iter_nodes_mirror|].
  intro node. rewrite iter_nodes_mirror. apply in_mirror_dicts.
Qed.

Lemma type_matches_named v expected :
  _type_matches v expected = true
  <-> exists s, type_named s v /\ lower s = lower expected.
Proof.
  induction v as [| b | n | l | s | items IH | members IH] using value_rect';
    cbn [_type_matches];
    try solve [split; [discriminate | intros (s0 & H & _); inversion H]].
  - rewrite str_eqb_eq. split.
    + intro E. exists s. split; [constructor|assumption].
    + intros (s0 & H & E). now inversion H; subst.
  - rewrite existsb_exists. rewrite Forall_forall in IH. split.
    + intros (x & Hx & Hm). apply (IH x Hx) in Hm as (s & Hs & E).
      exists s. split; [now apply named_item with x | assumption].
    + intros (s & H & E). inversion H as [|items' x Hx Hn]; subst.
      exists x. split; [assumption|]. apply (IH x Hx). now exists s.
Qed.

Lemma type_matches_lower v expected :
  _type_matches v (lower expected) = _type_matches v expected.
Proof.
  induction v as [| b | n | l | s | items IH | members IH] using value_rect';
    cbn [_type_matches]; try reflexivity.
  - now rewrite lower_lower.
  - rewrite Forall_forall in IH. induction items as [|x items IHi];
      [reflexivity|]. cbn [existsb]. rewrite (IH x) by now left.
    f_equal. apply IHi. intros y Hy. apply IH. now right.
Qed.

(** X8. [_collect_by_type] returns exactly the dictionaries of the
    document whose [@type] names the requested type: the name itself or
    one of a (nested) list of names, compared without regard to letter
    case on either side. A document that is [None] gives nothing. *)
Theorem collect_by_type_sound obj typename :
  (forall node,
     In node (_collect_by_type obj typename)
     <-> occurs (JObj node) obj
         /\ exists s, type_named s (dget node $"@type")
                      /\ lower s = lower typename)
  /\ _collect_by_type obj (lower typename) = _collect_by_type obj typename
  /\ _collect_by_type JNull typename = [].
Proof.
  split; [|split; [|reflexivity]].
  - intro node. rewrite <- type_matches_named, <- in_mirror_dicts.
    rewrite <- iter_nodes_mirror.
    destruct obj; unfold _collect_by_type; try (rewrite filter_In; tauto).
    cbn. tauto.
  - destruct obj; unfold _collect_by_type; try reflexivity;
      apply filter_ext; intro node; apply type_matches_lower.
Qed.

(** ** Flattened features *)

Lemma flat_state_grows_refl st : flat_state_grows st st.
Proof. exists []. now rewrite app_nil_r. Qed.

Lemma flat_state_grows_trans a b c :
  flat_state_grows a b -> flat_state_grows b c -> flat_state_grows a c.
Proof.
  intros [m1 E1] [m2 E2]. exists (m1 ++ m2). now rewrite E2, E1, app_assoc.
Qed.

Lemma flat_state_grows_In a b t :
  flat_state_grows a b -> In t (snd a) -> In t (snd b).
Proof. intros [m E] H. rewrite E. apply in_or_app. now left. Qed.

Lemma fold_left_inv {A S} (f : S -> A -> S) (P : S -> Prop) (R : S -> S -> Prop)
    (l : list A) :
  (forall s, R s s) ->
  (forall a b c, R a b -> R b c -> R a c) ->
  (forall s x, In x l -> P s -> P (f s x) /\ R s (f s x)) ->
  forall s, P s -> P (fold_left f l s) /\ R s (fold_left f l s).
Proof.
  intros Hrefl Htrans. induction l as [|x l IH]; intros Hstep s Hs.
  - cbn. auto.
  - cbn [fold_left]. destruct (Hstep s x (or_introl eq_refl) Hs) as [H1 H2].
    destruct (IH (fun s y Hy => Hstep s y (or_intror Hy)) (f s x) H1)
      as [H3 H4].
    split; [assumption|]. now apply Htrans with (f s x).
Qed.

Lemma fold_left_member {A S} (f : S -> A -> S) (P Q : S -> Prop)
    (R : S -> S -> Prop) (l : list A) (x : A) :
  (forall s, R s s) ->
  (forall a b c, R a b -> R b c -> R a c) ->
  (forall s y, In y l -> P s -> P (f s y) /\ R s (f s y)) ->
  (forall s, P s -> Q (f s x)) ->
  (forall a b, R a b -> Q a -> Q b) ->
  In x l ->
  forall s, P s -> Q (fold_left f l s).
Proof.
  intros Hrefl Htrans Hstep Hx Hmono Hin s Hs.
  apply in_split in Hin as (l1 & l2 & ->).
  rewrite fold_left_app. cbn [fold_left].
  assert (Hl1 : forall s y, In y l1 -> P s -> P (f s y) /\ R s (f s y)).
  { intros s0 y Hy. apply Hstep, in_or_app. now left. }
  assert (Hl2 : forall s y, In y l2 -> P s -> P (f s y) /\ R s (f s y)).
  { intros s0 y Hy. apply Hstep, in_or_app. right. now right. }
  destruct (@fold_left_inv A S f P R l1 Hrefl Htrans Hl1 s Hs) as [H1 _].
  destruct (Hstep (fold_left f l1 s) x) as [H2 _]; [|assumption|].
  { apply in_or_app. right. now left. }
  destruct (@fold_left_inv A S f P R l2 Hrefl Htrans Hl2 _ H2) as [_ H3].
  apply (Hmono _ _ H3). now apply Hx.
Qed.

Section SummaryFacts.

Variable float_repr : str -> str.

Lemma flat_append_ok st text :
  flat_state_ok st ->
  flat_state_ok (flat_append st text)
  /\ flat_state_grows st (flat_append st text)
  /\ (strip (squeeze text) <> [] ->
      In (strip (squeeze text)) (snd (flat_append st text))).
Proof.
  destruct st as [seen flattened]. intros (Hs & Hn & Hf).
  cbn [fst snd] in *. unfold flat_append.
  rewrite strip_squeeze.
  destruct (truthy (squeeze text)) eqn:Et; cbn [andb].
  - destruct (mem (squeeze text) seen) eqn:Em; cbn [negb snd fst].
    + split; [now repeat split|]. split; [apply flat_state_grows_refl|].
      intros _. apply mem_In in Em. rewrite Hs in Em. now apply in_rev.
    + split; [|split].
      * repeat split; cbn [fst snd].
        -- rewrite rev_app_distr. cbn [rev app]. now rewrite Hs.
        -- apply NoDup_app; [assumption | repeat constructor; intros [] |].
           intros x Hx [<-|[]]. apply mem_not_In in Em. apply Em.
           rewrite Hs. now apply in_rev in Hx.
        -- apply Forall_app. split; [assumption|].
           constructor; [|constructor].
           repeat split; [intro E; rewrite E in Et; discriminate
                         | apply squeeze_squeeze | apply strip_squeeze].
      * now exists [squeeze text].
      * intros _. apply in_or_app. right. now left.
  - split; [now repeat split|]. split; [apply flat_state_grows_refl|].
    intro H. destruct (squeeze text); [congruence|discriminate].
Qed.

Lemma flatten_item_ok st item :
  flat_state_ok st ->
  flat_state_ok (flatten_item float_repr st item)
  /\ flat_state_grows st (flatten_item float_repr st item).
Proof.
  intro H. unfold flatten_item.
  destruct (otruthy _); [|split; [assumption|apply flat_state_grows_refl]].
  match goal with |- context [flat_append st ?t] =>
    destruct (@flat_append_ok st t H) as (H1 & H2 & _) end.
  now split.
Qed.

Lemma flatten_item_str st s :
  flat_state_ok st ->
  strip (squeeze s) <> [] ->
  In (strip (squeeze s)) (snd (flatten_item float_repr st (JStr s))).
Proof.
  intros H Hs. unfold flatten_item.
  destruct s as [|c s]; [now cbn in Hs|]. cbn [otruthy or_empty].
  now apply flat_append_ok.
Qed.

Lemma flatten_section_ok st section :
  flat_state_ok st ->
  flat_state_ok (flatten_section float_repr st section)
  /\ flat_state_grows st (flatten_section float_repr st section).
Proof.
  intro H. pose proof (flat_state_grows_refl st) as Hr.
  destruct section as [| b | n | l | s | items | d]; cbn [flatten_section];
    try now split.
  - destruct (@flat_append_ok st s H) as (H1 & H2 & _). now split.
  - destruct (dget d $"items") as [| | | | | items |]; try now split.
    apply (@fold_left_inv _ _ (flatten_item float_repr) flat_state_ok
             flat_state_grows items flat_state_grows_refl
             flat_state_grows_trans); [|assumption].
    intros s x _. apply flatten_item_ok.
Qed.

Lemma flatten_group_ok st group :
  flat_state_ok st ->
  flat_state_ok (flatten_group float_repr st group)
  /\ flat_state_grows st (flatten_group float_repr st group).
Proof.
  intro H. pose proof (flat_state_grows_refl st) as Hr.
  destruct group as [| b | n | l | s | sections | d]; cbn [flatten_group];
    try now split.
  apply (@fold_left_inv _ _ (flatten_section float_repr) flat_state_ok
           flat_state_grows sections flat_state_grows_refl
           flat_state_grows_trans); [|assumption].
  intros s x _. apply flatten_section_ok.
Qed.

Lemma flat_state_start : flat_state_ok ([], []).
Proof. repeat split; constructor. Qed.

Lemma flatten_feature_sections_inv section_groups :
  let r := _flatten_feature_sections float_repr section_groups in
  NoDup r
  /\ Forall (fun t => t <> [] /\ squeeze t = t /\ strip t = t) r
  /\ (forall sections d items s,
        In (JArr sections) section_groups ->
        In (JObj d) sections ->
        dget d $"items" = JArr items ->
        In (JStr s) items ->
        strip (squeeze s) <> [] ->
        In (strip (squeeze s)) r).
Proof.
  cbn zeta. unfold _flatten_feature_sections.
  destruct (@fold_left_inv _ _ (flatten_group float_repr) flat_state_ok
              flat_state_grows section_groups flat_state_grows_refl
              flat_state_grows_trans
              (fun s x _ => @flatten_group_ok s x) _ flat_state_start)
    as [(_ & Hn & Hf) _].
  split; [assumption|]. split; [assumption|].
  intros sections d items s Hg Hsec Hitems Hs Hne.
  apply (@fold_left_member _ _ (flatten_group float_repr) flat_state_ok
           (fun st => In (strip (squeeze s)) (snd st)) flat_state_grows
           section_groups (JArr sections) flat_state_grows_refl
           flat_state_grows_trans (fun s x _ => @flatten_group_ok s x));
    [ | intros a b Hab; now apply flat_state_grows_In | assumption
      | apply flat_state_start ].
  intros st Hst. cbn [flatten_group].
  apply (@fold_left_member _ _ (flatten_section float_repr) flat_state_ok
           (fun st => In (strip (squeeze s)) (snd st)) flat_state_grows
           sections (JObj d) flat_state_grows_refl
           flat_state_grows_trans (fun s x _ => @flatten_section_ok s x));
    [ | intros a b Hab; now apply flat_state_grows_In | assumption
      | assumption ].
  intros st' Hst'. cbn [flatten_section]. rewrite Hitems.
  apply (@fold_left_member _ _ (flatten_item float_repr) flat_state_ok
           (fun st => In (strip (squeeze s)) (snd st)) flat_state_grows
           items (JStr s) flat_state_grows_refl
           flat_state_grows_trans (fun s x _ => @flatten_item_ok s x));
    [ | intros a b Hab; now apply flat_state_grows_In | assumption
      | assumption ].
  intros st'' Hst''. now apply flatten_item_str.
Qed.

(** X9. [_flatten_feature_sections] returns texts that are pairwise
    distinct, not empty and normalized (no white space around them, one
    space between words); every string item of every section of every
    group is among them in its normalized form, unless that form is
    empty. Paragraphs of a section are not read. *)
Theorem flatten_feature_sections_distinct section_groups :
  let r := _flatten_feature_sections float_repr section_groups in
  NoDup r
  /\ Forall (fun t => t <> [] /\ squeeze t = t /\ strip t = t) r
  /\ (forall sections d items s,
        In (JArr sections) section_groups ->
        In (JObj d) sections ->
        dget d $"items" = JArr items ->
        In (JStr s) items ->
        strip (squeeze s) <> [] ->
        In (strip (squeeze s)) r).
Proof. apply flatten_feature_sections_inv. Qed.

End SummaryFacts.

(** ** Flattened questions *)

Lemma faq_state_grows_refl st : faq_state_grows st st.
Proof. exists []. now rewrite app_nil_r. Qed.

Lemma faq_state_grows_trans a b c :
  faq_state_grows a b -> faq_state_grows b c -> faq_state_grows a c.
Proof.
  intros [m1 H1] [m2 H2]. exists (m1 ++ m2).
  now rewrite H2, H1, app_assoc.
Qed.

Lemma flat_answer_of_str s : flat_answer_ok (or_none (strip s)).
Proof.
  unfold flat_answer_ok, or_none.
  destruct (strip s) eqn:E; [exact I|]. rewrite <- E.
  split; [rewrite E; discriminate | apply strip_strip].
Qed.

Lemma flat_faq_step_ok st entry :
  faq_state_ok st ->
  faq_state_ok (flat_faq_step st entry)
  /\ faq_state_grows st (flat_faq_step st entry).
Proof.
  destruct st as [seen flattened]. intros (Hs & Hn & Hf).
  pose proof (faq_state_grows_refl (seen, flattened)) as Hr.
  assert (Hok : faq_state_ok (seen, flattened)) by now repeat split.
  cbn [fst snd] in *. unfold flat_faq_step.
  destruct entry as [| b | n | l | s | items | e]; try now split.
  destruct (dget e $"question") as [| b | n | l | question | items | d];
    try now split.
  rewrite strip_squeeze.
  destruct (truthy (squeeze question)) eqn:Et; cbn [negb]; [|now split].
  destruct (mem (lower (squeeze question)) seen) eqn:Em; [now split|].
  split.
  - repeat split; cbn [fst snd].
    + rewrite map_app, rev_app_distr. cbn [map rev app ff_question].
      now rewrite Hs.
    + rewrite map_app. cbn [map ff_question].
      apply NoDup_app; [assumption | repeat constructor; intros [] |].
      intros x Hx [<-|[]]. apply mem_not_In in Em. apply Em.
      rewrite Hs. now apply in_rev in Hx.
    + apply Forall_app. split; [assumption|].
      constructor; [|constructor].
      repeat split; cbn [ff_question ff_answer].
      * intro E; rewrite E in Et; discriminate.
      * apply squeeze_squeeze.
      * apply strip_squeeze.
      * destruct (dget e $"answer"); try exact I. apply flat_answer_of_str.
  - eexists. cbn [snd]. reflexivity.
Qed.

Lemma faq_state_grows_In a b x :
  faq_state_grows a b ->
  In x (map (fun f => lower (ff_question f)) (snd a)) ->
  In x (map (fun f => lower (ff_question f)) (snd b)).
Proof.
  intros [more ->] H. rewrite map_app. apply in_or_app. now left.
Qed.

Lemma flat_faq_step_question st e question :
  faq_state_ok st ->
  dget e $"question" = JStr question ->
  strip (squeeze question) <> [] ->
  In (lower (strip (squeeze question)))
     (map (fun f => lower (ff_question f)) (snd (flat_faq_step st (JObj e)))).
Proof.
  destruct st as [seen flattened]. intros (Hs & Hn & Hf) Hq Hne.
  cbn [fst snd] in *. unfold flat_faq_step. rewrite Hq.
  destruct (strip (squeeze question)) as [|c n] eqn:E; [congruence|].
  cbn [truthy negb].
  destruct (mem (lower (c :: n)) seen) eqn:Em; cbn [snd].
  - apply mem_In in Em. rewrite Hs in Em. now apply in_rev in Em.
  - rewrite map_app. apply in_or_app. right. now left.
Qed.

Lemma faq_list_ok st entry_list :
  faq_state_ok st ->
  faq_state_ok (fold_left flat_faq_step entry_list st)
  /\ faq_state_grows st (fold_left flat_faq_step entry_list st).
Proof.
  apply (@fold_left_inv _ _ flat_faq_step faq_state_ok faq_state_grows
           entry_list faq_state_grows_refl faq_state_grows_trans).
  intros s x _. apply flat_faq_step_ok.
Qed.

Lemma faq_state_start : faq_state_ok ([], []).
Proof. repeat split; constructor. Qed.

Lemma extract_flat_faqs_inv content_summary dom_sections :
  let r := _extract_flat_faqs content_summary dom_sections in
  NoDup (map (fun f => lower (ff_question f)) r)
  /\ Forall flat_faq_ok r
  /\ (forall entries e question,
        In entries (flat_faq_sources content_summary dom_sections) ->
        In (JObj e) entries ->
        dget e $"question" = JStr question ->
        strip (squeeze question) <> [] ->
        exists f, In f r
                  /\ lower (ff_question f) = lower (strip (squeeze question))).
Proof.
  cbn zeta. unfold _extract_flat_faqs.
  set (step := fun st entry_list => fold_left flat_faq_step entry_list st).
  destruct (@fold_left_inv _ _ step faq_state_ok faq_state_grows
              (flat_faq_sources content_summary dom_sections)
              faq_state_grows_refl faq_state_grows_trans
              (fun s x _ => @faq_list_ok s x) _ faq_state_start)
    as [(_ & Hn & Hf) _].
  split; [assumption|]. split; [assumption|].
  intros entries e question Hsrc He Hq Hne.
  enough (In (lower (strip (squeeze question)))
             (map (fun f => lower (ff_question f))
                (snd (fold_left step
                        (flat_faq_sources content_summary dom_sections)
                        ([], []))))) as H.
  { apply in_map_iff in H as (f & H1 & H2). now exists f. }
  apply (@fold_left_member _ _ step faq_state_ok
           (fun st => In (lower (strip (squeeze question)))
                         (map (fun f => lower (ff_question f)) (snd st)))
           faq_state_grows _ entries faq_state_grows_refl
           faq_state_grows_trans (fun s x _ => @faq_list_ok s x));
    [ | intros a b Hab; now apply faq_state_grows_In | assumption
      | apply faq_state_start ].
  intros st Hst. unfold step.
  apply (@fold_left_member _ _ flat_faq_step faq_state_ok
           (fun st => In (lower (strip (squeeze question)))
                         (map (fun f => lower (ff_question f)) (snd st)))
           faq_state_grows entries (JObj e) faq_state_grows_refl
           faq_state_grows_trans (fun s x _ => @flat_faq_step_ok s x));
    [ | intros a b Hab; now apply faq_state_grows_In | assumption
      | assumption ].
  intros st' Hst'. now apply flat_faq_step_question.
Qed.

Lemma in_dom_faq_sources content_summary sections d entries :
  In (JObj d) sections ->
  dget d $"entries" = JArr entries ->
  In entries (flat_faq_sources content_summary (JArr sections)).
Proof.
  intros Hd He. unfold flat_faq_sources. apply in_or_app. right.
  apply in_flat_map. exists (JObj d). split; [assumption|].
  cbn [entries_of_section]. rewrite He. now left.
Qed.

(** X10. [_extract_flat_faqs] returns entries whose questions differ
    pairwise even when letter case is ignored; every question is not
    empty and normalized, every answer is absent or a text that is not
    empty and has no white space around it. Every entry of a DOM section
    with a question that is not blank is represented: the result holds an
    entry with the same normalized question up to letter case. *)
Theorem extract_flat_faqs_distinct content_summary sections :
  let r := _extract_flat_faqs content_summary (JArr sections) in
  NoDup (map (fun f => lower (ff_question f)) r)
  /\ Forall flat_faq_ok r
  /\ (forall d entries e question,
        In (JObj d) sections ->
        dget d $"entries" = JArr entries ->
        In (JObj e) entries ->
        dget e $"question" = JStr question ->
        strip (squeeze question) <> [] ->
        exists f, In f r
                  /\ lower (ff_question f) = lower (strip (squeeze question))).
Proof.
  cbn zeta.
  destruct (extract_flat_faqs_inv content_summary (JArr sections))
    as (Hn & Hf & Hc).
  split; [assumption|]. split; [assumption|].
  intros d entries e question Hd He Hin Hq Hne.
  apply (Hc entries e question); try assumption.
  now apply in_dom_faq_sources with (d := d).
Qed.

(** ** Sections surfaced by heading *)

Lemma str_of_int_inj a b :
  (0 <= a)%Z -> (0 <= b)%Z -> str_of_int a = str_of_int b -> a = b.
Proof.
  intros Ha Hb. unfold str_of_int.
  destruct (Z.ltb_spec a 0); [lia|]. destruct (Z.ltb_spec b 0); [lia|].
  intro E.
  destruct (str_of_nonneg_spec Ha) as (_ & <- & _).
  destruct (str_of_nonneg_spec Hb) as (_ & <- & _).
  now rewrite E.
Qed.

Lemma surface_candidate_inj heading_key i j :
  surface_candidate heading_key i = surface_candidate heading_key j -> i = j.
Proof.
  destruct i as [|i], j as [|j]; cbn [surface_candidate]; intro E.
  - reflexivity.
  - apply (f_equal (@length ascii)) in E. rewrite !length_app in E.
    unfold str in *. simpl in E. lia.
  - apply (f_equal (@length ascii)) in E. rewrite !length_app in E.
    unfold str in *. simpl in E. lia.
  - apply app_inv_head in E. apply app_inv_head in E.
    apply app_inv_tail in E. apply str_of_int_inj in E; lia.
Qed.

Lemma NoDup_map_injective {A B} (f : A -> B) (l : list A) :
  (forall a b, f a = f b -> a = b) -> NoDup l -> NoDup (map f l).
Proof.
  intros Hf. induction 1 as [|x l Hx Hl IH]; cbn [map]; constructor.
  - intro H. apply in_map_iff in H as (y & E & Hy).
    apply Hf in E. now subst y.
  - assumption.
Qed.

Lemma fresh_key_found target heading_key :
  forall fuel i,
    (forall j, j < i -> In (surface_candidate heading_key j) (map fst target)) ->
    length target < fuel + i ->
    exists k,
      fresh_key fuel target heading_key (surface_candidate heading_key i)
        (Z.of_nat (i + 2)) = Some (surface_candidate heading_key k)
      /\ mem (surface_candidate heading_key k) (map fst target) = false
      /\ (forall j, j < k ->
            In (surface_candidate heading_key j) (map fst target)).
Proof.
  induction fuel as [|fuel IH]; intros i Hin Hlen.
  - exfalso.
    assert (Hn : NoDup (map (surface_candidate heading_key) (seq 0 i))).
    { apply NoDup_map_injective; [|apply seq_NoDup].
      intros a b. apply surface_candidate_inj. }
    assert (Hi : incl (map (surface_candidate heading_key) (seq 0 i))
                      (map fst target)).
    { intros x Hx. apply in_map_iff in Hx as (j & <- & Hj).
      apply in_seq in Hj. apply Hin. lia. }
    pose proof (NoDup_incl_length Hn Hi) as Hl.
    rewrite !length_map, length_seq in Hl. cbn in Hlen. lia.
  - cbn [fresh_key].
    destruct (mem (surface_candidate heading_key i) (map fst target)) eqn:Em.
    + replace (heading_key ++ $" (" ++ str_of_int (Z.of_nat (i + 2)) ++ $")")
        with (surface_candidate heading_key (S i))
        by (cbn [surface_candidate];
            now replace (i + 2) with (S (S i)) by lia).
      replace (Z.of_nat (i + 2) + 1)%Z with (Z.of_nat (S i + 2)) by lia.
      apply IH; [|lia].
      intros j Hj. destruct (Nat.eq_dec j i) as [->|Hne].
      * now apply mem_In.
      * apply Hin. lia.
    + exists i. now repeat split.
Qed.

Lemma surface_section_adds target idx section :
  exists added,
    surface_section target idx section = Some (target ++ added)
    /\ length added = (if surfaced section then 1 else 0)
    /\ (forall k, In k (map fst added) -> ~ In k (map fst target)).
Proof.
  assert (Hnone : exists added : jdict,
             Some target = Some (target ++ added)
             /\ length added = 0
             /\ (forall k, In k (map fst added) -> ~ In k (map fst target))).
  { exists []. rewrite app_nil_r. repeat split. intros k []. }
  destruct section as [| b | n | l | s | items | section];
    cbn [surface_section surfaced]; try exact Hnone.
  cbv zeta.
  set (heading_key := if truthy _ then _ else _).
  destruct (filter _ section) as [|kv payload] eqn:Ep; [exact Hnone|].
  destruct (@fresh_key_found target heading_key (S (length target)) 0)
    as (k & Hk & Hfree & _); [intros j Hj; lia | lia |].
  cbn [surface_candidate Nat.add Z.of_nat Pos.of_succ_nat Pos.succ] in Hk.
  rewrite Hk. eexists. split; [|split].
  - rewrite obj_set_fresh by exact Hfree. reflexivity.
  - reflexivity.
  - intros k' [<-|[]]. cbn [fst]. now apply mem_not_In.
Qed.

Lemma surface_sections_adds sections :
  forall target idx,
    exists added,
      surface_sections target idx sections = Some (target ++ added)
      /\ length added = length (filter surfaced sections)
      /\ (NoDup (map fst target) -> NoDup (map fst (target ++ added))).
Proof.
  induction sections as [|section rest IH]; intros target idx.
  - exists []. rewrite app_nil_r. now repeat split.
  - cbn [surface_sections filter].
    destruct (surface_section_adds target idx section)
      as (a1 & -> & Hl1 & Hf1).
    destruct (IH (target ++ a1) (S idx)) as (a2 & -> & Hl2 & Hn2).
    exists (a1 ++ a2). rewrite app_assoc. split; [reflexivity|]. split.
    + rewrite length_app, Hl1, Hl2.
      destruct (surfaced section); reflexivity.
    + intro Hn. apply Hn2. rewrite map_app.
      apply NoDup_app; [assumption| |].
      * destruct (surfaced section);
          [destruct a1 as [|x [|y a1]]; try discriminate;
           repeat constructor; intros []
          |destruct a1; [constructor|discriminate]].
      * intros x Hx Ha. now apply (Hf1 x).
Qed.

(** X11. [_surface_sections_by_heading] always returns: its search for a
    free key ends. It leaves every entry of the target as it was, in
    place, and adds one new key for every section that is a dictionary
    with a key other than [heading]; keys that were distinct stay
    distinct. *)
Theorem surface_sections_by_heading_adds target sections :
  exists added,
    _surface_sections_by_heading target (JArr sections)
      = Some (target ++ added)
    /\ length added = length (filter surfaced sections)
    /\ (NoDup (map fst target) -> NoDup (map fst (target ++ added))).
Proof. apply surface_sections_adds. Qed.

(** ** Text chunks *)

Lemma chunk_keys_inv limit nodes node :
  In node nodes ->
  forall keys seen chunks,
    incl keys CHUNK_KEYS ->
    chunk_state_ok nodes seen chunks ->
    length chunks < Nat.max limit 1 ->
    let '(seen', chunks', returned) :=
      chunk_keys limit node keys seen chunks in
    chunk_state_ok nodes seen' chunks'
    /\ (if returned then length chunks' <= Nat.max limit 1
        else length chunks' < Nat.max limit 1).
Proof.
  intro Hnode.
  induction keys as [|key rest IH]; intros seen chunks Hk Hst Hlen;
    cbn [chunk_keys].
  - now split.
  - assert (Hrest : incl rest CHUNK_KEYS).
    { intros x Hx. apply Hk. now right. }
    destruct (dget node key) as [| b | n | l | value | items | d] eqn:Ev;
      try now apply IH.
    cbv zeta.
    destruct (length (squeeze value) <? 40) eqn:E40; [now apply IH|].
    destruct (mem (squeeze value) seen) eqn:Em; [now apply IH|].
    assert (Hst' : chunk_state_ok nodes (squeeze value :: seen)
                     (chunks ++ [TextChunk key (squeeze value)])).
    { destruct Hst as (Hs & Hn & Hf). repeat split.
      - rewrite map_app, rev_app_distr. cbn [map rev app chunk_text].
        now rewrite Hs.
      - rewrite map_app. cbn [map chunk_text].
        apply NoDup_app; [assumption | repeat constructor; intros [] |].
        intros x Hx [<-|[]]. apply mem_not_In in Em. apply Em.
        rewrite Hs. now apply in_rev in Hx.
      - apply Forall_app. split; [assumption|].
        constructor; [|constructor].
        repeat split; cbn [chunk_source chunk_text].
        + apply Hk. now left.
        + apply Nat.ltb_ge in E40. exact E40.
        + exists node, value. now repeat split. }
    destruct (limit <=? length (chunks ++ [TextChunk key (squeeze value)]))
      eqn:El.
    + split; [assumption|]. rewrite length_app. cbn [length]. lia.
    + apply IH; [assumption|assumption|].
      apply Nat.leb_gt in El. lia.
Qed.

Lemma chunk_nodes_inv limit nodes :
  forall rest seen chunks,
    incl rest nodes ->
    chunk_state_ok nodes seen chunks ->
    length chunks < Nat.max limit 1 ->
    let r := chunk_nodes limit rest seen chunks in
    length r <= Nat.max limit 1
    /\ NoDup (map chunk_text r)
    /\ Forall (chunk_ok nodes) r.
Proof.
  induction rest as [|node rest IH]; intros seen chunks Hin Hst Hlen;
    cbn [chunk_nodes]; cbv zeta.
  - destruct Hst as (_ & Hn & Hf). repeat split; [lia|assumption|assumption].
  - assert (Hnode : In node nodes) by (apply Hin; now left).
    pose proof (@chunk_keys_inv limit nodes node Hnode CHUNK_KEYS seen chunks
                  (fun x H => H) Hst Hlen) as H.
    destruct (chunk_keys limit node CHUNK_KEYS seen chunks)
      as [[seen' chunks'] returned].
    destruct H as [Hst' Hl']. destruct returned.
    + destruct Hst' as (_ & Hn & Hf). now repeat split.
    + apply IH; [|assumption|assumption].
      intros x Hx. apply Hin. now right.
Qed.

(** X12. [_collect_text_chunks] returns at most [limit] chunks (one when
    [limit] is below one). Their texts differ pairwise; each is the text
    found under one of the keys of the function in a dictionary of the
    payload, with its white space squeezed, and has at least 40
    characters. *)
Theorem collect_text_chunks_bounded payload limit :
  let r := _collect_text_chunks payload limit in
  length r <= Nat.max limit 1
  /\ NoDup (map chunk_text r)
  /\ Forall (chunk_ok (_iter_nodes payload)) r.
Proof.
  apply chunk_nodes_inv.
  - intros x H. exact H.
  - repeat split; constructor.
  - cbn [length]. lia.
Qed.

(** ** Feature sections of the payload *)

Section FeatureSectionFacts.

Variable float_repr : str -> str.

Lemma payload_items_ok entries :
  Forall item_ok (payload_items float_repr entries).
Proof.
  induction entries as [|entry rest IH]; [constructor|].
  cbn [payload_items].
  destruct entry as [| b | n | l | s | items | e]; try exact IH.
  - cbv zeta. destruct (strip s) as [|c t] eqn:E; cbn [truthy negb];
      [exact IH|].
    constructor; [|exact IH]. now left.
  - cbv zeta.
    destruct (otruthy (_first_text float_repr e TITLE_KEYS)) eqn:Et;
      cbn [negb andb].
    + constructor; [|exact IH]. now left.
    + destruct (otruthy (_first_text float_repr e DESC_KEYS)) eqn:Ed;
        cbn [negb]; [|exact IH].
      constructor; [|exact IH]. now right.
Qed.

Lemma feature_step_ok node st kv :
  Forall payload_section_ok (snd st) ->
  Forall payload_section_ok (snd (feature_step float_repr node st kv)).
Proof.
  destruct st as [seen sections], kv as [key value]. cbn [snd]. intro H.
  unfold feature_step.
  destruct (mem (lower key) FEATURE_KEYS) eqn:Ek; cbn [negb]; [|exact H].
  destruct value as [| b | n | l | s | entries | d]; try exact H.
  cbv zeta.
  pose proof (payload_items_ok entries) as Hi.
  destruct (payload_items float_repr entries) as [|item items] eqn:Ei;
    [exact H|].
  destruct (fingerprint_mem _ seen); [exact H|]. cbn [snd].
  apply Forall_app. split; [exact H|]. constructor; [|constructor].
  repeat split; cbn [ps_heading ps_items].
  - destruct (_first_text float_repr node TITLE_KEYS) as [[|c t]|];
      cbn [otruthy or_empty]; try discriminate;
      intros ->; discriminate.
  - destruct items; cbn; lia.
  - apply firstn_le_length.
  - now apply Forall_firstn.
Qed.

(** X13. [_collect_feature_sections] returns at most six sections. Each
    has a heading that is not empty and between one and ten items, and
    each item has a title or a description that is not empty. *)
Theorem collect_feature_sections_bounded payload :
  let r := _collect_feature_sections float_repr payload in
  length r <= 6 /\ Forall payload_section_ok r.
Proof.
  cbn zeta. unfold _collect_feature_sections. split.
  - apply firstn_le_length.
  - apply Forall_firstn.
    apply (@fold_left_inv _ _
             (fun st node => fold_left (feature_step float_repr node) node st)
             (fun st => Forall payload_section_ok (snd st))
             (fun _ _ => True) (_iter_nodes payload)); try easy.
    intros st node _ Hst. split; [|exact I].
    apply (@fold_left_inv _ _ (feature_step float_repr node)
             (fun st => Forall payload_section_ok (snd st))
             (fun _ _ => True) node); try easy.
    intros st' kv _ Hst'. split; [|exact I]. now apply feature_step_ok.
Qed.

End FeatureSectionFacts.

(** ** The flat snapshot *)

Section FlatSnapshotFacts.

Variable float_repr : str -> str.

Lemma surface_when_any {A} (l : list A) target sections :
  exists target',
    match l with
    | [] => Some target
    | _ => _surface_sections_by_heading target (JArr sections)
    end = Some target'.
Proof.
  destruct l; [now exists target|].
  destruct (surface_sections_adds sections target 0) as (added & H & _).
  exists (target ++ added). exact H.
Qed.

(** X14. The end of [fetch_listing_snapshot] always produces the flat
    snapshot. It carries the final URL and the pricing options as given;
    its features are pairwise distinct and hold every item of every DOM
    feature section in normalized form (unless blank); its questions are
    pairwise distinct ignoring letter case and every DOM question that is
    not blank is represented. *)
Theorem flat_snapshot_of_parts_total parts :
  exists f,
    flat_snapshot_of_parts float_repr parts = Some f
    /\ flat_final_url f = lp_final_url parts
    /\ flat_pricing f = lp_pricing_options parts
    /\ NoDup (flat_features f)
    /\ (forall section item,
          In section (lp_dom_feature_sections parts) ->
          In item (fs_items section) ->
          strip (squeeze item) <> [] ->
          In (strip (squeeze item)) (flat_features f))
    /\ NoDup (map (fun x => lower (ff_question x)) (flat_faqs f))
    /\ (forall section e,
          In section (lp_dom_faq_sections parts) ->
          In e (entries section) ->
          strip (squeeze (question e)) <> [] ->
          exists x, In x (flat_faqs f)
                    /\ lower (ff_question x)
                       = lower (strip (squeeze (question e)))).
Proof.
  unfold flat_snapshot_of_parts. cbv zeta.
  set (summary := _summarize_page_payload float_repr (lp_page_payload parts)).
  set (dom_features := map feature_section_value (lp_dom_feature_sections parts)).
  set (dom_faqs := map faq_section_value (lp_dom_faq_sections parts)).
  destruct (surface_when_any (lp_dom_feature_sections parts) summary
              dom_features) as (summary1 & ->).
  destruct (surface_when_any (lp_dom_faq_sections parts) summary1
              dom_faqs) as (summary2 & ->).
  eexists. split; [reflexivity|].
  unfold _build_flat_snapshot.
  cbn [flat_final_url flat_pricing flat_features flat_faqs].
  split; [reflexivity|]. split; [reflexivity|].
  match goal with |- context [_flatten_feature_sections float_repr ?g] =>
    destruct (flatten_feature_sections_inv float_repr g) as (Hn & _ & Hc) end.
  destruct (extract_flat_faqs_inv (JObj summary2) (JArr dom_faqs))
    as (Hq & _ & Hd).
  split; [exact Hn|]. split; [|split; [exact Hq|]].
  - intros section item Hs Hi Hne.
    apply (Hc dom_features
              [($"heading", JStr (fs_heading section));
               ($"items", JArr (map JStr (fs_items section)));
               ($"paragraphs", JArr (map JStr (fs_paragraphs section)))]
              (map JStr (fs_items section)));
      try assumption.
    + right. now left.
    + unfold dom_features. apply in_map_iff. now exists section.
    + reflexivity.
    + now apply in_map.
  - intros section e Hs He Hne.
    apply (Hd (map faq_entry_value (entries section))
              [($"question", JStr (question e));
               ($"answer", ostr_value (answer e))] (question e));
      try assumption.
    + apply in_dom_faq_sources
        with (d := [($"heading", JStr (heading section));
                    ($"entries", JArr (map faq_entry_value (entries section)))]).
      * unfold dom_faqs. apply in_map_iff. now exists section.
      * reflexivity.
    + apply in_map_iff. now exists e.
    + reflexivity.
Qed.

End FlatSnapshotFacts.

(** ** The tree builder *)

Lemma refs_tags_eq n ref :
  refs_tags n ref = (ref, tag n) :: refs_forest 0 ref (children n).
Proof.
  destruct n as [t a cs tp]. cbn [refs_tags children tag]. f_equal.
  generalize 0. induction cs as [|c cs IH]; intro i; [reflexivity|].
  cbn [refs_forest]. now rewrite IH.
Qed.

Lemma refs_forest_app ref cs1 cs2 :
  forall i,
    refs_forest i ref (cs1 ++ cs2)
    = refs_forest i ref cs1 ++ refs_forest (i + length cs1) ref cs2.
Proof.
  induction cs1 as [|c cs1 IH]; intro i; cbn [app refs_forest length].
  - now rewrite Nat.add_0_r.
  - rewrite IH, <- app_assoc. do 3 f_equal. lia.
Qed.

Lemma refs_tags_add_child p n ref :
  refs_tags (add_child p n) ref
  = refs_tags p ref ++ refs_tags n (ref ++ [length (children p)]).
Proof.
  rewrite (refs_tags_eq (add_child p n)), (refs_tags_eq p).
  cbn [add_child tag children]. rewrite refs_forest_app.
  cbn [refs_forest Nat.add app]. now rewrite app_nil_r.
Qed.

Lemma refs_tags_add_text n data ref :
  refs_tags (add_text n data) ref = refs_tags n ref.
Proof.
  unfold add_text. destruct (truthy data); [|reflexivity].
  now rewrite !refs_tags_eq.
Qed.

Lemma refs_tags_plug below :
  forall n,
    refs_tags (plug n below) []
    = refs_context below ++ refs_tags n (child_ref below).
Proof.
  induction below as [|p rest IH]; intro n; cbn [plug refs_context child_ref].
  - reflexivity.
  - now rewrite IH, refs_tags_add_child, app_assoc.
Qed.

Lemma child_ref_add_text n data rest :
  child_ref (add_text n data :: rest) = child_ref (n :: rest).
Proof.
  cbn [child_ref]. unfold add_text. now destruct (truthy data).
Qed.

Lemma plug_add_text n data below :
  refs_tags (plug (add_text n data) below) []
  = refs_tags (plug n below) [].
Proof. now rewrite !refs_tags_plug, refs_tags_add_text. Qed.

Lemma by_tag_get_append d key ref t :
  by_tag_get (by_tag_append d key ref) t
  = if str_eqb key t then by_tag_get d t ++ [ref] else by_tag_get d t.
Proof.
  induction d as [|[k refs] d IH]; cbn [by_tag_append by_tag_get].
  - destruct (str_eqb key t); reflexivity.
  - destruct (str_eqb k key) eqn:Ek; cbn [by_tag_get].
    + apply str_eqb_eq in Ek. subst k.
      destruct (str_eqb key t); reflexivity.
    + destruct (str_eqb k t) eqn:Et; [|exact IH].
      apply str_eqb_eq in Et. subst k. apply str_eqb_neq in Ek.
      assert (E : str_eqb key t = false) by (apply str_eqb_neq; congruence).
      now rewrite E.
Qed.

Lemma tl_snoc {A} (l : list A) (x : A) :
  l <> [] -> tl (l ++ [x]) = tl l ++ [x].
Proof. destruct l; [congruence|reflexivity]. Qed.

Lemma handle_starttag_ok s count name attributes :
  builder_ok s count ->
  exists s', handle_starttag s name attributes = Ok s'
             /\ builder_ok s' (S count).
Proof.
  intros (n & below & Hs & Hl & Hb). unfold handle_starttag. rewrite Hs.
  eexists. split; [reflexivity|].
  set (node := new_node name (attr_map attributes)).
  exists node, (n :: below). cbn [_stack _by_tag].
  assert (E : refs_tags (plug node (n :: below)) []
              = refs_tags (plug n below) []
                ++ [(child_ref (n :: below), tag node)]).
  { rewrite !refs_tags_plug. cbn [refs_context]. rewrite <- !app_assoc.
    reflexivity. }
  split; [reflexivity|]. split.
  - rewrite E, length_app, Hl. cbn [length]. lia.
  - intro t. rewrite E, by_tag_get_append, Hb.
    rewrite tl_snoc by (rewrite refs_tags_eq; discriminate).
    rewrite filter_app, map_app. cbn [filter snd].
    destruct (str_eqb (tag node) t); cbn [map fst];
      [reflexivity | now rewrite app_nil_r].
Qed.

Lemma handle_endtag_ok s count name :
  builder_ok s count ->
  exists s', handle_endtag s name = Ok s' /\ builder_ok s' count.
Proof.
  intros (n & below & Hs & Hl & Hb). unfold handle_endtag. rewrite Hs.
  destruct below as [|p rest]; cbn [length Nat.ltb Nat.leb].
  - exists s. split; [reflexivity|]. now exists n, [].
  - eexists. split; [reflexivity|].
    exists (add_child p n), rest. now repeat split.
Qed.

Lemma handle_data_ok s count data :
  builder_ok s count ->
  exists s', handle_data s data = Ok s' /\ builder_ok s' count.
Proof.
  intros (n & below & Hs & Hl & Hb). unfold handle_data. rewrite Hs.
  eexists. split; [reflexivity|].
  exists (add_text n data), below. cbn [_stack _by_tag].
  rewrite plug_add_text. now repeat split.
Qed.

Lemma handle_ok s count e :
  builder_ok s count ->
  exists s', handle s e = Ok s' /\ builder_ok s' (count + starts [e]).
Proof.
  intro H. destruct e as [name a | name a | name | data];
    cbn [handle starts filter length].
  - rewrite Nat.add_1_r. now apply handle_starttag_ok.
  - rewrite Nat.add_1_r. unfold handle_startendtag.
    destruct (@handle_starttag_ok s count name a H) as (s1 & -> & H1).
    cbn [bind]. now apply handle_endtag_ok.
  - rewrite Nat.add_0_r. now apply handle_endtag_ok.
  - rewrite Nat.add_0_r. now apply handle_data_ok.
Qed.

Lemma feed_ok events :
  forall s count,
    builder_ok s count ->
    exists s', feed s events = Ok s' /\ builder_ok s' (count + starts events).
Proof.
  induction events as [|e rest IH]; intros s count H; cbn [feed].
  - exists s. cbn. now rewrite Nat.add_0_r.
  - destruct (@handle_ok s count e H) as (s1 & -> & H1). cbn [bind].
    destruct (IH s1 _ H1) as (s2 & -> & H2). exists s2.
    split; [reflexivity|].
    replace (count + starts (e :: rest))
      with (count + starts [e] + starts rest); [exact H2|].
    unfold starts. cbn [filter]. destruct e; cbn [length]; lia.
Qed.

Lemma builder_init_ok : builder_ok builder_init 0.
Proof.
  eexists _, []. split; [reflexivity|]. split; [reflexivity|].
  intro t. reflexivity.
Qed.

Lemma located_refs :
  forall n chain,
    map (fun x => (ref_of x, tag (node_of x))) (located_subtree n chain)
    = refs_tags n (rev (map fst chain)).
Proof.
  induction n as [t a cs tp IH] using _DOMNode_rect'. intro chain.
  rewrite located_subtree_eq, refs_tags_eq. cbn [map children tag node_of].
  f_equal. generalize 0. generalize (DOMNode t a cs tp) as p.
  induction IH as [|c cs Hc _ IHcs]; intros p i; [reflexivity|].
  cbn [located_forest refs_forest]. rewrite map_app, Hc, IHcs.
  reflexivity.
Qed.

Lemma map_filter_comm {A B} (g : A -> B) (f : B -> bool) (l : list A) :
  map g (filter (fun x => f (g x)) l) = filter f (map g l).
Proof.
  induction l as [|x l IH]; [reflexivity|]. cbn [filter map].
  destruct (f (g x)); cbn [map]; now rewrite IH.
Qed.

Lemma tl_map {A B} (g : A -> B) (l : list A) : tl (map g l) = map g (tl l).
Proof. now destruct l. Qed.

Lemma iter_tag_refs r t :
  map ref_of (iter_tag (Builder r) t)
  = map fst (filter (fun rt => str_eqb (snd rt) (lower t))
                    (tl (refs_tags r []))).
Proof.
  unfold iter_tag, document_order. cbn [root].
  change (refs_tags r []) with (refs_tags r (rev (map fst (@nil (nat * _DOMNode))))).
  rewrite <- (located_refs r []).
  rewrite tl_map, <- (map_filter_comm
                    (fun x => (ref_of x, tag (node_of x)))
                    (fun rt => str_eqb (snd rt) (lower t))).
  rewrite map_map. reflexivity.
Qed.

(** X15. Whatever the parser hands to [_DOMTreeBuilder], no handler
    fails: the stack keeps the root. The tree read through [root] then
    has one node for every start tag, closed or not, and under each tag
    [_by_tag] lists exactly the nodes of that tag in document order,
    which is what [iter_tag] returns. *)
Theorem feed_by_tag_document_order events :
  exists s r,
    feed builder_init events = Ok s
    /\ builder_root s = Some r
    /\ length (document_order (Builder r)) = starts events
    /\ forall t,
         by_tag_get (_by_tag s) (lower t)
         = map ref_of (iter_tag (Builder r) t).
Proof.
  destruct (@feed_ok events builder_init 0 builder_init_ok)
    as (s & Hfeed & n & below & Hs & Hl & Hb).
  exists s, (plug n below). split; [exact Hfeed|].
  split; [unfold builder_root; now rewrite Hs|]. split.
  - unfold document_order. cbn [root].
    change (refs_tags (plug n below) [])
      with (refs_tags (plug n below) (rev (map fst (@nil (nat * _DOMNode)))))
      in Hl.
    rewrite <- located_refs, length_map in Hl.
    destruct (located_subtree (plug n below) []); cbn [length tl] in *; lia.
  - intro t. now rewrite iter_tag_refs.
Qed.

(** ** Attributes of a node *)

Lemma attrs_get_set d k v q dflt :
  attrs_get (attrs_set d k v) q dflt
  = if str_eqb k q then v else attrs_get d q dflt.
Proof.
  unfold attrs_get.
  induction d as [|[k' v'] d IH]; cbn [attrs_set List.find fst snd].
  - destruct (str_eqb k q); reflexivity.
  - destruct (str_eqb k' k) eqn:Ek; cbn [List.find fst snd].
    + apply str_eqb_eq in Ek. subst k'.
      destruct (str_eqb k q); reflexivity.
    + destruct (str_eqb k' q) eqn:Eq; cbn [snd]; [|exact IH].
      apply str_eqb_eq in Eq. subst k'. apply str_eqb_neq in Ek.
      assert (E : str_eqb k q = false) by (apply str_eqb_neq; congruence).
      now rewrite E.
Qed.

Lemma attrs_get_fold {A} (f g : A -> str) (l : list A) q dflt :
  forall d,
    attrs_get (fold_left (fun d x => attrs_set d (f x) (g x)) l d) q dflt
    = match List.find (fun x => str_eqb (f x) q) (rev l) with
      | Some x => g x
      | None => attrs_get d q dflt
      end.
Proof.
  induction l as [|x l IH] using rev_ind; intro d; [reflexivity|].
  rewrite fold_left_app, rev_app_distr. cbn [fold_left rev app List.find].
  rewrite attrs_get_set, IH. now destruct (str_eqb (f x) q).
Qed.

Lemma attrs_set_keys d k v :
  map fst (attrs_set d k v)
  = if mem k (map fst d) then map fst d else map fst d ++ [k].
Proof.
  induction d as [|[k' v'] d IH]; cbn [attrs_set map fst mem existsb app];
    [reflexivity|].
  fold (mem k (map fst d)).
  destruct (str_eqb k' k) eqn:Ek.
  - apply str_eqb_eq in Ek. subst k'. now rewrite str_eqb_refl.
  - assert (E : str_eqb k k' = false).
    { apply str_eqb_neq. apply str_eqb_neq in Ek. congruence. }
    rewrite E. cbn [orb map fst]. rewrite IH.
    now destruct (mem k (map fst d)).
Qed.

Lemma attrs_set_fresh d k v :
  ~ In k (map fst d) -> attrs_set d k v = d ++ [(k, v)].
Proof.
  induction d as [|[k' v'] d IH]; intro H; cbn [attrs_set app];
    [reflexivity|].
  cbn [map fst In] in H.
  assert (E : str_eqb k' k = false) by (apply str_eqb_neq; tauto).
  rewrite E, IH; [reflexivity|tauto].
Qed.

Lemma attr_map_keys attributes :
  forall d,
    NoDup (map fst d) ->
    let r := fold_left (fun d kv => attrs_set d (fst kv) (or_empty (snd kv)))
                       attributes d in
    NoDup (map fst r)
    /\ incl (map fst r) (map fst d ++ map fst attributes).
Proof.
  induction attributes as [|[k v] rest IH]; intros d Hd; cbn [fold_left].
  - cbn zeta. split; [assumption|]. rewrite app_nil_r. intros x H. exact H.
  - cbn [fst snd].
    assert (Hk : map fst (attrs_set d k (or_empty v))
                 = if mem k (map fst d) then map fst d else map fst d ++ [k])
      by apply attrs_set_keys.
    destruct (IH (attrs_set d k (or_empty v))) as [H1 H2].
    { rewrite Hk. destruct (mem k (map fst d)) eqn:Em; [assumption|].
      apply NoDup_app; [assumption | repeat constructor; intros [] |].
      intros x Hx [<-|[]]. now apply mem_not_In in Em. }
    cbn zeta. split; [exact H1|].
    intros x Hx. apply H2 in Hx. rewrite Hk in Hx.
    cbn [map fst]. apply in_app_or in Hx as [Hx|Hx].
    + destruct (mem k (map fst d)).
      * apply in_or_app. now left.
      * apply in_app_or in Hx as [Hx|[<-|[]]]; apply in_or_app;
          [now left | right; now left].
    + apply in_or_app. right. now right.
Qed.

Lemma lower_keys_fold d :
  forall acc,
    NoDup (map fst (acc ++ d)) ->
    Forall (fun kv : str * str => lower (fst kv) = fst kv) d ->
    fold_left (fun d kv => attrs_set d (lower (fst kv)) (snd kv)) d acc
    = acc ++ d.
Proof.
  induction d as [|[k v] d IH]; intros acc Hn Hl; cbn [fold_left].
  - now rewrite app_nil_r.
  - inversion Hl as [|x l Hk Hl']; subst. cbn [fst snd] in *. rewrite Hk.
    rewrite attrs_set_fresh.
    + rewrite IH; [now rewrite <- app_assoc | now rewrite <- app_assoc
                  | assumption].
    + rewrite map_app in Hn. cbn [map fst] in Hn.
      apply NoDup_remove_2 in Hn. intro H. apply Hn.
      apply in_or_app. now left.
Qed.

(** X16. When the attribute names arrive in lower case, as the parser
    delivers them, a new node keeps for each name the value of the last
    attribute of that name, the empty text when that attribute has no
    value; a name that does not occur gives the default. *)
Theorem new_node_attrs_last_wins name attributes k dflt :
  Forall (fun kv : str * option str => lower (fst kv) = fst kv) attributes ->
  attrs_get (attrs (new_node name (attr_map attributes))) k dflt
  = match List.find (fun kv => str_eqb (fst kv) k) (rev attributes) with
    | Some kv => or_empty (snd kv)
    | None => dflt
    end.
Proof.
  intro Hl. cbn [new_node attrs].
  destruct (@attr_map_keys attributes [] (NoDup_nil _)) as [Hn Hi].
  fold (attr_map attributes) in Hn, Hi. cbn [map app] in Hi.
  rewrite lower_keys_fold.
  - cbn [app]. unfold attr_map.
    now rewrite (attrs_get_fold fst (fun kv => or_empty (snd kv))).
  - exact Hn.
  - apply Forall_forall. intros [k' v'] Hin. cbn [fst].
    assert (Hk : In k' (map fst attributes)).
    { apply Hi. apply in_map_iff. now exists (k', v'). }
    apply in_map_iff in Hk as ([k2 v2] & <- & Hk).
    rewrite Forall_forall in Hl. exact (Hl _ Hk).
Qed.

Lemma new_node_attrs_last_wins_witness :
  attrs_get (attrs (new_node $"DIV"
                      (attr_map [($"role", Some $"radio"); ($"id", Some $"a");
                                 ($"role", None)])))
            $"role" $"none" = [].
Proof.
  rewrite new_node_attrs_last_wins.
  - reflexivity.
  - repeat constructor.
Defined.

(** ** The snapshot parser *)

Lemma meta_set_ok d key content :
  In key (map fst d) ->
  _HTMLSnapshotParser.kept content ->
  Forall (fun kv => _HTMLSnapshotParser.okept (snd kv)) d ->
  map fst (_HTMLSnapshotParser.meta_set d key content) = map fst d
  /\ Forall (fun kv => _HTMLSnapshotParser.okept (snd kv))
            (_HTMLSnapshotParser.meta_set d key content).
Proof.
  intros Hin Hc. induction d as [|[k v] d IH]; intro Hf; [destruct Hin|].
  cbn [_HTMLSnapshotParser.meta_set].
  inversion Hf as [|x l Hv Hd]; subst.
  destruct (str_eqb k key) eqn:Ek.
  - split; [reflexivity|]. constructor; assumption.
  - destruct Hin as [Hin|Hin].
    + cbn [fst] in Hin. subst k. now rewrite str_eqb_refl in Ek.
    + destruct (IH Hin Hd) as [H1 H2]. cbn [map fst]. rewrite H1.
      split; [reflexivity|]. now constructor.
Qed.

Lemma kept_strip t : truthy (strip t) = true -> _HTMLSnapshotParser.kept (strip t).
Proof.
  intro H. split; [|apply strip_strip].
  intro E. rewrite E in H. discriminate.
Qed.

Lemma META_MAP_key kind name k :
  _HTMLSnapshotParser.META_MAP kind name = Some k ->
  In k (map fst (_HTMLSnapshotParser.meta _HTMLSnapshotParser.init)).
Proof.
  unfold _HTMLSnapshotParser.META_MAP.
  repeat match goal with
         | |- context [if ?b then _ else _] => destruct b
         end; intro H; inversion H; subst; cbn; tauto.
Qed.

Lemma snapshot_starttag_ok s tag attributes :
  _HTMLSnapshotParser.state_ok s ->
  _HTMLSnapshotParser.state_ok
    (_HTMLSnapshotParser.handle_starttag s tag attributes).
Proof.
  intros (Hk & Hm & Hj & Hn). unfold _HTMLSnapshotParser.handle_starttag.
  cbv zeta.
  destruct (str_eqb tag $"title"); [now repeat split|].
  destruct (str_eqb tag $"meta").
  - match goal with |- context [truthy (strip ?c)] =>
      destruct (truthy (strip c)) eqn:Ec end; cbn [negb];
      [|now repeat split].
    match goal with |- context [otruthy ?k] =>
      match k with
      | context [_HTMLSnapshotParser.META_MAP] =>
          destruct k as [[|c key]|] eqn:Ekey
      end
    end; cbn [otruthy]; try (now repeat split).
    assert (Hin : In (c :: key)
                     (map fst (_HTMLSnapshotParser.meta s))).
    { rewrite Hk.
      repeat match type of Ekey with
             | context [otruthy ?x] => destruct (otruthy x)
             | context [_HTMLSnapshotParser.META_MAP ?a ?b] =>
                 let E := fresh "E" in
                 destruct (_HTMLSnapshotParser.META_MAP a b) eqn:E
             end; try discriminate;
        injection Ekey as ->; eapply META_MAP_key; eassumption. }
    destruct (@meta_set_ok (_HTMLSnapshotParser.meta s) (c :: key) _ Hin
                (kept_strip _ Ec) Hm) as [H1 H2].
    split; [|split; [|split]]; cbn [_HTMLSnapshotParser.meta
      _HTMLSnapshotParser.jsonld_scripts
      _HTMLSnapshotParser.next_data_script or_empty];
      [now rewrite H1|exact H2|exact Hj|exact Hn].
  - destruct (str_eqb tag $"script"); [|now repeat split].
    destruct (_HTMLSnapshotParser.ostr_is _ _); [now repeat split|].
    destruct (str_eqb _ _); now repeat split.
Qed.

Lemma snapshot_endtag_ok s tag :
  _HTMLSnapshotParser.state_ok s ->
  _HTMLSnapshotParser.state_ok (_HTMLSnapshotParser.handle_endtag s tag).
Proof.
  intros (Hk & Hm & Hj & Hn). unfold _HTMLSnapshotParser.handle_endtag.
  cbv zeta.
  destruct (str_eqb tag $"title" && _HTMLSnapshotParser._in_title s).
  - destruct (truthy (strip (concat (_HTMLSnapshotParser._title_parts s))))
      eqn:Et; [|now repeat split].
    destruct (@meta_set_ok (_HTMLSnapshotParser.meta s) $"title" _
                ltac:(rewrite Hk; now left) (kept_strip _ Et) Hm)
      as [H1 H2].
    split; [|split; [|split]]; cbn [_HTMLSnapshotParser.meta
      _HTMLSnapshotParser.jsonld_scripts
      _HTMLSnapshotParser.next_data_script];
      [now rewrite H1|exact H2|exact Hj|exact Hn].
  - destruct (str_eqb tag $"script"
              && otruthy (_HTMLSnapshotParser._script_context s));
      [|now repeat split].
    destruct (truthy (strip (concat (_HTMLSnapshotParser._script_buffer s))))
      eqn:Et; rewrite ?andb_false_r; cbn [andb]; [|now repeat split].
    pose proof (kept_strip _ Et) as Hc.
    assert (Hj' : Forall _HTMLSnapshotParser.kept
                    (_HTMLSnapshotParser.jsonld_scripts s
                     ++ [strip (concat (_HTMLSnapshotParser._script_buffer s))])).
    { apply Forall_app. split; [assumption|]. now constructor. }
    destruct (_HTMLSnapshotParser.ostr_is
                (_HTMLSnapshotParser._script_context s) $"next"); cbn [andb];
      destruct (_HTMLSnapshotParser.next_data_script s) eqn:En;
      destruct (_HTMLSnapshotParser.ostr_is
                  (_HTMLSnapshotParser._script_context s) $"jsonld");
      cbn [andb];
      (split; [|split; [|split]]);
      cbn [_HTMLSnapshotParser.meta _HTMLSnapshotParser.jsonld_scripts
           _HTMLSnapshotParser.next_data_script];
      rewrite ?En; assumption.
Qed.

Lemma snapshot_handle_ok s e :
  _HTMLSnapshotParser.state_ok s ->
  _HTMLSnapshotParser.state_ok (_HTMLSnapshotParser.handle s e).
Proof.
  intro H. destruct e as [tag a | tag a | tag | data];
    cbn [_HTMLSnapshotParser.handle].
  - now apply snapshot_starttag_ok.
  - now apply snapshot_endtag_ok, snapshot_starttag_ok.
  - now apply snapshot_endtag_ok.
  - destruct H as (Hk & Hm & Hj & Hn). now repeat split.
Qed.

Lemma snapshot_feed_ok events :
  forall s,
    _HTMLSnapshotParser.state_ok s ->
    _HTMLSnapshotParser.state_ok (_HTMLSnapshotParser.feed s events).
Proof.
  unfold _HTMLSnapshotParser.feed.
  induction events as [|e rest IH]; intros s H; [exact H|].
  cbn [fold_left]. now apply IH, snapshot_handle_ok.
Qed.

(** X17. Whatever the parser hands to [_HTMLSnapshotParser], [meta]
    keeps its five keys, and every text the parser keeps (a meta value,
    a JSON-LD script, the [__NEXT_DATA__] script) is not empty and has no
    white space around it. *)
Theorem snapshot_parser_keeps_stripped_texts events :
  let s := _HTMLSnapshotParser.feed _HTMLSnapshotParser.init events in
  map fst (_HTMLSnapshotParser.meta s)
  = [$"title"; $"description"; $"ogTitle"; $"ogDescription"; $"ogUrl"]
  /\ Forall (fun kv => _HTMLSnapshotParser.okept (snd kv))
            (_HTMLSnapshotParser.meta s)
  /\ Forall _HTMLSnapshotParser.kept (_HTMLSnapshotParser.jsonld_scripts s)
  /\ _HTMLSnapshotParser.okept (_HTMLSnapshotParser.next_data_script s).
Proof.
  apply (@snapshot_feed_ok events _HTMLSnapshotParser.init).
  repeat split; repeat constructor.
Qed.

Lemma snapshot_next_absent s e :
  _HTMLSnapshotParser.opens_next e = false ->
  _HTMLSnapshotParser.next_data_script s = None ->
  _HTMLSnapshotParser.ostr_is (_HTMLSnapshotParser._script_context s) $"next"
  = false ->
  let s' := _HTMLSnapshotParser.handle s e in
  _HTMLSnapshotParser.next_data_script s' = None
  /\ _HTMLSnapshotParser.ostr_is (_HTMLSnapshotParser._script_context s')
       $"next" = false.
Proof.
  intros He Hn Hc. cbn zeta.
  assert (Hend : forall s tag,
             _HTMLSnapshotParser.next_data_script s = None ->
             _HTMLSnapshotParser.ostr_is
               (_HTMLSnapshotParser._script_context s) $"next" = false ->
             _HTMLSnapshotParser.next_data_script
               (_HTMLSnapshotParser.handle_endtag s tag) = None
             /\ _HTMLSnapshotParser.ostr_is
                  (_HTMLSnapshotParser._script_context
                     (_HTMLSnapshotParser.handle_endtag s tag)) $"next"
                = false).
  { intros s0 tag H1 H2. unfold _HTMLSnapshotParser.handle_endtag.
    cbv zeta. rewrite H2. cbn [andb].
    repeat match goal with
           | |- context [if ?b then _ else _] => destruct b
           end; now split. }
  assert (Hstart : forall tag a,
             str_eqb tag $"script"
             && _HTMLSnapshotParser.ostr_is
                  (_HTMLSnapshotParser.attr_get
                     (_HTMLSnapshotParser.attr_map a) $"id") $"__next_data__"
             = false ->
             _HTMLSnapshotParser.next_data_script
               (_HTMLSnapshotParser.handle_starttag s tag a) = None
             /\ _HTMLSnapshotParser.ostr_is
                  (_HTMLSnapshotParser._script_context
                     (_HTMLSnapshotParser.handle_starttag s tag a)) $"next"
                = false).
  { intros tag a H. unfold _HTMLSnapshotParser.handle_starttag. cbv zeta.
    destruct (str_eqb tag $"title"); [now split|].
    destruct (str_eqb tag $"meta").
    - repeat match goal with
             | |- context [if ?b then _ else _] => destruct b
             end; now split.
    - destruct (str_eqb tag $"script"); [|now split].
      cbn [andb] in H. rewrite H.
      destruct (str_eqb _ _); now split. }
  destruct e as [tag a | tag a | tag | data];
    cbn [_HTMLSnapshotParser.handle _HTMLSnapshotParser.opens_next] in *.
  - now apply Hstart.
  - destruct (Hstart tag a He) as [H1 H2]. now apply Hend.
  - now apply Hend.
  - now split.
Qed.

(** X18. [next_data_script] is set only from a script whose [id]
    attribute is exactly [__next_data__], in lower case: when no start
    tag of the document is such a script, it stays [None], whatever the
    other scripts hold. *)
Theorem snapshot_parser_next_data_needs_exact_id events :
  forallb (fun e => negb (_HTMLSnapshotParser.opens_next e)) events = true ->
  _HTMLSnapshotParser.next_data_script
    (_HTMLSnapshotParser.feed _HTMLSnapshotParser.init events) = None.
Proof.
  intro H.
  enough (forall s,
             _HTMLSnapshotParser.next_data_script s = None ->
             _HTMLSnapshotParser.ostr_is
               (_HTMLSnapshotParser._script_context s) $"next" = false ->
             _HTMLSnapshotParser.next_data_script
               (_HTMLSnapshotParser.feed s events) = None) as G.
  { now apply G. }
  unfold _HTMLSnapshotParser.feed.
  induction events as [|e rest IH]; intros s Hn Hc; [exact Hn|].
  cbn [forallb] in H. apply andb_true_iff in H as [He Hrest].
  apply negb_true_iff in He. cbn [fold_left].
  destruct (@snapshot_next_absent s e He Hn Hc) as [H1 H2].
  now apply IH.
Qed.

Lemma snapshot_parser_next_data_needs_exact_id_witness :
  _HTMLSnapshotParser.next_data_script
    (_HTMLSnapshotParser.feed _HTMLSnapshotParser.init
       [StartTag $"script" [($"id", Some $"__NEXT_DATA__");
                            ($"type", Some $"application/json")];
        Data $"{}"; EndTag $"script"]) = None.
Proof.
  apply snapshot_parser_next_data_needs_exact_id. reflexivity.
Defined.

(** ** The Pulse client *)

Lemma visit_url node :
  Forall (fun p => pulse_client.url p
                   = pulse_client.MARKETPLACE_BASE_URL ++ pulse_client.slug p)
         (pulse_client._visit node).
Proof.
  assert (Hx : forall v,
             Forall (fun p => pulse_client.url p
                              = pulse_client.MARKETPLACE_BASE_URL
                                ++ pulse_client.slug p)
                    (pulse_client.found (pulse_client._extract v))).
  { intro v. unfold pulse_client._extract.
    repeat match goal with
           | |- context [match ?x with _ => _ end] => destruct x
           end; cbn [pulse_client.found]; repeat constructor. }
  induction node as [| b | n | l | s | items IH | members IH] using value_rect';
    cbn [pulse_client._visit]; apply Forall_app; split; try apply Hx;
    try constructor.
  - induction IH as [|x xs Hx' _ IHxs]; cbn [map concat]; [constructor|].
    apply Forall_app. now split.
  - induction IH as [|x xs Hx' _ IHxs]; cbn [map concat]; [constructor|].
    apply Forall_app. now split.
Qed.

Lemma set_add_In x y s : In y (pulse_client.set_add x s) <-> y = x \/ In y s.
Proof.
  unfold pulse_client.set_add. destruct (mem x s) eqn:E; cbn [In].
  - apply mem_In in E. split; [tauto|]. intros [->|H]; assumption.
  - split; [intros [<-|H]; tauto | intros [->|H]; tauto].
Qed.

Lemma set_discard_In x y s :
  In y (pulse_client.set_discard x s) <-> In y s /\ y <> x.
Proof.
  unfold pulse_client.set_discard. rewrite filter_In, negb_true_iff.
  now rewrite str_eqb_neq.
Qed.

Lemma schedule_ok st running target :
  (exists s, target = pulse_client.MARKETPLACE_BASE_URL ++ s) ->
  pulse_client.fetches_ok st ->
  pulse_client.fetches_ok
    (pulse_client._schedule_listing_snapshot_fetch st running target).
Proof.
  intros Ht (Hn & Hin & Hf).
  unfold pulse_client._schedule_listing_snapshot_fetch.
  destruct (truthy target); cbn [negb orb]; [|now repeat split].
  destruct (mem target (pulse_client._FETCHED_LISTING_URLS st)) eqn:E1;
    cbn [orb]; [now repeat split|].
  destruct (mem target (pulse_client._FETCHING_LISTING_URLS st)) eqn:E2;
    [now repeat split|].
  destruct running; cbn [negb]; [|now repeat split].
  apply mem_not_In in E1, E2.
  split; [|split]; cbn [pulse_client.tasks pulse_client._FETCHED_LISTING_URLS
                        pulse_client._FETCHING_LISTING_URLS].
  - apply NoDup_app; [assumption | repeat constructor; intros [] |].
    intros x Hx [E|[]]. subst x. destruct (Hin target Hx); contradiction.
  - intros t Hin'. apply in_app_or in Hin' as [Hin'|[<-|[]]].
    + destruct (Hin t Hin'); [now left|]. right. apply set_add_In. now right.
    + right. apply set_add_In. now left.
  - apply Forall_app. split; [assumption|]. now repeat constructor.
Qed.

Lemma fetch_finished_ok st target :
  pulse_client.fetches_ok st ->
  pulse_client.fetches_ok (pulse_client.fetch_finished st target).
Proof.
  intros (Hn & Hin & Hf). split; [|split];
    cbn [pulse_client.fetch_finished pulse_client.tasks
         pulse_client._FETCHED_LISTING_URLS
         pulse_client._FETCHING_LISTING_URLS]; try assumption.
  intros t Ht. destruct (list_eq_dec ascii_dec t target) as [->|Hne].
  - left. apply set_add_In. now left.
  - destruct (Hin t Ht) as [H|H].
    + left. apply set_add_In. now right.
    + right. apply set_discard_In. now split.
Qed.

Lemma schedule_entries_ok running entries :
  Forall (fun p => pulse_client.url p
                   = pulse_client.MARKETPLACE_BASE_URL ++ pulse_client.slug p)
         entries ->
  forall st,
    pulse_client.fetches_ok st ->
    pulse_client.fetches_ok (pulse_client.schedule_entries st running entries).
Proof.
  unfold pulse_client.schedule_entries.
  induction 1 as [|p entries Hp _ IH]; intros st Hst; [exact Hst|].
  cbn [fold_left]. apply IH.
  destruct (pulse_client.price p); [|exact Hst].
  apply schedule_ok; [|exact Hst]. now exists (pulse_client.slug p).
Qed.

Lemma frame_entries_url decoded :
  Forall (fun p => pulse_client.url p
                   = pulse_client.MARKETPLACE_BASE_URL ++ pulse_client.slug p)
         (pulse_client.frame_entries decoded).
Proof.
  unfold pulse_client.frame_entries.
  destruct (pulse_client._normalize_decoded_payload decoded);
    [apply visit_url|constructor].
Qed.

Lemma run_steps_ok steps :
  forall st,
    pulse_client.fetches_ok st ->
    pulse_client.fetches_ok (pulse_client.run_steps st steps).
Proof.
  unfold pulse_client.run_steps.
  induction steps as [|e rest IH]; intros st Hst; [exact Hst|].
  cbn [fold_left]. apply IH. destruct e as [running decoded | target];
    cbn [pulse_client.do_step].
  - apply schedule_entries_ok; [apply frame_entries_url|exact Hst].
  - now apply fetch_finished_ok.
Qed.

Lemma no_fetches_ok : pulse_client.fetches_ok pulse_client.no_fetches.
Proof. split; [constructor|]. split; [intros t []|constructor]. Qed.

(** X19. However frames and ends of fetches follow one another, the
    Pulse client starts at most one fetch for a URL: a URL that is being
    fetched or was fetched, with or without success, is not scheduled
    again. *)
Theorem listing_fetch_scheduled_once steps :
  NoDup (pulse_client.tasks
           (pulse_client.run_steps pulse_client.no_fetches steps)).
Proof.
  destruct (@run_steps_ok steps _ no_fetches_ok) as (H & _). exact H.
Qed.

Lemma dropwhile_keeps_suffix p (a b : str) d :
  p d = false ->
  exists a', dropwhile p (a ++ d :: b) = a' ++ d :: b.
Proof.
  intro Hd. induction a as [|c a IH]; cbn [app dropwhile].
  - rewrite Hd. now exists [].
  - destruct (p c); [exact IH|]. now exists (c :: a).
Qed.

Lemma strip_marketplace s :
  exists x,
    strip (pulse_client.MARKETPLACE_BASE_URL ++ s) = $"https://whop.com/" ++ x.
Proof.
  unfold strip, strip_by, lstrip_by, rstrip_by.
  change (dropwhile isspace (pulse_client.MARKETPLACE_BASE_URL ++ s))
    with (pulse_client.MARKETPLACE_BASE_URL ++ s).
  rewrite rev_app_distr.
  change (rev pulse_client.MARKETPLACE_BASE_URL)
    with ("/"%char :: rev $"https://whop.com/marketplace").
  destruct (@dropwhile_keeps_suffix isspace (rev s)
              (rev $"https://whop.com/marketplace") "/"%char eq_refl)
    as (a' & ->).
  exists ($"marketplace/" ++ rev a').
  rewrite rev_app_distr. reflexivity.
Qed.

Lemma normalize_marketplace ip s :
  exists candidate slug,
    _normalize_target ip (pulse_client.MARKETPLACE_BASE_URL ++ s)
    = Ok (candidate, slug).
Proof.
  unfold _normalize_target, candidate_of.
  destruct (strip_marketplace s) as (x & ->).
  replace (truthy ($"https://whop.com/" ++ x)) with true by reflexivity.
  cbn [negb].
  replace (contains ($"https://whop.com/" ++ x) $"://") with true
    by reflexivity.
  cbn [negb bind].
  destruct (urlparse_whop ip x) as (p & Hp & Hs & _).
  rewrite Hp. cbn [bind]. rewrite Hs. cbn [mem existsb].
  replace (str_eqb $"https" $"http") with false by reflexivity.
  replace (str_eqb $"https" $"https") with true by reflexivity.
  cbn [orb negb]. eauto.
Qed.

(** X20. Every fetch the Pulse client starts is for a marketplace URL,
    [MARKETPLACE_BASE_URL] followed by a slug of the frame, and
    [_normalize_target] accepts every such URL: the fetch is never
    refused for its target. *)
Theorem scheduled_targets_are_accepted ip steps :
  Forall (fun t =>
            (exists s, t = pulse_client.MARKETPLACE_BASE_URL ++ s)
            /\ exists candidate slug,
                 _normalize_target ip t = Ok (candidate, slug))
         (pulse_client.tasks
            (pulse_client.run_steps pulse_client.no_fetches steps)).
Proof.
  destruct (@run_steps_ok steps _ no_fetches_ok) as (_ & _ & H).
  eapply Forall_impl; [|exact H].
  intros t (s & ->). split; [now exists s|]. apply normalize_marketplace.
Qed.

Lemma obj_get_set d k v q :
  obj_get (obj_set d k v) q = if str_eqb k q then Some v else obj_get d q.
Proof.
  unfold obj_get.
  induction d as [|[k' v'] d IH]; cbn [obj_set List.find fst snd option_map].
  - destruct (str_eqb k q); reflexivity.
  - destruct (str_eqb k' k) eqn:Ek; cbn [List.find fst snd option_map].
    + apply str_eqb_eq in Ek. subst k'.
      destruct (str_eqb k q); reflexivity.
    + destruct (str_eqb k' q) eqn:Eq; [|exact IH].
      apply str_eqb_eq in Eq. subst k'. apply str_eqb_neq in Ek.
      assert (E : str_eqb k q = false) by (apply str_eqb_neq; congruence).
      now rewrite E.
Qed.

Lemma format_fold_get mapping l q :
  forall acc,
    obj_get (fold_left (pulse_client.format_step mapping) l acc) q
    = match List.find (fun kv => negb (str_eqb (fst kv) $"18")
                                 && str_eqb (pulse_client.field_label mapping
                                               (fst kv)) q) (rev l) with
      | Some kv => Some (snd kv)
      | None => obj_get acc q
      end.
Proof.
  induction l as [|[k v] l IH] using rev_ind; intro acc; [reflexivity|].
  rewrite fold_left_app, rev_app_distr.
  cbn [fold_left rev app List.find fst snd pulse_client.format_step].
  destruct (str_eqb k $"18"); cbn [negb andb]; [apply IH|].
  cbv zeta. rewrite obj_get_set, IH.
  now destruct (str_eqb (pulse_client.field_label mapping k) q).
Qed.

Lemma field_label_inj a b :
  pulse_client.field_label pulse_client.PRODUCT_DETAIL_FIELD_NAMES a
  = pulse_client.field_label pulse_client.PRODUCT_DETAIL_FIELD_NAMES b ->
  a = b.
Proof.
  unfold pulse_client.field_label, attrs_get,
    pulse_client.PRODUCT_DETAIL_FIELD_NAMES.
  cbn [List.find fst snd].
  repeat match goal with
         | |- context [str_eqb ?k a] =>
             let E := fresh "E" in
             destruct (str_eqb k a) eqn:E;
             [apply str_eqb_eq in E; subst a|]
         end;
  repeat match goal with
         | |- context [str_eqb ?k b] =>
             let E := fresh "E" in
             destruct (str_eqb k b) eqn:E;
             [apply str_eqb_eq in E; subst b|]
         end;
  cbn [snd]; intro H; try reflexivity; try discriminate.
  now apply app_inv_head in H.
Qed.

Lemma find_key_absent (l : list (str * value)) f :
  ~ In f (map fst l) -> List.find (fun kv => str_eqb (fst kv) f) l = None.
Proof.
  induction l as [|[k v] l IH]; [reflexivity|]. cbn [map fst In List.find].
  intro H. assert (E : str_eqb k f = false) by (apply str_eqb_neq; tauto).
  rewrite E. apply IH. tauto.
Qed.

Lemma find_key_rev (l : list (str * value)) f :
  NoDup (map fst l) ->
  List.find (fun kv => str_eqb (fst kv) f) (rev l)
  = List.find (fun kv => str_eqb (fst kv) f) l.
Proof.
  induction l as [|[k v] l IH]; [reflexivity|]. cbn [map fst]. intro Hn.
  inversion Hn as [|x xs Hk Hl]; subst.
  cbn [rev]. rewrite find_app. cbn [List.find fst].
  destruct (str_eqb k f) eqn:E.
  - apply str_eqb_eq in E. subst k.
    rewrite find_key_absent; [reflexivity|].
    rewrite map_rev. intro H. apply Hk. now apply in_rev in H.
  - rewrite IH by assumption.
    now destruct (List.find (fun kv => str_eqb (fst kv) f) l).
Qed.

Lemma find_pointwise {A} (f g : A -> bool) (l : list A) :
  (forall x, f x = g x) -> List.find f l = List.find g l.
Proof.
  intro H. induction l as [|x l IH]; [reflexivity|]. cbn [List.find].
  now rewrite H, IH.
Qed.

(** X21. [_format_product_details] with the field names of the module
    leaves out the media field 18: the result has no [field_18]. Every
    other field of the details is found under its label, the name of
    the module or [field_] and its number, with the value it had. *)
Theorem format_product_details_labels details :
  NoDup (map fst details) ->
  let formatted :=
    pulse_client._format_product_details (JObj details)
      pulse_client.PRODUCT_DETAIL_FIELD_NAMES in
  obj_get formatted $"field_18" = None
  /\ forall field_id,
       field_id <> $"18" ->
       obj_get formatted
         (pulse_client.field_label pulse_client.PRODUCT_DETAIL_FIELD_NAMES
            field_id)
       = obj_get details field_id.
Proof.
  intro Hn. cbn zeta. unfold pulse_client._format_product_details. split.
  - rewrite format_fold_get.
    destruct (List.find _ (rev details)) as [[k v]|] eqn:E; [|reflexivity].
    apply find_some in E as [_ E]. cbn [fst] in E.
    apply andb_true_iff in E as [E1 E2]. apply str_eqb_eq in E2.
    change $"field_18"
      with (pulse_client.field_label pulse_client.PRODUCT_DETAIL_FIELD_NAMES
              $"18") in E2.
    apply field_label_inj in E2. subst k. discriminate.
  - intros field_id Hf. rewrite format_fold_get. unfold obj_get at 2.
    rewrite <- (find_key_rev details field_id Hn).
    rewrite (@find_pointwise _ _ (fun kv => str_eqb (fst kv) field_id));
      [reflexivity|].
    intros [k v]. cbn [fst].
    destruct (str_eqb k field_id) eqn:E.
    + apply str_eqb_eq in E. subst k. rewrite str_eqb_refl, andb_true_r.
      apply negb_true_iff, str_eqb_neq. exact Hf.
    + destruct (str_eqb (pulse_client.field_label _ k) _) eqn:E2;
        [|apply andb_false_r].
      apply str_eqb_eq, field_label_inj in E2. subst k.
      now rewrite str_eqb_refl in E.
Qed.

Lemma format_product_details_labels_witness :
  obj_get (pulse_client._format_product_details
             (JObj [($"2", JStr $"acme"); ($"18", JStr $"https://img");
                    ($"7", JInt 3)])
             pulse_client.PRODUCT_DETAIL_FIELD_NAMES) $"field_18" = None.
Proof.
  apply (@format_product_details_labels
           [($"2", JStr $"acme"); ($"18", JStr $"https://img");
            ($"7", JInt 3)]).
  repeat constructor; cbn; intuition discriminate.
Defined.

(** ** The hero of a payload *)

Section HeroFacts.

Variable float_repr : str -> str.

(** X22. [_extract_hero_from_payload] searches the dictionaries in the
    order of [_iter_nodes]: a payload that is itself a dictionary with a
    hero gives that hero, and of the entries of a list the last one is
    asked first, so the hero of a last entry wins over every hero before
    it. The hero returned has a title that is not empty. *)
Theorem extract_hero_last_entry_wins node h :
  hero_of_node float_repr node = Some h ->
  hero_title h <> []
  /\ _extract_hero_from_payload float_repr (JObj node) = Some h
  /\ forall items,
       _extract_hero_from_payload float_repr (JArr (items ++ [JObj node]))
       = Some h.
Proof.
  intro H. split; [|split].
  - unfold hero_of_node in H. cbv zeta in H.
    destruct (_first_text float_repr node TITLE_KEYS) as [[|c t]|];
      cbn [otruthy andb] in H; try discriminate.
    destruct (_ || _); [|discriminate].
    injection H as <-. discriminate.
  - unfold _extract_hero_from_payload. rewrite iter_nodes_mirror.
    cbn [mirror_dicts first_hero]. now rewrite H.
  - intro items. unfold _extract_hero_from_payload.
    rewrite iter_nodes_mirror. cbn [mirror_dicts].
    rewrite map_app, rev_app_distr. cbn [map rev app concat mirror_dicts].
    cbn [first_hero]. now rewrite H.
Qed.

End HeroFacts.

Lemma extract_hero_last_entry_wins_witness :
  _extract_hero_from_payload (fun s => s)
    (JArr ([JObj [($"title", JStr $"First"); ($"subtitle", JStr $"a")]]
           ++ [JObj [($"title", JStr $"Second"); ($"subtitle", JStr $"b")]]))
  = Some (Hero $"Second" (Some $"b") None None None).
Proof.
  apply (@extract_hero_last_entry_wins (fun s => s)
           [($"title", JStr $"Second"); ($"subtitle", JStr $"b")]).
  reflexivity.
Defined.

(** ** Review summaries *)





(** *** What the extraction raises *)










(** ** Settings *)

Lemma dropwhile_isspace_lower s :
  dropwhile isspace (lower s) = lower (dropwhile isspace s).
Proof.
  unfold lower. induction s as [|c s IH]; [reflexivity|].
  cbn [map dropwhile]. rewrite isspace_lower.
  destruct (isspace c); [exact IH|reflexivity].
Qed.

Lemma strip_lower s : strip (lower s) = lower (strip s).
Proof.
  unfold strip, strip_by, rstrip_by, lstrip_by.
  rewrite dropwhile_isspace_lower.
  unfold lower at 1. rewrite <- map_rev. fold (lower (rev (dropwhile isspace s))).
  rewrite dropwhile_isspace_lower. unfold lower. now rewrite map_rev.
Qed.

(** X24. [env_flag] reads a variable without regard to letter case and
    to white space around the value: a binding and the same binding
    with its value stripped and in lower case give the same flag. A
    variable that is not set gives the default. *)
Theorem env_flag_ignores_case_and_space environ name raw default :
  env_flag ((name, raw) :: environ) name default
  = env_flag ((name, lower (strip raw)) :: environ) name default
  /\ (environ_get environ name = None ->
      env_flag environ name default = default).
Proof.
  split.
  - unfold env_flag, environ_get. cbn [List.find fst].
    rewrite str_eqb_refl. cbn [option_map snd]. cbv zeta.
    now rewrite strip_lower, strip_strip, lower_lower.
  - intro H. unfold env_flag. now rewrite H.
Qed.

(** ** Decoded frames *)

(** X25. [_normalize_decoded_payload] is stable: what it returns, the
    payload itself or the query of a search frame, it returns unchanged
    when asked again; and a frame it drops or turns into a query holds
    no product. *)
Theorem normalize_decoded_payload_stable decoded normalized :
  pulse_client._normalize_decoded_payload decoded = Some normalized ->
  pulse_client._normalize_decoded_payload normalized = Some normalized
  /\ (normalized = decoded
      \/ (exists query, normalized = JObj [($"query", JStr query)])
         /\ pulse_client.frame_entries decoded = []).
Proof.
  intro H.
  assert (G : normalized = decoded
              \/ exists query, normalized = JObj [($"query", JStr query)]).
  { unfold pulse_client._normalize_decoded_payload in H.
    repeat match type of H with
           | context [match ?x with _ => _ end] => destruct x
           end;
      try discriminate; injection H as <-; eauto. }
  destruct G as [->|(query & ->)].
  - split; [exact H|now left].
  - split; [reflexivity|]. right. split; [now exists query|].
    unfold pulse_client.frame_entries. rewrite H. reflexivity.
Qed.

Lemma normalize_decoded_payload_stable_witness :
  pulse_client._normalize_decoded_payload
    (JObj [($"query", JStr $"shoes")])
  = Some (JObj [($"query", JStr $"shoes")]).
Proof.
  apply (@normalize_decoded_payload_stable
           (JObj [($"42", JObj [($"1", JStr $"shoes")])])).
  reflexivity.
Defined.

(** ** Every well-formed tree is built *)

Lemma events_of_eq n :
  events_of n
  = StartTag (tag n) (map (fun kv => (fst kv, Some (snd kv))) (attrs n))
    :: map Data (text_parts n) ++ events_of_forest (children n)
    ++ [EndTag (tag n)].
Proof.
  destruct n as [t a cs tp]. reflexivity.
Qed.

Lemma well_formed_eq n :
  well_formed n
  = str_eqb (lower (tag n)) (tag n)
    && distinct (map fst (attrs n))
    && forallb (fun kv => str_eqb (lower (fst kv)) (fst kv)) (attrs n)
    && forallb truthy (text_parts n)
    && forallb well_formed (children n).
Proof.
  destruct n as [t a cs tp]. reflexivity.
Qed.

Lemma distinct_NoDup l : distinct l = true -> NoDup l.
Proof.
  induction l as [|x l IH]; [constructor|]. cbn [distinct]. intro H.
  apply andb_true_iff in H as [H1 H2]. apply negb_true_iff in H1.
  constructor; [now apply mem_not_In|now apply IH].
Qed.

Lemma attrs_fold_fresh {A} (f g : A -> str) (l : list A) :
  forall acc,
    NoDup (map fst acc ++ map f l) ->
    fold_left (fun d x => attrs_set d (f x) (g x)) l acc
    = acc ++ map (fun x => (f x, g x)) l.
Proof.
  induction l as [|x l IH]; intros acc Hn; cbn [fold_left map].
  - now rewrite app_nil_r.
  - cbn [map] in Hn. rewrite attrs_set_fresh.
    + rewrite IH; [now rewrite <- app_assoc|].
      rewrite map_app, <- app_assoc. exact Hn.
    + apply NoDup_remove_2 in Hn. intro H. apply Hn.
      apply in_or_app. now left.
Qed.

Lemma new_node_well_formed t a :
  str_eqb (lower t) t = true ->
  distinct (map fst a) = true ->
  forallb (fun kv : str * str => str_eqb (lower (fst kv)) (fst kv)) a = true ->
  new_node t (attr_map (map (fun kv => (fst kv, Some (snd kv))) a))
  = DOMNode t a [] [].
Proof.
  intros Ht Hd Hl. apply str_eqb_eq in Ht. apply distinct_NoDup in Hd.
  unfold new_node, attr_map. rewrite Ht.
  rewrite (attrs_fold_fresh (fun kv : str * option str => fst kv)
             (fun kv => or_empty (snd kv))).
  - cbn [app]. rewrite map_map. cbn [fst snd or_empty].
    assert (E : map (fun x : str * str => (fst x, snd x)) a = a).
    { clear. induction a as [|[k v] a IH]; [reflexivity|].
      cbn [map fst snd]. now rewrite IH. }
    rewrite E. rewrite lower_keys_fold; [reflexivity|exact Hd|].
    apply Forall_forall. intros kv Hin.
    rewrite forallb_forall in Hl. now apply str_eqb_eq, Hl.
  - cbn [map app]. rewrite map_map. cbn [fst]. exact Hd.
Qed.

Lemma feed_app events1 events2 :
  forall s,
    feed s (events1 ++ events2) = (s' <- feed s events1 ;; feed s' events2).
Proof.
  induction events1 as [|e events1 IH]; intro s; [reflexivity|].
  cbn [app feed]. destruct (handle s e) as [s1|err]; cbn [bind];
    [apply IH|reflexivity].
Qed.

Lemma feed_data texts :
  forall t a cs tp below bt,
    forallb truthy texts = true ->
    feed (BuilderState (DOMNode t a cs tp :: below) bt) (map Data texts)
    = Ok (BuilderState (DOMNode t a cs (tp ++ texts) :: below) bt).
Proof.
  induction texts as [|x texts IH]; intros t a cs tp below bt H.
  - cbn [map feed]. now rewrite app_nil_r.
  - cbn [forallb] in H. apply andb_true_iff in H as [Hx H].
    cbn [map feed handle handle_data _stack _by_tag bind].
    unfold add_text. rewrite Hx. cbn [tag attrs children text_parts].
    rewrite IH by exact H. now rewrite <- app_assoc.
Qed.

Lemma feed_node :
  forall n,
    well_formed n = true ->
    forall top below bt,
    exists bt',
      feed (BuilderState (top :: below) bt) (events_of n)
      = Ok (BuilderState (add_child top n :: below) bt').
Proof.
  induction n as [t a cs tp IH] using _DOMNode_rect'.
  intros Hwf top below bt. rewrite well_formed_eq in Hwf.
  cbn [tag attrs children text_parts] in Hwf.
  apply andb_true_iff in Hwf as [Hwf Hcs].
  apply andb_true_iff in Hwf as [Hwf Htp].
  apply andb_true_iff in Hwf as [Hwf Hl].
  apply andb_true_iff in Hwf as [Ht Hd].
  rewrite events_of_eq. cbn [tag attrs children text_parts].
  cbn [feed handle handle_starttag _stack _by_tag bind].
  rewrite new_node_well_formed by assumption.
  rewrite feed_app, feed_data by assumption. cbn [bind app].
  rewrite feed_app.
  assert (Hforest : forall done bt0,
             exists bt1,
               feed (BuilderState (DOMNode t a done tp :: top :: below) bt0)
                    (events_of_forest cs)
               = Ok (BuilderState
                       (DOMNode t a (done ++ cs) tp :: top :: below) bt1)).
  { clear Ht Hd Hl Htp. induction IH as [|c cs Hc _ IHcs]; intros done bt0.
    - exists bt0. cbn [events_of_forest flat_map feed]. now rewrite app_nil_r.
    - cbn [forallb] in Hcs. apply andb_true_iff in Hcs as [Hc1 Hcs].
      unfold events_of_forest. cbn [flat_map]. rewrite feed_app.
      destruct (Hc Hc1 (DOMNode t a done tp) (top :: below) bt0)
        as (bt1 & ->).
      cbn [bind]. unfold add_child.
      cbn [tag attrs children text_parts].
      destruct (IHcs Hcs (done ++ [c]) bt1) as (bt2 & E).
      unfold events_of_forest in E. rewrite E.
      exists bt2. now rewrite <- app_assoc. }
  destruct (Hforest [] (by_tag_append bt (tag (DOMNode t a [] []))
                          (child_ref (top :: below)))) as (bt1 & ->).
  cbn [bind app feed handle handle_endtag _stack _by_tag length Nat.ltb
       Nat.leb].
  now exists bt1.
Qed.

Lemma feed_forest cs :
  forallb well_formed cs = true ->
  forall top below bt,
  exists bt',
    feed (BuilderState (top :: below) bt) (events_of_forest cs)
    = Ok (BuilderState
            (DOMNode (tag top) (attrs top) (children top ++ cs)
                     (text_parts top) :: below) bt').
Proof.
  induction cs as [|c cs IH]; intros Hwf top below bt.
  - exists bt. cbn [events_of_forest flat_map feed]. rewrite app_nil_r.
    now destruct top.
  - cbn [forallb] in Hwf. apply andb_true_iff in Hwf as [Hc Hcs].
    unfold events_of_forest. cbn [flat_map]. rewrite feed_app.
    destruct (feed_node c Hc top below bt) as (bt1 & ->). cbn [bind].
    destruct (IH Hcs (add_child top c) below bt1) as (bt2 & E).
    unfold events_of_forest in E. rewrite E. exists bt2.
    unfold add_child. cbn [tag attrs children text_parts].
    now rewrite <- app_assoc.
Qed.

(** X26. Every forest of well-formed nodes is a tree of the builder:
    fed the start tags, texts and end tags that spell the forest out,
    [_DOMTreeBuilder] ends with exactly that forest under its root and
    with nothing but the root open. *)
Theorem feed_events_of_forest cs :
  forallb well_formed cs = true ->
  exists s,
    feed builder_init (events_of_forest cs) = Ok s
    /\ length (_stack s) = 1
    /\ builder_root s = Some (DOMNode $"_root" [] cs []).
Proof.
  intro Hwf.
  destruct (feed_forest cs Hwf (DOMNode (lower $"_root") [] [] []) [] [])
    as (bt & E).
  eexists. split; [exact E|]. split; reflexivity.
Qed.

Lemma feed_events_of_forest_witness :
  exists s,
    feed builder_init
      (events_of_forest
         [DOMNode $"div" [($"role", $"radio")]
            [DOMNode $"p" [] [] [$"Monthly"]] [$"Plan"]]) = Ok s
    /\ length (_stack s) = 1
    /\ builder_root s
       = Some (DOMNode $"_root" []
                 [DOMNode $"div" [($"role", $"radio")]
                    [DOMNode $"p" [] [] [$"Monthly"]] [$"Plan"]] []).
Proof.
  apply feed_events_of_forest. reflexivity.
Defined.
